(** * Verification of the binary codecs of phantasmal-quest

    A shallow embedding of the container codec (qst.js), the entity table
    codec (dat.js), the script scanner (quest.js), the model chunk parser (nj.js) and
    the area asset loader, with the properties proved of them. *)

From Stdlib.Strings Require Import String Ascii Byte.
From Stdlib Require Import ZArith List Lia Bool Reals Lra Permutation Sorted.
From Stdlib Require DecimalString.
Import ListNotations.
Open Scope Z_scope.

(** * Bytes and little-endian integers

    The binary formats are little endian throughout: every cursor of the
    sources is created with [little_endian = true]. *)

Definition byte_to_Z (b : byte) : Z := Z.of_N (Byte.to_N b).

Definition byte_of_Z (v : Z) : byte :=
  match Byte.of_N (Z.to_N (v mod 256)) with
  | Some b => b
  | None => x00
  end.

Fixpoint le_decode (bs : list byte) : Z :=
  match bs with
  | [] => 0
  | b :: rest => byte_to_Z b + 256 * le_decode rest
  end.

Fixpoint le_encode (n : nat) (v : Z) : list byte :=
  match n with
  | O => []
  | S k => byte_of_Z v :: le_encode k (v / 256)
  end.

(** Two's complement reading of a [bits]-wide unsigned value. *)
Definition to_signed (bits v : Z) : Z :=
  if v <? 2 ^ (bits - 1) then v else v - 2 ^ bits.

Definition pad_to (n : nat) (l : list byte) : list byte :=
  l ++ repeat x00 (n - length l).

Definition slice (start len : Z) (l : list byte) : list byte :=
  firstn (Z.to_nat len) (skipn (Z.to_nat start) l).

(** JavaScript strings restricted to 8-bit characters, as the ASCII codec of
    the cursor sees them. *)
Definition string_to_bytes (s : string) : list byte :=
  map byte_of_ascii (list_ascii_of_string s).

Definition string_of_bytes (bs : list byte) : string :=
  string_of_list_ascii (map ascii_of_byte bs).

Fixpoint until_nul (bs : list byte) : list byte :=
  match bs with
  | [] => []
  | b :: rest => if Byte.eqb b x00 then [] else b :: until_nul rest
  end.

(** * Errors, warnings and results *)

Inductive error : Type :=
| OutOfBounds
| MalformedDat (expected got : Z)
| ChunkMessageSize (read : Z)
| FinalFileSize (expected got : Z)
| TypeError
| UnexpectedChunkTypeId (chunk_type_id : Z)
| UndefinedOffset
| OutOfFuel.

Inductive warning : Type :=
| WarnEntityBytes (bytes_read entities_size entity_type : Z)
| WarnChunkOverwritten (chunk_no : Z) (file_name : string)
| WarnSegmentTooLarge (size : Z)
| WarnFileSize (name : string) (actual expected : Z)
| WarnMissingChunk (name : string) (chunk_no : Z)
| WarnNoSetEpisode
| WarnUnknownChunkType (chunk_type_id : Z).

Inductive result (A : Type) : Type :=
| Ok (a : A)
| Err (e : error).
Arguments Ok {A} a.
Arguments Err {A} e.

Definition bind {A B : Type} (r : result A) (k : A -> result B) : result B :=
  match r with
  | Ok a => k a
  | Err e => Err e
  end.

Declare Scope result_scope.
Delimit Scope result_scope with result.
Notation "x <- e ;; k" := (bind e (fun x => k))
  (at level 61, e at next level, right associativity) : result_scope.
Notation "' p <- e ;; k" := (bind e (fun p => k))
  (at level 61, p pattern, e at next level, right associativity) : result_scope.
Open Scope result_scope.

(** * Binary cursor *)

(** Modelled from the spec: [ArrayBufferCursor] (src/data/ArrayBufferCursor.js
    is imported by every parser but is not among the sources).  The state is
    the byte contents up to [size] and a [position]; [0 <= position <= size].
    Every read, seek and [take] fails with [OutOfBounds] when it would cross
    [size].  What the spec leaves open is fixed by the callers under src/:
    [write_dat] allocates fewer bytes than it writes, [write_qst] compares
    [cursor.size] with the number of bytes it budgeted, and [parse_files]
    assigns to [size]; so the numeric constructor argument is a capacity, a
    fresh cursor has size 0, a write at [position] overwrites what is there
    and extends [size] when it runs past it, and assigning a larger [size]
    exposes zero bytes.  Integer writes keep the low bits of their argument,
    as a [DataView] does. *)
Record ArrayBufferCursor : Type := mkCursor {
  buffer : list byte;
  position : Z
}.

Definition size (c : ArrayBufferCursor) : Z := Z.of_nat (length (buffer c)).

Definition bytes_left (c : ArrayBufferCursor) : Z := size c - position c.

(** [new ArrayBufferCursor(capacity, true)] *)
Definition new_cursor (capacity : Z) : ArrayBufferCursor := mkCursor [] 0.

(** [new ArrayBufferCursor(array_buffer, true)] *)
Definition cursor_of_bytes (bs : list byte) : ArrayBufferCursor := mkCursor bs 0.

Definition seek_start (offset : Z) (c : ArrayBufferCursor) : result ArrayBufferCursor :=
  if (offset <? 0) || (size c <? offset) then Err OutOfBounds
  else Ok (mkCursor (buffer c) offset).

Definition seek (offset : Z) (c : ArrayBufferCursor) : result ArrayBufferCursor :=
  seek_start (position c + offset) c.

Definition u8_array (n : Z) (c : ArrayBufferCursor)
  : result (list byte * ArrayBufferCursor) :=
  if (n <? 0) || (bytes_left c <? n) then Err OutOfBounds
  else Ok (slice (position c) n (buffer c), mkCursor (buffer c) (position c + n)).

Definition read_uint (n : Z) (c : ArrayBufferCursor) : result (Z * ArrayBufferCursor) :=
  '(bs, c) <- u8_array n c ;; Ok (le_decode bs, c).

Definition u8 := read_uint 1.
Definition u16 := read_uint 2.
Definition u32 := read_uint 4.

Definition i16 (c : ArrayBufferCursor) : result (Z * ArrayBufferCursor) :=
  '(v, c) <- read_uint 2 c ;; Ok (to_signed 16 v, c).

Definition i32 (c : ArrayBufferCursor) : result (Z * ArrayBufferCursor) :=
  '(v, c) <- read_uint 4 c ;; Ok (to_signed 32 v, c).

(** A 32-bit float is carried as its IEEE-754 bit pattern. *)
Definition f32 := read_uint 4.

Definition take (n : Z) (c : ArrayBufferCursor)
  : result (ArrayBufferCursor * ArrayBufferCursor) :=
  '(bs, c) <- u8_array n c ;; Ok (mkCursor bs 0, c).

Definition string_ascii (max_byte_length : Z) (null_terminated drop_remaining : bool)
    (c : ArrayBufferCursor) : result (string * ArrayBufferCursor) :=
  '(bs, c') <- u8_array max_byte_length c ;;
  let chars := if null_terminated then until_nul bs else bs in
  let read :=
    if drop_remaining || negb null_terminated then max_byte_length
    else Z.min (Z.of_nat (length chars) + 1) max_byte_length in
  Ok (string_of_bytes chars, mkCursor (buffer c) (position c + read)).

Definition set_size (n : Z) (c : ArrayBufferCursor) : ArrayBufferCursor :=
  mkCursor (firstn (Z.to_nat n) (pad_to (Z.to_nat n) (buffer c))) (position c).

Definition write_u8_array (w : list byte) (c : ArrayBufferCursor) : ArrayBufferCursor :=
  let p := Z.to_nat (position c) in
  mkCursor (firstn p (pad_to p (buffer c)) ++ w ++ skipn (p + length w) (buffer c))
           (position c + Z.of_nat (length w)).

Definition write_u8 (v : Z) := write_u8_array (le_encode 1 v).
Definition write_u16 (v : Z) := write_u8_array (le_encode 2 v).
Definition write_u32 (v : Z) := write_u8_array (le_encode 4 v).
Definition write_i32 (v : Z) := write_u8_array (le_encode 4 v).
Definition write_f32 (bits : Z) := write_u8_array (le_encode 4 bits).

Definition write_string_ascii (s : string) (byte_length : Z) : ArrayBufferCursor -> ArrayBufferCursor :=
  let n := Z.to_nat byte_length in
  write_u8_array (firstn n (pad_to n (string_to_bytes s))).

(** The whole contents of [other] are copied at the current position. *)
Definition write_cursor (other : ArrayBufferCursor) := write_u8_array (buffer other).

(** * Entity table codec (src/data/parsing/dat.js) *)

Definition OBJECT_SIZE : Z := 68.
Definition NPC_SIZE : Z := 72.

Record Vec3 (A : Type) : Type := mkVec3 { vx : A; vy : A; vz : A }.
Arguments mkVec3 {A} vx vy vz.
Arguments vx {A} v.
Arguments vy {A} v.
Arguments vz {A} v.

(** [Math.round] on a real: the integer [n] with [n <= x + 1/2 < n + 1]. *)
Definition Math_round (x : R) : Z := (up (x + / 2) - 1)%Z.

(** [raw / 0xFFFF * 2 * Math.PI], in exact real arithmetic. *)
Definition rotation_of_raw (raw : Z) : R := (IZR raw / 65535 * 2 * PI)%R.

(** [Math.round(angle / (2 * Math.PI) * 0xFFFF)] *)
Definition raw_of_rotation (angle : R) : Z := Math_round (angle / (2 * PI) * 65535)%R.

(** Records of [parse_dat]: positions keep the bit patterns of the three
    floats read, rotations are angles in radians. *)
Record DatObject : Type := mkDatObject {
  obj_type_id : Z;
  obj_section_id : Z;
  obj_position : Vec3 Z;
  obj_rotation : Vec3 R;
  obj_area_id : Z;
  obj_unknown : list byte * list byte * list byte
}.

Record DatNpc : Type := mkDatNpc {
  npc_type_id : Z;
  npc_section_id : Z;
  npc_position : Vec3 Z;
  npc_rotation : Vec3 R;
  npc_skin : Z;
  npc_area_id : Z;
  npc_unknown : list byte * list byte * list byte * list byte
}.

Record DatUnknown : Type := mkDatUnknown {
  unk_entity_type : Z;
  unk_total_size : Z;
  unk_area_id : Z;
  unk_entities_size : Z;
  unk_data : list byte
}.

Record DatData : Type := mkDatData {
  objs : list DatObject;
  npcs : list DatNpc;
  unknowns : list DatUnknown
}.

(** One pass of the object loop body (dat.js lines 31-51). *)
Definition parse_dat_object (area_id : Z) (cursor : ArrayBufferCursor)
  : result (DatObject * ArrayBufferCursor) :=
  '(type_id, cursor) <- u16 cursor ;;
  '(unknown1, cursor) <- u8_array 10 cursor ;;
  '(section_id, cursor) <- u16 cursor ;;
  '(unknown2, cursor) <- u8_array 2 cursor ;;
  '(x, cursor) <- f32 cursor ;;
  '(y, cursor) <- f32 cursor ;;
  '(z, cursor) <- f32 cursor ;;
  '(rx, cursor) <- i32 cursor ;;
  '(ry, cursor) <- i32 cursor ;;
  '(rz, cursor) <- i32 cursor ;;
  '(unknown3, cursor) <- u8_array 28 cursor ;;
  Ok (mkDatObject type_id section_id (mkVec3 x y z)
        (mkVec3 (rotation_of_raw rx) (rotation_of_raw ry) (rotation_of_raw rz))
        area_id (unknown1, unknown2, unknown3), cursor).

(** One pass of the NPC loop body (dat.js lines 65-87). *)
Definition parse_dat_npc (area_id : Z) (cursor : ArrayBufferCursor)
  : result (DatNpc * ArrayBufferCursor) :=
  '(type_id, cursor) <- u16 cursor ;;
  '(unknown1, cursor) <- u8_array 10 cursor ;;
  '(section_id, cursor) <- u16 cursor ;;
  '(unknown2, cursor) <- u8_array 6 cursor ;;
  '(x, cursor) <- f32 cursor ;;
  '(y, cursor) <- f32 cursor ;;
  '(z, cursor) <- f32 cursor ;;
  '(rx, cursor) <- i32 cursor ;;
  '(ry, cursor) <- i32 cursor ;;
  '(rz, cursor) <- i32 cursor ;;
  '(unknown3, cursor) <- u8_array 20 cursor ;;
  '(skin, cursor) <- u32 cursor ;;
  '(unknown4, cursor) <- u8_array 4 cursor ;;
  Ok (mkDatNpc type_id section_id (mkVec3 x y z)
        (mkVec3 (rotation_of_raw rx) (rotation_of_raw ry) (rotation_of_raw rz))
        skin area_id (unknown1, unknown2, unknown3, unknown4), cursor).

(** [for (let i = 0; i < count; ++i) { ...; list.push(record) }] *)
Fixpoint parse_records {A : Type}
    (parse_one : ArrayBufferCursor -> result (A * ArrayBufferCursor))
    (count : nat) (cursor : ArrayBufferCursor) (acc : list A)
  : result (list A * ArrayBufferCursor) :=
  match count with
  | O => Ok (acc, cursor)
  | S n =>
      '(r, cursor) <- parse_one cursor ;;
      parse_records parse_one n cursor (acc ++ [r])
  end.

(** The check that follows a run of records (dat.js lines 54-59, 90-95):
    on a byte-count mismatch, warn and seek to the end of the block. *)
Definition resync (start_position entities_size entity_type : Z)
    (cursor : ArrayBufferCursor) (warnings : list warning)
  : result (ArrayBufferCursor * list warning) :=
  let bytes_read := position cursor - start_position in
  if bytes_read =? entities_size then Ok (cursor, warnings)
  else
    cursor <- seek (entities_size - bytes_read) cursor ;;
    Ok (cursor, warnings ++ [WarnEntityBytes bytes_read entities_size entity_type]).

(** The [while (cursor.bytes_left)] loop of [parse_dat].  Every pass reads a
    16-byte header, so [fuel] passes suffice when [fuel] exceeds the number of
    bytes left. *)
Fixpoint parse_dat_loop (fuel : nat) (cursor : ArrayBufferCursor)
    (acc : DatData) (warnings : list warning)
  : result (DatData * list warning) :=
  if bytes_left cursor =? 0 then Ok (acc, warnings)
  else
    match fuel with
    | O => Err OutOfFuel
    | S fuel =>
        '(entity_type, cursor) <- u32 cursor ;;
        '(total_size, cursor) <- u32 cursor ;;
        '(area_id, cursor) <- u32 cursor ;;
        '(entities_size, cursor) <- u32 cursor ;;
        if entity_type =? 0 then Ok (acc, warnings)
        else if negb (entities_size =? total_size - 16)
        then Err (MalformedDat (total_size - 16) entities_size)
        else if entity_type =? 1 then
          let object_count := entities_size / OBJECT_SIZE in
          let start_position := position cursor in
          '(objs', cursor) <-
            parse_records (parse_dat_object area_id) (Z.to_nat object_count) cursor (objs acc) ;;
          '(cursor, warnings) <- resync start_position entities_size entity_type cursor warnings ;;
          parse_dat_loop fuel cursor (mkDatData objs' (npcs acc) (unknowns acc)) warnings
        else if entity_type =? 2 then
          let npc_count := entities_size / NPC_SIZE in
          let start_position := position cursor in
          '(npcs', cursor) <-
            parse_records (parse_dat_npc area_id) (Z.to_nat npc_count) cursor (npcs acc) ;;
          '(cursor, warnings) <- resync start_position entities_size entity_type cursor warnings ;;
          parse_dat_loop fuel cursor (mkDatData (objs acc) npcs' (unknowns acc)) warnings
        else
          '(data, cursor) <- u8_array entities_size cursor ;;
          parse_dat_loop fuel cursor
            (mkDatData (objs acc) (npcs acc)
               (unknowns acc ++ [mkDatUnknown entity_type total_size area_id entities_size data]))
            warnings
    end.

Definition parse_dat (cursor : ArrayBufferCursor) : result (DatData * list warning) :=
  parse_dat_loop (S (length (buffer cursor))) cursor (mkDatData [] [] []) [].

(** [arr.sort((a, b) => a - b)] on integers. *)
Fixpoint insert_sorted (a : Z) (l : list Z) : list Z :=
  match l with
  | [] => [a]
  | b :: rest => if a <=? b then a :: l else b :: insert_sorted a rest
  end.

Definition sort_numeric (l : list Z) : list Z := fold_right insert_sorted [] l.

(** [Object.keys(groupBy(list, r => r.area_id)).map(key => parseInt(key, 10))
    .sort((a, b) => a - b)]: the distinct area ids, ascending. *)
Definition sorted_area_ids {A : Type} (area_id : A -> Z) (l : list A) : list Z :=
  sort_numeric (nodup Z.eq_dec (map area_id l)).

(** [groupBy(list, r => r.area_id)[area_id]]: the records of one area, in
    their original order. *)
Definition group {A : Type} (area_id : A -> Z) (l : list A) (id : Z) : list A :=
  filter (fun r => area_id r =? id) l.

Definition write_dat_object (cursor : ArrayBufferCursor) (obj : DatObject) : ArrayBufferCursor :=
  let '(unknown0, unknown1, unknown2) := obj_unknown obj in
  let cursor := write_u16 (obj_type_id obj) cursor in
  let cursor := write_u8_array unknown0 cursor in
  let cursor := write_u16 (obj_section_id obj) cursor in
  let cursor := write_u8_array unknown1 cursor in
  let cursor := write_f32 (vx (obj_position obj)) cursor in
  let cursor := write_f32 (vy (obj_position obj)) cursor in
  let cursor := write_f32 (vz (obj_position obj)) cursor in
  let cursor := write_i32 (raw_of_rotation (vx (obj_rotation obj))) cursor in
  let cursor := write_i32 (raw_of_rotation (vy (obj_rotation obj))) cursor in
  let cursor := write_i32 (raw_of_rotation (vz (obj_rotation obj))) cursor in
  write_u8_array unknown2 cursor.

Definition write_dat_npc (cursor : ArrayBufferCursor) (npc : DatNpc) : ArrayBufferCursor :=
  let '(unknown0, unknown1, unknown2, unknown3) := npc_unknown npc in
  let cursor := write_u16 (npc_type_id npc) cursor in
  let cursor := write_u8_array unknown0 cursor in
  let cursor := write_u16 (npc_section_id npc) cursor in
  let cursor := write_u8_array unknown1 cursor in
  let cursor := write_f32 (vx (npc_position npc)) cursor in
  let cursor := write_f32 (vy (npc_position npc)) cursor in
  let cursor := write_f32 (vz (npc_position npc)) cursor in
  let cursor := write_i32 (raw_of_rotation (vx (npc_rotation npc))) cursor in
  let cursor := write_i32 (raw_of_rotation (vy (npc_rotation npc))) cursor in
  let cursor := write_i32 (raw_of_rotation (vz (npc_rotation npc))) cursor in
  let cursor := write_u8_array unknown2 cursor in
  let cursor := write_u32 (npc_skin npc) cursor in
  write_u8_array unknown3 cursor.

(** One block of records of one area (dat.js lines 123-144, 151-174). *)
Definition write_dat_block {A : Type} (entity_type record_size : Z)
    (write_one : ArrayBufferCursor -> A -> ArrayBufferCursor)
    (area_id : A -> Z) (l : list A)
    (cursor : ArrayBufferCursor) (id : Z) : ArrayBufferCursor :=
  let area_records := group area_id l id in
  let entities_size := Z.of_nat (length area_records) * record_size in
  let cursor := write_u32 entity_type cursor in
  let cursor := write_u32 (entities_size + 16) cursor in
  let cursor := write_u32 id cursor in
  let cursor := write_u32 entities_size cursor in
  fold_left write_one area_records cursor.

Definition write_dat_unknown (cursor : ArrayBufferCursor) (unknown : DatUnknown) : ArrayBufferCursor :=
  let cursor := write_u32 (unk_entity_type unknown) cursor in
  let cursor := write_u32 (unk_total_size unknown) cursor in
  let cursor := write_u32 (unk_area_id unknown) cursor in
  let cursor := write_u32 (unk_entities_size unknown) cursor in
  write_u8_array (unk_data unknown) cursor.

Definition write_dat (d : DatData) : result ArrayBufferCursor :=
  let cursor := new_cursor
    (Z.of_nat (length (objs d)) * OBJECT_SIZE + Z.of_nat (length (npcs d)) * NPC_SIZE
     + Z.of_nat (length (unknowns d)) * 1000) in
  let cursor :=
    fold_left (write_dat_block 1 OBJECT_SIZE write_dat_object obj_area_id (objs d))
      (sorted_area_ids obj_area_id (objs d)) cursor in
  let cursor :=
    fold_left (write_dat_block 2 NPC_SIZE write_dat_npc npc_area_id (npcs d))
      (sorted_area_ids npc_area_id (npcs d)) cursor in
  let cursor := fold_left write_dat_unknown (unknowns d) cursor in
  let cursor := write_u32 0 cursor in
  let cursor := write_u32 0 cursor in
  let cursor := write_u32 0 cursor in
  let cursor := write_u32 0 cursor in
  seek_start 0 cursor.

(** * Container codec (src/data/parsing/qst.js) *)

Record QstContainedFile : Type := mkQstContainedFile {
  name : string;
  name_2 : option string;
  quest_no : option Z;
  expected_size : option Z;
  data : ArrayBufferCursor;
  chunk_nos : list Z
}.

Record ParseQstResult : Type := mkParseQstResult {
  version : string;
  files : list QstContainedFile
}.

Record QstHeader : Type := mkQstHeader {
  hdr_quest_no : Z;
  hdr_file_name : string;
  hdr_file_name_2 : string;
  hdr_size : Z
}.

(** A JavaScript [Map] with string keys: insertion ordered, [set] on a
    present key replaces the value where it stands. *)
Fixpoint map_get {V : Type} (k : string) (m : list (string * V)) : option V :=
  match m with
  | [] => None
  | (k', v) :: rest => if String.eqb k' k then Some v else map_get k rest
  end.

Fixpoint map_set {V : Type} (k : string) (v : V) (m : list (string * V)) : list (string * V) :=
  match m with
  | [] => [(k, v)]
  | (k', v') :: rest =>
      if String.eqb k' k then (k', v) :: rest else (k', v') :: map_set k v rest
  end.

(** [Math.ceil(n / 1024)] for a size [n >= 0]. *)
Definition chunk_count (n : Z) : Z := (n + 1023) / 1024.

(** The version labels of [parse_qst] (qst.js lines 24-39). *)
Definition detect_version (version_a version_b : Z) : string :=
  if version_a =? 0x44 then "Dreamcast/GameCube"
  else if version_a =? 0x58 then
    (if version_b =? 0x44 then "Blue Burst" else "PC")
  else if version_a =? 0xA6 then "Dreamcast download"
  else "PC".

(** One pass of the loop of [parse_headers]. *)
Definition parse_header (cursor : ArrayBufferCursor) : result (QstHeader * ArrayBufferCursor) :=
  cursor <- seek 4 cursor ;;
  '(quest_no, cursor) <- u16 cursor ;;
  cursor <- seek 38 cursor ;;
  '(file_name, cursor) <- string_ascii 16 true true cursor ;;
  '(size, cursor) <- u32 cursor ;;
  '(file_name_2, cursor) <- string_ascii 24 true true cursor ;;
  Ok (mkQstHeader quest_no file_name file_name_2 size, cursor).

(** [for (let i = 0; i < 2; ++i)] *)
Definition parse_headers (cursor : ArrayBufferCursor)
  : result (list QstHeader * ArrayBufferCursor) :=
  '(h0, cursor) <- parse_header cursor ;;
  '(h1, cursor) <- parse_header cursor ;;
  Ok ([h0; h1], cursor).

(** [x || null] on a number: zero is falsy. *)
Definition truthy (x : option Z) : option Z :=
  match x with
  | Some 0 => None
  | other => other
  end.

(** One pass of the chunk loop of [parse_files] (qst.js lines 132-177). *)
Definition parse_file_chunk (expected_sizes : list (string * Z))
    (cursor : ArrayBufferCursor) (files : list (string * QstContainedFile))
    (warnings : list warning)
  : result (ArrayBufferCursor * list (string * QstContainedFile) * list warning) :=
  let start_position := position cursor in
  cursor <- seek 4 cursor ;;
  '(chunk_no, cursor) <- u8 cursor ;;
  cursor <- seek 3 cursor ;;
  '(file_name, cursor) <- string_ascii 16 true true cursor ;;
  let file :=
    match map_get file_name files with
    | Some file => file
    | None =>
        let expected_size := truthy (map_get file_name expected_sizes) in
        mkQstContainedFile file_name None None expected_size
          (new_cursor (match expected_size with Some n => n | None => 10 * 1024 end)) []
    end in
  let '(file_chunk_nos, warnings) :=
    if existsb (Z.eqb chunk_no) (chunk_nos file)
    then (chunk_nos file, warnings ++ [WarnChunkOverwritten chunk_no file_name])
    else (chunk_nos file ++ [chunk_no], warnings) in
  cursor <- seek 1024 cursor ;;
  '(segment_size, cursor) <- u32 cursor ;;
  cursor <- seek (-1028) cursor ;;
  let '(segment_size, warnings) :=
    if segment_size >? 1024
    then (1024, warnings ++ [WarnSegmentTooLarge segment_size])
    else (segment_size, warnings) in
  '(segment, cursor) <- take segment_size cursor ;;
  let chunk_position := chunk_no * 1024 in
  let file_data :=
    set_size (Z.max (chunk_position + segment_size) (size (data file))) (data file) in
  file_data <- seek_start chunk_position file_data ;;
  let file_data := write_cursor segment file_data in
  cursor <- seek (1032 - size segment) cursor ;;
  if negb (position cursor =? start_position + 1056)
  then Err (ChunkMessageSize (position cursor - start_position))
  else
    let file :=
      mkQstContainedFile (name file) (name_2 file) (quest_no file) (expected_size file)
        file_data file_chunk_nos in
    Ok (cursor, map_set file_name file files, warnings).

(** The [while (cursor.bytes_left)] loop of [parse_files]; every pass reads
    1056 bytes. *)
Fixpoint parse_file_chunks (fuel : nat) (expected_sizes : list (string * Z))
    (cursor : ArrayBufferCursor) (files : list (string * QstContainedFile))
    (warnings : list warning)
  : result (ArrayBufferCursor * list (string * QstContainedFile) * list warning) :=
  if bytes_left cursor =? 0 then Ok (cursor, files, warnings)
  else
    match fuel with
    | O => Err OutOfFuel
    | S fuel =>
        '(cursor, files, warnings) <- parse_file_chunk expected_sizes cursor files warnings ;;
        parse_file_chunks fuel expected_sizes cursor files warnings
    end.

(** [for (let chunk_no = 0; chunk_no < count; ++chunk_no)] *)
Definition chunk_numbers (count : Z) : list Z := map Z.of_nat (seq 0 (Z.to_nat count)).

(** The clean-up and the checks done for one file (qst.js lines 181-197). *)
Definition finish_file (file : QstContainedFile)
  : result (QstContainedFile * list warning) :=
  file_data <- seek_start 0 (data file) ;;
  let sorted_chunk_nos := sort_numeric (chunk_nos file) in
  let size_warning :=
    match expected_size file with
    | Some expected =>
        if negb (size file_data =? expected)
        then [WarnFileSize (name file) (size file_data) expected]
        else []
    | None => []
    end in
  let actual_size :=
    Z.max (size file_data) (match expected_size file with Some n => n | None => 0 end) in
  let missing :=
    flat_map (fun chunk_no =>
                if existsb (Z.eqb chunk_no) sorted_chunk_nos then []
                else [WarnMissingChunk (name file) chunk_no])
             (chunk_numbers (chunk_count actual_size)) in
  Ok (mkQstContainedFile (name file) (name_2 file) (quest_no file) (expected_size file)
        file_data sorted_chunk_nos,
      size_warning ++ missing).

Fixpoint finish_files (files : list QstContainedFile) (warnings : list warning)
  : result (list QstContainedFile * list warning) :=
  match files with
  | [] => Ok ([], warnings)
  | file :: rest =>
      '(file, file_warnings) <- finish_file file ;;
      '(rest, warnings) <- finish_files rest (warnings ++ file_warnings) ;;
      Ok (file :: rest, warnings)
  end.

Definition parse_files (cursor : ArrayBufferCursor) (expected_sizes : list (string * Z))
  : result (list QstContainedFile * ArrayBufferCursor * list warning) :=
  '(cursor, files, warnings) <-
    parse_file_chunks (Z.to_nat (bytes_left cursor)) expected_sizes cursor [] [] ;;
  '(files, warnings) <- finish_files (map snd files) warnings ;;
  Ok (files, cursor, warnings).

(** [parse_qst] returns [null] ([None]) for every version but Blue Burst; the
    cursor it leaves behind and the warnings it logged are returned too. *)
Definition parse_qst (cursor : ArrayBufferCursor)
  : result (option ParseQstResult * ArrayBufferCursor * list warning) :=
  '(version_a, cursor) <- u8 cursor ;;
  cursor <- seek 1 cursor ;;
  '(version_b, cursor) <- u8 cursor ;;
  let version := detect_version version_a version_b in
  if String.eqb version "Blue Burst" then
    cursor <- seek_start 0 cursor ;;
    '(headers, cursor) <- parse_headers cursor ;;
    '(files, cursor, warnings) <-
      parse_files cursor
        (fold_left (fun m h => map_set (hdr_file_name h) (hdr_size h) m) headers []) ;;
    let files :=
      map (fun file =>
             match find (fun h => String.eqb (hdr_file_name h) (name file)) headers with
             | Some header =>
                 mkQstContainedFile (name file) (Some (hdr_file_name_2 header))
                   (Some (hdr_quest_no header)) (expected_size file) (data file)
                   (chunk_nos file)
             | None => file
             end) files in
    Ok (Some (mkParseQstResult version files), cursor, warnings)
  else Ok (None, cursor, []).

Record SimpleQstContainedFile : Type := mkSimpleQstContainedFile {
  simple_name : string;
  simple_name_2 : option string;
  simple_quest_no : option Z;
  simple_data : ArrayBufferCursor
}.

(** [name.lastIndexOf('.')], counted from the end: the characters after the
    last dot when there is one. *)
Fixpoint after_last_dot (reversed : list ascii) (acc : list ascii) : option (list ascii) :=
  match reversed with
  | [] => None
  | c :: rest => if Ascii.eqb c "."%char then Some acc else after_last_dot rest (c :: acc)
  end.

(** The secondary name derived from [name] (qst.js lines 220-223). *)
Definition derived_name_2 (name : string) : string :=
  let chars := list_ascii_of_string name in
  match after_last_dot (rev chars) [] with
  | None => (name ++ "_j")%string
  | Some extension =>
      let stem := firstn (length chars - length extension - 1) chars in
      (string_of_list_ascii stem ++ "_j" ++ "." ++ string_of_list_ascii extension)%string
  end.

Definition write_file_header (cursor : ArrayBufferCursor) (file : SimpleQstContainedFile)
  : ArrayBufferCursor :=
  let cursor := write_u16 88 cursor in
  let cursor := write_u16 0x44 cursor in
  let cursor :=
    write_u16 (match truthy (simple_quest_no file) with Some n => n | None => 0 end) cursor in
  let cursor := Nat.iter 38 (write_u8 0) cursor in
  let cursor := write_string_ascii (simple_name file) 16 cursor in
  let cursor := write_u32 (size (simple_data file)) cursor in
  let file_name_2 :=
    match simple_name_2 file with
    | None => derived_name_2 (simple_name file)
    | Some name_2 => name_2
    end in
  write_string_ascii file_name_2 24 cursor.

Definition write_file_headers (cursor : ArrayBufferCursor)
    (files : list SimpleQstContainedFile) : ArrayBufferCursor :=
  fold_left write_file_header files cursor.

(** Returns the output cursor, the data cursor after the [take], and whether
    bytes are left to write in it. *)
Definition write_file_chunk (cursor data : ArrayBufferCursor) (chunk_no : Z) (name : string)
  : result (ArrayBufferCursor * ArrayBufferCursor * bool) :=
  let cursor := write_u8_array [x1c; x04; x13; x00] cursor in
  let cursor := write_u8 chunk_no cursor in
  let cursor := write_u8_array [x00; x00; x00] cursor in
  let cursor := write_string_ascii name 16 cursor in
  let segment_size := Z.min 1024 (bytes_left data) in
  '(segment, data) <- take segment_size data ;;
  let cursor := write_cursor segment cursor in
  let cursor := Nat.iter (Z.to_nat (1024 - segment_size)) (write_u8 0) cursor in
  let cursor := write_u32 segment_size cursor in
  let cursor := write_u32 0 cursor in
  Ok (cursor, data, negb (bytes_left data =? 0)).

(** One pass of the inner loop of [write_file_chunks] over the files still in
    the rotation, each with its next chunk number: a file that has no bytes
    left after its chunk is spliced out. *)
Fixpoint write_round (cursor : ArrayBufferCursor)
    (rotation : list (SimpleQstContainedFile * Z))
  : result (ArrayBufferCursor * list (SimpleQstContainedFile * Z)) :=
  match rotation with
  | [] => Ok (cursor, [])
  | (file, chunk_no) :: rest =>
      '(cursor, file_data, more) <-
        write_file_chunk cursor (simple_data file) chunk_no (simple_name file) ;;
      '(cursor, rest) <- write_round cursor rest ;;
      let file :=
        mkSimpleQstContainedFile (simple_name file) (simple_name_2 file)
          (simple_quest_no file) file_data in
      Ok (cursor, if more then (file, chunk_no + 1) :: rest else rest)
  end.

(** The [while (files.length)] loop. *)
Fixpoint write_rounds (fuel : nat) (cursor : ArrayBufferCursor)
    (rotation : list (SimpleQstContainedFile * Z)) : result ArrayBufferCursor :=
  match rotation with
  | [] => Ok cursor
  | _ :: _ =>
      match fuel with
      | O => Err OutOfFuel
      | S fuel =>
          '(cursor, rotation) <- write_round cursor rotation ;;
          write_rounds fuel cursor rotation
      end
  end.

(** A round removes a file or consumes a byte of every file it keeps, so one
    more round than there are bytes to write is enough. *)
Definition write_file_chunks (cursor : ArrayBufferCursor)
    (files : list SimpleQstContainedFile) : result ArrayBufferCursor :=
  let rotation := map (fun file => (file, 0)) files in
  let bytes := fold_right Z.add 0 (map (fun file => bytes_left (simple_data file)) files) in
  write_rounds (S (Z.to_nat bytes)) cursor rotation.

Definition write_qst (files : list SimpleQstContainedFile) : result ArrayBufferCursor :=
  match map (fun f => 88 + chunk_count (size (simple_data f)) * 1056) files with
  | [] => Err TypeError
  | first :: rest =>
      let total_size := fold_left Z.add rest first in
      let cursor := new_cursor total_size in
      let cursor := write_file_headers cursor files in
      cursor <- write_file_chunks cursor files ;;
      if negb (size cursor =? total_size)
      then Err (FinalFileSize total_size (size cursor))
      else seek_start 0 cursor
  end.

(** * quest.js: the script scanner *)

(** A decoded instruction as the scanner reads it.  An argument that the
    array does not hold is JavaScript's [undefined], here [None]. *)
Record Operation : Type := mkOperation {
  mnemonic : string;
  opcode : Z;
  op_size : Z;
  args : list Z
}.

Definition arg (i : nat) (op : Operation) : option Z := nth_error (args op) i.

Definition has_mnemonic (m : string) (op : Operation) : bool := String.eqb (mnemonic op) m.

(** [get_episode]: the episode with the warnings logged.  The [switch] has
    its [default] label in front of [case 0], so every value other than 1
    and 2 returns 1. *)
Definition get_episode (func_0_ops : list Operation) : Z * list warning :=
  match find (has_mnemonic "set_episode") func_0_ops with
  | Some set_episode =>
      (match arg 0 set_episode with
       | Some 1 => 2
       | Some 2 => 4
       | _ => 1
       end, [])
  | None => (1, [WarnNoSetEpisode])
  end.

(** An [OrderedMap] with number keys: the entries in iteration order.  A
    key may be [undefined]. *)
Definition OrderedMap : Type := list (option Z * option Z).

Definition key_eqb (a b : option Z) : bool :=
  match a, b with
  | Some x, Some y => x =? y
  | None, None => true
  | _, _ => false
  end.

(** [set] keeps the place of a key the map already holds. *)
Fixpoint OrderedMap_set (k v : option Z) (m : OrderedMap) : OrderedMap :=
  match m with
  | [] => [(k, v)]
  | (k', v') :: rest =>
      if key_eqb k' k then (k', v) :: rest else (k', v') :: OrderedMap_set k v rest
  end.

Definition OrderedMap_get (k : option Z) (m : OrderedMap) : option (option Z) :=
  option_map snd (find (fun entry => key_eqb (fst entry) k) m).

(** [new OrderedMap(entries)] sets the entries one after the other. *)
Definition new_OrderedMap (entries : list (option Z * option Z)) : OrderedMap :=
  fold_left (fun m entry => OrderedMap_set (fst entry) (snd entry) m) entries [].

(** The default comparator [a > b ? 1 : a < b ? -1 : 0] is positive only
    for two numbers. *)
Definition key_gt (a b : option Z) : bool :=
  match a, b with
  | Some x, Some y => x >? y
  | _, _ => false
  end.

(** [sortBy((_, id) => id)] sorts the entries by key and keeps the order of
    entries that compare equal; on keys that are all numbers every such
    sort returns the list this insertion sort returns. *)
Fixpoint insert_by_key (entry : option Z * option Z) (m : OrderedMap) : OrderedMap :=
  match m with
  | [] => [entry]
  | entry' :: rest =>
      if key_gt (fst entry') (fst entry) then entry :: entry' :: rest
      else entry' :: insert_by_key entry rest
  end.

Definition sortBy_key (m : OrderedMap) : OrderedMap :=
  fold_left (fun sorted entry => insert_by_key entry sorted) m [].

Definition get_areas (func_0_ops : list Operation) : OrderedMap :=
  let bb_maps := filter (has_mnemonic "BB_Map_Designate") func_0_ops in
  let areas := map (fun bb_map => (arg 0 bb_map, arg 2 bb_map)) bb_maps in
  sortBy_key (new_OrderedMap areas).

(** [get_func_operations]: the operations of the function at [func_offset],
    up to and with its first [ret]; [None] is the source's [null]. *)
Fixpoint get_func_operations_from (operations : list Operation) (func_offset position : Z)
    (func_found : bool) : bool * list Operation :=
  match operations with
  | [] => (func_found, [])
  | operation :: rest =>
      let func_found := func_found || (position =? func_offset) in
      if func_found then
        if opcode operation =? 1 then (true, [operation])
        else
          let '(found, func_ops) :=
            get_func_operations_from rest func_offset (position + op_size operation) true in
          (found, operation :: func_ops)
      else get_func_operations_from rest func_offset (position + op_size operation) false
  end.

Definition get_func_operations (operations : list Operation) (func_offset : Z)
  : option (list Operation) :=
  let '(func_found, func_ops) := get_func_operations_from operations func_offset 0 false in
  if func_found then Some func_ops else None.

(** * Model chunk parser (nj.js) *)

(** ** three.js *)

(** The parser imports its vectors, quaternions and matrices from three.js
    and computes on JavaScript numbers.  Neither is among the sources: the
    operations the parser calls are an interface, and what is proved of the
    parser holds for every implementation of it.  A [Vector3] is its three
    numbers. *)
Record Euler (number : Type) : Type := mkEuler {
  euler_x : number;
  euler_y : number;
  euler_z : number;
  euler_order : string
}.
Arguments mkEuler {number} euler_x euler_y euler_z euler_order.
Arguments euler_x {number} e.
Arguments euler_y {number} e.
Arguments euler_z {number} e.
Arguments euler_order {number} e.

Class ThreeJS : Type := {
  number : Type;
  (** the number [cursor.f32()] returns for a 32-bit pattern *)
  number_of_f32 : Z -> number;
  (** an integer literal *)
  number_of_int : Z -> number;
  (** [raw * (2 * Math.PI / 0xFFFF)] *)
  rotation_number : Z -> number;
  Quaternion : Type;
  (** [new Quaternion(x, y, z, w)] *)
  new_Quaternion : number -> number -> number -> number -> Quaternion;
  (** [new Quaternion().setFromEuler(euler)] *)
  setFromEuler : Euler number -> Quaternion;
  Matrix4 : Type;
  (** [new Matrix4()], the identity *)
  new_Matrix4 : Matrix4;
  (** [new Matrix4().compose(position, quaternion, scale)] *)
  compose : Vec3 number -> Quaternion -> Vec3 number -> Matrix4;
  (** [matrix.premultiply(other)] *)
  premultiply : Matrix4 -> Matrix4 -> Matrix4;
  Matrix3 : Type;
  (** [new Matrix3().getNormalMatrix(matrix)] *)
  getNormalMatrix : Matrix4 -> Matrix3;
  (** [vector.applyMatrix4(matrix)] *)
  applyMatrix4 : Vec3 number -> Matrix4 -> Vec3 number;
  (** [vector.applyMatrix3(matrix)] *)
  applyMatrix3 : Vec3 number -> Matrix3 -> Vec3 number
}.

(** ** JavaScript arrays written by index *)

(** An array with holes: [None] is a hole, and an index past the end reads
    [undefined] as a hole does. *)
Definition js_get {A : Type} (array : list (option A)) (i : Z) : option A :=
  if i <? 0 then None
  else match nth_error array (Z.to_nat i) with
       | Some (Some a) => Some a
       | _ => None
       end.

(** [array[i] = a] extends the array with holes up to [i]. *)
Definition js_set {A : Type} (array : list (option A)) (i : Z) (a : A) : list (option A) :=
  let n := Z.to_nat i in
  firstn n (array ++ repeat None (n - length array)) ++ [Some a] ++ skipn (S n) array.

Section Nj.
Context {three : ThreeJS}.

Definition Vector3 : Type := Vec3 number.

(** The normal of a stored vertex: a [Vector3], or the array [[0, 1, 0]]
    that stands in when the vertex chunk held no normal. *)
Inductive NjNormal : Type :=
| NormalVector (v : Vector3)
| NormalArray.

Record NjVertex : Type := mkNjVertex {
  vertex_position : Vector3;
  vertex_normal : NjNormal
}.

(** [normal.x], [normal.y], [normal.z]: an array has no such property, it
    reads [undefined], here [None]. *)
Definition normal_x (n : NjNormal) : option number :=
  match n with NormalVector v => Some (vx v) | NormalArray => None end.
Definition normal_y (n : NjNormal) : option number :=
  match n with NormalVector v => Some (vy v) | NormalArray => None end.
Definition normal_z (n : NjNormal) : option number :=
  match n with NormalVector v => Some (vz v) | NormalArray => None end.

Record ChunkVertex : Type := mkChunkVertex {
  cv_index : Z;
  cv_position : Vector3;
  cv_normal : option Vector3
}.

Record ChunkTriangleStrip : Type := mkChunkTriangleStrip {
  clockwise_winding : bool;
  indices : list Z
}.

Inductive ChunkData : Type :=
| DataNull
| DataCachePolygonList (store_index offset : Z)
| DataDrawPolygonList (store_index : Z)
| DataVertices (chunk_vertices : list ChunkVertex)
| DataStrips (strips : list ChunkTriangleStrip).

Record NjChunk : Type := mkNjChunk {
  chunk_type : string;
  chunk_sub_type : option string;
  chunk_type_id : Z;
  chunk_data : ChunkData
}.

(** What the traversal shares and mutates: the two output arrays, the
    chunk cache and the vertex-slot buffer; with them the warnings
    logged. *)
Record NjState : Type := mkNjState {
  positions : list number;
  normals : list (option number);
  cached_chunk_offsets : list (option Z);
  vertices : list (option NjVertex);
  nj_warnings : list warning
}.

Definition f32_triple (cursor : ArrayBufferCursor) : result (Vector3 * ArrayBufferCursor) :=
  '(x, cursor) <- f32 cursor ;;
  '(y, cursor) <- f32 cursor ;;
  '(z, cursor) <- f32 cursor ;;
  Ok (mkVec3 (number_of_f32 x) (number_of_f32 y) (number_of_f32 z), cursor).

(** ** parse_chunk_vertex *)

(** One pass of the vertex loop (lines 283-338). *)
Definition parse_vertex (chunk_type_id index i : Z) (cursor : ArrayBufferCursor)
  : result (ChunkVertex * ArrayBufferCursor) :=
  '(position, cursor) <- f32_triple cursor ;;
  let vertex := mkChunkVertex (index + i) position None in
  if chunk_type_id =? 32 then
    cursor <- seek 4 cursor ;; Ok (vertex, cursor)
  else if chunk_type_id =? 33 then
    cursor <- seek 4 cursor ;;
    '(normal, cursor) <- f32_triple cursor ;;
    cursor <- seek 4 cursor ;;
    Ok (mkChunkVertex (index + i) position (Some normal), cursor)
  else if (35 <=? chunk_type_id) && (chunk_type_id <=? 40) then
    if chunk_type_id =? 37 then
      '(ninja_index, cursor) <- u16 cursor ;;
      cursor <- seek 2 cursor ;;
      Ok (mkChunkVertex (index + ninja_index) position None, cursor)
    else
      cursor <- seek 4 cursor ;; Ok (vertex, cursor)
  else if (41 <=? chunk_type_id) && (chunk_type_id <=? 47) then
    '(normal, cursor) <- f32_triple cursor ;;
    if chunk_type_id >=? 42 then
      if chunk_type_id =? 44 then
        '(ninja_index, cursor) <- u16 cursor ;;
        cursor <- seek 2 cursor ;;
        Ok (mkChunkVertex (index + ninja_index) position (Some normal), cursor)
      else
        cursor <- seek 4 cursor ;;
        Ok (mkChunkVertex (index + i) position (Some normal), cursor)
    else Ok (mkChunkVertex (index + i) position (Some normal), cursor)
  else if chunk_type_id >=? 48 then
    cursor <- seek 4 cursor ;;
    if chunk_type_id >=? 49 then
      cursor <- seek 4 cursor ;; Ok (vertex, cursor)
    else Ok (vertex, cursor)
  else Ok (vertex, cursor).

(** [for (let i = 0; i < vertex_count; ++i)], [count] passes from [i]. *)
Fixpoint parse_vertices (count : nat) (chunk_type_id index i : Z)
    (cursor : ArrayBufferCursor) : result (list ChunkVertex * ArrayBufferCursor) :=
  match count with
  | O => Ok ([], cursor)
  | S count =>
      '(vertex, cursor) <- parse_vertex chunk_type_id index i cursor ;;
      '(rest, cursor) <- parse_vertices count chunk_type_id index (i + 1) cursor ;;
      Ok (vertex :: rest, cursor)
  end.

Definition parse_chunk_vertex (cursor : ArrayBufferCursor) (chunk_type_id flags : Z)
  : result (list ChunkVertex * ArrayBufferCursor) :=
  if negb (Z.land flags 3 =? 0) then Ok ([], cursor)
  else
    '(index, cursor) <- u16 cursor ;;
    '(vertex_count, cursor) <- u16 cursor ;;
    parse_vertices (Z.to_nat vertex_count) chunk_type_id index 0 cursor.

(** ** parse_chunk_triangle_strip *)

(** The four options of a strip chunk: texture coordinates, colour,
    normal, high-resolution texture coordinates. *)
Definition strip_options (chunk_type_id : Z) : result (bool * bool * bool * bool) :=
  if chunk_type_id =? 64 then Ok (false, false, false, false)
  else if chunk_type_id =? 65 then Ok (true, false, false, false)
  else if chunk_type_id =? 66 then Ok (true, false, false, false)
  else if chunk_type_id =? 67 then Ok (false, false, true, false)
  else if chunk_type_id =? 68 then Ok (true, false, true, false)
  else if chunk_type_id =? 69 then Ok (true, false, true, false)
  else if chunk_type_id =? 70 then Ok (false, true, false, false)
  else if chunk_type_id =? 71 then Ok (true, true, false, false)
  else if chunk_type_id =? 72 then Ok (true, true, false, false)
  else if chunk_type_id =? 73 then Ok (false, false, false, false)
  else if chunk_type_id =? 74 then Ok (true, false, false, true)
  else if chunk_type_id =? 75 then Ok (true, false, false, true)
  else Err (UnexpectedChunkTypeId chunk_type_id).

(** [for (let j = 0; j < index_count; ++j)], [count] passes from [j]. *)
Fixpoint parse_strip_indices (count : nat) (j : Z) (options : bool * bool * bool * bool)
    (user_flags_size : Z) (cursor : ArrayBufferCursor)
  : result (list Z * ArrayBufferCursor) :=
  match count with
  | O => Ok ([], cursor)
  | S count =>
      let '(parse_texture_coords, parse_color, parse_normal, parse_texture_coords_hires) :=
        options in
      '(index, cursor) <- u16 cursor ;;
      cursor <- (if parse_texture_coords then seek 4 cursor else Ok cursor) ;;
      cursor <- (if parse_color then seek 4 cursor else Ok cursor) ;;
      cursor <- (if parse_normal then seek 6 cursor else Ok cursor) ;;
      cursor <- (if parse_texture_coords_hires then seek 8 cursor else Ok cursor) ;;
      cursor <- (if j >=? 2 then seek (2 * user_flags_size) cursor else Ok cursor) ;;
      '(rest, cursor) <- parse_strip_indices count (j + 1) options user_flags_size cursor ;;
      Ok (index :: rest, cursor)
  end.

(** [for (let i = 0; i < strip_count; ++i)] *)
Fixpoint parse_strips (count : nat) (options : bool * bool * bool * bool)
    (user_flags_size : Z) (cursor : ArrayBufferCursor)
  : result (list ChunkTriangleStrip * ArrayBufferCursor) :=
  match count with
  | O => Ok ([], cursor)
  | S count =>
      '(winding_flag_and_index_count, cursor) <- i16 cursor ;;
      let clockwise_winding := winding_flag_and_index_count <? 1 in
      let index_count := Z.abs winding_flag_and_index_count in
      '(indices, cursor) <-
        parse_strip_indices (Z.to_nat index_count) 0 options user_flags_size cursor ;;
      '(rest, cursor) <- parse_strips count options user_flags_size cursor ;;
      Ok (mkChunkTriangleStrip clockwise_winding indices :: rest, cursor)
  end.

Definition parse_chunk_triangle_strip (cursor : ArrayBufferCursor) (chunk_type_id : Z)
  : result (list ChunkTriangleStrip * ArrayBufferCursor) :=
  '(user_offset_and_strip_count, cursor) <- u16 cursor ;;
  let user_flags_size := Z.shiftr user_offset_and_strip_count 14 in
  let strip_count := Z.land user_offset_and_strip_count 0x3FFF in
  options <- strip_options chunk_type_id ;;
  parse_strips (Z.to_nat strip_count) options user_flags_size cursor.

(** ** parse_chunks *)

(** The [while (loop)] of [parse_chunks]; a pass and a recursive call for
    a drawn polygon list each take one unit of [fuel].  A draw of a slot
    of the cache that was never stored seeks to [undefined]: the model
    stops there with [UndefinedOffset]. *)
Fixpoint parse_chunks (fuel : nat) (cursor : ArrayBufferCursor)
    (cached_chunk_offsets : list (option Z)) (wide_end_chunks : bool)
    (warnings : list warning)
  : result (list NjChunk * ArrayBufferCursor * list (option Z) * list warning) :=
  match fuel with
  | O => Err OutOfFuel
  | S fuel =>
      '(chunk_type_id, cursor) <- u8 cursor ;;
      '(flags, cursor) <- u8 cursor ;;
      let chunk_start_position := position cursor in
      '(chunk, size, loop, spliced, cursor, cached_chunk_offsets, warnings) <-
        (if chunk_type_id =? 0 then
           Ok (mkNjChunk "NULL" None chunk_type_id DataNull, 0, true, [],
               cursor, cached_chunk_offsets, warnings)
         else if (1 <=? chunk_type_id) && (chunk_type_id <=? 5) then
           if chunk_type_id =? 4 then
             let data := DataCachePolygonList flags (position cursor) in
             Ok (mkNjChunk "BITS" (Some "CACHE_POLYGON_LIST"%string) chunk_type_id data,
                 0, false, [], cursor,
                 js_set cached_chunk_offsets flags (position cursor), warnings)
           else if chunk_type_id =? 5 then
             match js_get cached_chunk_offsets flags with
             | None => Err UndefinedOffset
             | Some offset =>
                 cursor <- seek_start offset cursor ;;
                 '(drawn, cursor, cached_chunk_offsets, warnings) <-
                   parse_chunks fuel cursor cached_chunk_offsets wide_end_chunks warnings ;;
                 Ok (mkNjChunk "BITS" (Some "DRAW_POLYGON_LIST"%string) chunk_type_id
                       (DataDrawPolygonList flags),
                     0, true, drawn, cursor, cached_chunk_offsets, warnings)
             end
           else
             Ok (mkNjChunk "BITS" None chunk_type_id DataNull, 0, true, [],
                 cursor, cached_chunk_offsets, warnings)
         else if (8 <=? chunk_type_id) && (chunk_type_id <=? 9) then
           Ok (mkNjChunk "TINY" None chunk_type_id DataNull, 2, true, [],
               cursor, cached_chunk_offsets, warnings)
         else if (17 <=? chunk_type_id) && (chunk_type_id <=? 31) then
           '(n, cursor) <- u16 cursor ;;
           Ok (mkNjChunk "MATERIAL" None chunk_type_id DataNull, 2 + 2 * n, true, [],
               cursor, cached_chunk_offsets, warnings)
         else if (32 <=? chunk_type_id) && (chunk_type_id <=? 50) then
           '(n, cursor) <- u16 cursor ;;
           '(data, cursor) <- parse_chunk_vertex cursor chunk_type_id flags ;;
           Ok (mkNjChunk "VERTEX" None chunk_type_id (DataVertices data), 2 + 4 * n, true, [],
               cursor, cached_chunk_offsets, warnings)
         else if (56 <=? chunk_type_id) && (chunk_type_id <=? 58) then
           '(n, cursor) <- u16 cursor ;;
           Ok (mkNjChunk "VOLUME" None chunk_type_id DataNull, 2 + 2 * n, true, [],
               cursor, cached_chunk_offsets, warnings)
         else if (64 <=? chunk_type_id) && (chunk_type_id <=? 75) then
           '(n, cursor) <- u16 cursor ;;
           '(data, cursor) <- parse_chunk_triangle_strip cursor chunk_type_id ;;
           Ok (mkNjChunk "STRIP" None chunk_type_id (DataStrips data), 2 + 2 * n, true, [],
               cursor, cached_chunk_offsets, warnings)
         else if chunk_type_id =? 255 then
           Ok (mkNjChunk "END" None chunk_type_id DataNull,
               (if wide_end_chunks then 2 else 0), false, [],
               cursor, cached_chunk_offsets, warnings)
         else
           '(n, cursor) <- u16 cursor ;;
           Ok (mkNjChunk "UNKOWN" None chunk_type_id DataNull, 2 + 2 * n, true, [],
               cursor, cached_chunk_offsets,
               warnings ++ [WarnUnknownChunkType chunk_type_id])) ;;
      cursor <- seek_start (chunk_start_position + size) cursor ;;
      if loop : bool then
        '(rest, cursor, cached_chunk_offsets, warnings) <-
          parse_chunks fuel cursor cached_chunk_offsets wide_end_chunks warnings ;;
        Ok (spliced ++ chunk :: rest, cursor, cached_chunk_offsets, warnings)
      else Ok (spliced ++ [chunk], cursor, cached_chunk_offsets, warnings)
  end.

(** ** parse_model *)

(** The body of the loop over the vertices of a vertex chunk (lines
    154-156). *)
Definition store_vertex (matrix : Matrix4) (normal_matrix : Matrix3)
    (vertices : list (option NjVertex)) (vertex : ChunkVertex) : list (option NjVertex) :=
  let position := applyMatrix4 (cv_position vertex) matrix in
  let normal :=
    match cv_normal vertex with
    | Some n => NormalVector (applyMatrix3 n normal_matrix)
    | None => NormalArray
    end in
  js_set vertices (cv_index vertex) (mkNjVertex position normal).

(** The loop over the chunks of the vertex list (lines 149-159). *)
Definition store_chunk_vertices (matrix : Matrix4) (normal_matrix : Matrix3)
    (vertices : list (option NjVertex)) (chunk : NjChunk) : list (option NjVertex) :=
  if String.eqb (chunk_type chunk) "VERTEX" then
    match chunk_data chunk with
    | DataVertices chunk_vertices =>
        fold_left (store_vertex matrix normal_matrix) chunk_vertices vertices
    | _ => vertices
    end
  else vertices.

Definition position_numbers (v : NjVertex) : list number :=
  [vx (vertex_position v); vy (vertex_position v); vz (vertex_position v)].

Definition normal_numbers (v : NjVertex) : list (option number) :=
  [normal_x (vertex_normal v); normal_y (vertex_normal v); normal_z (vertex_normal v)].

(** [for (let j = 2; j < strip_indices.length; ++j)] (lines 168-190):
    [count] passes from [j], appending to the two output arrays. *)
Fixpoint fan_strip (count : nat) (j : Z) (vertices : list (option NjVertex))
    (clockwise_winding : bool) (strip_indices : list Z)
    (out : list number * list (option number)) : list number * list (option number) :=
  match count with
  | O => out
  | S count =>
      let slot k := match nth_error strip_indices (Z.to_nat k) with
                    | Some index => js_get vertices index
                    | None => None
                    end in
      let out :=
        match slot (j - 2), slot (j - 1), slot j with
        | Some a, Some b, Some c =>
            if j mod 2 =? (if clockwise_winding then 1 else 0) then
              (fst out ++ position_numbers a ++ position_numbers b ++ position_numbers c,
               snd out ++ normal_numbers a ++ normal_numbers b ++ normal_numbers c)
            else
              (fst out ++ position_numbers b ++ position_numbers a ++ position_numbers c,
               snd out ++ normal_numbers b ++ normal_numbers a ++ normal_numbers c)
        | _, _, _ => out
        end in
      fan_strip count (j + 1) vertices clockwise_winding strip_indices out
  end.

(** The loop over the strips of a strip chunk (line 167). *)
Definition fan_strips (vertices : list (option NjVertex))
    (out : list number * list (option number)) (strips : list ChunkTriangleStrip)
  : list number * list (option number) :=
  fold_left (fun out strip =>
               fan_strip (length (indices strip) - 2) 2 vertices
                 (clockwise_winding strip) (indices strip) out)
    strips out.

(** The loop over the chunks of the polygon list (lines 165-193). *)
Definition fan_chunk (vertices : list (option NjVertex))
    (out : list number * list (option number)) (chunk : NjChunk)
  : list number * list (option number) :=
  if String.eqb (chunk_type chunk) "STRIP" then
    match chunk_data chunk with
    | DataStrips strips => fan_strips vertices out strips
    | _ => out
    end
  else out.

Definition parse_model (chunk_fuel : nat) (cursor : ArrayBufferCursor) (matrix : Matrix4)
    (st : NjState) : result (ArrayBufferCursor * NjState) :=
  '(vlist_offset, cursor) <- u32 cursor ;;
  '(plist_offset, cursor) <- u32 cursor ;;
  let normal_matrix := getNormalMatrix matrix in
  '(cursor, st) <-
    (if negb (vlist_offset =? 0) then
       cursor <- seek_start vlist_offset cursor ;;
       '(chunks, cursor, cache, warnings) <-
         parse_chunks chunk_fuel cursor (cached_chunk_offsets st) true (nj_warnings st) ;;
       Ok (cursor,
           mkNjState (positions st) (normals st) cache
             (fold_left (store_chunk_vertices matrix normal_matrix) chunks (vertices st))
             warnings)
     else Ok (cursor, st)) ;;
  if negb (plist_offset =? 0) then
    cursor <- seek_start plist_offset cursor ;;
    '(chunks, cursor, cache, warnings) <-
      parse_chunks chunk_fuel cursor (cached_chunk_offsets st) false (nj_warnings st) ;;
    let out := fold_left (fan_chunk (vertices st)) chunks (positions st, normals st) in
    Ok (cursor, mkNjState (fst out) (snd out) cache (vertices st) warnings)
  else Ok (cursor, st).

(** ** parse_sibling_objects *)

(** The calls recurse along child and sibling offsets, which a file can
    chain without end: [fuel] bounds the depth of the calls, [chunk_fuel]
    is the fuel of every [parse_chunks]. *)
Fixpoint parse_sibling_objects (fuel chunk_fuel : nat) (cursor : ArrayBufferCursor)
    (parent_matrix : Matrix4) (st : NjState) : result (ArrayBufferCursor * NjState) :=
  match fuel with
  | O => Err OutOfFuel
  | S fuel =>
      '(eval_flags, cursor) <- u32 cursor ;;
      let no_translate := negb (Z.land eval_flags 1 =? 0) in
      let no_rotate := negb (Z.land eval_flags 2 =? 0) in
      let no_scale := negb (Z.land eval_flags 4 =? 0) in
      let hidden := negb (Z.land eval_flags 8 =? 0) in
      let break_child_trace := negb (Z.land eval_flags 16 =? 0) in
      let zxy_rotation_order := negb (Z.land eval_flags 32 =? 0) in
      '(model_offset, cursor) <- u32 cursor ;;
      '(pos, cursor) <- f32_triple cursor ;;
      '(rotation_x, cursor) <- i32 cursor ;;
      '(rotation_y, cursor) <- i32 cursor ;;
      '(rotation_z, cursor) <- i32 cursor ;;
      '(scale, cursor) <- f32_triple cursor ;;
      '(child_offset, cursor) <- u32 cursor ;;
      '(sibling_offset, cursor) <- u32 cursor ;;
      let rotation :=
        mkEuler (rotation_number rotation_x) (rotation_number rotation_y)
          (rotation_number rotation_z)
          (if zxy_rotation_order then "ZXY" else "ZYX")%string in
      let matrix :=
        premultiply
          (compose
             (if no_translate
              then mkVec3 (number_of_int 0) (number_of_int 0) (number_of_int 0)
              else pos)
             (if no_rotate
              then new_Quaternion (number_of_int 0) (number_of_int 0) (number_of_int 0)
                     (number_of_int 1)
              else setFromEuler rotation)
             (if no_scale
              then mkVec3 (number_of_int 1) (number_of_int 1) (number_of_int 1)
              else scale))
          parent_matrix in
      '(cursor, st) <-
        (if negb (model_offset =? 0) && negb hidden then
           cursor <- seek_start model_offset cursor ;;
           parse_model chunk_fuel cursor matrix st
         else Ok (cursor, st)) ;;
      '(cursor, st) <-
        (if negb (child_offset =? 0) && negb break_child_trace then
           cursor <- seek_start child_offset cursor ;;
           parse_sibling_objects fuel chunk_fuel cursor matrix st
         else Ok (cursor, st)) ;;
      if negb (sibling_offset =? 0) then
        cursor <- seek_start sibling_offset cursor ;;
        parse_sibling_objects fuel chunk_fuel cursor parent_matrix st
      else Ok (cursor, st)
  end.

(** ** parse_njcm *)

(** The position and normal arrays that [parse_njcm] hands to
    [create_buffer_geometry]; [None] is the source's [null]. *)
Definition parse_njcm (fuel chunk_fuel : nat) (cursor : ArrayBufferCursor)
  : result (option (list number * list (option number)) * list warning) :=
  if negb (bytes_left cursor =? 0) then
    '(_, st) <- parse_sibling_objects fuel chunk_fuel cursor new_Matrix4
                  (mkNjState [] [] [] [] []) ;;
    Ok (Some (positions st, normals st), nj_warnings st)
  else Ok (None, []).
End Nj.

(** * Definitions used to state the properties *)

(** The cursor that has [pre] behind it and [rest] ahead. *)
Definition at_pos (pre rest : list byte) : ArrayBufferCursor :=
  mkCursor (pre ++ rest) (Z.of_nat (length pre)).

(** The four header fields at offset [p], when sixteen bytes are left there. *)
Definition header_at (buf : list byte) (p : Z) : option (Z * Z * Z * Z) :=
  if (0 <=? p) && (p + 16 <=? Z.of_nat (length buf)) then
    Some (le_decode (slice p 4 buf), le_decode (slice (p + 4) 4 buf),
          le_decode (slice (p + 8) 4 buf), le_decode (slice (p + 12) 4 buf))
  else None.

(** [block_at buf p]: the table has a block at offset [p], i.e. the blocks
    before it are well formed, fit into the buffer and none is the
    terminator. *)
Inductive block_at (buf : list byte) : Z -> Prop :=
| block_first : block_at buf 0
| block_next p entity_type total_size area_id entities_size :
    block_at buf p ->
    header_at buf p = Some (entity_type, total_size, area_id, entities_size) ->
    entity_type <> 0 ->
    entities_size = total_size - 16 ->
    p + 16 + entities_size <= Z.of_nat (length buf) ->
    block_at buf (p + 16 + entities_size).

(** A reader that moves the cursor by a fixed number of bytes, and fails,
    out of bounds, exactly when fewer bytes are left. *)
Definition moves_by {A : Type} (width : Z) (c : ArrayBufferCursor)
    (r : result (A * ArrayBufferCursor)) : Prop :=
  match r with
  | Ok (_, c') => c' = mkCursor (buffer c) (position c + width) /\ width <= bytes_left c
  | Err e => e = OutOfBounds /\ bytes_left c < width
  end.

Definition fixed_reader {A : Type} (width : Z)
    (parse_one : ArrayBufferCursor -> result (A * ArrayBufferCursor)) : Prop :=
  forall c, moves_by width c (parse_one c).

(** A table whose only block, of type 1, declares 68 bytes of entities in a
    total of 100. *)
Definition crafted_table : list byte :=
  le_encode 4 1 ++ le_encode 4 100 ++ le_encode 4 0 ++ le_encode 4 68
  ++ repeat x00 68 ++ repeat x00 16.

(** A table with one object block of area 3 and the terminator. *)
Definition small_table : list byte :=
  le_encode 4 1 ++ le_encode 4 84 ++ le_encode 4 3 ++ le_encode 4 68
  ++ repeat x00 68 ++ repeat x00 16.

(** ** Entity table round trip *)

(** The bytes of one object record, as [write_dat] lays them out. *)
Definition encode_object (obj : DatObject) : list byte :=
  let '(unknown0, unknown1, unknown2) := obj_unknown obj in
  le_encode 2 (obj_type_id obj) ++ unknown0 ++ le_encode 2 (obj_section_id obj) ++ unknown1
  ++ le_encode 4 (vx (obj_position obj)) ++ le_encode 4 (vy (obj_position obj))
  ++ le_encode 4 (vz (obj_position obj))
  ++ le_encode 4 (raw_of_rotation (vx (obj_rotation obj)))
  ++ le_encode 4 (raw_of_rotation (vy (obj_rotation obj)))
  ++ le_encode 4 (raw_of_rotation (vz (obj_rotation obj)))
  ++ unknown2.

Definition encode_npc (npc : DatNpc) : list byte :=
  let '(unknown0, unknown1, unknown2, unknown3) := npc_unknown npc in
  le_encode 2 (npc_type_id npc) ++ unknown0 ++ le_encode 2 (npc_section_id npc) ++ unknown1
  ++ le_encode 4 (vx (npc_position npc)) ++ le_encode 4 (vy (npc_position npc))
  ++ le_encode 4 (vz (npc_position npc))
  ++ le_encode 4 (raw_of_rotation (vx (npc_rotation npc)))
  ++ le_encode 4 (raw_of_rotation (vy (npc_rotation npc)))
  ++ le_encode 4 (raw_of_rotation (vz (npc_rotation npc)))
  ++ unknown2 ++ le_encode 4 (npc_skin npc) ++ unknown3.

Definition encode_block {A : Type} (entity_type record_size : Z)
    (encode_one : A -> list byte) (area_id : A -> Z) (l : list A) (id : Z) : list byte :=
  let area_records := group area_id l id in
  let entities_size := Z.of_nat (length area_records) * record_size in
  le_encode 4 entity_type ++ le_encode 4 (entities_size + 16) ++ le_encode 4 id
  ++ le_encode 4 entities_size ++ flat_map encode_one area_records.

(** An angle after one trip through the 32-bit field. *)
Definition requantize (angle : R) : R := rotation_of_raw (raw_of_rotation angle).

Definition requantize_vec (v : Vec3 R) : Vec3 R :=
  mkVec3 (requantize (vx v)) (requantize (vy v)) (requantize (vz v)).

Definition requantize_object (obj : DatObject) : DatObject :=
  mkDatObject (obj_type_id obj) (obj_section_id obj) (obj_position obj)
    (requantize_vec (obj_rotation obj)) (obj_area_id obj) (obj_unknown obj).

Definition requantize_npc (npc : DatNpc) : DatNpc :=
  mkDatNpc (npc_type_id npc) (npc_section_id npc) (npc_position npc)
    (requantize_vec (npc_rotation npc)) (npc_skin npc) (npc_area_id npc) (npc_unknown npc).

(** The records grouped by area, areas ascending, original order inside an
    area: the order in which [write_dat] emits them. *)
Definition by_area {A : Type} (area_id : A -> Z) (l : list A) : list A :=
  flat_map (group area_id l) (sorted_area_ids area_id l).

Definition is_u16 (v : Z) : Prop := 0 <= v < 65536.
Definition is_u32 (v : Z) : Prop := 0 <= v < 4294967296.

(** The bit pattern of a finite 32-bit float: the exponent field is not all
    ones. *)
Definition is_finite_f32 (bits : Z) : Prop :=
  is_u32 bits /\ (bits / 8388608) mod 256 <> 255.

(** The angle re-quantizes to a value that a signed 32-bit field holds. *)
Definition rotation_fits (angle : R) : Prop :=
  -2147483648 <= raw_of_rotation angle < 2147483648.

Definition vec_all {A : Type} (P : A -> Prop) (v : Vec3 A) : Prop :=
  P (vx v) /\ P (vy v) /\ P (vz v).

Definition has_length (n : nat) (bs : list byte) : Prop := length bs = n.

Definition object_storable (obj : DatObject) : Prop :=
  is_u16 (obj_type_id obj) /\ is_u16 (obj_section_id obj) /\ is_u32 (obj_area_id obj)
  /\ vec_all is_finite_f32 (obj_position obj) /\ vec_all rotation_fits (obj_rotation obj)
  /\ (let '(unknown0, unknown1, unknown2) := obj_unknown obj in
      has_length 10 unknown0 /\ has_length 2 unknown1 /\ has_length 28 unknown2).

Definition npc_storable (npc : DatNpc) : Prop :=
  is_u16 (npc_type_id npc) /\ is_u16 (npc_section_id npc) /\ is_u32 (npc_area_id npc)
  /\ is_u32 (npc_skin npc)
  /\ vec_all is_finite_f32 (npc_position npc) /\ vec_all rotation_fits (npc_rotation npc)
  /\ (let '(unknown0, unknown1, unknown2, unknown3) := npc_unknown npc in
      has_length 10 unknown0 /\ has_length 6 unknown1 /\ has_length 20 unknown2
      /\ has_length 4 unknown3).

(** Two angles at most a half quantization step, [PI / 0xFFFF], apart. *)
Definition angle_close (a b : R) : Prop := (Rabs (b - a) <= PI / 65535)%R.

Definition rotation_close (a b : Vec3 R) : Prop :=
  angle_close (vx a) (vx b) /\ angle_close (vy a) (vy b) /\ angle_close (vz a) (vz b).



Definition encode_unknown (unknown : DatUnknown) : list byte :=
  le_encode 4 (unk_entity_type unknown) ++ le_encode 4 (unk_total_size unknown)
  ++ le_encode 4 (unk_area_id unknown) ++ le_encode 4 (unk_entities_size unknown)
  ++ unk_data unknown.

(** The bytes [write_dat] produces. *)
Definition encode_table (d : DatData) : list byte :=
  flat_map (encode_block 1 OBJECT_SIZE encode_object obj_area_id (objs d))
    (sorted_area_ids obj_area_id (objs d))
  ++ flat_map (encode_block 2 NPC_SIZE encode_npc npc_area_id (npcs d))
       (sorted_area_ids npc_area_id (npcs d))
  ++ flat_map encode_unknown (unknowns d)
  ++ le_encode 4 0 ++ le_encode 4 0 ++ le_encode 4 0 ++ le_encode 4 0.


Definition zero_vec : Vec3 Z := mkVec3 0 0 0.
Definition zero_rotation : Vec3 R := mkVec3 0%R 0%R 0%R.

(** Two objects, the first in area 1 and the second in area 0. *)
Definition object_in_area (area_id : Z) : DatObject :=
  mkDatObject 7 2 zero_vec zero_rotation area_id (repeat x00 10, repeat x00 2, repeat x00 28).

Definition npc_in_area (area_id : Z) : DatNpc :=
  mkDatNpc 64 1 zero_vec zero_rotation 0 area_id
    (repeat x00 10, repeat x00 6, repeat x00 20, repeat x00 4).


(** ** Chunks of a container *)

(** A 1056-byte chunk as [parse_files] reads it: sequence number, file name,
    declared payload size and the payload bytes it takes. *)
Record Chunk : Type := mkChunk {
  chunk_number : Z;
  chunk_file_name : string;
  chunk_declared_size : Z;
  chunk_segment : list byte
}.

Definition chunk_at (buf : list byte) (p : Z) : Chunk :=
  let declared := le_decode (slice (p + 1048) 4 buf) in
  mkChunk (le_decode (slice (p + 4) 1 buf))
    (string_of_bytes (until_nul (slice (p + 8) 16 buf)))
    declared
    (slice (p + 24) (Z.min declared 1024) buf).

(** The chunks that start at offset [p], [p + 1056], ... *)
Fixpoint chunks_from (count : nat) (buf : list byte) (p : Z) : list Chunk :=
  match count with
  | O => []
  | S n => chunk_at buf p :: chunks_from n buf (p + 1056)
  end.

(** The chunks of a container: what follows the two 88-byte headers. *)
Definition container_chunks (buf : list byte) : list Chunk :=
  chunks_from (Z.to_nat ((Z.of_nat (length buf) - 176) / 1056)) buf 176.

Definition header_of (buf : list byte) (p : Z) : QstHeader :=
  mkQstHeader (le_decode (slice (p + 4) 2 buf))
    (string_of_bytes (until_nul (slice (p + 44) 16 buf)))
    (string_of_bytes (until_nul (slice (p + 64) 24 buf)))
    (le_decode (slice (p + 60) 4 buf)).

Definition container_headers (buf : list byte) : list QstHeader :=
  [header_of buf 0; header_of buf 88].

Definition expected_sizes_of (headers : list QstHeader) : list (string * Z) :=
  fold_left (fun m h => map_set (hdr_file_name h) (hdr_size h) m) headers [].

(** The effect of one chunk on the files under reconstruction and on the
    warnings. *)
Definition apply_chunk (expected_sizes : list (string * Z))
    (st : list (string * QstContainedFile) * list warning) (ch : Chunk)
  : list (string * QstContainedFile) * list warning :=
  let '(files, warnings) := st in
  let file_name := chunk_file_name ch in
  let chunk_no := chunk_number ch in
  let file :=
    match map_get file_name files with
    | Some file => file
    | None =>
        let expected_size := truthy (map_get file_name expected_sizes) in
        mkQstContainedFile file_name None None expected_size
          (new_cursor (match expected_size with Some n => n | None => 10 * 1024 end)) []
    end in
  let '(file_chunk_nos, warnings) :=
    if existsb (Z.eqb chunk_no) (chunk_nos file)
    then (chunk_nos file, warnings ++ [WarnChunkOverwritten chunk_no file_name])
    else (chunk_nos file ++ [chunk_no], warnings) in
  let '(segment_size, warnings) :=
    if chunk_declared_size ch >? 1024
    then (1024, warnings ++ [WarnSegmentTooLarge (chunk_declared_size ch)])
    else (chunk_declared_size ch, warnings) in
  let chunk_position := chunk_no * 1024 in
  let file_data :=
    set_size (Z.max (chunk_position + segment_size) (size (data file))) (data file) in
  let file_data :=
    write_cursor (mkCursor (chunk_segment ch) 0) (mkCursor (buffer file_data) chunk_position) in
  (map_set file_name
     (mkQstContainedFile (name file) (name_2 file) (quest_no file) (expected_size file)
        file_data file_chunk_nos) files,
   warnings).

(** The header fields [parse_qst] copies into a returned file. *)
Definition with_header (headers : list QstHeader) (file : QstContainedFile)
  : QstContainedFile :=
  match find (fun h => String.eqb (hdr_file_name h) (name file)) headers with
  | Some header =>
      mkQstContainedFile (name file) (Some (hdr_file_name_2 header))
        (Some (hdr_quest_no header)) (expected_size file) (data file) (chunk_nos file)
  | None => file
  end.

(** The version label of a container, from its bytes 0 and 2. *)
Definition version_of (buf : list byte) : string :=
  detect_version (le_decode (slice 0 1 buf)) (le_decode (slice 2 1 buf)).

(** A file after the clean-up of [parse_files]. *)
Definition finished_file (file : QstContainedFile) : QstContainedFile :=
  mkQstContainedFile (name file) (name_2 file) (quest_no file) (expected_size file)
    (mkCursor (buffer (data file)) 0) (sort_numeric (chunk_nos file)).

(** The number of chunks [parse_files] expects of a file: it scans the chunk
    numbers below this bound for missing ones. *)
Definition expected_chunks (file : QstContainedFile) : Z :=
  chunk_count (Z.max (size (data file))
                 (match expected_size file with Some n => n | None => 0 end)).

Definition finish_warnings (file : QstContainedFile) : list warning :=
  match expected_size file with
  | Some expected =>
      if negb (size (data file) =? expected)
      then [WarnFileSize (name file) (size (data file)) expected]
      else []
  | None => []
  end
  ++ flat_map (fun chunk_no =>
                 if existsb (Z.eqb chunk_no) (sort_numeric (chunk_nos file)) then []
                 else [WarnMissingChunk (name file) chunk_no])
       (chunk_numbers (expected_chunks file)).

(** The files and warnings after all chunks of a container were applied. *)
Definition reconstructed (buf : list byte)
  : list (string * QstContainedFile) * list warning :=
  fold_left (apply_chunk (expected_sizes_of (container_headers buf)))
    (container_chunks buf) ([], []).

Definition BLUE_BURST : string := "Blue Burst".

(** ** One file of a container *)

(** The number of payload bytes [parse_files] takes from a chunk. *)
Definition segment_size_of (ch : Chunk) : Z := Z.min (chunk_declared_size ch) 1024.

(** The end of the chunk's payload inside its file. *)
Definition chunk_end (ch : Chunk) : Z := chunk_number ch * 1024 + segment_size_of ch.

Definition chunk_of (file_name : string) (ch : Chunk) : bool :=
  String.eqb (chunk_file_name ch) file_name.

(** The size observed from the chunks of a file: the farthest payload end. *)
Definition observed_size (file_name : string) (chunks : list Chunk) : Z :=
  fold_left (fun acc ch => if chunk_of file_name ch then Z.max (chunk_end ch) acc else acc)
    chunks 0.

(** The last chunk of a file that carries a given sequence number. *)
Definition last_chunk (file_name : string) (chunk_no : Z) (chunks : list Chunk)
  : option Chunk :=
  find (fun ch => chunk_of file_name ch && (chunk_number ch =? chunk_no)) (rev chunks).

(** A chunk cut out of a buffer: a byte-sized sequence number and as many
    payload bytes as [parse_files] takes. *)
Definition chunk_wf (ch : Chunk) : Prop :=
  0 <= chunk_number ch < 256 /\ 0 <= chunk_declared_size ch
  /\ Z.of_nat (length (chunk_segment ch)) = segment_size_of ch.

(** The file record after one of its chunks, from the record before it (or
    none, when this is the first chunk of the file). *)
Definition chunk_update (expected_sizes : list (string * Z)) (ch : Chunk)
    (before : option QstContainedFile) : QstContainedFile :=
  let file :=
    match before with
    | Some file => file
    | None =>
        let expected_size := truthy (map_get (chunk_file_name ch) expected_sizes) in
        mkQstContainedFile (chunk_file_name ch) None None expected_size
          (new_cursor (match expected_size with Some n => n | None => 10 * 1024 end)) []
    end in
  let chunk_position := chunk_number ch * 1024 in
  let file_data :=
    set_size (Z.max (chunk_position + segment_size_of ch) (size (data file))) (data file) in
  mkQstContainedFile (name file) (name_2 file) (quest_no file) (expected_size file)
    (write_cursor (mkCursor (chunk_segment ch) 0) (mkCursor (buffer file_data) chunk_position))
    (if existsb (Z.eqb (chunk_number ch)) (chunk_nos file) then chunk_nos file
     else chunk_nos file ++ [chunk_number ch]).

(** The record of the file [file_name] after a sequence of chunks. *)
Definition file_after (expected_sizes : list (string * Z)) (file_name : string)
    (chunks : list Chunk) (before : option QstContainedFile) : option QstContainedFile :=
  fold_left (fun file ch =>
               if chunk_of file_name ch then Some (chunk_update expected_sizes ch file)
               else file)
    chunks before.

(** The record a chunk is applied to: the one before it, or a fresh one. *)
Definition base_file (expected_sizes : list (string * Z)) (ch : Chunk)
    (before : option QstContainedFile) : QstContainedFile :=
  match before with
  | Some file => file
  | None =>
      let expected_size := truthy (map_get (chunk_file_name ch) expected_sizes) in
      mkQstContainedFile (chunk_file_name ch) None None expected_size
        (new_cursor (match expected_size with Some n => n | None => 10 * 1024 end)) []
  end.

(** What the chunks of a stream determine about the record of one file. *)
Definition file_reconstructed (expected_sizes : list (string * Z)) (file_name : string)
    (chunks : list Chunk) (file : QstContainedFile) : Prop :=
  name file = file_name
  /\ expected_size file = truthy (map_get file_name expected_sizes)
  /\ size (data file) = observed_size file_name chunks
  /\ (forall chunk_no,
         In chunk_no (chunk_nos file)
         <-> exists ch, In ch chunks /\ chunk_of file_name ch = true
                        /\ chunk_number ch = chunk_no)
  /\ (forall chunk_no ch,
         last_chunk file_name chunk_no chunks = Some ch ->
         chunk_no * 1024 + segment_size_of ch <= size (data file)
         /\ slice (chunk_no * 1024) (segment_size_of ch) (buffer (data file))
            = chunk_segment ch).

Definition file_state (expected_sizes : list (string * Z)) (file_name : string)
    (chunks : list Chunk) (state : option QstContainedFile) : Prop :=
  match state with
  | Some file => file_reconstructed expected_sizes file_name chunks file
  | None => forall ch, In ch chunks -> chunk_of file_name ch = false
  end.

(** ** What [write_qst] writes *)

(** A name written into a field of [n] bytes: cut off or padded with zeros. *)
Definition name_field (n : nat) (s : string) : list byte :=
  firstn n (pad_to n (string_to_bytes s)).

(** The name read back from a 16-byte field. *)
Definition parsed_name (s : string) : string :=
  string_of_bytes (until_nul (name_field 16 s)).

Definition encode_header (file : SimpleQstContainedFile) : list byte :=
  le_encode 2 88 ++ le_encode 2 0x44
  ++ le_encode 2 (match truthy (simple_quest_no file) with Some n => n | None => 0 end)
  ++ repeat x00 38 ++ name_field 16 (simple_name file)
  ++ le_encode 4 (size (simple_data file))
  ++ name_field 24 (match simple_name_2 file with
                    | None => derived_name_2 (simple_name file)
                    | Some name_2 => name_2
                    end).

Definition encode_chunk (chunk_no : Z) (name : string) (segment : list byte) : list byte :=
  [x1c; x04; x13; x00] ++ le_encode 1 chunk_no ++ [x00; x00; x00] ++ name_field 16 name
  ++ segment ++ repeat x00 (Z.to_nat (1024 - Z.of_nat (length segment)))
  ++ le_encode 4 (Z.of_nat (length segment)) ++ le_encode 4 0.

(** The payload of the next chunk of a data cursor. *)
Definition next_segment (data : ArrayBufferCursor) : list byte :=
  slice (position data) (Z.min 1024 (bytes_left data)) (buffer data).

Definition entry_chunk (entry : SimpleQstContainedFile * Z) : list byte :=
  encode_chunk (snd entry) (simple_name (fst entry)) (next_segment (simple_data (fst entry))).

(** The entry chunk as [parse_files] reads it. *)
Definition entry_as_chunk (entry : SimpleQstContainedFile * Z) : Chunk :=
  let segment := next_segment (simple_data (fst entry)) in
  mkChunk (snd entry mod 256) (parsed_name (simple_name (fst entry)))
    (Z.of_nat (length segment)) segment.

(** A data cursor inside its buffer. *)
Definition cursor_valid (c : ArrayBufferCursor) : Prop := 0 <= position c <= size c.

(** The chunks [write_file_chunks] emits for a file: one even when no byte is
    left to write. *)
Definition chunks_needed (file : SimpleQstContainedFile) : nat :=
  Z.to_nat (Z.max 1 (chunk_count (bytes_left (simple_data file)))).

(** The rotation entry of a file in round [r]. *)
Definition entry_at (r : nat) (file : SimpleQstContainedFile) : SimpleQstContainedFile * Z :=
  (mkSimpleQstContainedFile (simple_name file) (simple_name_2 file) (simple_quest_no file)
     (mkCursor (buffer (simple_data file)) (position (simple_data file) + 1024 * Z.of_nat r)),
   Z.of_nat r).

(** The rotation in round [r]: the files that still have a chunk to emit. *)
Definition rotation_at (files : list SimpleQstContainedFile) (r : nat)
  : list (SimpleQstContainedFile * Z) :=
  flat_map (fun file => if (r <? chunks_needed file)%nat then [entry_at r file] else []) files.

Definition rounds_needed (files : list SimpleQstContainedFile) : nat :=
  list_max (map chunks_needed files).

(** All chunk entries, in the order of emission. *)
Definition emitted_entries (files : list SimpleQstContainedFile)
  : list (SimpleQstContainedFile * Z) :=
  flat_map (rotation_at files) (seq 0 (rounds_needed files)).

(** The size [write_qst] budgets for the output. *)
Definition budgeted_size (files : list SimpleQstContainedFile) : Z :=
  fold_right Z.add 0 (map (fun f => 88 + chunk_count (size (simple_data f)) * 1056) files).

(** The bytes [write_qst] writes. *)
Definition encode_container (files : list SimpleQstContainedFile) : list byte :=
  flat_map encode_header files ++ flat_map entry_chunk (emitted_entries files).

(** The entry of a file in the next round, when bytes are left after its
    chunk. *)
Definition next_entry (entry : SimpleQstContainedFile * Z)
  : list (SimpleQstContainedFile * Z) :=
  let file := fst entry in
  let data := simple_data file in
  let segment_size := Z.min 1024 (bytes_left data) in
  if negb (bytes_left data - segment_size =? 0)
  then [(mkSimpleQstContainedFile (simple_name file) (simple_name_2 file)
           (simple_quest_no file)
           (mkCursor (buffer data) (position data + segment_size)),
         snd entry + 1)]
  else [].

Definition data_valid (file : SimpleQstContainedFile) : Prop :=
  cursor_valid (simple_data file).

Definition total_chunks (files : list SimpleQstContainedFile) : nat :=
  fold_right Nat.add 0%nat (map chunks_needed files).

Definition data_empty (file : SimpleQstContainedFile) : bool :=
  size (simple_data file) =? 0.

Definition data_rewound (file : SimpleQstContainedFile) : Prop :=
  position (simple_data file) = 0.



Definition one_byte_file : SimpleQstContainedFile :=
  mkSimpleQstContainedFile "e.bin" None None (cursor_of_bytes [x01]).

(** Two 176-byte containers without chunks: the byte 0x44 that marks the
    Blue Burst variant stands at offset 3 in the first and at offset 2 in
    the second. *)
Definition marker_at_3 : list byte := [x58; x00; x00; x44] ++ repeat x00 172.
Definition marker_at_2 : list byte := [x58; x00; x44; x00] ++ repeat x00 172.

(** A container written for a 2048-byte file and a 3-byte file, with its last
    chunk, the second chunk of the first file, cut off. *)
Definition two_chunk_file : SimpleQstContainedFile :=
  mkSimpleQstContainedFile "q.dat" None (Some 7) (cursor_of_bytes (repeat x01 2048)).

Definition small_file : SimpleQstContainedFile :=
  mkSimpleQstContainedFile "q.bin" None (Some 7) (cursor_of_bytes [x02; x03; x04]).

Definition truncated_container : list byte :=
  firstn 2288 (encode_container [two_chunk_file; small_file]).

(** The two files [parse_qst] returns for [truncated_container]. *)
Definition returned_q_dat : QstContainedFile :=
  mkQstContainedFile "q.dat" (Some "q_j.dat"%string) (Some 7) (Some 2048)
    (cursor_of_bytes (repeat x01 1024)) [0].

Definition returned_q_bin : QstContainedFile :=
  mkQstContainedFile "q.bin" (Some "q_j.bin"%string) (Some 7) (Some 3)
    (cursor_of_bytes [x02; x03; x04]) [0].

(** A name that a 16-byte field holds: at most 16 characters, none of them
    NUL. *)
Definition name_storable (s : string) : Prop :=
  (String.length s <= 16)%nat /\ ~ In zero (list_ascii_of_string s).

(** The file is owner of the chunks that carry its name. *)
Definition owns (file_name : string) (file : SimpleQstContainedFile) : bool :=
  String.eqb (parsed_name (simple_name file)) file_name.

(** ** The script scanner *)

(** The number of a key; no entry of a map of areas has the key
    [undefined] when every [BB_Map_Designate] has its first argument. *)
Definition key_number (entry : option Z * option Z) : Z :=
  match fst entry with Some id => id | None => 0 end.

Definition key_defined (entry : option Z * option Z) : Prop := fst entry <> None.

Definition SET_EPISODE : string := "set_episode".
Definition BB_MAP_DESIGNATE : string := "BB_Map_Designate".

(** The operations that designate the map of an area, in stream order. *)
Definition designations (func_0_ops : list Operation) : list Operation :=
  filter (has_mnemonic BB_MAP_DESIGNATE) func_0_ops.

(** The last operation that designates the map of area [id]. *)
Definition last_designation (id : Z) (func_0_ops : list Operation) : option Operation :=
  find (fun op => key_eqb (arg 0 op) (Some id)) (rev (designations func_0_ops)).

(** A function 0 that sets episode 1 (the second episode) and designates
    the maps of area 5, then of area 2, and returns. *)
Definition sample_func_0_ops : list Operation :=
  [ mkOperation "set_episode" 0xF8BC 7 [1];
    mkOperation "BB_Map_Designate" 0xF951 8 [5; 0; 1; 0];
    mkOperation "BB_Map_Designate" 0xF951 8 [2; 0; 3; 0];
    mkOperation "ret" 1 1 [] ].

(** ** Strip fanning *)

Section Fanning.
Context {three : ThreeJS}.






End Fanning.

(** ** Scene traversal *)

Section Scene.
Context {three : ThreeJS}.

(** A scene node as its 52-byte record gives it. *)
Record SceneNode : Type := mkSceneNode {
  node_eval_flags : Z;
  node_model_offset : Z;
  node_position : Vector3;
  node_rotation : Vec3 Z;
  node_scale : Vector3;
  node_child_offset : Z;
  node_sibling_offset : Z
}.

Definition f32_at_offset (buf : list byte) (p : Z) : number :=
  number_of_f32 (le_decode (slice p 4 buf)).

Definition i32_at_offset (buf : list byte) (p : Z) : Z :=
  to_signed 32 (le_decode (slice p 4 buf)).

(** The node whose record stands at offset [p], when the record lies in
    the buffer. *)
Definition scene_node_at (buf : list byte) (p : Z) : option SceneNode :=
  if (0 <=? p) && (p + 52 <=? Z.of_nat (length buf)) then
    Some (mkSceneNode
            (le_decode (slice p 4 buf))
            (le_decode (slice (p + 4) 4 buf))
            (mkVec3 (f32_at_offset buf (p + 8)) (f32_at_offset buf (p + 12))
               (f32_at_offset buf (p + 16)))
            (mkVec3 (i32_at_offset buf (p + 20)) (i32_at_offset buf (p + 24))
               (i32_at_offset buf (p + 28)))
            (mkVec3 (f32_at_offset buf (p + 32)) (f32_at_offset buf (p + 36))
               (f32_at_offset buf (p + 40)))
            (le_decode (slice (p + 44) 4 buf))
            (le_decode (slice (p + 48) 4 buf)))
  else None.

(** The evaluation flags, by bit: suppress translation, rotation, scale;
    hidden; stop descending into children; other order of the rotation
    axes. *)
Definition no_translate (node : SceneNode) : bool := Z.testbit (node_eval_flags node) 0.
Definition no_rotate (node : SceneNode) : bool := Z.testbit (node_eval_flags node) 1.
Definition no_scale (node : SceneNode) : bool := Z.testbit (node_eval_flags node) 2.
Definition hidden (node : SceneNode) : bool := Z.testbit (node_eval_flags node) 3.
Definition break_child_trace (node : SceneNode) : bool :=
  Z.testbit (node_eval_flags node) 4.
Definition zxy_rotation_order (node : SceneNode) : bool :=
  Z.testbit (node_eval_flags node) 5.

(** The composition of the node's translation, rotation and scale, each
    the identity when its flag suppresses it. *)
Definition local_transform (node : SceneNode) : Matrix4 :=
  compose
    (if no_translate node
     then mkVec3 (number_of_int 0) (number_of_int 0) (number_of_int 0)
     else node_position node)
    (if no_rotate node
     then new_Quaternion (number_of_int 0) (number_of_int 0) (number_of_int 0)
            (number_of_int 1)
     else setFromEuler
            (mkEuler (rotation_number (vx (node_rotation node)))
               (rotation_number (vy (node_rotation node)))
               (rotation_number (vz (node_rotation node)))
               (if zxy_rotation_order node then "ZXY" else "ZYX")%string))
    (if no_scale node
     then mkVec3 (number_of_int 1) (number_of_int 1) (number_of_int 1)
     else node_scale node).

(** The world transform of a node under the world transform of its
    parent. *)
Definition world_transform (node : SceneNode) (parent : Matrix4) : Matrix4 :=
  premultiply (local_transform node) parent.


(** The state a call returns, when it returns. *)
Definition returned_state (r : result (ArrayBufferCursor * NjState)) : option NjState :=
  match r with
  | Ok (_, st) => Some st
  | Err _ => None
  end.



(** The rest of a call once the record of its node is read. *)
Definition visit (fuel chunk_fuel : nat) (buf : list byte) (p : Z) (node : SceneNode)
    (parent_matrix : Matrix4) (st : NjState) : result (ArrayBufferCursor * NjState) :=
  let matrix := world_transform node parent_matrix in
  '(cursor, st) <-
    (if negb (node_model_offset node =? 0) && negb (hidden node) then
       cursor <- seek_start (node_model_offset node) (mkCursor buf (p + 52)) ;;
       parse_model chunk_fuel cursor matrix st
     else Ok (mkCursor buf (p + 52), st)) ;;
  '(cursor, st) <-
    (if negb (node_child_offset node =? 0) && negb (break_child_trace node) then
       cursor <- seek_start (node_child_offset node) cursor ;;
       parse_sibling_objects fuel chunk_fuel cursor matrix st
     else Ok (cursor, st)) ;;
  if negb (node_sibling_offset node =? 0) then
    cursor <- seek_start (node_sibling_offset node) cursor ;;
    parse_sibling_objects fuel chunk_fuel cursor parent_matrix st
  else Ok (cursor, st).
End Scene.

(** ** The free interpretation of three.js *)

(** Every number, quaternion and matrix is the expression that built it.
    With it the parser runs on concrete bytes, and its output says which
    three.js operations produced each number, whatever their arithmetic. *)
Inductive Axis : Type := AxisX | AxisY | AxisZ.

Inductive SymNumber : Type :=
| SymF32 (bits : Z)
| SymInt (n : Z)
| SymRotation (raw : Z)
  (** a component of [new Vector3(x, y, z).applyMatrix4(matrix)] *)
| SymApplyMatrix4 (axis : Axis) (x y z : SymNumber) (matrix : SymMatrix4)
  (** a component of [new Vector3(x, y, z).applyMatrix3(normal_matrix)],
      [normal_matrix] the normal matrix of [matrix] *)
| SymApplyNormalMatrix (axis : Axis) (x y z : SymNumber) (matrix : SymMatrix4)
with SymMatrix4 : Type :=
| SymIdentity
| SymCompose (px py pz : SymNumber) (quaternion : SymQuaternion) (sx sy sz : SymNumber)
| SymPremultiply (matrix other : SymMatrix4)
with SymQuaternion : Type :=
| SymQuaternionNew (x y z w : SymNumber)
| SymSetFromEuler (x y z : SymNumber) (order : string).

Inductive SymMatrix3 : Type :=
| SymNormalMatrix (matrix : SymMatrix4).

Definition sym_applyMatrix4 (v : Vec3 SymNumber) (matrix : SymMatrix4) : Vec3 SymNumber :=
  mkVec3 (SymApplyMatrix4 AxisX (vx v) (vy v) (vz v) matrix)
    (SymApplyMatrix4 AxisY (vx v) (vy v) (vz v) matrix)
    (SymApplyMatrix4 AxisZ (vx v) (vy v) (vz v) matrix).

Definition sym_applyMatrix3 (v : Vec3 SymNumber) (normal_matrix : SymMatrix3)
  : Vec3 SymNumber :=
  match normal_matrix with
  | SymNormalMatrix matrix =>
      mkVec3 (SymApplyNormalMatrix AxisX (vx v) (vy v) (vz v) matrix)
        (SymApplyNormalMatrix AxisY (vx v) (vy v) (vz v) matrix)
        (SymApplyNormalMatrix AxisZ (vx v) (vy v) (vz v) matrix)
  end.

Definition free_three : ThreeJS := {|
  number := SymNumber;
  number_of_f32 := SymF32;
  number_of_int := SymInt;
  rotation_number := SymRotation;
  Quaternion := SymQuaternion;
  new_Quaternion := SymQuaternionNew;
  setFromEuler euler :=
    SymSetFromEuler (euler_x euler) (euler_y euler) (euler_z euler) (euler_order euler);
  Matrix4 := SymMatrix4;
  new_Matrix4 := SymIdentity;
  compose position quaternion scale :=
    SymCompose (vx position) (vy position) (vz position) quaternion
      (vx scale) (vy scale) (vz scale);
  premultiply := SymPremultiply;
  Matrix3 := SymMatrix3;
  getNormalMatrix := SymNormalMatrix;
  applyMatrix4 := sym_applyMatrix4;
  applyMatrix3 := sym_applyMatrix3
|}.

(** ** A scene of two siblings *)

(** The 52 bytes of a node record. *)
Definition node_record (eval_flags model_offset pos_x pos_y pos_z child_offset
                        sibling_offset : Z) : list byte :=
  le_encode 4 eval_flags ++ le_encode 4 model_offset
  ++ le_encode 4 pos_x ++ le_encode 4 pos_y ++ le_encode 4 pos_z
  ++ repeat x00 12 ++ repeat x00 12
  ++ le_encode 4 child_offset ++ le_encode 4 sibling_offset.

(** The bit patterns of the floats 1, 2 and 5. *)
Definition F32_ONE : Z := 0x3F800000.
Definition F32_FIVE : Z := 0x40A00000.

(** A vertex of a chunk of type 32: three floats and a fourth that is
    skipped. *)
Definition vertex_record (x y z : Z) : list byte :=
  le_encode 4 x ++ le_encode 4 y ++ le_encode 4 z ++ le_encode 4 F32_ONE.

(** A root node translated by (0, 5, 0) with two children that are
    siblings.  The first sibling, at offset 52, is translated by
    ([first_x], 0, 0); its model, at 156, has a vertex list, at 172, that
    stores the vertices (0, 0, 0), (1, 0, 0) and (0, 1, 0) in the slots 0,
    1 and 2, and has no polygon list.  The second sibling, at offset 104,
    has no translation; its model, at 164, has no vertex list, and its
    polygon list, at 232, holds one strip with the indices 0, 1, 2.  No
    node rotates or scales. *)
Definition sibling_scene (first_x : Z) : list byte :=
  node_record 6 0 0 F32_FIVE 0 52 0
  ++ node_record 6 156 first_x 0 0 0 104
  ++ node_record 7 164 0 0 0 0 0
  ++ (le_encode 4 172 ++ le_encode 4 0)
  ++ (le_encode 4 0 ++ le_encode 4 232)
  ++ (le_encode 1 32 ++ le_encode 1 0 ++ le_encode 2 13
      ++ le_encode 2 0 ++ le_encode 2 3
      ++ vertex_record 0 0 0 ++ vertex_record F32_ONE 0 0 ++ vertex_record 0 F32_ONE 0)
  ++ (le_encode 1 255 ++ le_encode 1 0 ++ le_encode 2 0)
  ++ (le_encode 1 64 ++ le_encode 1 0 ++ le_encode 2 5
      ++ le_encode 2 1 ++ le_encode 2 3
      ++ le_encode 2 0 ++ le_encode 2 1 ++ le_encode 2 2)
  ++ (le_encode 1 255 ++ le_encode 1 0).

Definition sym_translation (x y z : SymNumber) : SymMatrix4 :=
  SymCompose x y z (SymQuaternionNew (SymInt 0) (SymInt 0) (SymInt 0) (SymInt 1))
    (SymInt 1) (SymInt 1) (SymInt 1).

(** The world transforms of the root and of the two siblings. *)
Definition root_world : SymMatrix4 :=
  SymPremultiply (sym_translation (SymF32 0) (SymF32 F32_FIVE) (SymF32 0)) SymIdentity.

Definition first_sibling_world (first_x : Z) : SymMatrix4 :=
  SymPremultiply (sym_translation (SymF32 first_x) (SymF32 0) (SymF32 0)) root_world.


(** The position numbers of the triangle (0, 0, 0), (1, 0, 0), (0, 1, 0)
    under a transform. *)
Definition triangle_under (matrix : SymMatrix4) : list SymNumber :=
  flat_map (fun v : Z * Z * Z =>
              let '(x, y, z) := v in
              [SymApplyMatrix4 AxisX (SymF32 x) (SymF32 y) (SymF32 z) matrix;
               SymApplyMatrix4 AxisY (SymF32 x) (SymF32 y) (SymF32 z) matrix;
               SymApplyMatrix4 AxisZ (SymF32 x) (SymF32 y) (SymF32 z) matrix])
    [(0, 0, 0); (F32_ONE, 0, 0); (0, F32_ONE, 0)].

(** ** A strip over three stored vertices *)

(** The vertices of a chunk that stores (0, 0, 0), (1, 0, 0) and (0, 1, 0)
    at the indices 0, 1 and 2, and the slots after storing them under the
    identity. *)
Definition sample_chunk_vertices : list (ChunkVertex (three := free_three)) :=
  [ @mkChunkVertex free_three 0 (mkVec3 (SymF32 0) (SymF32 0) (SymF32 0)) None;
    @mkChunkVertex free_three 1 (mkVec3 (SymF32 F32_ONE) (SymF32 0) (SymF32 0)) None;
    @mkChunkVertex free_three 2 (mkVec3 (SymF32 0) (SymF32 F32_ONE) (SymF32 0)) None ].



(** * Further definitions used to state properties *)

(** ** Functions of a script *)

(** The byte offset behind a run of operations that starts at offset 0. *)
Definition operations_size (operations : list Operation) : Z :=
  fold_right Z.add 0 (map op_size operations).

(** A run of operations ends with its first [ret] (opcode 1), or runs to
    the end of the stream: none of its operations but the last is a [ret],
    and operations follow it only when the last one is a [ret]. *)
Definition ends_with_ret (func_ops after : list Operation) : Prop :=
  forall body last,
    func_ops = body ++ [last] ->
    Forall (fun op => opcode op <> 1) body /\ (opcode last = 1 \/ after = []).

(** ** Entity tables *)

(** A block of another entity type that the table layout can hold: a type
    that is neither the terminator nor objects nor NPCs, sizes that agree,
    and as many bytes as the header says. *)
Definition unknown_storable (unknown : DatUnknown) : Prop :=
  3 <= unk_entity_type unknown /\ is_u32 (unk_entity_type unknown)
  /\ is_u32 (unk_total_size unknown) /\ is_u32 (unk_area_id unknown)
  /\ unk_entities_size unknown = unk_total_size unknown - 16
  /\ Z.of_nat (length (unk_data unknown)) = unk_entities_size unknown.

(** A table with an object, an NPC and a block of entity type 3. *)
Definition table_with_unknown : DatData :=
  mkDatData [object_in_area 1] [npc_in_area 0] [mkDatUnknown 3 20 5 4 [x01; x02; x03; x04]].

(** An object block whose records are followed by [padding] bytes that its
    header counts among the entities. *)
Definition padded_object_block (l : list DatObject) (id : Z) (padding : list byte)
  : list byte :=
  let entities_size := 68 * Z.of_nat (length l) + Z.of_nat (length padding) in
  le_encode 4 1 ++ le_encode 4 (entities_size + 16) ++ le_encode 4 id
  ++ le_encode 4 entities_size ++ flat_map encode_object l ++ padding.

Definition final_header : list byte :=
  le_encode 4 0 ++ le_encode 4 0 ++ le_encode 4 0 ++ le_encode 4 0.

(** ** The warnings of [parse_qst], told from the chunks and the files *)

(** An earlier chunk carries the file name and the number of [ch]. *)
Definition repeated (seen : list Chunk) (ch : Chunk) : bool :=
  existsb (fun earlier => chunk_of (chunk_file_name ch) earlier
                          && (chunk_number earlier =? chunk_number ch)) seen.

Definition chunk_warnings (seen : list Chunk) (ch : Chunk) : list warning :=
  (if repeated seen ch
   then [WarnChunkOverwritten (chunk_number ch) (chunk_file_name ch)] else [])
  ++ (if chunk_declared_size ch >? 1024
      then [WarnSegmentTooLarge (chunk_declared_size ch)] else []).

Fixpoint stream_warnings (seen chunks : list Chunk) : list warning :=
  match chunks with
  | [] => []
  | ch :: rest => chunk_warnings seen ch ++ stream_warnings (seen ++ [ch]) rest
  end.

(** The warnings about one returned file: its size against the expected
    one, and the chunk numbers it lacks. *)
Definition returned_file_warnings (file : QstContainedFile) : list warning :=
  match expected_size file with
  | Some expected =>
      if size (data file) =? expected then []
      else [WarnFileSize (name file) (size (data file)) expected]
  | None => []
  end
  ++ flat_map (fun chunk_no =>
                 if existsb (Z.eqb chunk_no) (chunk_nos file) then []
                 else [WarnMissingChunk (name file) chunk_no])
       (chunk_numbers (expected_chunks file)).

(** ** The header fields [write_qst] writes *)

(** [file.quest_no || 0] *)
Definition written_quest_no (file : SimpleQstContainedFile) : Z :=
  match truthy (simple_quest_no file) with Some n => n | None => 0 end.

(** The second name [write_file_headers] writes: [file.name_2], or the name
    derived from [file.name] when that is null. *)
Definition written_name_2 (file : SimpleQstContainedFile) : string :=
  match simple_name_2 file with
  | None => derived_name_2 (simple_name file)
  | Some name_2 => name_2
  end.

(** The header [parse_headers] reads from what [write_file_headers] wrote
    for a file. *)
Definition header_read_back (file : SimpleQstContainedFile) : QstHeader :=
  mkQstHeader (written_quest_no file mod 65536)
    (parsed_name (simple_name file))
    (string_of_bytes (until_nul (name_field 24 (written_name_2 file))))
    (size (simple_data file) mod 4294967296).

(** * Model files (nj.js) *)


(** The output arrays after whole triangles were appended: nine position
    numbers and nine normal entries for each. *)
Definition grown_by_triangles {number : Type}
    (before after : list number * list (option number)) : Prop :=
  exists (added_positions : list number) (added_normals : list (option number))
         (triangles : nat),
    after = (fst before ++ added_positions, snd before ++ added_normals)
    /\ length added_positions = (9 * triangles)%nat
    /\ length added_normals = (9 * triangles)%nat.

(** The two output arrays of a traversal state. *)
Definition state_output {three : ThreeJS} (st : NjState)
  : list number * list (option number) :=
  (positions st, normals st).

(** A node without a model at offset 52 whose sibling offset is 52, after a
    root node without model, child or sibling. *)
Definition cyclic_scene : list byte :=
  node_record 0 0 0 0 0 0 0 ++ node_record 0 0 0 0 0 0 52.

(** ** parse_nj (nj.js lines 22-38) *)

(** The [while (cursor.bytes_left)] of [parse_nj], with at most [passes]
    passes of its body; [fuel] and [chunk_fuel] are those of [parse_njcm].
    [None] is the source's [null]. *)
Fixpoint parse_nj {three : ThreeJS} (passes fuel chunk_fuel : nat)
    (cursor : ArrayBufferCursor)
  : result (option (list number * list (option number)) * list warning) :=
  if negb (bytes_left cursor =? 0) then
    match passes with
    | O => Err OutOfFuel
    | S passes =>
        '(iff_type_id, cursor) <- string_ascii 4 false false cursor ;;
        '(iff_chunk_size, cursor) <- u32 cursor ;;
        if String.eqb iff_type_id "NJCM" then
          '(chunk, _) <- take iff_chunk_size cursor ;;
          parse_njcm fuel chunk_fuel chunk
        else
          cursor <- seek iff_chunk_size cursor ;;
          parse_nj passes fuel chunk_fuel cursor
    end
  else Ok (None, []).

(** A chunk of the IFF container: four characters of type, the size of the
    body in 32 bits, the body. *)
Definition iff_chunk (chunk : string * list byte) : list byte :=
  string_to_bytes (fst chunk) ++ le_encode 4 (Z.of_nat (length (snd chunk))) ++ snd chunk.

(** A chunk that [parse_nj] passes over. *)
Definition other_chunk (chunk : string * list byte) : Prop :=
  String.length (fst chunk) = 4%nat /\ fst chunk <> "NJCM"%string
  /\ Z.of_nat (length (snd chunk)) < 4294967296.

(** The bytes [parse_chunk_vertex] reads for one vertex of a chunk of the
    given type: the position, then what the type adds. *)
Definition vertex_stride (chunk_type_id : Z) : Z :=
  12 + (if chunk_type_id =? 32 then 4
        else if chunk_type_id =? 33 then 20
        else if (35 <=? chunk_type_id) && (chunk_type_id <=? 40) then 4
        else if (41 <=? chunk_type_id) && (chunk_type_id <=? 47) then
          12 + (if chunk_type_id >=? 42 then 4 else 0)
        else if chunk_type_id >=? 48 then
          4 + (if chunk_type_id >=? 49 then 4 else 0)
        else 0).

(** The chunk types whose vertices carry their own index offset (the
    "ninja flags"). *)
Definition has_ninja_flags (chunk_type_id : Z) : bool :=
  (chunk_type_id =? 37) || (chunk_type_id =? 44).

(** The body of a vertex chunk of type 32: index 0, three vertices. *)
Definition sample_vertex_chunk : list byte :=
  le_encode 2 0 ++ le_encode 2 3
  ++ vertex_record 0 0 0 ++ vertex_record F32_ONE 0 0 ++ vertex_record 0 F32_ONE 0.

(** * Area assets (area asset loader) *)

(** The name of the map of every area, with its number of variants. *)
Definition base_names : list (string * Z) :=
  [("city00_00", 1); ("forest01", 1); ("forest02", 1); ("cave01_", 6); ("cave02_", 5);
   ("cave03_", 6); ("machine01_", 6); ("machine02_", 6); ("ancient01_", 5);
   ("ancient02_", 5); ("ancient03_", 5); ("boss01", 1); ("boss02", 1); ("boss03", 1);
   ("darkfalz00", 1)]%string.

Inductive area_error : Type :=
| UnknownArea (area_id : Z)
| UnknownVariant (area_variant area_id : Z).

(** [String(n)] for an integer [n]. *)
Definition number_to_string (n : Z) : string :=
  DecimalString.NilZero.string_of_int (Z.to_int n).

(** [while (variant.length < 2) variant = '0' + variant], [passes] passes at
    most; every pass makes the string longer, two passes are enough. *)
Fixpoint pad_variant (passes : nat) (variant : string) : string :=
  match passes with
  | O => variant
  | S passes =>
      if (String.length variant <? 2)%nat then pad_variant passes ("0" ++ variant)
      else variant
  end.

(** For integer ids; [base_url] is [process.env.PUBLIC_URL]. *)
Definition area_version_to_base_url (base_url : string) (area_id area_variant : Z)
  : area_error + string :=
  if (0 <=? area_id) && (area_id <? Z.of_nat (length base_names)) then
    match nth_error base_names (Z.to_nat area_id) with
    | Some (base_name, variants) =>
        if (0 <=? area_variant) && (area_variant <? variants) then
          let variant :=
            if variants =? 1 then ""%string
            else pad_variant 2 (number_to_string area_variant) in
          inr (base_url ++ "/maps/map_" ++ base_name ++ variant)%string
        else inl (UnknownVariant area_variant area_id)
    | None => inl (UnknownArea area_id)
    end
  else inl (UnknownArea area_id).

Inductive AreaAssetType : Type := Render | Collision.

(** The URL that [get_area_asset] hands to [get_asset], or the error its
    promise is rejected with. *)
Definition get_area_asset (base_url : string) (area_id area_variant : Z)
    (type : AreaAssetType) : area_error + string :=
  match area_version_to_base_url base_url area_id area_variant with
  | inr base =>
      inr (base ++ match type with Render => "n.rel" | Collision => "c.rel" end)%string
  | inl e => inl e
  end.

(** The areas with their variants, and the two asset types. *)
Definition area_variants : list (Z * Z) :=
  flat_map (fun area_id =>
              match nth_error base_names area_id with
              | Some (_, variants) =>
                  map (fun variant => (Z.of_nat area_id, Z.of_nat variant))
                    (seq 0 (Z.to_nat variants))
              | None => []
              end)
    (seq 0 (length base_names)).

Definition area_assets : list (Z * Z * AreaAssetType) :=
  flat_map (fun area => [(fst area, snd area, Render); (fst area, snd area, Collision)])
    area_variants.

(** The URL of an asset below the base URL. *)
Definition relative_url (asset : Z * Z * AreaAssetType) : option string :=
  let '(area_id, area_variant, type) := asset in
  match get_area_asset "" area_id area_variant type with
  | inr url => Some url
  | inl _ => None
  end.

Definition same_asset (a b : Z * Z * AreaAssetType) : bool :=
  let '(area_id, area_variant, type) := a in
  let '(area_id', area_variant', type') := b in
  (area_id =? area_id') && (area_variant =? area_variant')
  && match type, type' with
     | Render, Render | Collision, Collision => true
     | _, _ => false
     end.

(** No two assets of the list have the same relative URL. *)
Definition urls_distinct : bool :=
  forallb (fun a =>
             forallb (fun b =>
                        match relative_url a, relative_url b with
                        | Some url, Some url' => implb (String.eqb url url') (same_asset a b)
                        | _, _ => true
                        end)
               area_assets)
    area_assets.


(** * Bytes *)

Lemma byte_to_Z_range (b : byte) : 0 <= byte_to_Z b < 256.
Proof.
  unfold byte_to_Z. pose proof (Byte.to_N_bounded b). lia.
Qed.

Lemma byte_of_to_Z (b : byte) : byte_of_Z (byte_to_Z b) = b.
Proof.
  unfold byte_of_Z. pose proof (byte_to_Z_range b) as Hr.
  rewrite Z.mod_small by exact Hr.
  unfold byte_to_Z. rewrite N2Z.id, Byte.of_to_N. reflexivity.
Qed.

Lemma byte_to_of_Z (v : Z) : byte_to_Z (byte_of_Z v) = v mod 256.
Proof.
  unfold byte_of_Z, byte_to_Z.
  pose proof (Z.mod_pos_bound v 256 ltac:(lia)) as Hr.
  destruct (Byte.of_N (Z.to_N (v mod 256))) as [b|] eqn:E.
  - apply Byte.to_of_N in E. rewrite E. lia.
  - apply Byte.of_N_None_iff in E. lia.
Qed.

Lemma le_encode_length (n : nat) (v : Z) : length (le_encode n v) = n.
Proof.
  revert v. induction n as [|n IH]; intros v; simpl; [reflexivity|].
  now rewrite IH.
Qed.

Lemma le_decode_encode (n : nat) (v : Z) :
  le_decode (le_encode n v) = v mod 256 ^ Z.of_nat n.
Proof.
  revert v. induction n as [|n IH]; intros v.
  - simpl. now rewrite Z.mod_1_r.
  - cbn [le_encode le_decode]. rewrite IH, byte_to_of_Z.
    rewrite Nat2Z.inj_succ, Z.pow_succ_r by lia.
    rewrite Z.rem_mul_r by lia. reflexivity.
Qed.

Lemma le_decode_range (bs : list byte) : 0 <= le_decode bs < 256 ^ Z.of_nat (length bs).
Proof.
  induction bs as [|b bs IH].
  - simpl. lia.
  - cbn [le_decode length]. rewrite Nat2Z.inj_succ, Z.pow_succ_r by lia.
    pose proof (byte_to_Z_range b). lia.
Qed.

Lemma le_encode_decode (bs : list byte) : le_encode (length bs) (le_decode bs) = bs.
Proof.
  induction bs as [|b bs IH]; [reflexivity|].
  cbn [le_decode length le_encode]. pose proof (byte_to_Z_range b) as Hb.
  f_equal.
  - unfold byte_of_Z.
    replace ((byte_to_Z b + 256 * le_decode bs) mod 256) with (byte_to_Z b).
    + unfold byte_to_Z. now rewrite N2Z.id, Byte.of_to_N.
    + rewrite (Z.mul_comm 256), Z.mod_add by lia. now rewrite Z.mod_small.
  - replace ((byte_to_Z b + 256 * le_decode bs) / 256) with (le_decode bs); [exact IH|].
    rewrite (Z.mul_comm 256), Z.div_add by lia.
    rewrite Z.div_small by lia. lia.
Qed.

Lemma to_signed_mod (bits v : Z) :
  0 < bits -> - 2 ^ (bits - 1) <= v < 2 ^ (bits - 1) ->
  to_signed bits (v mod 2 ^ bits) = v.
Proof.
  intros Hb Hv. unfold to_signed.
  assert (H2 : 2 ^ bits = 2 * 2 ^ (bits - 1)).
  { replace bits with (Z.succ (bits - 1)) at 1 by lia. apply Z.pow_succ_r. lia. }
  destruct (Z.ltb_spec (v mod 2 ^ bits) (2 ^ (bits - 1))) as [Hlt|Hge].
  - destruct (Z.neg_nonneg_cases v) as [Hn|Hp].
    + exfalso. rewrite <- (Z.mod_add v 1 (2 ^ bits)) in Hlt by lia.
      rewrite Z.mod_small in Hlt by lia. lia.
    + apply Z.mod_small. lia.
  - destruct (Z.neg_nonneg_cases v) as [Hn|Hp].
    + rewrite <- (Z.mod_add v 1 (2 ^ bits)) by lia.
      rewrite Z.mod_small by lia. lia.
    + rewrite Z.mod_small in Hge by lia. lia.
Qed.

(** * Cursor positions inside a buffer *)

Lemma cursor_of_bytes_at (bs : list byte) : cursor_of_bytes bs = at_pos [] bs.
Proof. reflexivity. Qed.

Lemma bytes_left_at (pre rest : list byte) :
  bytes_left (at_pos pre rest) = Z.of_nat (length rest).
Proof.
  unfold bytes_left, size, at_pos. cbn [buffer position].
  rewrite length_app. lia.
Qed.

Lemma position_at (pre rest : list byte) : position (at_pos pre rest) = Z.of_nat (length pre).
Proof. reflexivity. Qed.

Lemma slice_at (pre w rest : list byte) :
  slice (Z.of_nat (length pre)) (Z.of_nat (length w)) (pre ++ w ++ rest) = w.
Proof.
  unfold slice. rewrite !Nat2Z.id.
  rewrite skipn_app, skipn_all, Nat.sub_diag. cbn [skipn app].
  rewrite firstn_app, firstn_all, Nat.sub_diag. cbn [firstn]. apply app_nil_r.
Qed.

Lemma at_pos_shift (pre w rest : list byte) :
  mkCursor (pre ++ w ++ rest) (Z.of_nat (length pre) + Z.of_nat (length w))
  = at_pos (pre ++ w) rest.
Proof.
  unfold at_pos. rewrite <- app_assoc, length_app. f_equal. lia.
Qed.

Lemma u8_array_at (n : Z) (pre w rest : list byte) :
  Z.of_nat (length w) = n ->
  u8_array n (at_pos pre (w ++ rest)) = Ok (w, at_pos (pre ++ w) rest).
Proof.
  intros <-. unfold u8_array. rewrite bytes_left_at, length_app.
  destruct (Z.ltb_spec (Z.of_nat (length w)) 0); [lia|].
  destruct (Z.ltb_spec (Z.of_nat (length w + length rest)) (Z.of_nat (length w))); [lia|].
  cbn [orb]. change (buffer (at_pos pre (w ++ rest))) with (pre ++ w ++ rest).
  change (position (at_pos pre (w ++ rest))) with (Z.of_nat (length pre)).
  now rewrite slice_at, at_pos_shift.
Qed.

Lemma u8_array_short (n : Z) (pre rest : list byte) :
  Z.of_nat (length rest) < n -> u8_array n (at_pos pre rest) = Err OutOfBounds.
Proof.
  intros H. unfold u8_array. rewrite bytes_left_at.
  destruct (Z.ltb_spec (Z.of_nat (length rest)) n); [|lia].
  now rewrite orb_true_r.
Qed.

Lemma read_uint_at (n : nat) (v : Z) (pre rest : list byte) :
  read_uint (Z.of_nat n) (at_pos pre (le_encode n v ++ rest))
  = Ok (v mod 256 ^ Z.of_nat n, at_pos (pre ++ le_encode n v) rest).
Proof.
  unfold read_uint. rewrite u8_array_at by (now rewrite le_encode_length).
  cbn [bind]. now rewrite le_decode_encode.
Qed.

Lemma u16_at (v : Z) (pre rest : list byte) :
  u16 (at_pos pre (le_encode 2 v ++ rest)) = Ok (v mod 65536, at_pos (pre ++ le_encode 2 v) rest).
Proof. exact (read_uint_at 2 v pre rest). Qed.

Lemma u32_at (v : Z) (pre rest : list byte) :
  u32 (at_pos pre (le_encode 4 v ++ rest))
  = Ok (v mod 4294967296, at_pos (pre ++ le_encode 4 v) rest).
Proof. exact (read_uint_at 4 v pre rest). Qed.

Lemma f32_at (v : Z) (pre rest : list byte) :
  f32 (at_pos pre (le_encode 4 v ++ rest))
  = Ok (v mod 4294967296, at_pos (pre ++ le_encode 4 v) rest).
Proof. exact (read_uint_at 4 v pre rest). Qed.

Lemma i32_at (v : Z) (pre rest : list byte) :
  -2147483648 <= v < 2147483648 ->
  i32 (at_pos pre (le_encode 4 v ++ rest)) = Ok (v, at_pos (pre ++ le_encode 4 v) rest).
Proof.
  intros Hv. unfold i32. pose proof (u32_at v pre rest) as H. unfold u32 in H.
  rewrite H. cbn [bind]. change 4294967296 with (2 ^ 32).
  rewrite to_signed_mod; [reflexivity|lia|]. change (2 ^ (32 - 1)) with 2147483648. lia.
Qed.

(** * Appending writes *)

Lemma write_u8_array_at_end (w l : list byte) :
  write_u8_array w (at_pos l []) = at_pos (l ++ w) [].
Proof.
  unfold write_u8_array, at_pos, pad_to. cbn [buffer position].
  rewrite !app_nil_r, Nat2Z.id.
  rewrite firstn_app, firstn_all, Nat.sub_diag. cbn [firstn].
  rewrite skipn_all2 by lia. rewrite !app_nil_r, length_app. f_equal. lia.
Qed.

Lemma new_cursor_at (capacity : Z) : new_cursor capacity = at_pos [] [].
Proof. reflexivity. Qed.

(** * Blocks of an entity table *)

(** * Reads in the middle of a buffer *)

Lemma u8_array_ok (n : Z) (b : list byte) (p : Z) :
  0 <= n -> p + n <= Z.of_nat (length b) ->
  u8_array n (mkCursor b p) = Ok (slice p n b, mkCursor b (p + n)).
Proof.
  intros Hn Hp. unfold u8_array, bytes_left, size. cbn [buffer position].
  destruct (Z.ltb_spec n 0); [lia|].
  destruct (Z.ltb_spec (Z.of_nat (length b) - p) n); [lia|]. reflexivity.
Qed.

Lemma u8_array_cases (n : Z) (c : ArrayBufferCursor) :
  (u8_array n c = Ok (slice (position c) n (buffer c), mkCursor (buffer c) (position c + n))
   /\ 0 <= n <= bytes_left c)
  \/ (u8_array n c = Err OutOfBounds /\ (n < 0 \/ bytes_left c < n)).
Proof.
  unfold u8_array.
  destruct (Z.ltb_spec n 0); [right; split; [reflexivity|lia]|].
  destruct (Z.ltb_spec (bytes_left c) n); [right; split; [reflexivity|lia]|].
  left. split; [reflexivity|lia].
Qed.

Lemma read_uint_ok (n : Z) (b : list byte) (p : Z) :
  0 <= n -> p + n <= Z.of_nat (length b) ->
  read_uint n (mkCursor b p) = Ok (le_decode (slice p n b), mkCursor b (p + n)).
Proof.
  intros Hn Hp. unfold read_uint. now rewrite u8_array_ok.
Qed.

Lemma read_uint_cases (n : Z) (c : ArrayBufferCursor) :
  (read_uint n c = Ok (le_decode (slice (position c) n (buffer c)),
                       mkCursor (buffer c) (position c + n))
   /\ 0 <= n <= bytes_left c)
  \/ (read_uint n c = Err OutOfBounds /\ (n < 0 \/ bytes_left c < n)).
Proof.
  unfold read_uint. destruct (u8_array_cases n c) as [[-> H] | [-> H]]; auto.
Qed.

Lemma i32_cases (c : ArrayBufferCursor) :
  (i32 c = Ok (to_signed 32 (le_decode (slice (position c) 4 (buffer c))),
               mkCursor (buffer c) (position c + 4))
   /\ 0 <= 4 <= bytes_left c)
  \/ (i32 c = Err OutOfBounds /\ (4 < 0 \/ bytes_left c < 4)).
Proof.
  unfold i32. destruct (read_uint_cases 4 c) as [[-> H] | [-> H]]; auto.
Qed.

Lemma seek_cases (off : Z) (c : ArrayBufferCursor) :
  (seek off c = Ok (mkCursor (buffer c) (position c + off))
   /\ 0 <= position c + off <= size c)
  \/ (seek off c = Err OutOfBounds /\ (position c + off < 0 \/ size c < position c + off)).
Proof.
  unfold seek, seek_start.
  destruct (Z.ltb_spec (position c + off) 0); [right; split; [reflexivity|lia]|].
  destruct (Z.ltb_spec (size c) (position c + off)); [right; split; [reflexivity|lia]|].
  left. split; [reflexivity|lia].
Qed.

Lemma bytes_left_mk (b : list byte) (p : Z) :
  bytes_left (mkCursor b p) = Z.of_nat (length b) - p.
Proof. reflexivity. Qed.

Ltac read_step :=
  let H := fresh "Hread" in
  match goal with
  | |- context [bind (u8_array ?n ?c) _] =>
      destruct (u8_array_cases n c) as [[-> H] | [-> H]]
  | |- context [bind (u16 ?c) _] =>
      unfold u16 at 1; destruct (read_uint_cases 2 c) as [[-> H] | [-> H]]
  | |- context [bind (u32 ?c) _] =>
      unfold u32 at 1; destruct (read_uint_cases 4 c) as [[-> H] | [-> H]]
  | |- context [bind (f32 ?c) _] =>
      unfold f32 at 1; destruct (read_uint_cases 4 c) as [[-> H] | [-> H]]
  | |- context [bind (i32 ?c) _] =>
      destruct (i32_cases c) as [[-> H] | [-> H]]
  end;
  cbn [bind buffer position]; rewrite ?bytes_left_mk in H; cbn [buffer position] in H.

Lemma parse_dat_object_fixed (area_id : Z) : fixed_reader OBJECT_SIZE (parse_dat_object area_id).
Proof.
  intros c. unfold parse_dat_object, moves_by, OBJECT_SIZE, bytes_left, size.
  repeat (read_step; [|split; [reflexivity|unfold bytes_left, size in *; lia]]).
  split; [f_equal; lia|unfold bytes_left, size in *; lia].
Qed.

Lemma parse_dat_npc_fixed (area_id : Z) : fixed_reader NPC_SIZE (parse_dat_npc area_id).
Proof.
  intros c. unfold parse_dat_npc, moves_by, NPC_SIZE, bytes_left, size.
  repeat (read_step; [|split; [reflexivity|unfold bytes_left, size in *; lia]]).
  split; [f_equal; lia|unfold bytes_left, size in *; lia].
Qed.

Lemma parse_records_moves {A : Type} (width : Z)
    (parse_one : ArrayBufferCursor -> result (A * ArrayBufferCursor)) :
  0 <= width -> fixed_reader width parse_one ->
  forall (count : nat) (c : ArrayBufferCursor) (acc : list A),
    0 <= bytes_left c ->
    moves_by (Z.of_nat count * width) c (parse_records parse_one count c acc).
Proof.
  intros Hw Hfix count. induction count as [|n IH]; intros c acc Hc.
  - cbn [parse_records moves_by]. destruct c as [b p]. cbn [buffer position].
    split; [f_equal; lia|lia].
  - cbn [parse_records]. specialize (Hfix c). unfold moves_by in Hfix.
    destruct (parse_one c) as [[r c']|e]; cbn [bind].
    + destruct Hfix as [-> Hfit].
      specialize (IH (mkCursor (buffer c) (position c + width)) (acc ++ [r])).
      rewrite bytes_left_mk in IH. unfold bytes_left, size in Hfit, Hc.
      specialize (IH ltac:(lia)).
      unfold moves_by in *. destruct (parse_records _ _ _ _) as [[l c']|e].
      * destruct IH as [-> IH]. cbn [buffer position] in *.
        rewrite bytes_left_mk in IH. unfold bytes_left, size.
        rewrite Nat2Z.inj_succ. split; [f_equal; lia|lia].
      * destruct IH as [-> IH]. cbn [buffer position] in *.
        rewrite bytes_left_mk in IH. unfold bytes_left, size.
        rewrite Nat2Z.inj_succ. split; [reflexivity|lia].
    + destruct Hfix as [-> Hfit]. rewrite Nat2Z.inj_succ. split; [reflexivity|nia].
Qed.

(** * One pass of the block loop *)

Section BlockLoop.
Variable buf : list byte.
Variables (p : Z) (fuel : nat) (acc : DatData) (warnings : list warning).
Hypothesis Hp : 0 <= p.

Lemma parse_dat_loop_end :
  p = Z.of_nat (length buf) ->
  parse_dat_loop (S fuel) (mkCursor buf p) acc warnings = Ok (acc, warnings).
Proof.
  intros ->. cbn [parse_dat_loop]. rewrite bytes_left_mk, Z.sub_diag. reflexivity.
Qed.

Lemma header_at_none :
  header_at buf p = None -> Z.of_nat (length buf) < p + 16.
Proof.
  unfold header_at. destruct (Z.leb_spec 0 p); [|lia].
  destruct (Z.leb_spec (p + 16) (Z.of_nat (length buf))); [discriminate|lia].
Qed.

Lemma header_at_some h :
  header_at buf p = Some h -> p + 16 <= Z.of_nat (length buf).
Proof.
  unfold header_at. destruct (Z.leb_spec 0 p); [|discriminate].
  destruct (Z.leb_spec (p + 16) (Z.of_nat (length buf))); [lia|discriminate].
Qed.

Lemma parse_dat_loop_no_header :
  p < Z.of_nat (length buf) -> header_at buf p = None ->
  parse_dat_loop (S fuel) (mkCursor buf p) acc warnings = Err OutOfBounds.
Proof.
  intros Hlt Hnone. apply header_at_none in Hnone.
  cbn [parse_dat_loop]. rewrite bytes_left_mk.
  destruct (Z.eqb_spec (Z.of_nat (length buf) - p) 0); [lia|].
  repeat (read_step; [|reflexivity]). lia.
Qed.

Variables entity_type total_size area_id entities_size : Z.
Hypothesis Hhdr : header_at buf p = Some (entity_type, total_size, area_id, entities_size).

Lemma parse_dat_loop_header :
  parse_dat_loop (S fuel) (mkCursor buf p) acc warnings =
  let cursor := mkCursor buf (p + 16) in
  if entity_type =? 0 then Ok (acc, warnings)
  else if negb (entities_size =? total_size - 16)
  then Err (MalformedDat (total_size - 16) entities_size)
  else if entity_type =? 1 then
    let object_count := entities_size / OBJECT_SIZE in
    let start_position := position cursor in
    '(objs', cursor) <-
      parse_records (parse_dat_object area_id) (Z.to_nat object_count) cursor (objs acc) ;;
    '(cursor, warnings) <- resync start_position entities_size entity_type cursor warnings ;;
    parse_dat_loop fuel cursor (mkDatData objs' (npcs acc) (unknowns acc)) warnings
  else if entity_type =? 2 then
    let npc_count := entities_size / NPC_SIZE in
    let start_position := position cursor in
    '(npcs', cursor) <-
      parse_records (parse_dat_npc area_id) (Z.to_nat npc_count) cursor (npcs acc) ;;
    '(cursor, warnings) <- resync start_position entities_size entity_type cursor warnings ;;
    parse_dat_loop fuel cursor (mkDatData (objs acc) npcs' (unknowns acc)) warnings
  else
    '(data, cursor) <- u8_array entities_size cursor ;;
    parse_dat_loop fuel cursor
      (mkDatData (objs acc) (npcs acc)
         (unknowns acc ++ [mkDatUnknown entity_type total_size area_id entities_size data]))
      warnings.
Proof.
  pose proof (header_at_some _ Hhdr) as Hfit.
  unfold header_at in Hhdr.
  destruct (Z.leb_spec 0 p); [|lia].
  destruct (Z.leb_spec (p + 16) (Z.of_nat (length buf))); [|lia].
  cbn [andb] in Hhdr. injection Hhdr as <- <- <- <-.
  cbn [parse_dat_loop]. rewrite bytes_left_mk.
  destruct (Z.eqb_spec (Z.of_nat (length buf) - p) 0); [lia|].
  unfold u32. repeat (rewrite read_uint_ok by lia; cbn [bind]).
  replace (p + 4 + 4) with (p + 8) by lia.
  replace (p + 8 + 4) with (p + 12) by lia.
  replace (p + 12 + 4) with (p + 16) by lia.
  reflexivity.
Qed.

Lemma entities_size_nonneg : 0 <= entities_size.
Proof.
  unfold header_at in Hhdr. destruct (_ && _); [|discriminate].
  injection Hhdr as <- <- <- <-. apply le_decode_range.
Qed.

Lemma parse_dat_loop_terminator :
  entity_type = 0 ->
  parse_dat_loop (S fuel) (mkCursor buf p) acc warnings = Ok (acc, warnings).
Proof.
  intros H0. rewrite parse_dat_loop_header. cbv zeta.
  destruct (Z.eqb_spec entity_type 0); [reflexivity|contradiction].
Qed.

Lemma parse_dat_loop_malformed :
  entity_type <> 0 -> entities_size <> total_size - 16 ->
  parse_dat_loop (S fuel) (mkCursor buf p) acc warnings
  = Err (MalformedDat (total_size - 16) entities_size).
Proof.
  intros Ht Hne. rewrite parse_dat_loop_header. cbv zeta.
  destruct (Z.eqb_spec entity_type 0); [contradiction|].
  destruct (Z.eqb_spec entities_size (total_size - 16)); [contradiction|reflexivity].
Qed.

(** The records of a block and the resynchronisation after them. *)
Lemma records_then_resync {A : Type} (width : Z)
    (parse_one : ArrayBufferCursor -> result (A * ArrayBufferCursor)) (l0 : list A) :
  0 < width -> fixed_reader width parse_one ->
  match
    '(l, cursor) <-
      parse_records parse_one (Z.to_nat (entities_size / width)) (mkCursor buf (p + 16)) l0 ;;
    '(cursor, warnings') <- resync (p + 16) entities_size entity_type cursor warnings ;;
    Ok (l, cursor, warnings')
  with
  | Ok (_, cursor, _) =>
      cursor = mkCursor buf (p + 16 + entities_size)
      /\ p + 16 + entities_size <= Z.of_nat (length buf)
  | Err e => e = OutOfBounds /\ Z.of_nat (length buf) < p + 16 + entities_size
  end.
Proof.
  intros Hw Hfix. pose proof entities_size_nonneg as Hes.
  pose proof (header_at_some _ Hhdr) as Hfit.
  pose proof (parse_records_moves width parse_one ltac:(lia) Hfix
                (Z.to_nat (entities_size / width)) (mkCursor buf (p + 16)) l0) as Hm.
  rewrite bytes_left_mk in Hm. specialize (Hm ltac:(lia)).
  rewrite Z2Nat.id in Hm by (apply Z.div_pos; lia).
  assert (Hle : entities_size / width * width <= entities_size).
  { rewrite Z.mul_comm. apply Z.mul_div_le. lia. }
  unfold moves_by in Hm.
  destruct (parse_records _ _ _ _) as [[l c']|e]; cbn [bind].
  - destruct Hm as [-> Hm]. cbn [buffer position] in *. rewrite bytes_left_mk in Hm.
    unfold resync. cbn [position].
    destruct (Z.eqb_spec (p + 16 + entities_size / width * width - (p + 16)) entities_size)
      as [Heq|Hneq]; cbn [bind].
    + split; [f_equal; lia|lia].
    + destruct (seek_cases (entities_size
                            - (p + 16 + entities_size / width * width - (p + 16)))
                  (mkCursor buf (p + 16 + entities_size / width * width)))
        as [[-> Hs] | [-> Hs]]; cbn [bind buffer position] in *; unfold size in Hs;
        cbn [buffer] in Hs.
      * split; [f_equal; lia|lia].
      * split; [reflexivity|lia].
  - destruct Hm as [-> Hm]. rewrite bytes_left_mk in Hm. split; [reflexivity|lia].
Qed.

Hypothesis Htype : entity_type <> 0.
Hypothesis Hsize : entities_size = total_size - 16.

Lemma parse_dat_loop_block :
  p + 16 + entities_size <= Z.of_nat (length buf) ->
  exists acc' warnings',
    parse_dat_loop (S fuel) (mkCursor buf p) acc warnings
    = parse_dat_loop fuel (mkCursor buf (p + 16 + entities_size)) acc' warnings'.
Proof.
  intros Hfit. rewrite parse_dat_loop_header. cbv zeta.
  destruct (Z.eqb_spec entity_type 0); [contradiction|].
  destruct (Z.eqb_spec entities_size (total_size - 16)); [|contradiction]. cbn [negb].
  destruct (Z.eqb_spec entity_type 1); [|destruct (Z.eqb_spec entity_type 2)].
  - pose proof (records_then_resync OBJECT_SIZE (parse_dat_object area_id) (objs acc)
                  ltac:(reflexivity) (parse_dat_object_fixed area_id)) as H.
    cbn [position].
    destruct (parse_records _ _ _ _) as [[l c']|err1]; cbn [bind] in *; [|lia].
    destruct (resync _ _ _ _ _) as [[c'' w']|err2]; cbn [bind] in *; [|lia].
    destruct H as [-> _]. eauto.
  - pose proof (records_then_resync NPC_SIZE (parse_dat_npc area_id) (npcs acc)
                  ltac:(reflexivity) (parse_dat_npc_fixed area_id)) as H.
    cbn [position].
    destruct (parse_records _ _ _ _) as [[l c']|err1]; cbn [bind] in *; [|lia].
    destruct (resync _ _ _ _ _) as [[c'' w']|err2]; cbn [bind] in *; [|lia].
    destruct H as [-> _]. eauto.
  - pose proof entities_size_nonneg. rewrite u8_array_ok by lia. cbn [bind]. eauto.
Qed.

Lemma parse_dat_loop_truncated :
  Z.of_nat (length buf) < p + 16 + entities_size ->
  parse_dat_loop (S fuel) (mkCursor buf p) acc warnings = Err OutOfBounds.
Proof.
  intros Hshort. rewrite parse_dat_loop_header. cbv zeta.
  destruct (Z.eqb_spec entity_type 0); [contradiction|].
  destruct (Z.eqb_spec entities_size (total_size - 16)); [|contradiction]. cbn [negb].
  destruct (Z.eqb_spec entity_type 1); [|destruct (Z.eqb_spec entity_type 2)].
  - pose proof (records_then_resync OBJECT_SIZE (parse_dat_object area_id) (objs acc)
                  ltac:(reflexivity) (parse_dat_object_fixed area_id)) as H.
    cbn [position].
    destruct (parse_records _ _ _ _) as [[l c']|err1]; cbn [bind] in *;
      [|destruct H as [-> _]; reflexivity].
    destruct (resync _ _ _ _ _) as [[c'' w']|err2]; cbn [bind] in *; [lia|].
    destruct H as [-> _]; reflexivity.
  - pose proof (records_then_resync NPC_SIZE (parse_dat_npc area_id) (npcs acc)
                  ltac:(reflexivity) (parse_dat_npc_fixed area_id)) as H.
    cbn [position].
    destruct (parse_records _ _ _ _) as [[l c']|err1]; cbn [bind] in *;
      [|destruct H as [-> _]; reflexivity].
    destruct (resync _ _ _ _ _) as [[c'' w']|err2]; cbn [bind] in *; [lia|].
    destruct H as [-> _]; reflexivity.
  - destruct (u8_array_cases entities_size (mkCursor buf (p + 16))) as [[-> H] | [-> H]];
      [rewrite bytes_left_mk in H; lia|reflexivity].
Qed.
End BlockLoop.

(** * The size check of [parse_dat] *)

Lemma block_at_range (buf : list byte) (p : Z) :
  block_at buf p -> 0 <= p <= Z.of_nat (length buf).
Proof.
  induction 1 as [|p et ts a es Hb IH Hh Ht Hs Hfit]; [lia|].
  pose proof (entities_size_nonneg buf p et ts a es Hh). lia.
Qed.

(** The loop arrives at every block, with fuel to spare. *)
Lemma block_at_reached (buf : list byte) (p : Z) :
  block_at buf p ->
  exists fuel acc warnings,
    Z.of_nat (length buf) < Z.of_nat fuel + p
    /\ parse_dat (cursor_of_bytes buf) = parse_dat_loop fuel (mkCursor buf p) acc warnings.
Proof.
  induction 1 as [|p et ts a es Hb IH Hh Ht Hs Hfit].
  - exists (S (length buf)), (mkDatData [] [] []), []. split; [lia|reflexivity].
  - destruct IH as (fuel & acc & w & Hfuel & Heq).
    pose proof (block_at_range _ _ Hb) as Hr.
    pose proof (header_at_some _ _ _ Hh) as Hh16.
    destruct fuel as [|fuel]; [lia|].
    destruct (parse_dat_loop_block buf p fuel acc w ltac:(lia) et ts a es Hh Ht Hs Hfit)
      as (acc' & w' & Hstep).
    exists fuel, acc', w'. split; [|congruence].
    pose proof (entities_size_nonneg buf p et ts a es Hh). lia.
Qed.

Lemma parse_dat_loop_well_formed (buf : list byte) :
  (forall p et ts a es,
      block_at buf p -> header_at buf p = Some (et, ts, a, es) -> et <> 0 -> es = ts - 16) ->
  forall fuel p acc warnings expected got,
    block_at buf p ->
    parse_dat_loop fuel (mkCursor buf p) acc warnings <> Err (MalformedDat expected got).
Proof.
  intros Hgood fuel. induction fuel as [|fuel IH]; intros p acc w expected got Hb.
  - cbn [parse_dat_loop]. destruct (_ =? _); discriminate.
  - pose proof (block_at_range _ _ Hb) as Hr.
    destruct (Z.eq_dec p (Z.of_nat (length buf))) as [Hend|Hend].
    { rewrite parse_dat_loop_end by (assumption || lia). discriminate. }
    destruct (header_at buf p) as [[[[et ts] a] es]|] eqn:Hh.
    + destruct (Z.eq_dec et 0) as [H0|H0].
      { rewrite (parse_dat_loop_terminator buf p fuel acc w ltac:(lia) et ts a es Hh H0).
        discriminate. }
      pose proof (Hgood p et ts a es Hb Hh H0) as Hs.
      destruct (Z_le_gt_dec (p + 16 + es) (Z.of_nat (length buf))) as [Hfit|Hshort].
      * destruct (parse_dat_loop_block buf p fuel acc w ltac:(lia) et ts a es Hh H0 Hs Hfit)
          as (acc' & w' & ->).
        apply IH. now apply block_next with et ts a.
      * rewrite (parse_dat_loop_truncated buf p fuel acc w ltac:(lia) et ts a es Hh H0 Hs)
          by lia.
        discriminate.
    + rewrite parse_dat_loop_no_header by (assumption || lia). discriminate.
Qed.

(** C3. Every block that is not the terminator must have
    [entities_size = total_size - 16]: a block that violates the equality
    makes [parse_dat] fail with the malformed-table error, and on a table all
    of whose blocks satisfy it that error is never raised. *)
Theorem parse_dat_entities_size_enforced (buf : list byte) :
  (forall p entity_type total_size area_id entities_size,
      block_at buf p ->
      header_at buf p = Some (entity_type, total_size, area_id, entities_size) ->
      entity_type <> 0 ->
      entities_size <> total_size - 16 ->
      parse_dat (cursor_of_bytes buf) = Err (MalformedDat (total_size - 16) entities_size))
  /\ ((forall p entity_type total_size area_id entities_size,
          block_at buf p ->
          header_at buf p = Some (entity_type, total_size, area_id, entities_size) ->
          entity_type <> 0 ->
          entities_size = total_size - 16) ->
      forall expected got,
        parse_dat (cursor_of_bytes buf) <> Err (MalformedDat expected got)).
Proof.
  split.
  - intros p et ts a es Hb Hh Ht Hne.
    destruct (block_at_reached _ _ Hb) as (fuel & acc & w & Hfuel & ->).
    pose proof (block_at_range _ _ Hb) as Hr.
    destruct fuel as [|fuel]; [lia|].
    apply parse_dat_loop_malformed with (entity_type := et) (area_id := a);
      (assumption || lia).
  - intros Hgood expected got. unfold parse_dat, cursor_of_bytes. cbn [buffer].
    apply parse_dat_loop_well_formed; [exact Hgood|constructor].
Qed.

Lemma small_table_blocks (p : Z) : block_at small_table p -> p = 0 \/ p = 84.
Proof.
  induction 1 as [|p et ts a es Hb IH Hh Ht Hs Hfit]; [now left|].
  destruct IH as [-> | ->]; vm_compute in Hh; injection Hh as <- <- <- <-.
  - now right.
  - contradiction.
Qed.

Lemma parse_dat_entities_size_enforced_witness :
  parse_dat (cursor_of_bytes crafted_table) = Err (MalformedDat 84 68)
  /\ parse_dat (cursor_of_bytes small_table) <> Err (MalformedDat 84 68).
Proof.
  split.
  - apply (proj1 (parse_dat_entities_size_enforced crafted_table) 0 1 100 0 68).
    + constructor.
    + reflexivity.
    + discriminate.
    + discriminate.
  - apply (proj2 (parse_dat_entities_size_enforced small_table)).
    intros p et ts a es Hb Hh Ht.
    destruct (small_table_blocks p Hb) as [-> | ->];
      vm_compute in Hh; injection Hh as <- <- <- <-; [reflexivity|contradiction].
Defined.

(** * Quantization of angles *)

Lemma Math_round_bounds (x : R) :
  (IZR (Math_round x) <= x + / 2 < IZR (Math_round x) + 1)%R.
Proof.
  unfold Math_round. destruct (archimed (x + / 2)) as [Hgt Hle].
  rewrite minus_IZR. lra.
Qed.

Lemma Math_round_unique (x : R) (n : Z) :
  (IZR n <= x + / 2 < IZR n + 1)%R -> Math_round x = n.
Proof.
  intros [Hlo Hhi]. unfold Math_round.
  assert (H : (n + 1)%Z = up (x + / 2)).
  { apply tech_up; rewrite plus_IZR; lra. }
  lia.
Qed.

Lemma Math_round_IZR (n : Z) : Math_round (IZR n) = n.
Proof. apply Math_round_unique. lra. Qed.

Lemma raw_of_rotation_of_raw (raw : Z) : raw_of_rotation (rotation_of_raw raw) = raw.
Proof.
  unfold raw_of_rotation, rotation_of_raw.
  replace (IZR raw / 65535 * 2 * PI / (2 * PI) * 65535)%R with (IZR raw).
  - apply Math_round_IZR.
  - pose proof PI_RGT_0. field. lra.
Qed.

Lemma requantize_close (angle : R) : angle_close angle (requantize angle).
Proof.
  unfold angle_close, requantize, rotation_of_raw, raw_of_rotation.
  pose proof PI_RGT_0 as Hpi.
  set (y := (angle / (2 * PI) * 65535)%R).
  pose proof (Math_round_bounds y) as [Hlo Hhi].
  replace (IZR (Math_round y) / 65535 * 2 * PI - angle)%R
    with ((IZR (Math_round y) - y) * (2 * PI / 65535))%R
    by (unfold y; field; lra).
  rewrite Rabs_mult.
  rewrite (Rabs_pos_eq (2 * PI / 65535)) by (apply Rlt_le, Rdiv_lt_0_compat; lra).
  assert (Hh : (Rabs (IZR (Math_round y) - y) <= / 2)%R) by (apply Rabs_le; lra).
  replace (PI / 65535)%R with (/ 2 * (2 * PI / 65535))%R by (field; lra).
  apply Rmult_le_compat_r; [apply Rlt_le, Rdiv_lt_0_compat; lra|exact Hh].
Qed.

Lemma requantize_vec_close (v : Vec3 R) : rotation_close v (requantize_vec v).
Proof.
  unfold rotation_close, requantize_vec. cbn [vx vy vz].
  repeat split; apply requantize_close.
Qed.



(** * What [write_dat] writes *)

Lemma fold_left_write_at_end {A : Type}
    (write_one : ArrayBufferCursor -> A -> ArrayBufferCursor) (encode_one : A -> list byte) :
  (forall pre a, write_one (at_pos pre []) a = at_pos (pre ++ encode_one a) []) ->
  forall l pre, fold_left write_one l (at_pos pre []) = at_pos (pre ++ flat_map encode_one l) [].
Proof.
  intros Hone l. induction l as [|a l IH]; intros pre; cbn [fold_left flat_map].
  - now rewrite app_nil_r.
  - now rewrite Hone, IH, app_assoc.
Qed.

Ltac write_steps :=
  unfold write_u8, write_u16, write_u32, write_i32, write_f32;
  rewrite ?write_u8_array_at_end; rewrite <- ?app_assoc; try reflexivity.

Lemma write_dat_object_at_end (pre : list byte) (obj : DatObject) :
  write_dat_object (at_pos pre []) obj = at_pos (pre ++ encode_object obj) [].
Proof.
  unfold write_dat_object, encode_object.
  destruct (obj_unknown obj) as [[unknown0 unknown1] unknown2]. write_steps.
Qed.

Lemma write_dat_npc_at_end (pre : list byte) (npc : DatNpc) :
  write_dat_npc (at_pos pre []) npc = at_pos (pre ++ encode_npc npc) [].
Proof.
  unfold write_dat_npc, encode_npc.
  destruct (npc_unknown npc) as [[[unknown0 unknown1] unknown2] unknown3]. write_steps.
Qed.

Lemma write_dat_unknown_at_end (pre : list byte) (unknown : DatUnknown) :
  write_dat_unknown (at_pos pre []) unknown = at_pos (pre ++ encode_unknown unknown) [].
Proof.
  unfold write_dat_unknown, encode_unknown. write_steps.
Qed.

Lemma write_dat_block_at_end {A : Type} (entity_type record_size : Z)
    (write_one : ArrayBufferCursor -> A -> ArrayBufferCursor) (encode_one : A -> list byte)
    (area_id : A -> Z) (l : list A) :
  (forall pre a, write_one (at_pos pre []) a = at_pos (pre ++ encode_one a) []) ->
  forall pre id,
    write_dat_block entity_type record_size write_one area_id l (at_pos pre []) id
    = at_pos (pre ++ encode_block entity_type record_size encode_one area_id l id) [].
Proof.
  intros Hone pre id. unfold write_dat_block, encode_block. cbv zeta.
  unfold write_u32. rewrite !write_u8_array_at_end.
  rewrite (fold_left_write_at_end write_one encode_one Hone).
  now rewrite <- !app_assoc.
Qed.

Lemma seek_start_0 (c : ArrayBufferCursor) : seek_start 0 c = Ok (mkCursor (buffer c) 0).
Proof.
  unfold seek_start, size. destruct (Z.ltb_spec (Z.of_nat (length (buffer c))) 0); [lia|].
  reflexivity.
Qed.

Lemma write_dat_bytes (d : DatData) :
  write_dat d = Ok (cursor_of_bytes (encode_table d)).
Proof.
  unfold write_dat, encode_table. cbv zeta. rewrite new_cursor_at.
  rewrite (fold_left_write_at_end _ _
             (write_dat_block_at_end 1 OBJECT_SIZE _ _ obj_area_id (objs d)
                write_dat_object_at_end)).
  rewrite (fold_left_write_at_end _ _
             (write_dat_block_at_end 2 NPC_SIZE _ _ npc_area_id (npcs d)
                write_dat_npc_at_end)).
  rewrite (fold_left_write_at_end _ _ write_dat_unknown_at_end).
  unfold write_u32. rewrite !write_u8_array_at_end.
  cbn [app]. rewrite <- !app_assoc.
  rewrite seek_start_0. cbn [buffer at_pos]. rewrite !app_nil_r. reflexivity.
Qed.

(** * What [parse_dat] reads back *)

Lemma encode_object_length (obj : DatObject) :
  object_storable obj -> length (encode_object obj) = 68%nat.
Proof.
  unfold object_storable, encode_object, has_length.
  destruct (obj_unknown obj) as [[unknown0 unknown1] unknown2].
  intros (_ & _ & _ & _ & _ & H0 & H1 & H2).
  rewrite !length_app, !le_encode_length. lia.
Qed.

Lemma encode_npc_length (npc : DatNpc) :
  npc_storable npc -> length (encode_npc npc) = 72%nat.
Proof.
  unfold npc_storable, encode_npc, has_length.
  destruct (npc_unknown npc) as [[[unknown0 unknown1] unknown2] unknown3].
  intros (_ & _ & _ & _ & _ & _ & H0 & H1 & H2 & H3).
  rewrite !length_app, !le_encode_length. lia.
Qed.

Ltac read_back :=
  repeat (first [ rewrite u16_at | rewrite u32_at | rewrite f32_at
                | rewrite i32_at by assumption
                | rewrite u8_array_at by (unfold has_length in *; lia) ];
          cbn [bind]).

Lemma parse_dat_object_at (pre rest : list byte) (obj : DatObject) :
  object_storable obj ->
  parse_dat_object (obj_area_id obj) (at_pos pre (encode_object obj ++ rest))
  = Ok (requantize_object obj, at_pos (pre ++ encode_object obj) rest).
Proof.
  destruct obj as [t s [x y z] [rx ry rz] a [[unknown0 unknown1] unknown2]].
  unfold object_storable, vec_all, is_finite_f32, is_u16, is_u32, rotation_fits.
  cbn [obj_type_id obj_section_id obj_position obj_rotation obj_area_id obj_unknown vx vy vz].
  intros (Ht & Hs & Ha & ((Hx & _) & (Hy & _) & (Hz & _)) & (Hrx & Hry & Hrz) & H0 & H1 & H2).
  unfold parse_dat_object, encode_object.
  cbn [obj_type_id obj_section_id obj_position obj_rotation obj_area_id obj_unknown vx vy vz].
  rewrite <- !app_assoc. read_back.
  rewrite !Z.mod_small by assumption. rewrite <- !app_assoc. reflexivity.
Qed.

Lemma parse_dat_npc_at (pre rest : list byte) (npc : DatNpc) :
  npc_storable npc ->
  parse_dat_npc (npc_area_id npc) (at_pos pre (encode_npc npc ++ rest))
  = Ok (requantize_npc npc, at_pos (pre ++ encode_npc npc) rest).
Proof.
  destruct npc as [t s [x y z] [rx ry rz] skin a [[[unknown0 unknown1] unknown2] unknown3]].
  unfold npc_storable, vec_all, is_finite_f32, is_u16, is_u32, rotation_fits.
  cbn [npc_type_id npc_section_id npc_position npc_rotation npc_skin npc_area_id npc_unknown
       vx vy vz].
  intros (Ht & Hs & Ha & Hsk & ((Hx & _) & (Hy & _) & (Hz & _)) & (Hrx & Hry & Hrz)
          & H0 & H1 & H2 & H3).
  unfold parse_dat_npc, encode_npc.
  cbn [npc_type_id npc_section_id npc_position npc_rotation npc_skin npc_area_id npc_unknown
       vx vy vz].
  rewrite <- !app_assoc. read_back.
  rewrite !Z.mod_small by assumption. rewrite <- !app_assoc. reflexivity.
Qed.

Section Records.
Context {A : Type}.
Variables (parse_one : Z -> ArrayBufferCursor -> result (A * ArrayBufferCursor))
          (encode_one : A -> list byte) (back : A -> A) (area_id : A -> Z)
          (storable : A -> Prop) (width : nat) (entity_type : Z).
Hypothesis parse_encode : forall pre rest a,
    storable a ->
    parse_one (area_id a) (at_pos pre (encode_one a ++ rest))
    = Ok (back a, at_pos (pre ++ encode_one a) rest).
Hypothesis encode_width : forall a, storable a -> length (encode_one a) = width.

Lemma parse_records_at (id : Z) (l : list A) :
  Forall storable l -> Forall (fun a => area_id a = id) l ->
  forall pre rest acc,
    parse_records (parse_one id) (length l) (at_pos pre (flat_map encode_one l ++ rest)) acc
    = Ok (acc ++ map back l, at_pos (pre ++ flat_map encode_one l) rest).
Proof.
  induction l as [|a l IH]; intros Hst Har pre rest acc.
  - cbn. now rewrite !app_nil_r.
  - inversion Hst as [|? ? Ha Hl]; subst. inversion Har as [|? ? Hia Hil]; subst.
    cbn [length parse_records flat_map map]. rewrite <- app_assoc.
    rewrite parse_encode by assumption. cbn [bind].
    rewrite IH by assumption. now rewrite <- !app_assoc.
Qed.

Lemma flat_map_encode_length (l : list A) :
  Forall storable l -> length (flat_map encode_one l) = (length l * width)%nat.
Proof.
  induction 1 as [|a l Ha Hl IH]; [reflexivity|].
  cbn [flat_map length]. rewrite length_app, encode_width, IH by assumption. lia.
Qed.
End Records.

Lemma group_Forall {A : Type} (P : A -> Prop) (area_id : A -> Z) (l : list A) (id : Z) :
  Forall P l -> Forall P (group area_id l id).
Proof.
  intros H. apply Forall_forall. intros a Ha. apply filter_In in Ha.
  rewrite Forall_forall in H. now apply H.
Qed.

Lemma group_area {A : Type} (area_id : A -> Z) (l : list A) (id : Z) :
  Forall (fun a => area_id a = id) (group area_id l id).
Proof.
  apply Forall_forall. intros a Ha. apply filter_In in Ha. lia.
Qed.

Lemma group_length {A : Type} (area_id : A -> Z) (l : list A) (id : Z) :
  (length (group area_id l id) <= length l)%nat.
Proof. apply filter_length_le. Qed.

Ltac block_header id n :=
  cbn [parse_dat_loop]; rewrite bytes_left_at;
  match goal with
  | |- context [Z.of_nat (length ?bs) =? 0] =>
      destruct (Z.eqb_spec (Z.of_nat (length bs)) 0) as [Hnil|_];
      [exfalso; unfold encode_block in Hnil;
       rewrite !length_app, !le_encode_length in Hnil; lia|]
  end;
  unfold encode_block; cbv zeta; rewrite <- !app_assoc; read_back;
  rewrite (Z.mod_small id), (Z.mod_small (_ + 16)), (Z.mod_small (Z.of_nat n * _))
    by (unfold is_u32, OBJECT_SIZE, NPC_SIZE in *; lia).

Lemma parse_object_block (l : list DatObject) (id : Z) (pre rest : list byte)
    (fuel : nat) (acc : DatData) (w : list warning) :
  Forall object_storable l -> is_u32 id -> 68 * Z.of_nat (length l) + 16 < 4294967296 ->
  parse_dat_loop (S fuel)
    (at_pos pre (encode_block 1 OBJECT_SIZE encode_object obj_area_id l id ++ rest)) acc w
  = parse_dat_loop fuel
      (at_pos (pre ++ encode_block 1 OBJECT_SIZE encode_object obj_area_id l id) rest)
      (mkDatData (objs acc ++ map requantize_object (group obj_area_id l id))
         (npcs acc) (unknowns acc)) w.
Proof.
  intros Hst Hid Hlen.
  pose proof (group_Forall _ obj_area_id l id Hst) as Hg.
  pose proof (group_area obj_area_id l id) as Ha.
  pose proof (group_length obj_area_id l id) as Hl.
  block_header id (length (group obj_area_id l id)).
  change (1 mod 4294967296) with 1. cbn [Z.eqb Pos.eqb].
  replace (Z.of_nat (length (group obj_area_id l id)) * OBJECT_SIZE + 16 - 16)
    with (Z.of_nat (length (group obj_area_id l id)) * OBJECT_SIZE) by lia.
  rewrite Z.eqb_refl. cbn [negb].
  rewrite Z.div_mul by discriminate. rewrite Nat2Z.id.
  rewrite (parse_records_at parse_dat_object encode_object requantize_object obj_area_id
             object_storable parse_dat_object_at) by assumption.
  cbn [bind]. unfold resync. rewrite !position_at, !length_app, !le_encode_length.
  rewrite (flat_map_encode_length encode_object object_storable 68 encode_object_length)
    by assumption.
  match goal with |- context [?a =? ?b] => replace (a =? b) with true
    by (symmetry; apply Z.eqb_eq; unfold OBJECT_SIZE; lia) end.
  cbn [bind objs npcs unknowns]. now rewrite <- !app_assoc.
Qed.

Lemma parse_npc_block (l : list DatNpc) (id : Z) (pre rest : list byte)
    (fuel : nat) (acc : DatData) (w : list warning) :
  Forall npc_storable l -> is_u32 id -> 72 * Z.of_nat (length l) + 16 < 4294967296 ->
  parse_dat_loop (S fuel)
    (at_pos pre (encode_block 2 NPC_SIZE encode_npc npc_area_id l id ++ rest)) acc w
  = parse_dat_loop fuel
      (at_pos (pre ++ encode_block 2 NPC_SIZE encode_npc npc_area_id l id) rest)
      (mkDatData (objs acc) (npcs acc ++ map requantize_npc (group npc_area_id l id))
         (unknowns acc)) w.
Proof.
  intros Hst Hid Hlen.
  pose proof (group_Forall _ npc_area_id l id Hst) as Hg.
  pose proof (group_area npc_area_id l id) as Ha.
  pose proof (group_length npc_area_id l id) as Hl.
  block_header id (length (group npc_area_id l id)).
  change (2 mod 4294967296) with 2. cbn [Z.eqb Pos.eqb].
  replace (Z.of_nat (length (group npc_area_id l id)) * NPC_SIZE + 16 - 16)
    with (Z.of_nat (length (group npc_area_id l id)) * NPC_SIZE) by lia.
  rewrite Z.eqb_refl. cbn [negb].
  rewrite Z.div_mul by discriminate. rewrite Nat2Z.id.
  rewrite (parse_records_at parse_dat_npc encode_npc requantize_npc npc_area_id
             npc_storable parse_dat_npc_at) by assumption.
  cbn [bind]. unfold resync. rewrite !position_at, !length_app, !le_encode_length.
  rewrite (flat_map_encode_length encode_npc npc_storable 72 encode_npc_length)
    by assumption.
  match goal with |- context [?a =? ?b] => replace (a =? b) with true
    by (symmetry; apply Z.eqb_eq; unfold NPC_SIZE; lia) end.
  cbn [bind objs npcs unknowns]. now rewrite <- !app_assoc.
Qed.

Section Blocks.
Variables (encode_one_block : Z -> list byte) (update : DatData -> Z -> DatData)
          (fits : Z -> Prop).
Hypothesis block_step : forall id pre rest fuel acc w,
    fits id ->
    parse_dat_loop (S fuel) (at_pos pre (encode_one_block id ++ rest)) acc w
    = parse_dat_loop fuel (at_pos (pre ++ encode_one_block id) rest) (update acc id) w.

Lemma parse_blocks (ids : list Z) :
  Forall fits ids ->
  forall pre rest fuel acc w,
    parse_dat_loop (length ids + fuel)
      (at_pos pre (flat_map encode_one_block ids ++ rest)) acc w
    = parse_dat_loop fuel (at_pos (pre ++ flat_map encode_one_block ids) rest)
        (fold_left update ids acc) w.
Proof.
  induction 1 as [|id ids Hid Hids IH]; intros pre rest fuel acc w.
  - cbn. now rewrite app_nil_r.
  - cbn [length flat_map fold_left Nat.add]. rewrite <- app_assoc.
    rewrite block_step by assumption. rewrite IH. now rewrite <- app_assoc.
Qed.
End Blocks.

Lemma parse_terminator (pre rest : list byte) (fuel : nat) (acc : DatData) (w : list warning) :
  parse_dat_loop (S fuel)
    (at_pos pre (le_encode 4 0 ++ le_encode 4 0 ++ le_encode 4 0 ++ le_encode 4 0 ++ rest))
    acc w
  = Ok (acc, w).
Proof.
  cbn [parse_dat_loop]. rewrite bytes_left_at.
  destruct (Z.eqb_spec (Z.of_nat (length
             (le_encode 4 0 ++ le_encode 4 0 ++ le_encode 4 0 ++ le_encode 4 0 ++ rest))) 0)
    as [Hnil|_].
  { rewrite length_app, le_encode_length in Hnil. lia. }
  read_back. reflexivity.
Qed.

(** * The order of the blocks *)

Lemma insert_sorted_In (a x : Z) (l : list Z) :
  In x (insert_sorted a l) <-> x = a \/ In x l.
Proof.
  induction l as [|b l IH]; cbn [insert_sorted].
  - cbn. intuition.
  - destruct (a <=? b); cbn [In] in *; intuition.
Qed.

Lemma sort_numeric_In (x : Z) (l : list Z) : In x (sort_numeric l) <-> In x l.
Proof.
  induction l as [|a l IH]; cbn [sort_numeric fold_right]; [reflexivity|].
  fold (sort_numeric l). rewrite insert_sorted_In. cbn [In]. intuition.
Qed.

Lemma sorted_area_ids_In {A : Type} (area_id : A -> Z) (l : list A) (id : Z) :
  In id (sorted_area_ids area_id l) <-> exists a, In a l /\ area_id a = id.
Proof.
  unfold sorted_area_ids. rewrite sort_numeric_In, nodup_In, in_map_iff.
  split; intros (a & H1 & H2); exists a; auto.
Qed.

Lemma insert_sorted_sorted (a : Z) (l : list Z) :
  StronglySorted Z.lt l -> ~ In a l -> StronglySorted Z.lt (insert_sorted a l).
Proof.
  induction 1 as [|b l Hl IH Hb]; intros Hnot; cbn [insert_sorted].
  - repeat constructor.
  - cbn [In] in Hnot. destruct (Z.leb_spec a b).
    + constructor; [now constructor|]. constructor; [lia|].
      rewrite Forall_forall in *. intros x Hx. specialize (Hb x Hx). lia.
    + constructor; [apply IH; tauto|].
      apply Forall_forall. intros x Hx. apply insert_sorted_In in Hx.
      rewrite Forall_forall in Hb. destruct Hx as [->|Hx]; [lia|now apply Hb].
Qed.

Lemma sort_numeric_sorted (l : list Z) : NoDup l -> StronglySorted Z.lt (sort_numeric l).
Proof.
  induction 1 as [|a l Ha Hl IH]; cbn [sort_numeric fold_right]; [constructor|].
  fold (sort_numeric l). apply insert_sorted_sorted; [exact IH|].
  now rewrite sort_numeric_In.
Qed.


Lemma flat_map_length_ge {A : Type} (f : A -> list byte) (l : list A) :
  (forall a, (1 <= length (f a))%nat) -> (length l <= length (flat_map f l))%nat.
Proof.
  intros Hf. induction l as [|a l IH]; cbn [flat_map length]; [lia|].
  rewrite length_app. specialize (Hf a). lia.
Qed.

Lemma encode_block_length_ge {A : Type} (entity_type record_size : Z)
    (encode_one : A -> list byte) (area_id : A -> Z) (l : list A) (id : Z) :
  (1 <= length (encode_block entity_type record_size encode_one area_id l id))%nat.
Proof.
  unfold encode_block. cbv zeta. rewrite length_app, le_encode_length. lia.
Qed.

Lemma fold_left_objs (l : list DatObject) (ids : list Z) (acc : DatData) :
  fold_left (fun acc id =>
               mkDatData (objs acc ++ map requantize_object (group obj_area_id l id))
                 (npcs acc) (unknowns acc)) ids acc
  = mkDatData (objs acc ++ map requantize_object (flat_map (group obj_area_id l) ids))
      (npcs acc) (unknowns acc).
Proof.
  revert acc. induction ids as [|id ids IH]; intros acc; cbn [fold_left flat_map map].
  - rewrite app_nil_r. now destruct acc.
  - rewrite IH. cbn [objs npcs unknowns]. now rewrite map_app, app_assoc.
Qed.

Lemma fold_left_npcs (l : list DatNpc) (ids : list Z) (acc : DatData) :
  fold_left (fun acc id =>
               mkDatData (objs acc) (npcs acc ++ map requantize_npc (group npc_area_id l id))
                 (unknowns acc)) ids acc
  = mkDatData (objs acc) (npcs acc ++ map requantize_npc (flat_map (group npc_area_id l) ids))
      (unknowns acc).
Proof.
  revert acc. induction ids as [|id ids IH]; intros acc; cbn [fold_left flat_map map].
  - rewrite app_nil_r. now destruct acc.
  - rewrite IH. cbn [objs npcs unknowns]. now rewrite map_app, app_assoc.
Qed.

Lemma sorted_area_ids_fit {A : Type} (area_id : A -> Z) (storable : A -> Prop) (l : list A) :
  (forall a, storable a -> is_u32 (area_id a)) ->
  Forall storable l -> Forall is_u32 (sorted_area_ids area_id l).
Proof.
  intros Hu Hl. apply Forall_forall. intros id Hid.
  apply sorted_area_ids_In in Hid. destruct Hid as (a & Ha & <-).
  rewrite Forall_forall in Hl. auto.
Qed.


(** * Grouping by area *)

Section ByArea.
Context {A : Type}.
Variable area_id : A -> Z.











End ByArea.

(** * Round trip through the entity table codec *)



Lemma raw_of_rotation_zero : raw_of_rotation 0 = 0.
Proof.
  unfold raw_of_rotation. pose proof PI_RGT_0.
  replace (0 / (2 * PI) * 65535)%R with (IZR 0) by (field; lra).
  apply Math_round_IZR.
Qed.

Lemma object_in_area_storable (area_id : Z) :
  is_u32 area_id -> object_storable (object_in_area area_id).
Proof.
  intros Ha. unfold object_storable, object_in_area, vec_all, zero_vec, zero_rotation,
    is_finite_f32, rotation_fits, is_u16, is_u32, has_length in *.
  cbn [obj_type_id obj_section_id obj_position obj_rotation obj_area_id obj_unknown vx vy vz].
  rewrite raw_of_rotation_zero, !repeat_length.
  change (0 / 8388608) with 0. change (0 mod 256) with 0. repeat split; lia.
Qed.

Lemma npc_in_area_storable (area_id : Z) :
  is_u32 area_id -> npc_storable (npc_in_area area_id).
Proof.
  intros Ha. unfold npc_storable, npc_in_area, vec_all, zero_vec, zero_rotation,
    is_finite_f32, rotation_fits, is_u16, is_u32, has_length in *.
  cbn [npc_type_id npc_section_id npc_position npc_rotation npc_skin npc_area_id npc_unknown
       vx vy vz].
  rewrite raw_of_rotation_zero, !repeat_length.
  change (0 / 8388608) with 0. change (0 mod 256) with 0. repeat split; lia.
Qed.



(** * Reading a container *)

Lemma size_mk (b : list byte) (p : Z) : size (mkCursor b p) = Z.of_nat (length b).
Proof. reflexivity. Qed.

Lemma seek_ok (off : Z) (b : list byte) (p : Z) :
  0 <= p + off <= Z.of_nat (length b) ->
  seek off (mkCursor b p) = Ok (mkCursor b (p + off)).
Proof.
  intros H. unfold seek, seek_start. cbn [position buffer]. rewrite size_mk.
  destruct (Z.ltb_spec (p + off) 0); [lia|].
  destruct (Z.ltb_spec (Z.of_nat (length b)) (p + off)); [lia|]. reflexivity.
Qed.

Lemma seek_start_ok (off : Z) (b : list byte) (p : Z) :
  0 <= off <= Z.of_nat (length b) ->
  seek_start off (mkCursor b p) = Ok (mkCursor b off).
Proof.
  intros H. unfold seek_start. cbn [position buffer]. rewrite size_mk.
  destruct (Z.ltb_spec off 0); [lia|].
  destruct (Z.ltb_spec (Z.of_nat (length b)) off); [lia|]. reflexivity.
Qed.

Lemma u8_ok (b : list byte) (p : Z) :
  p + 1 <= Z.of_nat (length b) ->
  u8 (mkCursor b p) = Ok (le_decode (slice p 1 b), mkCursor b (p + 1)).
Proof. intros H. unfold u8. now rewrite read_uint_ok by lia. Qed.

Lemma u16_ok (b : list byte) (p : Z) :
  p + 2 <= Z.of_nat (length b) ->
  u16 (mkCursor b p) = Ok (le_decode (slice p 2 b), mkCursor b (p + 2)).
Proof. intros H. unfold u16. now rewrite read_uint_ok by lia. Qed.

Lemma u32_ok (b : list byte) (p : Z) :
  p + 4 <= Z.of_nat (length b) ->
  u32 (mkCursor b p) = Ok (le_decode (slice p 4 b), mkCursor b (p + 4)).
Proof. intros H. unfold u32. now rewrite read_uint_ok by lia. Qed.

Lemma string_ascii_ok (n : Z) (b : list byte) (p : Z) :
  0 <= n -> p + n <= Z.of_nat (length b) ->
  string_ascii n true true (mkCursor b p)
  = Ok (string_of_bytes (until_nul (slice p n b)), mkCursor b (p + n)).
Proof.
  intros Hn H. unfold string_ascii. rewrite u8_array_ok by lia. reflexivity.
Qed.

Lemma take_ok (n : Z) (b : list byte) (p : Z) :
  0 <= n -> p + n <= Z.of_nat (length b) ->
  take n (mkCursor b p) = Ok (mkCursor (slice p n b) 0, mkCursor b (p + n)).
Proof.
  intros Hn H. unfold take. now rewrite u8_array_ok by lia.
Qed.

Lemma slice_length (p n : Z) (b : list byte) :
  0 <= p -> 0 <= n -> p + n <= Z.of_nat (length b) ->
  Z.of_nat (length (slice p n b)) = n.
Proof.
  intros Hp Hn H. unfold slice. rewrite length_firstn, length_skipn. lia.
Qed.

(** Offsets [p + a + b] with literal [a] and [b] are folded to [p + (a + b)]. *)
Ltac fold_offsets :=
  repeat match goal with
         | |- context [?p + Zpos ?a + Zpos ?b] =>
             let c := eval compute in (Zpos a + Zpos b) in
             replace (p + Zpos a + Zpos b) with (p + c) by lia
         | |- context [?p + Zpos ?a + Zneg ?b] =>
             let c := eval compute in (Zpos a + Zneg b) in
             replace (p + Zpos a + Zneg b) with (p + c) by lia
         end.

Lemma parse_header_ok (b : list byte) (p : Z) :
  0 <= p -> p + 88 <= Z.of_nat (length b) ->
  parse_header (mkCursor b p) = Ok (header_of b p, mkCursor b (p + 88)).
Proof.
  intros Hp H. unfold parse_header.
  rewrite seek_ok by lia. cbn [bind].
  rewrite u16_ok by lia. cbn [bind].
  rewrite seek_ok by lia. cbn [bind].
  rewrite string_ascii_ok by lia. cbn [bind].
  rewrite u32_ok by lia. cbn [bind].
  rewrite string_ascii_ok by lia. cbn [bind].
  unfold header_of. fold_offsets. reflexivity.
Qed.

(** Every cursor operation fails only by running out of bounds; the case
    analysis keeps the bound that decided it. *)
Ltac oob_step :=
  let H := fresh "Hbound" in
  match goal with
  | |- context [bind (seek ?n ?c) _] =>
      destruct (seek_cases n c) as [[-> H] | [-> H]]
  | |- context [bind (seek_start ?n ?c) _] =>
      assert (H : seek_start n c = Ok (mkCursor (buffer c) n) \/ seek_start n c = Err OutOfBounds)
        by (unfold seek_start; destruct (_ || _); auto);
      destruct H as [-> | ->]
  | |- context [bind (u8_array ?n ?c) _] =>
      destruct (u8_array_cases n c) as [[-> H] | [-> H]]
  | |- context [bind (u8 ?c) _] =>
      unfold u8 at 1; destruct (read_uint_cases 1 c) as [[-> H] | [-> H]]
  | |- context [bind (u16 ?c) _] =>
      unfold u16 at 1; destruct (read_uint_cases 2 c) as [[-> H] | [-> H]]
  | |- context [bind (u32 ?c) _] =>
      unfold u32 at 1; destruct (read_uint_cases 4 c) as [[-> H] | [-> H]]
  | |- context [bind (string_ascii ?n ?a ?b ?c) _] =>
      unfold string_ascii at 1; destruct (u8_array_cases n c) as [[-> H] | [-> H]]
  | |- context [bind (take ?n ?c) _] =>
      unfold take at 1; destruct (u8_array_cases n c) as [[-> H] | [-> H]]
  end;
  cbn [bind buffer position orb negb];
  try (rewrite ?bytes_left_mk, ?size_mk in H; cbn [buffer position] in H).

Lemma pad_to_length (n : nat) (l : list byte) : (n <= length (pad_to n l))%nat.
Proof. unfold pad_to. rewrite length_app, repeat_length. lia. Qed.

Lemma size_set_size (n : Z) (c : ArrayBufferCursor) : 0 <= n -> size (set_size n c) = n.
Proof.
  intros Hn. unfold size, set_size. cbn [buffer].
  rewrite length_firstn. pose proof (pad_to_length (Z.to_nat n) (buffer c)). lia.
Qed.

Lemma seek_start_set_size (off n : Z) (c : ArrayBufferCursor) :
  0 <= off <= n ->
  seek_start off (set_size n c) = Ok (mkCursor (buffer (set_size n c)) off).
Proof.
  intros H. unfold seek_start. rewrite size_set_size by lia.
  destruct (Z.ltb_spec off 0); [lia|]. destruct (Z.ltb_spec n off); [lia|]. reflexivity.
Qed.

Lemma size_nonneg (c : ArrayBufferCursor) : 0 <= size c.
Proof. unfold size. lia. Qed.

Lemma chunk_at_number_range (buf : list byte) (p : Z) :
  0 <= p -> p + 1056 <= Z.of_nat (length buf) ->
  0 <= chunk_number (chunk_at buf p) < 256.
Proof.
  intros Hp H. cbn [chunk_at chunk_number].
  pose proof (le_decode_range (slice (p + 4) 1 buf)) as Hr.
  pose proof (slice_length (p + 4) 1 buf ltac:(lia) ltac:(lia) ltac:(lia)) as Hl.
  replace (length (slice (p + 4) 1 buf)) with 1%nat in Hr by lia. exact Hr.
Qed.

Lemma chunk_at_declared_nonneg (buf : list byte) (p : Z) :
  0 <= chunk_declared_size (chunk_at buf p).
Proof. cbn [chunk_at chunk_declared_size]. apply le_decode_range. Qed.

Lemma parse_file_chunk_ok (expected_sizes : list (string * Z)) (buf : list byte) (p : Z)
    (files : list (string * QstContainedFile)) (warnings : list warning) :
  0 <= p -> p + 1056 <= Z.of_nat (length buf) ->
  parse_file_chunk expected_sizes (mkCursor buf p) files warnings
  = let '(files, warnings) := apply_chunk expected_sizes (files, warnings) (chunk_at buf p) in
    Ok (mkCursor buf (p + 1056), files, warnings).
Proof.
  intros Hp H.
  pose proof (chunk_at_number_range buf p Hp H) as Hno.
  pose proof (chunk_at_declared_nonneg buf p) as Hdecl.
  unfold parse_file_chunk, apply_chunk.
  cbn [chunk_at chunk_number chunk_file_name chunk_declared_size chunk_segment] in *.
  cbn [position].
  rewrite seek_ok by lia. cbn [bind].
  rewrite u8_ok by lia. cbn [bind].
  rewrite seek_ok by lia. cbn [bind].
  rewrite string_ascii_ok by lia. cbn [bind].
  fold_offsets.
  set (file_name := string_of_bytes (until_nul (slice (p + 8) 16 buf))).
  set (chunk_no := le_decode (slice (p + 4) 1 buf)) in *.
  set (file := match map_get file_name files with Some f => f | None => _ end).
  destruct (existsb (Z.eqb chunk_no) (chunk_nos file)).
  - rewrite seek_ok by lia. cbn [bind].
    rewrite u32_ok by lia. cbn [bind].
    rewrite seek_ok by lia. cbn [bind].
    fold_offsets.
    set (declared := le_decode (slice (p + 1048) 4 buf)) in *.
    destruct (Z.gtb_spec declared 1024).
    + rewrite take_ok by lia. cbn [bind].
      pose proof (size_nonneg (data file)).
      rewrite seek_start_set_size by lia. cbn [bind].
      rewrite seek_ok by (rewrite size_mk, slice_length; lia). cbn [bind position].
      rewrite size_mk, slice_length by lia.
      replace (p + 24 + 1024 + (1032 - 1024)) with (p + 1056) by lia.
      rewrite Z.eqb_refl. cbn [negb]. rewrite Z.min_r by lia. reflexivity.
    + rewrite take_ok by lia. cbn [bind].
      pose proof (size_nonneg (data file)).
      rewrite seek_start_set_size by lia. cbn [bind].
      rewrite seek_ok by (rewrite size_mk, slice_length; lia). cbn [bind position].
      rewrite size_mk, slice_length by lia.
      replace (p + 24 + declared + (1032 - declared)) with (p + 1056) by lia.
      rewrite Z.eqb_refl. cbn [negb]. rewrite Z.min_l by lia. reflexivity.
  - rewrite seek_ok by lia. cbn [bind].
    rewrite u32_ok by lia. cbn [bind].
    rewrite seek_ok by lia. cbn [bind].
    fold_offsets.
    set (declared := le_decode (slice (p + 1048) 4 buf)) in *.
    destruct (Z.gtb_spec declared 1024).
    + rewrite take_ok by lia. cbn [bind].
      pose proof (size_nonneg (data file)).
      rewrite seek_start_set_size by lia. cbn [bind].
      rewrite seek_ok by (rewrite size_mk, slice_length; lia). cbn [bind position].
      rewrite size_mk, slice_length by lia.
      replace (p + 24 + 1024 + (1032 - 1024)) with (p + 1056) by lia.
      rewrite Z.eqb_refl. cbn [negb]. rewrite Z.min_r by lia. reflexivity.
    + rewrite take_ok by lia. cbn [bind].
      pose proof (size_nonneg (data file)).
      rewrite seek_start_set_size by lia. cbn [bind].
      rewrite seek_ok by (rewrite size_mk, slice_length; lia). cbn [bind position].
      rewrite size_mk, slice_length by lia.
      replace (p + 24 + declared + (1032 - declared)) with (p + 1056) by lia.
      rewrite Z.eqb_refl. cbn [negb]. rewrite Z.min_l by lia. reflexivity.
Qed.

Lemma parse_file_chunk_short (expected_sizes : list (string * Z)) (buf : list byte) (p : Z)
    (files : list (string * QstContainedFile)) (warnings : list warning) :
  0 <= p -> Z.of_nat (length buf) < p + 1056 ->
  parse_file_chunk expected_sizes (mkCursor buf p) files warnings = Err OutOfBounds.
Proof.
  intros Hp H. unfold parse_file_chunk. cbn [position].
  oob_step; [|reflexivity]. oob_step; [|reflexivity].
  oob_step; [|reflexivity]. oob_step; [|reflexivity].
  match goal with |- context [match map_get ?k files with Some f => f | None => ?d end] =>
    set (file := match map_get k files with Some f => f | None => d end) end.
  assert (Hrest : forall (segment_size : Z) (ws : list warning) (nos : list Z),
    0 <= segment_size ->
    (' (segment, cursor2) <- take segment_size (mkCursor buf (p + 4 + 1 + 3 + 16));;
     file_data <-
       seek_start (le_decode (slice (p + 4) 1 buf) * 1024)
         (set_size (Z.max (le_decode (slice (p + 4) 1 buf) * 1024 + segment_size)
                      (size (data file))) (data file));;
     cursor3 <- seek (1032 - size segment) cursor2;;
     (if negb (position cursor3 =? p + 1056)
      then Err (ChunkMessageSize (position cursor3 - p))
      else
        Ok (cursor3,
            map_set (string_of_bytes (until_nul (slice (p + 4 + 1 + 3) 16 buf)))
              (mkQstContainedFile (name file) (name_2 file) (quest_no file)
                 (expected_size file) (write_cursor segment file_data) nos) files,
            ws))) = Err OutOfBounds).
  { intros seg ws nos Hseg. unfold take.
    destruct (u8_array_cases seg (mkCursor buf (p + 4 + 1 + 3 + 16))) as [[-> Hfit] | [-> _]];
      [|reflexivity].
    cbn [bind buffer position]. rewrite bytes_left_mk in Hfit.
    match goal with |- context [bind (seek_start ?n ?c) _] =>
      let Hc := fresh in
      assert (Hc : seek_start n c = Ok (mkCursor (buffer c) n)
                   \/ seek_start n c = Err OutOfBounds)
        by (unfold seek_start; destruct (_ || _); auto);
      destruct Hc as [-> | ->]; cbn [bind]; [|reflexivity] end.
    destruct (seek_cases (1032 - size (mkCursor (slice (p + 4 + 1 + 3 + 16) seg buf) 0))
                (mkCursor buf (p + 4 + 1 + 3 + 16 + seg))) as [[-> Hs] | [-> _]];
      [|reflexivity].
    exfalso. cbn [position] in Hs. rewrite !size_mk in Hs.
    rewrite slice_length in Hs by lia. lia. }
  destruct (existsb _ _); (oob_step; [|reflexivity]); (oob_step; [|reflexivity]);
    (oob_step; [|reflexivity]).
  all: destruct (Z.gtb_spec (le_decode (slice (p + 4 + 1 + 3 + 16 + 1024) 4 buf)) 1024).
  all: replace (p + 4 + 1 + 3 + 16 + 1024 + 4 + -1028) with (p + 4 + 1 + 3 + 16) by lia.
  all: apply Hrest; try lia; apply le_decode_range.
Qed.

Lemma parse_headers_ok (buf : list byte) :
  176 <= Z.of_nat (length buf) ->
  parse_headers (mkCursor buf 0) = Ok (container_headers buf, mkCursor buf 176).
Proof.
  intros H. unfold parse_headers.
  rewrite parse_header_ok by lia. cbn [bind].
  rewrite parse_header_ok by lia. reflexivity.
Qed.

Lemma parse_headers_short (buf : list byte) :
  Z.of_nat (length buf) < 176 -> parse_headers (mkCursor buf 0) = Err OutOfBounds.
Proof.
  intros H. unfold parse_headers, parse_header.
  repeat (oob_step; [|reflexivity]). lia.
Qed.

Lemma parse_file_chunks_ok (expected_sizes : list (string * Z)) (buf : list byte) :
  forall (count fuel : nat) (p : Z) files warnings,
    0 <= p -> Z.of_nat (length buf) = p + 1056 * Z.of_nat count -> (count <= fuel)%nat ->
    parse_file_chunks fuel expected_sizes (mkCursor buf p) files warnings
    = let '(files, warnings) :=
        fold_left (apply_chunk expected_sizes) (chunks_from count buf p) (files, warnings) in
      Ok (mkCursor buf (Z.of_nat (length buf)), files, warnings).
Proof.
  induction count as [|count IH]; intros fuel p files warnings Hp Hlen Hfuel.
  - replace p with (Z.of_nat (length buf)) by lia.
    destruct fuel; cbn [parse_file_chunks chunks_from fold_left];
      rewrite bytes_left_mk, Z.sub_diag; reflexivity.
  - destruct fuel as [|fuel]; [lia|].
    cbn [parse_file_chunks chunks_from fold_left]. rewrite bytes_left_mk.
    destruct (Z.eqb_spec (Z.of_nat (length buf) - p) 0); [lia|].
    rewrite parse_file_chunk_ok by lia.
    destruct (apply_chunk expected_sizes (files, warnings) (chunk_at buf p)) as [files' w'].
    cbn [bind]. apply IH; lia.
Qed.

Lemma parse_file_chunks_ragged (expected_sizes : list (string * Z)) (buf : list byte) :
  forall (count fuel : nat) (p : Z) files warnings,
    0 <= p ->
    p + 1056 * Z.of_nat count < Z.of_nat (length buf) < p + 1056 * (Z.of_nat count + 1) ->
    (count < fuel)%nat ->
    parse_file_chunks fuel expected_sizes (mkCursor buf p) files warnings = Err OutOfBounds.
Proof.
  induction count as [|count IH]; intros fuel p files warnings Hp Hlen Hfuel.
  - destruct fuel as [|fuel]; [lia|].
    cbn [parse_file_chunks]. rewrite bytes_left_mk.
    destruct (Z.eqb_spec (Z.of_nat (length buf) - p) 0); [lia|].
    rewrite parse_file_chunk_short by lia. reflexivity.
  - destruct fuel as [|fuel]; [lia|].
    cbn [parse_file_chunks]. rewrite bytes_left_mk.
    destruct (Z.eqb_spec (Z.of_nat (length buf) - p) 0); [lia|].
    rewrite parse_file_chunk_ok by lia.
    destruct (apply_chunk expected_sizes (files, warnings) (chunk_at buf p)) as [files' w'].
    cbn [bind]. apply IH; lia.
Qed.

Lemma finish_file_ok (file : QstContainedFile) :
  finish_file file = Ok (finished_file file, finish_warnings file).
Proof.
  unfold finish_file. rewrite seek_start_0. reflexivity.
Qed.

Lemma finish_files_ok (files : list QstContainedFile) (warnings : list warning) :
  finish_files files warnings
  = Ok (map finished_file files, warnings ++ flat_map finish_warnings files).
Proof.
  revert warnings. induction files as [|file files IH]; intros warnings.
  - cbn. now rewrite app_nil_r.
  - cbn [finish_files map flat_map]. rewrite finish_file_ok. cbn [bind].
    rewrite IH. cbn [bind]. now rewrite app_assoc.
Qed.

Lemma parse_files_ok (expected_sizes : list (string * Z)) (buf : list byte) (count : nat) :
  Z.of_nat (length buf) = 176 + 1056 * Z.of_nat count ->
  parse_files (mkCursor buf 176) expected_sizes
  = let '(files, warnings) :=
      fold_left (apply_chunk expected_sizes) (chunks_from count buf 176) ([], []) in
    Ok (map finished_file (map snd files), mkCursor buf (Z.of_nat (length buf)),
        warnings ++ flat_map finish_warnings (map snd files)).
Proof.
  intros Hlen. unfold parse_files.
  rewrite (parse_file_chunks_ok expected_sizes buf count) by (rewrite ?bytes_left_mk; lia).
  destruct (fold_left _ _ _) as [files warnings]. cbn [bind].
  rewrite finish_files_ok. reflexivity.
Qed.

Lemma parse_files_ragged (expected_sizes : list (string * Z)) (buf : list byte) :
  176 <= Z.of_nat (length buf) -> (Z.of_nat (length buf) - 176) mod 1056 <> 0 ->
  parse_files (mkCursor buf 176) expected_sizes = Err OutOfBounds.
Proof.
  intros Hlen Hmod. unfold parse_files.
  pose proof (Z.div_mod (Z.of_nat (length buf) - 176) 1056 ltac:(lia)) as Hdm.
  pose proof (Z.mod_pos_bound (Z.of_nat (length buf) - 176) 1056 ltac:(lia)) as Hb.
  pose proof (Z.div_pos (Z.of_nat (length buf) - 176) 1056 ltac:(lia) ltac:(lia)) as Hq.
  rewrite (parse_file_chunks_ragged expected_sizes buf
             (Z.to_nat ((Z.of_nat (length buf) - 176) / 1056)));
    rewrite ?bytes_left_mk; try reflexivity; lia.
Qed.

Lemma container_chunks_count (buf : list byte) (count : nat) :
  Z.of_nat (length buf) = 176 + 1056 * Z.of_nat count ->
  container_chunks buf = chunks_from count buf 176.
Proof.
  intros H. unfold container_chunks. rewrite H.
  replace (176 + 1056 * Z.of_nat count - 176) with (Z.of_nat count * 1056) by lia.
  now rewrite Z.div_mul, Nat2Z.id by lia.
Qed.

(** * The three outcomes of [parse_qst] *)

Lemma parse_qst_prologue (buf : list byte) :
  3 <= Z.of_nat (length buf) ->
  parse_qst (cursor_of_bytes buf) =
  if String.eqb (version_of buf) BLUE_BURST then
    cursor <- seek_start 0 (mkCursor buf 3) ;;
    '(headers, cursor) <- parse_headers cursor ;;
    '(files, cursor, warnings) <- parse_files cursor (expected_sizes_of headers) ;;
    Ok (Some (mkParseQstResult (version_of buf) (map (with_header headers) files)),
        cursor, warnings)
  else Ok (None, mkCursor buf 3, []).
Proof.
  intros H. unfold parse_qst, cursor_of_bytes.
  rewrite u8_ok by lia. cbn [bind].
  rewrite seek_ok by lia. cbn [bind].
  rewrite u8_ok by lia. cbn [bind]. reflexivity.
Qed.

Lemma parse_qst_too_short (buf : list byte) :
  Z.of_nat (length buf) < 3 -> parse_qst (cursor_of_bytes buf) = Err OutOfBounds.
Proof.
  intros H. unfold parse_qst, cursor_of_bytes.
  repeat (oob_step; [|reflexivity]). lia.
Qed.

Lemma parse_qst_unsupported (buf : list byte) :
  3 <= Z.of_nat (length buf) -> version_of buf <> BLUE_BURST ->
  parse_qst (cursor_of_bytes buf) = Ok (None, mkCursor buf 3, []).
Proof.
  intros H Hv. rewrite parse_qst_prologue by exact H.
  destruct (String.eqb_spec (version_of buf) BLUE_BURST); [contradiction|reflexivity].
Qed.

Lemma parse_qst_blue_burst (buf : list byte) (count : nat) :
  version_of buf = BLUE_BURST ->
  Z.of_nat (length buf) = 176 + 1056 * Z.of_nat count ->
  parse_qst (cursor_of_bytes buf)
  = Ok (Some (mkParseQstResult BLUE_BURST
                (map (with_header (container_headers buf))
                   (map finished_file (map snd (fst (reconstructed buf)))))),
        mkCursor buf (Z.of_nat (length buf)),
        snd (reconstructed buf)
        ++ flat_map finish_warnings (map snd (fst (reconstructed buf)))).
Proof.
  intros Hv Hlen. rewrite parse_qst_prologue by lia. rewrite Hv.
  rewrite String.eqb_refl. rewrite seek_start_ok by lia. cbn [bind].
  rewrite parse_headers_ok by lia. cbn [bind].
  rewrite (parse_files_ok _ buf count Hlen).
  unfold reconstructed. rewrite (container_chunks_count buf count Hlen).
  destruct (fold_left _ _ _) as [files warnings]. reflexivity.
Qed.

Lemma parse_qst_blue_burst_length (buf : list byte) r :
  version_of buf = BLUE_BURST -> parse_qst (cursor_of_bytes buf) = Ok r ->
  exists count : nat, Z.of_nat (length buf) = 176 + 1056 * Z.of_nat count.
Proof.
  intros Hv Hok.
  destruct (Z_lt_ge_dec (Z.of_nat (length buf)) 3) as [Hs|Hs].
  { rewrite parse_qst_too_short in Hok by exact Hs. discriminate. }
  rewrite parse_qst_prologue in Hok by lia. rewrite Hv, String.eqb_refl in Hok.
  rewrite seek_start_ok in Hok by lia. cbn [bind] in Hok.
  destruct (Z_lt_ge_dec (Z.of_nat (length buf)) 176) as [Hh|Hh].
  { rewrite parse_headers_short in Hok by exact Hh. discriminate. }
  rewrite parse_headers_ok in Hok by lia. cbn [bind] in Hok.
  destruct (Z.eq_dec ((Z.of_nat (length buf) - 176) mod 1056) 0) as [Hm|Hm].
  - exists (Z.to_nat ((Z.of_nat (length buf) - 176) / 1056)).
    pose proof (Z.div_mod (Z.of_nat (length buf) - 176) 1056 ltac:(lia)).
    pose proof (Z.div_pos (Z.of_nat (length buf) - 176) 1056 ltac:(lia) ltac:(lia)). lia.
  - rewrite parse_files_ragged in Hok by (lia || assumption). discriminate.
Qed.

(** * Maps with string keys *)

Lemma map_get_set {V : Type} (k k' : string) (v : V) (m : list (string * V)) :
  map_get k (map_set k' v m) = if String.eqb k' k then Some v else map_get k m.
Proof.
  induction m as [|[k0 v0] m IH]; cbn [map_set map_get].
  - destruct (String.eqb k' k); reflexivity.
  - destruct (String.eqb_spec k0 k') as [->|Hne]; cbn [map_get].
    + destruct (String.eqb k' k); reflexivity.
    + rewrite IH. destruct (String.eqb_spec k0 k) as [->|Hne'].
      * destruct (String.eqb_spec k' k); [congruence|reflexivity].
      * reflexivity.
Qed.

Lemma map_set_keys {V : Type} (k : string) (v : V) (m : list (string * V)) (k0 : string) :
  In k0 (map fst (map_set k v m)) <-> k0 = k \/ In k0 (map fst m).
Proof.
  induction m as [|[k1 v1] m IH]; cbn [map_set map fst In].
  - intuition.
  - destruct (String.eqb_spec k1 k) as [->|Hne]; cbn [map fst In]; [intuition|].
    rewrite IH. intuition.
Qed.

Lemma map_set_NoDup {V : Type} (k : string) (v : V) (m : list (string * V)) :
  NoDup (map fst m) -> NoDup (map fst (map_set k v m)).
Proof.
  induction m as [|[k1 v1] m IH]; intros Hnd; cbn [map_set map fst].
  - repeat constructor. intros [].
  - inversion Hnd as [|? ? Hnot Hnd']; subst.
    destruct (String.eqb_spec k1 k) as [->|Hne]; cbn [map fst].
    + now constructor.
    + constructor; [|now apply IH]. rewrite map_set_keys. cbn [fst] in Hnot. intuition.
Qed.

Lemma map_get_In {V : Type} (k : string) (v : V) (m : list (string * V)) :
  NoDup (map fst m) -> In (k, v) m -> map_get k m = Some v.
Proof.
  induction m as [|[k1 v1] m IH]; intros Hnd Hin; [contradiction|].
  inversion Hnd as [|? ? Hnot Hnd']; subst. cbn [map_get].
  destruct Hin as [E|Hin].
  - injection E as -> ->. now rewrite String.eqb_refl.
  - destruct (String.eqb_spec k1 k) as [->|Hne]; [|now apply IH].
    exfalso. apply Hnot. cbn [fst]. apply in_map_iff. now exists (k, v).
Qed.

Lemma map_get_Some_In {V : Type} (k : string) (v : V) (m : list (string * V)) :
  map_get k m = Some v -> In (k, v) m.
Proof.
  induction m as [|[k1 v1] m IH]; cbn [map_get]; [discriminate|].
  destruct (String.eqb_spec k1 k) as [->|Hne].
  - intros [= ->]. now left.
  - intros H. right. now apply IH.
Qed.

(** * The files reconstructed from a chunk stream *)

Lemma apply_chunk_update (expected_sizes : list (string * Z))
    (files : list (string * QstContainedFile)) (warnings : list warning) (ch : Chunk) :
  fst (apply_chunk expected_sizes (files, warnings) ch)
  = map_set (chunk_file_name ch)
      (chunk_update expected_sizes ch (map_get (chunk_file_name ch) files)) files.
Proof.
  unfold apply_chunk, chunk_update, segment_size_of.
  destruct (map_get (chunk_file_name ch) files) as [file|];
    destruct (existsb _ _); destruct (Z.gtb_spec (chunk_declared_size ch) 1024);
    cbn [fst]; rewrite ?Z.min_r by lia; rewrite ?Z.min_l by lia; reflexivity.
Qed.

Lemma fold_apply_chunk_get (expected_sizes : list (string * Z)) (file_name : string)
    (chunks : list Chunk) :
  forall st,
    map_get file_name (fst (fold_left (apply_chunk expected_sizes) chunks st))
    = file_after expected_sizes file_name chunks (map_get file_name (fst st)).
Proof.
  induction chunks as [|ch chunks IH]; intros [files warnings]; [reflexivity|].
  cbn [fold_left]. rewrite IH. unfold file_after. cbn [fold_left]. f_equal.
  rewrite apply_chunk_update, map_get_set. unfold chunk_of.
  destruct (String.eqb_spec (chunk_file_name ch) file_name) as [->|]; reflexivity.
Qed.

Lemma fold_apply_chunk_NoDup (expected_sizes : list (string * Z)) (chunks : list Chunk) :
  forall st, NoDup (map fst (fst st)) ->
             NoDup (map fst (fst (fold_left (apply_chunk expected_sizes) chunks st))).
Proof.
  induction chunks as [|ch chunks IH]; intros [files warnings] Hnd; [exact Hnd|].
  cbn [fold_left]. apply IH. rewrite apply_chunk_update. now apply map_set_NoDup.
Qed.


(** * Writing a segment into a buffer *)

Lemma firstn_skipn_app_l {A : Type} (q m : nat) (l1 l2 : list A) :
  (q + m <= length l1)%nat ->
  firstn m (skipn q (l1 ++ l2)) = firstn m (skipn q l1).
Proof.
  intros H. rewrite skipn_app. replace (q - length l1)%nat with 0%nat by lia.
  cbn [skipn]. rewrite firstn_app, length_skipn.
  replace (m - (length l1 - q))%nat with 0%nat by lia. cbn [firstn]. apply app_nil_r.
Qed.

Lemma skipn_app_r {A : Type} (q : nat) (l1 l2 : list A) :
  (length l1 <= q)%nat -> skipn q (l1 ++ l2) = skipn (q - length l1) l2.
Proof.
  intros H. rewrite skipn_app, skipn_all2 by lia. reflexivity.
Qed.

(** [place p seg l]: [l] with [seg] written over it from index [p] on. *)
Lemma place_split (p : nat) (seg l : list byte) :
  (p + length seg <= length l)%nat ->
  exists l1 l2 l3,
    l = l1 ++ l2 ++ l3 /\ length l1 = p /\ length l2 = length seg
    /\ firstn p l ++ seg ++ skipn (p + length seg) l = l1 ++ seg ++ l3.
Proof.
  intros H. exists (firstn p l), (firstn (length seg) (skipn p l)), (skipn (p + length seg) l).
  repeat split.
  - rewrite <- (firstn_skipn p l) at 1. f_equal.
    rewrite <- (firstn_skipn (length seg) (skipn p l)) at 1. f_equal.
    rewrite skipn_skipn. f_equal. lia.
  - rewrite length_firstn. lia.
  - rewrite length_firstn, length_skipn. lia.
Qed.

Lemma firstn_pad_to (p : nat) (l : list byte) :
  (p <= length l)%nat -> firstn p (pad_to p l) = firstn p l.
Proof.
  intros H. unfold pad_to. replace (p - length l)%nat with 0%nat by lia.
  cbn [repeat]. now rewrite app_nil_r.
Qed.

Lemma set_size_grow (n : Z) (c : ArrayBufferCursor) :
  size c <= n ->
  buffer (set_size n c) = buffer c ++ repeat x00 (Z.to_nat n - length (buffer c)).
Proof.
  unfold size, set_size, pad_to. cbn [buffer]. intros H.
  apply firstn_all2. rewrite length_app, repeat_length. lia.
Qed.

Section WriteSegment.
Variables (seg buf : list byte) (p : Z).
Hypothesis Hp : 0 <= p.
Hypothesis Hfit : p + Z.of_nat (length seg) <= Z.of_nat (length buf).

Let written := buffer (write_cursor (mkCursor seg 0) (mkCursor buf p)).

Lemma written_eq :
  written = firstn (Z.to_nat p) buf ++ seg ++ skipn (Z.to_nat p + length seg) buf.
Proof.
  unfold written, write_cursor, write_u8_array. cbn [buffer position].
  now rewrite firstn_pad_to by lia.
Qed.

Lemma written_length : length written = length buf.
Proof.
  rewrite written_eq.
  destruct (place_split (Z.to_nat p) seg buf ltac:(lia)) as (l1 & l2 & l3 & -> & H1 & H2 & ->).
  rewrite !length_app. lia.
Qed.

Lemma written_segment : slice p (Z.of_nat (length seg)) written = seg.
Proof.
  rewrite written_eq.
  destruct (place_split (Z.to_nat p) seg buf ltac:(lia)) as (l1 & l2 & l3 & -> & H1 & H2 & ->).
  unfold slice. rewrite Nat2Z.id, skipn_app_r by lia.
  replace (Z.to_nat p - length l1)%nat with 0%nat by lia. cbn [skipn].
  rewrite firstn_app, firstn_all, Nat.sub_diag. cbn [firstn]. apply app_nil_r.
Qed.

Lemma written_elsewhere (q m : Z) :
  0 <= q -> 0 <= m ->
  q + m <= p \/ p + Z.of_nat (length seg) <= q ->
  slice q m written = slice q m buf.
Proof.
  intros Hq Hm Hdis. rewrite written_eq.
  destruct (place_split (Z.to_nat p) seg buf ltac:(lia)) as (l1 & l2 & l3 & -> & H1 & H2 & ->).
  unfold slice. destruct Hdis as [Hbefore|Hafter].
  - rewrite !firstn_skipn_app_l by lia. reflexivity.
  - rewrite !skipn_app_r by lia. do 2 f_equal. lia.
Qed.
End WriteSegment.

Lemma slice_app_zeros (q m : Z) (l : list byte) (k : nat) :
  0 <= q -> 0 <= m -> q + m <= Z.of_nat (length l) ->
  slice q m (l ++ repeat x00 k) = slice q m l.
Proof.
  intros Hq Hm H. unfold slice. apply firstn_skipn_app_l. lia.
Qed.

(** * One chunk applied to one file *)

Section ChunkUpdate.
Variables (expected_sizes : list (string * Z)) (ch : Chunk)
          (before : option QstContainedFile).
Hypothesis Hwf : chunk_wf ch.

Let file0 := base_file expected_sizes ch before.
Let file' := chunk_update expected_sizes ch before.

Lemma segment_size_range : 0 <= segment_size_of ch <= 1024.
Proof. destruct Hwf as (_ & Hd & _). unfold segment_size_of. lia. Qed.

Lemma chunk_update_fields :
  name file' = name file0 /\ expected_size file' = expected_size file0
  /\ chunk_nos file' = (if existsb (Z.eqb (chunk_number ch)) (chunk_nos file0)
                        then chunk_nos file0 else chunk_nos file0 ++ [chunk_number ch]).
Proof.
  unfold file', file0, chunk_update, base_file. destruct before; cbn; auto.
Qed.

Lemma chunk_update_data :
  data file'
  = write_cursor (mkCursor (chunk_segment ch) 0)
      (mkCursor (buffer (data file0)
                 ++ repeat x00 (Z.to_nat (Z.max (chunk_end ch) (size (data file0)))
                                - length (buffer (data file0))))
         (chunk_number ch * 1024)).
Proof.
  unfold file', file0, chunk_update, base_file, chunk_end.
  destruct before; cbn [data]; rewrite set_size_grow by lia; reflexivity.
Qed.

Lemma chunk_update_size :
  size (data file') = Z.max (chunk_end ch) (size (data file0)).
Proof.
  rewrite chunk_update_data. pose proof segment_size_range as Hs.
  destruct Hwf as (Hno & Hd & Hlen). unfold size at 1.
  rewrite written_length; rewrite ?length_app, ?repeat_length; unfold chunk_end, size in *; lia.
Qed.

Lemma chunk_update_segment :
  slice (chunk_number ch * 1024) (segment_size_of ch) (buffer (data file'))
  = chunk_segment ch.
Proof.
  rewrite chunk_update_data. pose proof segment_size_range as Hs.
  destruct Hwf as (Hno & Hd & Hlen). rewrite <- Hlen.
  apply written_segment; rewrite ?length_app, ?repeat_length; unfold chunk_end, size in *; lia.
Qed.

Lemma chunk_update_elsewhere (chunk_no m : Z) :
  0 <= chunk_no -> 0 <= m <= 1024 -> chunk_no <> chunk_number ch ->
  chunk_no * 1024 + m <= size (data file0) ->
  slice (chunk_no * 1024) m (buffer (data file'))
  = slice (chunk_no * 1024) m (buffer (data file0)).
Proof.
  intros Hk Hm Hne Hin. rewrite chunk_update_data. pose proof segment_size_range as Hs.
  destruct Hwf as (Hno & Hd & Hlen).
  rewrite written_elsewhere;
    rewrite ?length_app, ?repeat_length; unfold chunk_end, size in *; try lia.
  apply slice_app_zeros; lia.
Qed.
End ChunkUpdate.

(** * All chunks applied to one file *)

Lemma chunk_of_name (file_name : string) (ch : Chunk) :
  chunk_of file_name ch = true -> chunk_file_name ch = file_name.
Proof. unfold chunk_of. apply String.eqb_eq. Qed.

Lemma file_after_snoc (expected_sizes : list (string * Z)) (file_name : string)
    (chunks : list Chunk) (ch : Chunk) :
  file_after expected_sizes file_name (chunks ++ [ch]) None
  = if chunk_of file_name ch
    then Some (chunk_update expected_sizes ch (file_after expected_sizes file_name chunks None))
    else file_after expected_sizes file_name chunks None.
Proof. unfold file_after. now rewrite fold_left_app. Qed.

Lemma observed_size_snoc (file_name : string) (chunks : list Chunk) (ch : Chunk) :
  observed_size file_name (chunks ++ [ch])
  = if chunk_of file_name ch then Z.max (chunk_end ch) (observed_size file_name chunks)
    else observed_size file_name chunks.
Proof. unfold observed_size. now rewrite fold_left_app. Qed.

Lemma last_chunk_snoc (file_name : string) (chunk_no : Z) (chunks : list Chunk) (ch : Chunk) :
  last_chunk file_name chunk_no (chunks ++ [ch])
  = if chunk_of file_name ch && (chunk_number ch =? chunk_no) then Some ch
    else last_chunk file_name chunk_no chunks.
Proof. unfold last_chunk. rewrite rev_app_distr. reflexivity. Qed.

Lemma last_chunk_In (file_name : string) (chunk_no : Z) (chunks : list Chunk) (ch : Chunk) :
  last_chunk file_name chunk_no chunks = Some ch ->
  In ch chunks /\ chunk_of file_name ch = true /\ chunk_number ch = chunk_no.
Proof.
  unfold last_chunk. intros H. apply find_some in H. destruct H as [Hin Hb].
  apply in_rev in Hin. apply andb_prop in Hb. destruct Hb as [Hn Hk].
  apply Z.eqb_eq in Hk. auto.
Qed.

Lemma observed_size_none (file_name : string) (chunks : list Chunk) :
  (forall ch, In ch chunks -> chunk_of file_name ch = false) ->
  observed_size file_name chunks = 0.
Proof.
  unfold observed_size. induction chunks as [|ch chunks IH] using rev_ind; intros H.
  - reflexivity.
  - rewrite fold_left_app. cbn [fold_left].
    rewrite (H ch) by (apply in_or_app; right; now left).
    apply IH. intros c Hc. apply H. apply in_or_app. now left.
Qed.

Lemma file_after_state (expected_sizes : list (string * Z)) (file_name : string)
    (chunks : list Chunk) :
  Forall chunk_wf chunks ->
  file_state expected_sizes file_name chunks
    (file_after expected_sizes file_name chunks None).
Proof.
  induction chunks as [|ch chunks IH] using rev_ind; intros Hwf.
  - cbn. intros ch [].
  - apply Forall_app in Hwf. destruct Hwf as [Hwfs Hwf1].
    inversion Hwf1 as [|? ? Hwf _]; subst. specialize (IH Hwfs).
    rewrite file_after_snoc.
    destruct (chunk_of file_name ch) eqn:Hof.
    + (* a chunk of this file *)
      pose proof (chunk_of_name _ _ Hof) as Hname.
      set (before := file_after expected_sizes file_name chunks None) in *.
      pose proof (chunk_update_fields expected_sizes ch before) as (Hn & He & Hnos).
      pose proof (chunk_update_size expected_sizes ch before Hwf) as Hsize.
      assert (Hbase : name (base_file expected_sizes ch before) = file_name
                      /\ expected_size (base_file expected_sizes ch before)
                         = truthy (map_get file_name expected_sizes)
                      /\ size (data (base_file expected_sizes ch before))
                         = observed_size file_name chunks
                      /\ (forall k, In k (chunk_nos (base_file expected_sizes ch before))
                                    <-> exists c, In c chunks /\ chunk_of file_name c = true
                                                  /\ chunk_number c = k)).
      { destruct before as [file|]; cbn [file_state base_file] in *.
        - destruct IH as (H1 & H2 & H3 & H4 & _). auto.
        - cbn [name expected_size data chunk_nos]. rewrite Hname.
          rewrite (observed_size_none _ _ IH). repeat split; auto.
          + intros [].
          + intros (c & Hc & Hcof & _). rewrite (IH c Hc) in Hcof. discriminate. }
      destruct Hbase as (Hb1 & Hb2 & Hb3 & Hb4).
      cbn [file_state]. unfold file_reconstructed.
      rewrite Hn, He, Hsize, Hb1, Hb2, Hb3, observed_size_snoc, Hof.
      split; [reflexivity|]. split; [reflexivity|]. split; [reflexivity|]. split.
      * intros k. rewrite Hnos.
        assert (Hk : In k (chunk_nos (base_file expected_sizes ch before) ++ [chunk_number ch])
                     <-> exists c, In c (chunks ++ [ch]) /\ chunk_of file_name c = true
                                   /\ chunk_number c = k).
        { rewrite in_app_iff, Hb4. cbn [In]. split.
          - intros [(c & Hc & Hcof & Hck)|[Hk|[]]].
            + exists c. rewrite in_app_iff. auto.
            + exists ch. rewrite in_app_iff. cbn [In]. auto.
          - intros (c & Hc & Hcof & Hck). apply in_app_iff in Hc.
            destruct Hc as [Hc|[->|[]]]; [left; eauto|right; left; exact Hck]. }
        destruct (existsb (Z.eqb (chunk_number ch))
                    (chunk_nos (base_file expected_sizes ch before))) eqn:Hex; [|exact Hk].
        rewrite <- Hk, in_app_iff. cbn [In]. split; [auto|].
        intros [H|[<-|[]]]; [exact H|].
        apply existsb_exists in Hex. destruct Hex as (x & Hx & Hxe).
        apply Z.eqb_eq in Hxe. now subst x.
      * intros k c. rewrite last_chunk_snoc, Hof. cbn [andb].
        destruct (Z.eqb_spec (chunk_number ch) k) as [<-|Hne].
        -- intros [= <-]. split; [unfold chunk_end; lia|].
           apply chunk_update_segment. exact Hwf.
        -- intros Hlast. pose proof (last_chunk_In _ _ _ _ Hlast) as (Hcin & Hcof & Hck).
           destruct before as [file|]; cbn [file_state] in IH;
             [|rewrite (IH c Hcin) in Hcof; discriminate].
           destruct IH as (_ & _ & H3 & _ & H5).
           destruct (H5 k c Hlast) as [Hle Hsl].
           rewrite Forall_forall in Hwfs. pose proof (Hwfs c Hcin) as Hwfc.
           pose proof (segment_size_range c Hwfc) as Hss.
           destruct Hwfc as (Hcno & _ & _).
           cbn [base_file] in *. split; [lia|].
           rewrite chunk_update_elsewhere; cbn [base_file]; try assumption; lia.
    + (* a chunk of another file *)
      destruct (file_after expected_sizes file_name chunks None) as [file|];
        cbn [file_state] in *.
      * destruct IH as (H1 & H2 & H3 & H4 & H5). unfold file_reconstructed.
        rewrite observed_size_snoc, Hof. repeat split; auto.
        -- intros Hin. apply H4 in Hin. destruct Hin as (c & Hc & Hcof & Hck).
           exists c. rewrite in_app_iff. auto.
        -- intros (c & Hc & Hcof & Hck). apply H4. apply in_app_iff in Hc.
           destruct Hc as [Hc|[->|[]]]; [eauto|congruence].
        -- rewrite last_chunk_snoc, Hof in H. cbn [andb] in H. now apply H5.
        -- rewrite last_chunk_snoc, Hof in H. cbn [andb] in H. now apply H5.
      * intros c Hc. apply in_app_iff in Hc. destruct Hc as [Hc|[->|[]]]; auto.
Qed.

(** * What [write_qst] writes *)

Lemma iter_write_zero (n : nat) (pre : list byte) :
  Nat.iter n (write_u8 0) (at_pos pre []) = at_pos (pre ++ repeat x00 n) [].
Proof.
  revert pre. induction n as [|n IH]; intros pre.
  - cbn. now rewrite app_nil_r.
  - rewrite Nat.iter_succ_r. unfold write_u8 at 2. rewrite write_u8_array_at_end.
    rewrite IH. rewrite <- app_assoc. reflexivity.
Qed.

Lemma write_string_ascii_at_end (s : string) (n : nat) (pre : list byte) :
  write_string_ascii s (Z.of_nat n) (at_pos pre []) = at_pos (pre ++ name_field n s) [].
Proof.
  unfold write_string_ascii, name_field. rewrite Nat2Z.id. apply write_u8_array_at_end.
Qed.

Lemma write_file_header_at_end (pre : list byte) (file : SimpleQstContainedFile) :
  write_file_header (at_pos pre []) file = at_pos (pre ++ encode_header file) [].
Proof.
  unfold write_file_header, encode_header. cbv zeta.
  unfold write_u16, write_u32. rewrite !write_u8_array_at_end, iter_write_zero.
  rewrite (write_string_ascii_at_end _ 16), write_u8_array_at_end.
  rewrite (write_string_ascii_at_end _ 24). now rewrite <- !app_assoc.
Qed.

Lemma write_file_headers_at_end (pre : list byte) (files : list SimpleQstContainedFile) :
  write_file_headers (at_pos pre []) files = at_pos (pre ++ flat_map encode_header files) [].
Proof.
  unfold write_file_headers.
  apply (fold_left_write_at_end write_file_header encode_header).
  intros p f. apply write_file_header_at_end.
Qed.

Lemma next_segment_length (data : ArrayBufferCursor) :
  cursor_valid data ->
  Z.of_nat (length (next_segment data)) = Z.min 1024 (bytes_left data).
Proof.
  intros [Hlo Hhi]. unfold next_segment, bytes_left, size in *.
  apply slice_length; lia.
Qed.

Lemma write_file_chunk_at_end (pre : list byte) (data : ArrayBufferCursor)
    (chunk_no : Z) (name : string) :
  cursor_valid data ->
  write_file_chunk (at_pos pre []) data chunk_no name
  = Ok (at_pos (pre ++ encode_chunk chunk_no name (next_segment data)) [],
        mkCursor (buffer data) (position data + Z.min 1024 (bytes_left data)),
        negb (bytes_left data - Z.min 1024 (bytes_left data) =? 0)).
Proof.
  intros Hv. pose proof (next_segment_length data Hv) as Hlen.
  destruct Hv as [Hlo Hhi]. unfold write_file_chunk, encode_chunk. cbv zeta.
  destruct data as [b p]. cbn [buffer position] in *. rewrite size_mk in Hhi.
  rewrite bytes_left_mk in *.
  rewrite take_ok by lia. cbn [bind].
  unfold write_u8, write_u32, write_cursor. cbn [buffer].
  rewrite !write_u8_array_at_end, (write_string_ascii_at_end _ 16),
    write_u8_array_at_end, iter_write_zero, !write_u8_array_at_end.
  unfold next_segment in *. cbn [buffer position] in *.
  rewrite ?bytes_left_mk in Hlen. rewrite ?bytes_left_mk.
  rewrite Hlen. rewrite <- !app_assoc. cbn [app].
  do 3 f_equal. lia.
Qed.

Ltac Zify.zify_post_hook ::= Z.to_euclidean_division_equations.

Lemma write_round_at_end (rotation : list (SimpleQstContainedFile * Z)) :
  Forall (fun entry => data_valid (fst entry)) rotation ->
  forall pre,
    write_round (at_pos pre []) rotation
    = Ok (at_pos (pre ++ flat_map entry_chunk rotation) [], flat_map next_entry rotation).
Proof.
  induction 1 as [|[file chunk_no] rotation Hv Hrest IH]; intros pre.
  - cbn. now rewrite app_nil_r.
  - cbn [write_round flat_map fst snd]. cbn [fst] in Hv.
    rewrite write_file_chunk_at_end by exact Hv. cbn [bind].
    rewrite IH. cbn [bind]. rewrite <- app_assoc.
    unfold next_entry, entry_chunk. cbn [fst snd].
    destruct (negb _); reflexivity.
Qed.

Section Rotation.
Variable file : SimpleQstContainedFile.
Hypothesis Hvalid : data_valid file.

Let left := bytes_left (simple_data file).

Lemma left_nonneg : 0 <= left.
Proof. unfold left, bytes_left. destruct Hvalid. lia. Qed.

Lemma chunks_needed_pos : (1 <= chunks_needed file)%nat.
Proof. unfold chunks_needed. lia. Qed.

Lemma chunks_needed_left (r : nat) :
  (r < chunks_needed file)%nat ->
  bytes_left (snd (B := ArrayBufferCursor) (0, simple_data (fst (entry_at r file))))
  = left - 1024 * Z.of_nat r
  /\ (r = 0%nat \/ 0 < left - 1024 * Z.of_nat r).
Proof.
  pose proof left_nonneg as Hl. unfold chunks_needed, chunk_count. fold left.
  intros Hr. cbn [entry_at fst snd simple_data]. rewrite bytes_left_mk.
  unfold left, bytes_left, size in *. split; [lia|].
  destruct r as [|r]; [now left|right]. lia.
Qed.

Lemma entry_at_valid (r : nat) :
  (r < chunks_needed file)%nat -> data_valid (fst (entry_at r file)).
Proof.
  intros Hr. destruct (chunks_needed_left r Hr) as [Hleft Hpos].
  cbn [snd] in Hleft. unfold data_valid, cursor_valid in *.
  cbn [entry_at fst simple_data] in *. rewrite bytes_left_mk in Hleft.
  rewrite size_mk. cbn [position]. unfold left, bytes_left, size in *.
  destruct Hvalid. lia.
Qed.

Lemma next_entry_at (r : nat) :
  (r < chunks_needed file)%nat ->
  next_entry (entry_at r file)
  = if (S r <? chunks_needed file)%nat then [entry_at (S r) file] else [].
Proof.
  intros Hr. destruct (chunks_needed_left r Hr) as [Hleft Hpos].
  cbn [snd] in Hleft. pose proof left_nonneg as Hl.
  unfold next_entry. cbn [entry_at fst snd simple_data simple_name simple_name_2
                            simple_quest_no] in *.
  rewrite Hleft. cbn [buffer position].
  unfold chunks_needed, chunk_count in *. fold left in Hr |- *.
  destruct (Nat.ltb_spec (S r) (Z.to_nat (Z.max 1 ((left + 1023) / 1024)))) as [Hlt|Hge].
  - destruct (Z.eqb_spec (left - 1024 * Z.of_nat r
                          - Z.min 1024 (left - 1024 * Z.of_nat r)) 0) as [E|N];
      [exfalso; lia|].
    cbn [negb]. unfold entry_at. rewrite Nat2Z.inj_succ. unfold Z.succ.
    replace (position (simple_data file) + 1024 * Z.of_nat r
             + Z.min 1024 (left - 1024 * Z.of_nat r))
      with (position (simple_data file) + 1024 * (Z.of_nat r + 1)) by lia.
    reflexivity.
  - destruct (Z.eqb_spec (left - 1024 * Z.of_nat r
                          - Z.min 1024 (left - 1024 * Z.of_nat r)) 0) as [E|N];
      [reflexivity|exfalso; lia].
Qed.
End Rotation.

Lemma rotation_at_next (files : list SimpleQstContainedFile) (r : nat) :
  Forall data_valid files ->
  flat_map next_entry (rotation_at files r) = rotation_at files (S r).
Proof.
  induction 1 as [|file files Hv Hrest IH]; [reflexivity|].
  unfold rotation_at in *. cbn [flat_map]. rewrite flat_map_app, IH. f_equal.
  destruct (Nat.ltb_spec r (chunks_needed file)) as [Hlt|Hge].
  - cbn [flat_map]. rewrite app_nil_r. now apply next_entry_at.
  - destruct (Nat.ltb_spec (S r) (chunks_needed file)); [lia|reflexivity].
Qed.

Lemma rotation_at_valid (files : list SimpleQstContainedFile) (r : nat) :
  Forall data_valid files ->
  Forall (fun entry => data_valid (fst entry)) (rotation_at files r).
Proof.
  induction 1 as [|file files Hv Hrest IH]; [constructor|].
  unfold rotation_at in *. cbn [flat_map]. apply Forall_app. split; [|exact IH].
  destruct (Nat.ltb_spec r (chunks_needed file)) as [Hlt|Hge]; [|constructor].
  constructor; [|constructor]. now apply entry_at_valid.
Qed.

Lemma rotation_at_done (files : list SimpleQstContainedFile) (r : nat) :
  (rounds_needed files <= r)%nat -> rotation_at files r = [].
Proof.
  unfold rounds_needed, rotation_at. induction files as [|file files IH]; [reflexivity|].
  cbn [map list_max fold_right flat_map]. intros H.
  destruct (Nat.ltb_spec r (chunks_needed file)); [lia|]. apply IH.
  unfold list_max. lia.
Qed.

Lemma rotation_at_start (files : list SimpleQstContainedFile) :
  map (fun file => (file, 0)) files = rotation_at files 0.
Proof.
  induction files as [|file files IH]; [reflexivity|].
  unfold rotation_at in *. cbn [map flat_map]. rewrite IH.
  destruct (Nat.ltb_spec 0 (chunks_needed file)) as [_|H];
    [|pose proof (chunks_needed_pos file); lia].
  cbn [app]. f_equal. destruct file as [n n2 q [b p]]. unfold entry_at.
  cbn [simple_name simple_name_2 simple_quest_no simple_data buffer position Z.of_nat].
  now rewrite Z.mul_0_r, Z.add_0_r.
Qed.

Lemma write_rounds_at_end (files : list SimpleQstContainedFile) :
  Forall data_valid files ->
  forall (todo r fuel : nat) pre,
    (rounds_needed files <= r + todo)%nat -> (todo <= fuel)%nat ->
    write_rounds fuel (at_pos pre []) (rotation_at files r)
    = Ok (at_pos (pre ++ flat_map entry_chunk (flat_map (rotation_at files) (seq r todo))) []).
Proof.
  intros Hv. induction todo as [|todo IH]; intros r fuel pre Hr Hfuel.
  - rewrite rotation_at_done by lia. cbn [seq flat_map].
    rewrite app_nil_r. now destruct fuel.
  - destruct fuel as [|fuel]; [lia|]. cbn [seq flat_map]. rewrite flat_map_app.
    destruct (rotation_at files r) as [|entry rotation] eqn:Hrot.
    + cbn [write_rounds flat_map app].
      specialize (IH (S r) fuel pre ltac:(lia) ltac:(lia)).
      rewrite <- (rotation_at_next files r Hv), Hrot in IH. cbn [flat_map write_rounds] in IH.
      destruct fuel; cbn [write_rounds] in IH; exact IH.
    + cbn [write_rounds]. rewrite <- Hrot.
      rewrite write_round_at_end by (now apply rotation_at_valid). cbn [bind].
      rewrite rotation_at_next by exact Hv.
      rewrite IH by lia. now rewrite <- app_assoc.
Qed.

Lemma chunks_needed_bound (file : SimpleQstContainedFile) :
  data_valid file ->
  (chunks_needed file <= S (Z.to_nat (bytes_left (simple_data file))))%nat.
Proof.
  intros Hv. pose proof (left_nonneg file Hv) as Hl.
  unfold chunks_needed, chunk_count. lia.
Qed.

Lemma total_bytes_left_nonneg (files : list SimpleQstContainedFile) :
  Forall data_valid files ->
  0 <= fold_right Z.add 0 (map (fun file => bytes_left (simple_data file)) files).
Proof.
  induction 1 as [|file files Hv Hrest IH]; cbn [map fold_right]; [lia|].
  pose proof (left_nonneg file Hv). lia.
Qed.

Lemma rounds_needed_bound (files : list SimpleQstContainedFile) :
  Forall data_valid files ->
  (rounds_needed files
   <= S (Z.to_nat (fold_right Z.add 0%Z
                     (map (fun file => bytes_left (simple_data file)) files))))%nat.
Proof.
  unfold rounds_needed.
  induction 1 as [|file files Hv Hrest IH]; cbn [map fold_right list_max]; [lia|].
  pose proof (chunks_needed_bound file Hv). pose proof (left_nonneg file Hv).
  pose proof (total_bytes_left_nonneg files Hrest). unfold list_max in IH. lia.
Qed.

Lemma write_file_chunks_at_end (files : list SimpleQstContainedFile) (pre : list byte) :
  Forall data_valid files ->
  write_file_chunks (at_pos pre []) files
  = Ok (at_pos (pre ++ flat_map entry_chunk (emitted_entries files)) []).
Proof.
  intros Hv. unfold write_file_chunks, emitted_entries. cbv zeta.
  rewrite rotation_at_start.
  apply write_rounds_at_end; [exact Hv|lia|].
  now apply rounds_needed_bound.
Qed.

Lemma size_at_end (l : list byte) : size (at_pos l []) = Z.of_nat (length l).
Proof. unfold size, at_pos. cbn [buffer]. now rewrite app_nil_r. Qed.

Lemma fold_left_add (l : list Z) (a : Z) : fold_left Z.add l a = a + fold_right Z.add 0 l.
Proof.
  revert a. induction l as [|x l IH]; intros a; cbn [fold_left fold_right]; [lia|].
  rewrite IH. lia.
Qed.

(** [write_qst] writes the headers and the chunks, and fails when that is
    not the number of bytes it budgeted. *)
Lemma write_qst_bytes (files : list SimpleQstContainedFile) :
  files <> [] -> Forall data_valid files ->
  write_qst files =
  if Z.of_nat (length (encode_container files)) =? budgeted_size files
  then Ok (cursor_of_bytes (encode_container files))
  else Err (FinalFileSize (budgeted_size files) (Z.of_nat (length (encode_container files)))).
Proof.
  intros Hne Hv. unfold write_qst, budgeted_size.
  destruct files as [|file files]; [contradiction|].
  cbn [map]. rewrite fold_left_add. cbn [fold_right].
  rewrite new_cursor_at, write_file_headers_at_end. cbn [app].
  rewrite write_file_chunks_at_end by exact Hv. cbn [bind].
  unfold encode_container. rewrite !size_at_end.
  match goal with |- context [negb (?a =? ?b)] => destruct (Z.eqb_spec a b) end;
    cbn [negb]; [|reflexivity].
  rewrite seek_start_0. cbn [at_pos buffer]. now rewrite app_nil_r.
Qed.

(** * The size of the output *)

Lemma name_field_length (n : nat) (s : string) : length (name_field n s) = n.
Proof.
  unfold name_field. rewrite length_firstn. pose proof (pad_to_length n (string_to_bytes s)).
  lia.
Qed.

Lemma encode_header_length (file : SimpleQstContainedFile) :
  length (encode_header file) = 88%nat.
Proof.
  unfold encode_header.
  rewrite !length_app, !le_encode_length, !name_field_length, repeat_length. reflexivity.
Qed.

Lemma entry_chunk_length (entry : SimpleQstContainedFile * Z) :
  data_valid (fst entry) -> length (entry_chunk entry) = 1056%nat.
Proof.
  intros Hv. pose proof (next_segment_length _ Hv) as Hlen.
  pose proof (left_nonneg _ Hv) as Hl.
  unfold entry_chunk, encode_chunk.
  rewrite !length_app, !le_encode_length, name_field_length, repeat_length.
  cbn [length]. lia.
Qed.

Lemma flat_map_length_const {A : Type} (f : A -> list byte) (n : nat) (l : list A) :
  Forall (fun a => length (f a) = n) l -> length (flat_map f l) = (length l * n)%nat.
Proof.
  induction 1 as [|a l Ha Hl IH]; [reflexivity|].
  cbn [flat_map length]. rewrite length_app, Ha, IH. lia.
Qed.

Lemma flat_map_app_length {A B : Type} (g h : A -> list B) (l : list A) :
  length (flat_map (fun a => g a ++ h a) l)
  = (length (flat_map g l) + length (flat_map h l))%nat.
Proof.
  induction l as [|a l IH]; [reflexivity|].
  cbn [flat_map]. rewrite !length_app, IH. lia.
Qed.

Lemma count_rounds {B : Type} (x : nat -> B) (m rounds : nat) :
  length (flat_map (fun r => if (r <? m)%nat then [x r] else []) (seq 0 rounds))
  = Nat.min m rounds.
Proof.
  induction rounds as [|rounds IH]; [cbn; lia|].
  rewrite seq_S, flat_map_app, length_app, IH. cbn [flat_map Nat.add].
  destruct (Nat.ltb_spec rounds m); cbn [length app]; lia.
Qed.

Lemma emitted_count_upto (files : list SimpleQstContainedFile) (rounds : nat) :
  (rounds_needed files <= rounds)%nat ->
  length (flat_map (rotation_at files) (seq 0 rounds)) = total_chunks files.
Proof.
  unfold rounds_needed, total_chunks, rotation_at.
  induction files as [|file files IH]; intros Hr.
  - cbn [flat_map]. induction (seq 0 rounds); [reflexivity|assumption].
  - cbn [map list_max fold_right] in *. unfold list_max in IH.
    cbn [flat_map]. rewrite flat_map_app_length, count_rounds, IH by lia. lia.
Qed.

Lemma emitted_count (files : list SimpleQstContainedFile) :
  length (emitted_entries files) = total_chunks files.
Proof. unfold emitted_entries. now apply emitted_count_upto. Qed.

Lemma emitted_valid (files : list SimpleQstContainedFile) :
  Forall data_valid files ->
  Forall (fun entry => data_valid (fst entry)) (emitted_entries files).
Proof.
  intros Hv. unfold emitted_entries. apply Forall_flat_map.
  apply Forall_forall. intros r _. now apply rotation_at_valid.
Qed.

Lemma encode_container_length (files : list SimpleQstContainedFile) :
  Forall data_valid files ->
  Z.of_nat (length (encode_container files))
  = 88 * Z.of_nat (length files) + 1056 * Z.of_nat (total_chunks files).
Proof.
  intros Hv. unfold encode_container. rewrite length_app.
  rewrite (flat_map_length_const encode_header 88)
    by (apply Forall_forall; intros f _; apply encode_header_length).
  rewrite (flat_map_length_const entry_chunk 1056).
  - rewrite emitted_count. lia.
  - eapply Forall_impl; [|apply emitted_valid; exact Hv].
    intros e He. now apply entry_chunk_length.
Qed.


(** With every data cursor at its start, the output is longer than budgeted
    by one chunk for every empty file. *)
Lemma rewound_surplus (files : list SimpleQstContainedFile) :
  Forall data_rewound files ->
  88 * Z.of_nat (length files) + 1056 * Z.of_nat (total_chunks files)
  = budgeted_size files + 1056 * Z.of_nat (length (filter data_empty files)).
Proof.
  unfold total_chunks, budgeted_size.
  induction 1 as [|file files Hr Hrest IH]; [reflexivity|].
  cbn [map fold_right filter length]. rewrite Nat2Z.inj_succ, Nat2Z.inj_add.
  assert (Hn : Z.of_nat (chunks_needed file)
               = chunk_count (size (simple_data file))
                 + (if data_empty file then 1 else 0)).
  { unfold chunks_needed, data_empty, chunk_count, bytes_left. rewrite Hr.
    pose proof (size_nonneg (simple_data file)).
    destruct (Z.eqb_spec (size (simple_data file)) 0); lia. }
  destruct (data_empty file); cbn [length]; lia.
Qed.




(** * Version detection *)

Lemma slice_one (p : Z) (buf : list byte) :
  0 <= p -> p + 1 <= Z.of_nat (length buf) ->
  slice p 1 buf = [nth (Z.to_nat p) buf x00].
Proof.
  intros Hp H. unfold slice. change (Z.to_nat 1) with 1%nat.
  rewrite <- (firstn_skipn (Z.to_nat p) buf) at 2.
  assert (Hlen : length (firstn (Z.to_nat p) buf) = Z.to_nat p)
    by (rewrite length_firstn; lia).
  rewrite app_nth2 by lia. rewrite Hlen, Nat.sub_diag.
  destruct (skipn (Z.to_nat p) buf) as [|b rest] eqn:E; [|reflexivity].
  exfalso. apply (f_equal (@length byte)) in E. rewrite length_skipn in E. cbn in E. lia.
Qed.

Lemma byte_to_Z_inj (a b : byte) : byte_to_Z a = byte_to_Z b -> a = b.
Proof.
  intros H. rewrite <- (byte_of_to_Z a), <- (byte_of_to_Z b). now rewrite H.
Qed.

Lemma version_of_bytes (buf : list byte) :
  3 <= Z.of_nat (length buf) ->
  version_of buf
  = detect_version (byte_to_Z (nth 0 buf x00)) (byte_to_Z (nth 2 buf x00)).
Proof.
  intros H. unfold version_of. rewrite !slice_one by lia. cbn [le_decode].
  now rewrite !Z.add_0_r.
Qed.

Lemma detect_version_blue_burst (a b : Z) :
  detect_version a b = BLUE_BURST <-> a = 0x58 /\ b = 0x44.
Proof.
  unfold detect_version, BLUE_BURST.
  destruct (Z.eqb_spec a 0x44); [split; [discriminate|lia]|].
  destruct (Z.eqb_spec a 0x58).
  - destruct (Z.eqb_spec b 0x44); [tauto|]. split; [discriminate|tauto].
  - destruct (Z.eqb_spec a 0xA6); (split; [discriminate|tauto]).
Qed.

Lemma parse_qst_blue_burst_some (buf : list byte) cursor warnings :
  3 <= Z.of_nat (length buf) -> version_of buf = BLUE_BURST ->
  parse_qst (cursor_of_bytes buf) = Ok (None, cursor, warnings) -> False.
Proof.
  intros H Hv. rewrite parse_qst_prologue by exact H. rewrite Hv, String.eqb_refl.
  destruct (seek_start 0 _); cbn [bind]; [|discriminate].
  destruct (parse_headers _) as [[headers c]|]; cbn [bind]; [|discriminate].
  destruct (parse_files _ _) as [[[files c'] w]|]; cbn [bind]; discriminate.
Qed.

(** C4, amended. The prologue of [parse_qst] inspects byte 0, skips one byte
    and inspects byte 2: an input is taken for the Blue Burst variant exactly
    when byte 0 is 0x58 and byte 2 is 0x44.  For every other input of at
    least three bytes [parse_qst] returns no result, with the cursor left
    right behind the three prologue bytes and nothing logged; for a Blue
    Burst input it never does. *)
Theorem parse_qst_version_detection (buf : list byte) :
  3 <= Z.of_nat (length buf) ->
  version_of buf = detect_version (byte_to_Z (nth 0 buf x00)) (byte_to_Z (nth 2 buf x00))
  /\ (version_of buf = BLUE_BURST <-> nth 0 buf x00 = x58 /\ nth 2 buf x00 = x44)
  /\ (version_of buf <> BLUE_BURST ->
      parse_qst (cursor_of_bytes buf) = Ok (None, mkCursor buf 3, []))
  /\ (version_of buf = BLUE_BURST ->
      forall cursor warnings,
        parse_qst (cursor_of_bytes buf) <> Ok (None, cursor, warnings)).
Proof.
  intros H. split; [now apply version_of_bytes|]. split; [|split].
  - rewrite version_of_bytes by exact H. rewrite detect_version_blue_burst. split.
    + intros [Ha Hb]. split; apply byte_to_Z_inj; assumption.
    + intros [-> ->]. split; reflexivity.
  - now apply parse_qst_unsupported.
  - intros Hv cursor warnings Hp. exact (parse_qst_blue_burst_some buf cursor warnings H Hv Hp).
Qed.

Lemma parse_qst_version_detection_witness :
  version_of marker_at_3 <> BLUE_BURST
  /\ parse_qst (cursor_of_bytes marker_at_3) = Ok (None, mkCursor marker_at_3 3, []).
Proof.
  assert (Hv : version_of marker_at_3 <> BLUE_BURST) by (vm_compute; discriminate).
  split; [exact Hv|].
  apply (proj1 (proj2 (proj2 (parse_qst_version_detection marker_at_3 ltac:(cbn; lia))))).
  exact Hv.
Defined.

(** C4 as stated fails: of two inputs with 0x58 in byte 0, the one with 0x44
    in byte 3 is not taken for the Blue Burst variant and the one with 0x44
    in byte 2 is. *)
Lemma parse_qst_ignores_byte_3 :
  (nth 0 marker_at_3 x00 = x58 /\ nth 3 marker_at_3 x00 = x44
   /\ parse_qst (cursor_of_bytes marker_at_3) = Ok (None, mkCursor marker_at_3 3, []))
  /\ (nth 0 marker_at_2 x00 = x58 /\ nth 3 marker_at_2 x00 = x00
      /\ parse_qst (cursor_of_bytes marker_at_2)
         = Ok (Some (mkParseQstResult BLUE_BURST []), mkCursor marker_at_2 176, [])).
Proof.
  repeat split; vm_compute; reflexivity.
Qed.

(** * The files [parse_qst] returns *)

Lemma chunk_at_wf (buf : list byte) (p : Z) :
  0 <= p -> p + 1056 <= Z.of_nat (length buf) -> chunk_wf (chunk_at buf p).
Proof.
  intros Hp H. split; [now apply chunk_at_number_range|].
  split; [apply chunk_at_declared_nonneg|].
  pose proof (chunk_at_declared_nonneg buf p) as Hd.
  unfold segment_size_of. cbn [chunk_at chunk_segment chunk_declared_size] in *.
  apply slice_length; lia.
Qed.

Lemma chunks_from_wf (buf : list byte) (count : nat) :
  forall p, 0 <= p -> p + 1056 * Z.of_nat count <= Z.of_nat (length buf) ->
            Forall chunk_wf (chunks_from count buf p).
Proof.
  induction count as [|count IH]; intros p Hp H; cbn [chunks_from]; constructor.
  - apply chunk_at_wf; lia.
  - apply IH; lia.
Qed.

Lemma container_chunks_wf (buf : list byte) (count : nat) :
  Z.of_nat (length buf) = 176 + 1056 * Z.of_nat count ->
  Forall chunk_wf (container_chunks buf).
Proof.
  intros H. rewrite (container_chunks_count buf count H). apply chunks_from_wf; lia.
Qed.

Lemma with_header_fields (headers : list QstHeader) (file : QstContainedFile) :
  name (with_header headers file) = name file
  /\ expected_size (with_header headers file) = expected_size file
  /\ data (with_header headers file) = data file
  /\ chunk_nos (with_header headers file) = chunk_nos file.
Proof.
  unfold with_header. destruct (find _ headers); cbn; auto.
Qed.

(** Every returned file is the cleaned-up record of a file reconstructed
    from the chunks that carry its name. *)
Lemma returned_file (buf : list byte) (count : nat) (file : QstContainedFile) :
  Z.of_nat (length buf) = 176 + 1056 * Z.of_nat count ->
  In file (map (with_header (container_headers buf))
             (map finished_file (map snd (fst (reconstructed buf))))) ->
  exists raw,
    In raw (map snd (fst (reconstructed buf)))
    /\ file_reconstructed (expected_sizes_of (container_headers buf)) (name file)
         (container_chunks buf) raw
    /\ name file = name raw /\ expected_size file = expected_size raw
    /\ buffer (data file) = buffer (data raw)
    /\ chunk_nos file = sort_numeric (chunk_nos raw).
Proof.
  intros Hlen Hin. apply in_map_iff in Hin. destruct Hin as (fin & <- & Hin).
  apply in_map_iff in Hin. destruct Hin as (raw & <- & Hin).
  pose proof Hin as Hraw. apply in_map_iff in Hin. destruct Hin as ([key raw'] & E & Hin).
  cbn [snd] in E. subst raw'.
  pose proof (with_header_fields (container_headers buf) (finished_file raw))
    as (Hn & He & Hd & Hc).
  exists raw. rewrite Hn, He, Hd, Hc. cbn [finished_file name expected_size data chunk_nos buffer].
  assert (Hget : map_get key (fst (reconstructed buf)) = Some raw).
  { apply map_get_In; [|exact Hin]. unfold reconstructed.
    apply fold_apply_chunk_NoDup. constructor. }
  unfold reconstructed in Hget. rewrite fold_apply_chunk_get in Hget. cbn [fst map_get] in Hget.
  pose proof (file_after_state (expected_sizes_of (container_headers buf)) key
                (container_chunks buf) (container_chunks_wf buf count Hlen)) as Hst.
  rewrite Hget in Hst. cbn [file_state] in Hst.
  assert (Hkey : name raw = key) by apply Hst.
  rewrite Hkey. split; [exact Hraw|]. split; [exact Hst|]. repeat split; auto.
Qed.

Lemma file_after_name (expected_sizes : list (string * Z)) (file_name : string)
    (chunks : list Chunk) :
  forall before file,
    (forall f, before = Some f -> name f = file_name) ->
    file_after expected_sizes file_name chunks before = Some file ->
    name file = file_name.
Proof.
  unfold file_after. induction chunks as [|c chunks IH]; intros before file Hb Hf;
    cbn [fold_left] in Hf.
  - now apply Hb.
  - apply (IH _ file) in Hf; [exact Hf|].
    destruct (chunk_of file_name c) eqn:Hof; [|exact Hb].
    intros f [= <-].
    destruct (chunk_update_fields expected_sizes c before) as (Hn & _).
    rewrite Hn. unfold base_file. destruct before as [f1|].
    + now apply Hb.
    + cbn [name]. now apply chunk_of_name.
Qed.


Lemma parse_qst_some_blue_burst (buf : list byte) result cursor warnings :
  parse_qst (cursor_of_bytes buf) = Ok (Some result, cursor, warnings) ->
  version_of buf = BLUE_BURST
  /\ exists count : nat, Z.of_nat (length buf) = 176 + 1056 * Z.of_nat count.
Proof.
  intros Hok.
  assert (Hv : version_of buf = BLUE_BURST).
  { destruct (Z_lt_ge_dec (Z.of_nat (length buf)) 3) as [Hs|Hs].
    { rewrite parse_qst_too_short in Hok by exact Hs. discriminate. }
    destruct (string_dec (version_of buf) BLUE_BURST) as [E|N]; [exact E|].
    rewrite parse_qst_unsupported in Hok by (assumption || lia). discriminate. }
  split; [exact Hv|]. exact (parse_qst_blue_burst_length buf _ Hv Hok).
Qed.


Lemma truncated_container_parsed :
  parse_qst (cursor_of_bytes truncated_container)
  = Ok (Some (mkParseQstResult BLUE_BURST [returned_q_dat; returned_q_bin]),
        mkCursor truncated_container 2288,
        [WarnFileSize "q.dat" 1024 2048; WarnMissingChunk "q.dat" 1]).
Proof. vm_compute. reflexivity. Qed.



(** * Missing chunks *)

Lemma chunk_numbers_In (k n : Z) : In k (chunk_numbers n) <-> 0 <= k < n.
Proof.
  unfold chunk_numbers. rewrite in_map_iff. split.
  - intros (i & <- & Hi). apply in_seq in Hi. lia.
  - intros H. exists (Z.to_nat k). split; [lia|]. apply in_seq. lia.
Qed.




(** * Reading back what [write_qst] wrote *)

Lemma slice_mid (pre a w b : list byte) (off n : Z) :
  Z.of_nat (length a) = off -> Z.of_nat (length w) = n ->
  slice (Z.of_nat (length pre) + off) n (pre ++ a ++ w ++ b) = w.
Proof.
  intros <- <-. rewrite <- Nat2Z.inj_add, <- length_app, app_assoc. apply slice_at.
Qed.

Lemma entry_chunk_at (pre rest : list byte) (entry : SimpleQstContainedFile * Z) :
  data_valid (fst entry) ->
  chunk_at (pre ++ entry_chunk entry ++ rest) (Z.of_nat (length pre)) = entry_as_chunk entry.
Proof.
  intros Hv. pose proof (next_segment_length _ Hv) as Hlen.
  pose proof (left_nonneg _ Hv) as Hl.
  unfold chunk_at, entry_as_chunk, entry_chunk, encode_chunk. cbv zeta.
  set (seg := next_segment (simple_data (fst entry))) in *.
  set (nm := name_field 16 (simple_name (fst entry))).
  assert (Hnm : length nm = 16%nat) by apply name_field_length.
  set (pad := repeat x00 (Z.to_nat (1024 - Z.of_nat (length seg)))).
  assert (Hpad : Z.of_nat (length pad) = 1024 - Z.of_nat (length seg))
    by (unfold pad; rewrite repeat_length; lia).
  (* declared size *)
  assert (Hsize : slice (Z.of_nat (length pre) + 1048) 4
                    (pre ++ ([x1c; x04; x13; x00] ++ le_encode 1 (snd entry) ++ [x00; x00; x00]
                             ++ nm ++ seg ++ pad ++ le_encode 4 (Z.of_nat (length seg))
                             ++ le_encode 4 0) ++ rest)
                  = le_encode 4 (Z.of_nat (length seg))).
  { replace (pre ++ ([x1c; x04; x13; x00] ++ le_encode 1 (snd entry) ++ [x00; x00; x00]
                     ++ nm ++ seg ++ pad ++ le_encode 4 (Z.of_nat (length seg))
                     ++ le_encode 4 0) ++ rest)
      with (pre ++ ([x1c; x04; x13; x00] ++ le_encode 1 (snd entry) ++ [x00; x00; x00]
                    ++ nm ++ seg ++ pad)
            ++ le_encode 4 (Z.of_nat (length seg)) ++ (le_encode 4 0 ++ rest))
      by (rewrite <- !app_assoc; reflexivity).
    apply slice_mid; [|now rewrite le_encode_length].
    rewrite !length_app, le_encode_length. cbn [length]. lia. }
  rewrite Hsize, le_decode_encode.
  rewrite (Z.mod_small (Z.of_nat (length seg))) by (change (256 ^ Z.of_nat 4) with 4294967296; lia).
  rewrite Z.min_l by lia.
  (* chunk number *)
  assert (Hno : slice (Z.of_nat (length pre) + 4) 1
                  (pre ++ ([x1c; x04; x13; x00] ++ le_encode 1 (snd entry) ++ [x00; x00; x00]
                           ++ nm ++ seg ++ pad ++ le_encode 4 (Z.of_nat (length seg))
                           ++ le_encode 4 0) ++ rest)
                = le_encode 1 (snd entry)).
  { rewrite <- !app_assoc. apply slice_mid; reflexivity. }
  rewrite Hno, le_decode_encode. change (256 ^ Z.of_nat 1) with 256.
  (* file name *)
  assert (Hname : slice (Z.of_nat (length pre) + 8) 16
                    (pre ++ ([x1c; x04; x13; x00] ++ le_encode 1 (snd entry) ++ [x00; x00; x00]
                             ++ nm ++ seg ++ pad ++ le_encode 4 (Z.of_nat (length seg))
                             ++ le_encode 4 0) ++ rest)
                  = nm).
  { replace (pre ++ ([x1c; x04; x13; x00] ++ le_encode 1 (snd entry) ++ [x00; x00; x00]
                     ++ nm ++ seg ++ pad ++ le_encode 4 (Z.of_nat (length seg))
                     ++ le_encode 4 0) ++ rest)
      with (pre ++ ([x1c; x04; x13; x00] ++ le_encode 1 (snd entry) ++ [x00; x00; x00])
            ++ nm ++ (seg ++ pad ++ le_encode 4 (Z.of_nat (length seg))
                      ++ le_encode 4 0 ++ rest))
      by (rewrite <- !app_assoc; reflexivity).
    apply slice_mid; [reflexivity|lia]. }
  rewrite Hname.
  (* payload *)
  assert (Hseg : slice (Z.of_nat (length pre) + 24) (Z.of_nat (length seg))
                   (pre ++ ([x1c; x04; x13; x00] ++ le_encode 1 (snd entry) ++ [x00; x00; x00]
                            ++ nm ++ seg ++ pad ++ le_encode 4 (Z.of_nat (length seg))
                            ++ le_encode 4 0) ++ rest)
                 = seg).
  { replace (pre ++ ([x1c; x04; x13; x00] ++ le_encode 1 (snd entry) ++ [x00; x00; x00]
                     ++ nm ++ seg ++ pad ++ le_encode 4 (Z.of_nat (length seg))
                     ++ le_encode 4 0) ++ rest)
      with (pre ++ ([x1c; x04; x13; x00] ++ le_encode 1 (snd entry) ++ [x00; x00; x00] ++ nm)
            ++ seg ++ (pad ++ le_encode 4 (Z.of_nat (length seg)) ++ le_encode 4 0 ++ rest))
      by (rewrite <- !app_assoc; reflexivity).
    apply slice_mid; [|reflexivity]. rewrite !length_app, Hnm. reflexivity. }
  rewrite Hseg. reflexivity.
Qed.

Lemma entry_chunks_from (entries : list (SimpleQstContainedFile * Z)) :
  Forall (fun entry => data_valid (fst entry)) entries ->
  forall pre rest,
    chunks_from (length entries) (pre ++ flat_map entry_chunk entries ++ rest)
      (Z.of_nat (length pre))
    = map entry_as_chunk entries.
Proof.
  induction 1 as [|entry entries Hv Hrest IH]; intros pre rest; [reflexivity|].
  cbn [length chunks_from flat_map map]. rewrite <- app_assoc.
  rewrite entry_chunk_at by exact Hv. f_equal.
  specialize (IH (pre ++ entry_chunk entry) rest).
  rewrite length_app, entry_chunk_length, <- app_assoc in IH by exact Hv.
  rewrite <- IH. f_equal. lia.
Qed.

(** * Names *)

Lemma until_nul_app_zeros (bs : list byte) (k : nat) :
  ~ In x00 bs -> until_nul (bs ++ repeat x00 k) = bs.
Proof.
  induction bs as [|b bs IH]; intros Hnot.
  - destruct k; reflexivity.
  - cbn [app until_nul]. cbn [In] in Hnot.
    destruct (Byte.eqb b x00) eqn:E.
    + apply Byte.byte_dec_bl in E. subst b. tauto.
    + f_equal. apply IH. tauto.
Qed.

Lemma string_of_to_bytes (s : string) : string_of_bytes (string_to_bytes s) = s.
Proof.
  unfold string_of_bytes, string_to_bytes. rewrite map_map.
  rewrite (map_ext _ (fun c => c)) by apply ascii_of_byte_of_ascii.
  rewrite map_id. apply string_of_list_ascii_of_string.
Qed.

Lemma parsed_name_storable (s : string) : name_storable s -> parsed_name s = s.
Proof.
  intros [Hlen Hnul]. unfold parsed_name, name_field, pad_to.
  assert (Hl : length (string_to_bytes s) = String.length s).
  { unfold string_to_bytes. rewrite length_map. clear. induction s; cbn; auto. }
  rewrite firstn_all2 by (rewrite length_app, repeat_length; lia).
  rewrite until_nul_app_zeros; [apply string_of_to_bytes|].
  unfold string_to_bytes. intros Hin. apply in_map_iff in Hin. destruct Hin as (c & Hc & Hin).
  apply Hnul. replace zero with c; [exact Hin|].
  rewrite <- (ascii_of_byte_of_ascii c), Hc. reflexivity.
Qed.

(** * The chunks of one file among the chunks of all *)

Lemma chunk_of_entry (file_name : string) (r : nat) (file : SimpleQstContainedFile) :
  chunk_of file_name (entry_as_chunk (entry_at r file)) = owns file_name file.
Proof. reflexivity. Qed.

Lemma rotation_at_filter (file_name : string) (files : list SimpleQstContainedFile) (r : nat) :
  filter (chunk_of file_name) (map entry_as_chunk (rotation_at files r))
  = map entry_as_chunk (rotation_at (filter (owns file_name) files) r).
Proof.
  unfold rotation_at. induction files as [|file files IH]; [reflexivity|].
  cbn [flat_map filter]. rewrite map_app, filter_app, IH.
  destruct (owns file_name file) eqn:Hown; cbn [flat_map].
  - rewrite map_app. f_equal.
    destruct (r <? chunks_needed file)%nat; [|reflexivity].
    cbn [map filter]. now rewrite chunk_of_entry, Hown.
  - destruct (r <? chunks_needed file)%nat; [|reflexivity].
    cbn [map filter]. now rewrite chunk_of_entry, Hown.
Qed.

Lemma emitted_filter (file_name : string) (files : list SimpleQstContainedFile)
    (rounds : list nat) :
  filter (chunk_of file_name) (map entry_as_chunk (flat_map (rotation_at files) rounds))
  = map entry_as_chunk (flat_map (rotation_at (filter (owns file_name) files)) rounds).
Proof.
  induction rounds as [|r rounds IH]; [reflexivity|].
  cbn [flat_map]. rewrite !map_app, filter_app, IH, rotation_at_filter. reflexivity.
Qed.

Lemma single_file_rounds (file : SimpleQstContainedFile) (rounds : nat) :
  (chunks_needed file <= rounds)%nat ->
  flat_map (rotation_at [file]) (seq 0 rounds)
  = map (fun r => entry_at r file) (seq 0 (chunks_needed file)).
Proof.
  intros H. replace rounds with (chunks_needed file + (rounds - chunks_needed file))%nat by lia.
  rewrite seq_app, flat_map_app.
  assert (Hlow : forall a n, (a + n <= chunks_needed file)%nat ->
                             flat_map (rotation_at [file]) (seq a n)
                             = map (fun r => entry_at r file) (seq a n)).
  { intros a n. revert a. induction n as [|n IH]; intros a Ha; [reflexivity|].
    cbn [seq flat_map map]. rewrite IH by lia. unfold rotation_at at 1. cbn [flat_map].
    destruct (Nat.ltb_spec a (chunks_needed file)); [|lia]. reflexivity. }
  assert (Hhigh : forall a n, (chunks_needed file <= a)%nat ->
                              flat_map (rotation_at [file]) (seq a n) = []).
  { intros a n. revert a. induction n as [|n IH]; intros a Ha; [reflexivity|].
    cbn [seq flat_map]. rewrite IH by lia. unfold rotation_at. cbn [flat_map].
    destruct (Nat.ltb_spec a (chunks_needed file)); [lia|]. reflexivity. }
  rewrite Hlow, Hhigh by lia. apply app_nil_r.
Qed.

Lemma observed_size_filter (file_name : string) (chunks : list Chunk) :
  observed_size file_name chunks
  = observed_size file_name (filter (chunk_of file_name) chunks).
Proof.
  unfold observed_size. generalize 0 as acc.
  induction chunks as [|ch chunks IH]; intros acc; [reflexivity|].
  cbn [fold_left filter]. destruct (chunk_of file_name ch) eqn:Hof.
  - cbn [fold_left]. rewrite Hof. apply IH.
  - apply IH.
Qed.

Lemma find_filter {A : Type} (p q : A -> bool) (l : list A) :
  find (fun a => p a && q a) l = find (fun a => p a && q a) (filter p l).
Proof.
  induction l as [|a l IH]; [reflexivity|].
  cbn [find filter]. destruct (p a) eqn:Hp; cbn [andb find].
  - rewrite Hp. cbn [andb]. destruct (q a); [reflexivity|exact IH].
  - exact IH.
Qed.

Lemma filter_rev {A : Type} (p : A -> bool) (l : list A) :
  filter p (rev l) = rev (filter p l).
Proof.
  induction l as [|a l IH]; [reflexivity|].
  cbn [rev filter]. rewrite filter_app, IH. cbn [filter].
  destruct (p a); cbn [rev]; [reflexivity|apply app_nil_r].
Qed.

Lemma last_chunk_filter (file_name : string) (chunk_no : Z) (chunks : list Chunk) :
  last_chunk file_name chunk_no chunks
  = last_chunk file_name chunk_no (filter (chunk_of file_name) chunks).
Proof.
  unfold last_chunk. rewrite <- filter_rev.
  apply (find_filter (chunk_of file_name) (fun ch => chunk_number ch =? chunk_no)).
Qed.

(** * The chunks of one file, in sequence *)

Section OneFile.
Variables (file : SimpleQstContainedFile) (bytes : list byte).
Hypothesis Hdata : simple_data file = cursor_of_bytes bytes.
Hypothesis Hname : name_storable (simple_name file).
Hypothesis Hsize : 1 <= Z.of_nat (length bytes) <= 262144.

Let total := Z.of_nat (length bytes).
Let chunk (r : nat) : Chunk := entry_as_chunk (entry_at r file).

Lemma one_file_valid : data_valid file.
Proof.
  unfold data_valid, cursor_valid. rewrite Hdata. unfold cursor_of_bytes, size.
  cbn [position buffer]. lia.
Qed.

Lemma one_file_needed : Z.of_nat (chunks_needed file) = chunk_count total.
Proof.
  unfold chunks_needed. rewrite Hdata. unfold cursor_of_bytes. rewrite bytes_left_mk.
  fold total. unfold chunk_count. unfold total in *. lia.
Qed.

Lemma one_file_needed_bound : 1 <= Z.of_nat (chunks_needed file) <= 256.
Proof. rewrite one_file_needed. unfold chunk_count, total. lia. Qed.

Lemma chunk_fields (r : nat) :
  (r < chunks_needed file)%nat ->
  chunk_number (chunk r) = Z.of_nat r
  /\ chunk_file_name (chunk r) = simple_name file
  /\ segment_size_of (chunk r) = Z.min 1024 (total - 1024 * Z.of_nat r)
  /\ chunk_segment (chunk r)
     = slice (1024 * Z.of_nat r) (Z.min 1024 (total - 1024 * Z.of_nat r)) bytes
  /\ 0 < total - 1024 * Z.of_nat r.
Proof.
  intros Hr. pose proof one_file_needed as Hn. pose proof one_file_needed_bound as Hb.
  assert (Hpos : 0 < total - 1024 * Z.of_nat r).
  { unfold chunk_count in Hn. unfold total in *. lia. }
  pose proof (next_segment_length _ (entry_at_valid file one_file_valid r Hr)) as Hlen.
  unfold chunk, entry_as_chunk, segment_size_of, next_segment in *.
  cbn [entry_at fst snd simple_data simple_name chunk_number chunk_file_name
       chunk_declared_size chunk_segment buffer position] in *.
  rewrite Hdata in *. unfold cursor_of_bytes in *. cbn [buffer position] in *.
  rewrite bytes_left_mk in *. cbn [Z.add] in *. fold total in Hlen |- *.
  rewrite Hlen. repeat split.
  - apply Z.mod_small. lia.
  - now apply parsed_name_storable.
  - lia.
  - exact Hpos.
Qed.

Lemma chunk_own (r : nat) : chunk_of (simple_name file) (chunk r) = true.
Proof.
  unfold chunk. rewrite chunk_of_entry. unfold owns.
  rewrite parsed_name_storable by exact Hname. apply String.eqb_refl.
Qed.

Lemma chunk_end_at (r : nat) :
  (r < chunks_needed file)%nat ->
  chunk_end (chunk r) = Z.min total (1024 * (Z.of_nat r + 1)).
Proof.
  intros Hr. destruct (chunk_fields r Hr) as (Hno & _ & Hss & _ & Hpos).
  unfold chunk_end. rewrite Hno, Hss. lia.
Qed.

Lemma observed_size_sequence (j : nat) :
  (j <= chunks_needed file)%nat ->
  observed_size (simple_name file) (map chunk (seq 0 j))
  = Z.min total (1024 * Z.of_nat j).
Proof.
  induction j as [|j IH]; intros Hj.
  - cbn. unfold total. lia.
  - rewrite seq_S, map_app. cbn [map Nat.add]. rewrite observed_size_snoc, chunk_own.
    rewrite IH, chunk_end_at by lia. lia.
Qed.

Lemma last_chunk_sequence (j k : nat) :
  (j <= chunks_needed file)%nat -> (k < j)%nat ->
  last_chunk (simple_name file) (Z.of_nat k) (map chunk (seq 0 j)) = Some (chunk k).
Proof.
  induction j as [|j IH]; intros Hj Hk; [lia|].
  rewrite seq_S, map_app. cbn [map Nat.add]. rewrite last_chunk_snoc, chunk_own.
  destruct (chunk_fields j ltac:(lia)) as (Hno & _).
  rewrite Hno. cbn [andb].
  destruct (Z.eqb_spec (Z.of_nat j) (Z.of_nat k)) as [E|N].
  - apply Nat2Z.inj in E. now subst.
  - apply IH; lia.
Qed.
End OneFile.

(** * Buffers that agree chunk by chunk *)

Lemma firstn_add_skipn {A : Type} (a m : nat) (l : list A) :
  firstn (a + m) l = firstn a l ++ firstn m (skipn a l).
Proof.
  revert l. induction a as [|a IH]; intros l; [reflexivity|].
  destruct l as [|x l]; cbn [Nat.add firstn skipn app].
  - now rewrite firstn_nil.
  - now rewrite IH.
Qed.

Lemma chunkwise_equal (l1 l2 : list byte) :
  length l1 = length l2 ->
  (forall k : nat,
      1024 * Z.of_nat k < Z.of_nat (length l1) ->
      slice (1024 * Z.of_nat k) (Z.min 1024 (Z.of_nat (length l1) - 1024 * Z.of_nat k)) l1
      = slice (1024 * Z.of_nat k) (Z.min 1024 (Z.of_nat (length l1) - 1024 * Z.of_nat k)) l2) ->
  l1 = l2.
Proof.
  intros Hlen Hsl.
  assert (Hpre : forall j : nat,
             firstn (Nat.min (1024 * j) (length l1)) l1
             = firstn (Nat.min (1024 * j) (length l1)) l2).
  { induction j as [|j IH]; [reflexivity|].
    destruct (Nat.le_gt_cases (length l1) (1024 * j)) as [Hge|Hlt].
    - rewrite Nat.min_r in IH |- * by lia. exact IH.
    - rewrite Nat.min_l in IH by lia.
      replace (Nat.min (1024 * S j) (length l1))
        with (1024 * j + Nat.min 1024 (length l1 - 1024 * j))%nat by lia.
      rewrite !firstn_add_skipn, IH. f_equal.
      specialize (Hsl j ltac:(lia)). unfold slice in Hsl.
      replace (Z.to_nat (1024 * Z.of_nat j)) with (1024 * j)%nat in Hsl by lia.
      replace (Z.to_nat (Z.min 1024 (Z.of_nat (length l1) - 1024 * Z.of_nat j)))
        with (Nat.min 1024 (length l1 - 1024 * j)) in Hsl by lia.
      exact Hsl. }
  specialize (Hpre (length l1)). rewrite Nat.min_r in Hpre by lia.
  rewrite firstn_all in Hpre. rewrite Hlen, firstn_all in Hpre. exact Hpre.
Qed.

(** * Round trip through the container codec *)

Lemma reconstructed_data (files : list SimpleQstContainedFile)
    (file : SimpleQstContainedFile) (bytes : list byte) (rounds : nat)
    (expected_sizes : list (string * Z)) (raw : QstContainedFile) :
  simple_data file = cursor_of_bytes bytes ->
  name_storable (simple_name file) ->
  1 <= Z.of_nat (length bytes) <= 262144 ->
  filter (owns (simple_name file)) files = [file] ->
  (chunks_needed file <= rounds)%nat ->
  file_reconstructed expected_sizes (simple_name file)
    (map entry_as_chunk (flat_map (rotation_at files) (seq 0 rounds))) raw ->
  name raw = simple_name file /\ buffer (data raw) = bytes.
Proof.
  intros Hdata Hname Hsize Hown Hrounds (Hn & _ & Hsz & _ & Hsl).
  split; [exact Hn|].
  pose proof (one_file_needed file bytes Hdata Hsize) as Hneed.
  assert (Hfilter : filter (chunk_of (simple_name file))
                      (map entry_as_chunk (flat_map (rotation_at files) (seq 0 rounds)))
                    = map (fun r => entry_as_chunk (entry_at r file))
                        (seq 0 (chunks_needed file))).
  { rewrite emitted_filter, Hown, single_file_rounds by exact Hrounds. now rewrite map_map. }
  rewrite observed_size_filter, Hfilter in Hsz.
  rewrite (observed_size_sequence file bytes Hdata Hname Hsize) in Hsz by lia.
  assert (Hlen : length (buffer (data raw)) = length bytes).
  { unfold size in Hsz. unfold chunk_count in Hneed. lia. }
  apply chunkwise_equal; [exact Hlen|].
  intros k Hk. rewrite Hlen in *.
  assert (Hkn : (k < chunks_needed file)%nat) by (unfold chunk_count in Hneed; lia).
  specialize (Hsl (Z.of_nat k) (entry_as_chunk (entry_at k file))).
  rewrite last_chunk_filter, Hfilter in Hsl.
  rewrite (last_chunk_sequence file bytes Hdata Hname Hsize) in Hsl by lia.
  destruct (Hsl eq_refl) as [_ Heq].
  destruct (chunk_fields file bytes Hdata Hname Hsize k Hkn) as (_ & _ & Hss & Hseg & _).
  rewrite Hss, Hseg in Heq. rewrite <- Heq. f_equal. lia.
Qed.

Lemma map_set_present {V : Type} (k : string) (v : V) (m : list (string * V)) :
  In k (map fst m) -> map fst (map_set k v m) = map fst m.
Proof.
  induction m as [|[k0 v0] m IH]; intros Hin; [destruct Hin|].
  cbn [map_set]. destruct (String.eqb_spec k0 k) as [->|Hne]; [reflexivity|].
  cbn [map fst] in *. f_equal. apply IH. destruct Hin; [contradiction|assumption].
Qed.

Lemma fold_apply_chunk_same_keys (expected_sizes : list (string * Z)) (chunks : list Chunk) :
  forall st,
    (forall ch, In ch chunks -> In (chunk_file_name ch) (map fst (fst st))) ->
    map fst (fst (fold_left (apply_chunk expected_sizes) chunks st)) = map fst (fst st).
Proof.
  induction chunks as [|ch chunks IH]; intros [files warnings] Hin; [reflexivity|].
  cbn [fold_left].
  assert (Hkeys : map fst (fst (apply_chunk expected_sizes (files, warnings) ch))
                  = map fst files).
  { rewrite apply_chunk_update. apply map_set_present. apply (Hin ch). now left. }
  rewrite IH; [exact Hkeys|]. intros c Hc. rewrite Hkeys. apply (Hin c). now right.
Qed.

Lemma emitted_names (files : list SimpleQstContainedFile) (rounds : list nat) (ch : Chunk) :
  In ch (map entry_as_chunk (flat_map (rotation_at files) rounds)) ->
  exists file, In file files /\ chunk_file_name ch = parsed_name (simple_name file).
Proof.
  intros Hin. apply in_map_iff in Hin. destruct Hin as (entry & <- & Hin).
  apply in_flat_map in Hin. destruct Hin as (r & _ & Hin).
  unfold rotation_at in Hin. apply in_flat_map in Hin. destruct Hin as (file & Hf & Hin).
  destruct (r <? chunks_needed file)%nat; [|destruct Hin].
  destruct Hin as [<-|[]]. exists file. split; [exact Hf|reflexivity].
Qed.

Lemma map_set_absent {V : Type} (k : string) (v : V) (m : list (string * V)) :
  ~ In k (map fst m) -> map fst (map_set k v m) = map fst m ++ [k].
Proof.
  induction m as [|[k0 v0] m IH]; intros Hin; [reflexivity|].
  cbn [map_set]. cbn [map fst In] in Hin.
  destruct (String.eqb_spec k0 k) as [->|Hne]; [tauto|].
  cbn [map fst app]. f_equal. apply IH. tauto.
Qed.

Lemma version_of_header (file : SimpleQstContainedFile) (rest : list byte) :
  version_of (encode_header file ++ rest) = BLUE_BURST.
Proof. reflexivity. Qed.

(** The files reconstructed from the chunks of two files with different
    names come in the order of the two names. *)
Lemma two_file_keys (expected_sizes : list (string * Z)) (f1 f2 : SimpleQstContainedFile) :
  name_storable (simple_name f1) -> name_storable (simple_name f2) ->
  simple_name f1 <> simple_name f2 ->
  map fst (fst (fold_left (apply_chunk expected_sizes)
                  (map entry_as_chunk (emitted_entries [f1; f2])) ([], [])))
  = [simple_name f1; simple_name f2].
Proof.
  intros Hn1 Hn2 Hne. unfold emitted_entries.
  assert (Hr : (1 <= rounds_needed [f1; f2])%nat).
  { unfold rounds_needed. cbn [map list_max fold_right].
    pose proof (chunks_needed_pos f1). lia. }
  destruct (rounds_needed [f1; f2]) as [|rounds]; [lia|].
  cbn [seq flat_map]. unfold rotation_at at 1. cbn [flat_map].
  pose proof (chunks_needed_pos f1) as H1. pose proof (chunks_needed_pos f2) as H2.
  destruct (Nat.ltb_spec 0 (chunks_needed f1)); [|lia].
  destruct (Nat.ltb_spec 0 (chunks_needed f2)); [|lia].
  cbn [app map fold_left].
  set (st1 := apply_chunk expected_sizes ([], []) (entry_as_chunk (entry_at 0 f1))).
  set (st2 := apply_chunk expected_sizes st1 (entry_as_chunk (entry_at 0 f2))).
  assert (K1 : map fst (fst st1) = [simple_name f1]).
  { subst st1. rewrite apply_chunk_update. cbn [map_set map fst entry_as_chunk chunk_file_name
      entry_at simple_name]. now rewrite parsed_name_storable. }
  assert (K2 : map fst (fst st2) = [simple_name f1; simple_name f2]).
  { subst st2. destruct st1 as [files1 warnings1]. cbn [fst] in K1.
    rewrite apply_chunk_update. rewrite map_set_absent; rewrite K1.
    - cbn [entry_as_chunk chunk_file_name entry_at simple_name fst app].
      now rewrite parsed_name_storable.
    - cbn [entry_as_chunk chunk_file_name entry_at simple_name fst In].
      rewrite parsed_name_storable by exact Hn2. intros [E|[]]. now apply Hne. }
  rewrite fold_apply_chunk_same_keys; [exact K2|].
  intros ch Hin. rewrite K2. apply emitted_names in Hin. destruct Hin as (file & Hf & ->).
  destruct Hf as [<-|[<-|[]]]; rewrite parsed_name_storable by assumption; cbn; auto.
Qed.

Lemma two_file_owner (f1 f2 : SimpleQstContainedFile) :
  name_storable (simple_name f1) -> name_storable (simple_name f2) ->
  simple_name f1 <> simple_name f2 ->
  filter (owns (simple_name f1)) [f1; f2] = [f1]
  /\ filter (owns (simple_name f2)) [f1; f2] = [f2].
Proof.
  intros Hn1 Hn2 Hne. unfold owns. cbn [filter].
  rewrite !parsed_name_storable by assumption. rewrite !String.eqb_refl.
  destruct (String.eqb_spec (simple_name f2) (simple_name f1)) as [E|_];
    [now symmetry in E|].
  destruct (String.eqb_spec (simple_name f1) (simple_name f2)) as [E|_];
    [contradiction|]. split; reflexivity.
Qed.




(** * The script scanner *)

Lemma key_eqb_spec (a b : option Z) : reflect (a = b) (key_eqb a b).
Proof.
  destruct a as [x|], b as [y|]; cbn [key_eqb]; try (constructor; congruence).
  destruct (Z.eqb_spec x y); constructor; congruence.
Qed.

Lemma OrderedMap_get_set (k k' v : option Z) (m : OrderedMap) :
  OrderedMap_get k' (OrderedMap_set k v m)
  = if key_eqb k k' then Some v else OrderedMap_get k' m.
Proof.
  unfold OrderedMap_get. induction m as [|[k0 v0] m IH]; cbn [OrderedMap_set find fst].
  - destruct (key_eqb k k'); reflexivity.
  - destruct (key_eqb_spec k0 k) as [->|Hne]; cbn [find fst].
    + destruct (key_eqb k k'); reflexivity.
    + destruct (key_eqb_spec k0 k') as [->|Hne'].
      * destruct (key_eqb_spec k k'); [congruence|reflexivity].
      * exact IH.
Qed.

Lemma OrderedMap_set_keys (k v : option Z) (m : OrderedMap) :
  map fst (OrderedMap_set k v m)
  = if existsb (key_eqb k) (map fst m) then map fst m else map fst m ++ [k].
Proof.
  induction m as [|[k0 v0] m IH]; [reflexivity|].
  cbn [OrderedMap_set map fst existsb].
  destruct (key_eqb_spec k0 k) as [->|Hne].
  - destruct (key_eqb_spec k k); [reflexivity|congruence].
  - destruct (key_eqb_spec k k0); [congruence|]. cbn [map fst orb]. rewrite IH.
    destruct (existsb _ _); reflexivity.
Qed.

Lemma existsb_key (k : option Z) (keys : list (option Z)) :
  existsb (key_eqb k) keys = true <-> In k keys.
Proof.
  rewrite existsb_exists. split.
  - intros (x & Hin & E). destruct (key_eqb_spec k x); [now subst|discriminate].
  - intros Hin. exists k. split; [exact Hin|]. destruct (key_eqb_spec k k); congruence.
Qed.

Lemma OrderedMap_set_NoDup (k v : option Z) (m : OrderedMap) :
  NoDup (map fst m) -> NoDup (map fst (OrderedMap_set k v m)).
Proof.
  intros Hnd. rewrite OrderedMap_set_keys.
  destruct (existsb (key_eqb k) (map fst m)) eqn:E; [exact Hnd|].
  apply NoDup_app; [exact Hnd|repeat constructor; intros []|].
  intros x Hin [<-|[]]. apply existsb_key in Hin. congruence.
Qed.

Lemma OrderedMap_set_key_kinds (k v : option Z) (m : OrderedMap) (x : option Z) :
  In x (map fst (OrderedMap_set k v m)) -> x = k \/ In x (map fst m).
Proof.
  rewrite OrderedMap_set_keys. destruct (existsb _ _); [now right|].
  rewrite in_app_iff. intros [H|[<-|[]]]; auto.
Qed.

Section NewOrderedMap.
Variable entries : list (option Z * option Z).

Lemma new_OrderedMap_get_from (k : option Z) :
  forall m,
    OrderedMap_get k (fold_left (fun m entry => OrderedMap_set (fst entry) (snd entry) m)
                        entries m)
    = match find (fun entry => key_eqb (fst entry) k) (rev entries) with
      | Some entry => Some (snd entry)
      | None => OrderedMap_get k m
      end.
Proof.
  induction entries as [|entry rest IH] using rev_ind; intros m; [reflexivity|].
  rewrite fold_left_app, rev_app_distr. cbn [fold_left rev app find].
  rewrite OrderedMap_get_set. destruct (key_eqb (fst entry) k); [reflexivity|apply IH].
Qed.

Lemma new_OrderedMap_NoDup : NoDup (map fst (new_OrderedMap entries)).
Proof.
  unfold new_OrderedMap.
  assert (H : forall m, NoDup (map fst m) ->
                        NoDup (map fst (fold_left (fun m entry =>
                                 OrderedMap_set (fst entry) (snd entry) m) entries m))).
  { induction entries as [|entry rest IH]; intros m Hm; [exact Hm|].
    cbn [fold_left]. apply IH. now apply OrderedMap_set_NoDup. }
  apply H. constructor.
Qed.

Lemma new_OrderedMap_keys (k : option Z) :
  In k (map fst (new_OrderedMap entries)) -> In k (map fst entries).
Proof.
  unfold new_OrderedMap.
  assert (H : forall m, In k (map fst (fold_left (fun m entry =>
                                 OrderedMap_set (fst entry) (snd entry) m) entries m)) ->
                        In k (map fst entries) \/ In k (map fst m)).
  { induction entries as [|entry rest IH]; intros m Hin; [now right|].
    cbn [fold_left] in Hin. apply IH in Hin. cbn [map In].
    destruct Hin as [Hin|Hin]; [tauto|].
    apply OrderedMap_set_key_kinds in Hin. destruct Hin as [->|Hin]; auto. }
  intros Hin. apply H in Hin. destruct Hin as [Hin|[]]. exact Hin.
Qed.
End NewOrderedMap.

(** ** Sorting by key *)

Lemma insert_by_key_perm (entry : option Z * option Z) (m : OrderedMap) :
  Permutation (insert_by_key entry m) (entry :: m).
Proof.
  induction m as [|entry' m IH]; cbn [insert_by_key]; [reflexivity|].
  destruct (key_gt _ _); [reflexivity|].
  rewrite IH. apply perm_swap.
Qed.

Lemma sortBy_key_perm (m : OrderedMap) : Permutation (sortBy_key m) m.
Proof.
  unfold sortBy_key.
  assert (H : forall sorted, Permutation (fold_left (fun sorted entry =>
                                            insert_by_key entry sorted) m sorted)
                               (sorted ++ m)).
  { induction m as [|entry m IH]; intros sorted; cbn [fold_left].
    - now rewrite app_nil_r.
    - rewrite IH, insert_by_key_perm. apply Permutation_middle. }
  apply (H []).
Qed.

Lemma insert_by_key_sorted (entry : option Z * option Z) (m : OrderedMap) :
  key_defined entry -> Forall key_defined m ->
  StronglySorted Z.le (map key_number m) ->
  StronglySorted Z.le (map key_number (insert_by_key entry m)).
Proof.
  intros He Hm Hs. induction m as [|entry' m IH]; cbn [insert_by_key map].
  - repeat constructor.
  - inversion Hm as [|? ? He' Hm']; subst. cbn [map] in Hs.
    inversion Hs as [|? ? Hs' Hall]; subst.
    unfold key_defined in He, He'.
    destruct (key_gt (fst entry') (fst entry)) eqn:Hgt.
    + cbn [map]. constructor; [constructor; assumption|].
      assert (Hlt : key_number entry <= key_number entry').
      { unfold key_number, key_gt in *. destruct (fst entry), (fst entry'); try congruence. lia. }
      constructor; [exact Hlt|].
      eapply Forall_impl; [|exact Hall]. intros a Ha. lia.
    + cbn [map]. constructor; [now apply IH|].
      assert (Hle : key_number entry' <= key_number entry).
      { unfold key_number, key_gt in *. destruct (fst entry), (fst entry'); try congruence. lia. }
      rewrite (Permutation_map key_number (insert_by_key_perm entry m)). cbn [map].
      constructor; assumption.
Qed.

Lemma sortBy_key_sorted (m : OrderedMap) :
  Forall key_defined m -> StronglySorted Z.le (map key_number (sortBy_key m)).
Proof.
  unfold sortBy_key. intros Hm.
  assert (H : forall sorted, Forall key_defined sorted ->
                             StronglySorted Z.le (map key_number sorted) ->
                             StronglySorted Z.le
                               (map key_number (fold_left (fun sorted entry =>
                                                  insert_by_key entry sorted) m sorted))).
  { induction Hm as [|entry m He Hm IH]; intros sorted Hd Hs; [exact Hs|].
    cbn [fold_left]. apply IH.
    - rewrite (insert_by_key_perm entry sorted). now constructor.
    - now apply insert_by_key_sorted. }
  apply H; constructor.
Qed.

Lemma sorted_NoDup_strict (ids : list Z) :
  StronglySorted Z.le ids -> NoDup ids -> StronglySorted Z.lt ids.
Proof.
  induction 1 as [|id ids Hs IH Hall]; intros Hnd; constructor.
  - apply IH. now inversion Hnd.
  - inversion Hnd as [|? ? Hnotin _]; subst.
    apply Forall_forall. intros x Hx. rewrite Forall_forall in Hall.
    specialize (Hall x Hx). assert (x <> id) by (intros ->; contradiction). lia.
Qed.

Lemma OrderedMap_get_In (k v : option Z) (m : OrderedMap) :
  NoDup (map fst m) -> In (k, v) m -> OrderedMap_get k m = Some v.
Proof.
  unfold OrderedMap_get. induction m as [|[k0 v0] m IH]; intros Hnd Hin; [destruct Hin|].
  cbn [map fst] in Hnd. inversion Hnd as [|? ? Hnotin Hnd']; subst.
  cbn [find fst]. destruct Hin as [[= -> ->]|Hin].
  - destruct (key_eqb_spec k k); [reflexivity|congruence].
  - destruct (key_eqb_spec k0 k) as [->|_]; [|now apply IH].
    exfalso. apply Hnotin. apply in_map_iff. now exists (k, v).
Qed.

Lemma OrderedMap_get_Some (k v : option Z) (m : OrderedMap) :
  OrderedMap_get k m = Some v -> In (k, v) m.
Proof.
  unfold OrderedMap_get. intros H. destruct (find _ m) as [[k' v']|] eqn:E; [|discriminate].
  apply find_some in E. destruct E as [Hin Hk]. cbn [fst] in Hk.
  destruct (key_eqb_spec k' k); [|discriminate]. cbn in H. now injection H as <-; subst.
Qed.

Lemma OrderedMap_get_None (k : option Z) (m : OrderedMap) :
  OrderedMap_get k m = None -> ~ In k (map fst m).
Proof.
  unfold OrderedMap_get. intros H Hin. apply in_map_iff in Hin.
  destruct Hin as ([k' v] & E & Hin). cbn [fst] in E. subst k'.
  destruct (find _ m) eqn:F; [discriminate|].
  apply (find_none _ _ F) in Hin. cbn [fst] in Hin.
  destruct (key_eqb_spec k k); congruence.
Qed.

Lemma OrderedMap_get_perm (k : option Z) (m m' : OrderedMap) :
  NoDup (map fst m) -> Permutation m' m -> OrderedMap_get k m' = OrderedMap_get k m.
Proof.
  intros Hnd Hp.
  assert (Hnd' : NoDup (map fst m')).
  { eapply Permutation_NoDup; [|exact Hnd]. apply Permutation_map. now symmetry. }
  destruct (OrderedMap_get k m) as [v|] eqn:E.
  - apply OrderedMap_get_Some in E. apply OrderedMap_get_In; [exact Hnd'|].
    eapply Permutation_in; [symmetry; exact Hp|exact E].
  - destruct (OrderedMap_get k m') as [v|] eqn:E'; [|reflexivity].
    apply OrderedMap_get_Some in E'. apply OrderedMap_get_None in E. exfalso. apply E.
    apply in_map_iff. exists (k, v). split; [reflexivity|].
    eapply Permutation_in; [exact Hp|exact E'].
Qed.

Lemma get_areas_entries (func_0_ops : list Operation) :
  get_areas func_0_ops
  = sortBy_key (new_OrderedMap (map (fun bb_map => (arg 0 bb_map, arg 2 bb_map))
                                  (designations func_0_ops))).
Proof. reflexivity. Qed.

Lemma find_designation (id : Z) (ops : list Operation) :
  option_map snd (find (fun entry : option Z * option Z => key_eqb (fst entry) (Some id))
                    (map (fun bb_map => (arg 0 bb_map, arg 2 bb_map)) ops))
  = option_map (arg 2) (find (fun op => key_eqb (arg 0 op) (Some id)) ops).
Proof.
  induction ops as [|op ops IH]; [reflexivity|]. cbn [map find fst].
  destruct (key_eqb (arg 0 op) (Some id)); [reflexivity|exact IH].
Qed.

(** C8. [get_episode] maps the argument of the first [set_episode]
    operation to the episode, 0 to 1, 1 to 2 and 2 to 4, gives episode 1 for
    every other argument, and gives episode 1 with a warning when no
    operation is a [set_episode].  When every [BB_Map_Designate] operation
    has its area id, [get_areas] iterates in strictly ascending order of
    the area ids, and holds for every area id the variant of the last
    operation that designates it.  A stream whose first [set_episode] has
    the argument 1 and that designates area 5, then area 2, has episode 2
    and a mapping that iterates as 2, 5. *)
Theorem script_scanner_episode_and_areas (func_0_ops : list Operation) :
  Forall (fun bb_map => arg 0 bb_map <> None) (designations func_0_ops) ->
  (forall set_episode,
      find (has_mnemonic SET_EPISODE) func_0_ops = Some set_episode ->
      snd (get_episode func_0_ops) = []
      /\ (arg 0 set_episode = Some 0 -> fst (get_episode func_0_ops) = 1)
      /\ (arg 0 set_episode = Some 1 -> fst (get_episode func_0_ops) = 2)
      /\ (arg 0 set_episode = Some 2 -> fst (get_episode func_0_ops) = 4)
      /\ (arg 0 set_episode <> Some 1 -> arg 0 set_episode <> Some 2 ->
          fst (get_episode func_0_ops) = 1))
  /\ (find (has_mnemonic SET_EPISODE) func_0_ops = None ->
      get_episode func_0_ops = (1, [WarnNoSetEpisode]))
  /\ (exists ids, map fst (get_areas func_0_ops) = map Some ids /\ StronglySorted Z.lt ids)
  /\ (forall id,
         OrderedMap_get (Some id) (get_areas func_0_ops)
         = option_map (arg 2) (last_designation id func_0_ops))
  /\ (forall set_episode,
         find (has_mnemonic SET_EPISODE) func_0_ops = Some set_episode ->
         arg 0 set_episode = Some 1 ->
         map (arg 0) (designations func_0_ops) = [Some 5; Some 2] ->
         fst (get_episode func_0_ops) = 2
         /\ map fst (get_areas func_0_ops) = [Some 2; Some 5]).
Proof.
  intros Hids.
  set (entries := map (fun bb_map => (arg 0 bb_map, arg 2 bb_map)) (designations func_0_ops)).
  assert (Hperm : Permutation (get_areas func_0_ops) (new_OrderedMap entries))
    by (rewrite get_areas_entries; apply sortBy_key_perm).
  assert (Hnd : NoDup (map fst (new_OrderedMap entries))) by apply new_OrderedMap_NoDup.
  assert (Hdef : Forall key_defined (new_OrderedMap entries)).
  { apply Forall_forall. intros [k v] Hin. unfold key_defined. cbn [fst].
    assert (Hk : In k (map fst entries)).
    { apply new_OrderedMap_keys. apply in_map_iff. now exists (k, v). }
    subst entries. rewrite map_map in Hk. cbn [fst] in Hk.
    apply in_map_iff in Hk. destruct Hk as (op & <- & Hop).
    rewrite Forall_forall in Hids. now apply Hids. }
  split; [|split; [|split; [|split]]].
  - intros set_episode Hfind. unfold get_episode, SET_EPISODE in *. rewrite Hfind.
    cbn [fst snd]. split; [reflexivity|].
    repeat split; try (intros ->; reflexivity).
    intros N1 N2. destruct (arg 0 set_episode) as [[|[q|[q|q|]|]|]|]; try reflexivity; congruence.
  - intros Hfind. unfold get_episode, SET_EPISODE in *. now rewrite Hfind.
  - exists (map key_number (get_areas func_0_ops)). split.
    + rewrite map_map. apply map_ext_in. intros entry Hin.
      assert (Hd : key_defined entry).
      { rewrite Forall_forall in Hdef. apply Hdef.
        eapply Permutation_in; [exact Hperm|exact Hin]. }
      unfold key_defined, key_number in *. destruct (fst entry); congruence.
    + apply sorted_NoDup_strict.
      * rewrite get_areas_entries. now apply sortBy_key_sorted.
      * assert (Hk : NoDup (map fst (get_areas func_0_ops))).
        { eapply Permutation_NoDup; [|exact Hnd]. apply Permutation_map. now symmetry. }
        assert (Hdef' : Forall key_defined (get_areas func_0_ops)).
        { eapply Permutation_Forall; [symmetry; exact Hperm|exact Hdef]. }
        clear - Hk Hdef'. induction (get_areas func_0_ops) as [|entry m IH]; [constructor|].
        cbn [map] in *. inversion Hk as [|? ? Hnotin Hk']; subst.
        inversion Hdef' as [|? ? Hd Hm]; subst.
        constructor; [|now apply IH].
        intros Hin. apply Hnotin. apply in_map_iff in Hin. destruct Hin as (e & E & He).
        apply in_map_iff. exists e. split; [|exact He].
        rewrite Forall_forall in Hm. specialize (Hm e He).
        unfold key_defined, key_number in *. destruct (fst e), (fst entry); congruence.
  - intros id. rewrite (OrderedMap_get_perm _ _ _ Hnd Hperm).
    unfold new_OrderedMap. rewrite new_OrderedMap_get_from. unfold OrderedMap_get at 1.
    cbn [find option_map]. unfold last_designation.
    subst entries. rewrite <- map_rev.
    pose proof (find_designation id (rev (designations func_0_ops))) as Hf.
    destruct (find _ (map _ _)) as [entry|]; cbn [option_map] in Hf; exact Hf.
  - intros set_episode Hfind Harg Hd. split.
    + unfold get_episode, SET_EPISODE in *. now rewrite Hfind, Harg.
    + rewrite get_areas_entries.
      destruct (designations func_0_ops) as [|d1 [|d2 [|]]]; try discriminate.
      cbn [map] in Hd. injection Hd as H5 H2. cbn [map]. rewrite H5, H2. reflexivity.
Qed.

Lemma script_scanner_episode_and_areas_witness :
  fst (get_episode sample_func_0_ops) = 2
  /\ map fst (get_areas sample_func_0_ops) = [Some 2; Some 5].
Proof.
  assert (Hids : Forall (fun bb_map => arg 0 bb_map <> None) (designations sample_func_0_ops)).
  { repeat constructor; discriminate. }
  destruct (script_scanner_episode_and_areas sample_func_0_ops Hids) as (_ & _ & _ & _ & Hex).
  apply (Hex (mkOperation "set_episode" 0xF8BC 7 [1])); reflexivity.
Defined.

(** * Arrays written by index *)


(** * Strip fanning *)

Section FanStrip.
Context {three : ThreeJS}.
Variable vertices : list (option NjVertex).
Variable clockwise_winding : bool.
Variable strip_indices : list Z.





End FanStrip.




(** * Scene traversal *)

Lemma flag_bit (flags : Z) (k : Z) :
  0 <= k -> negb (Z.land flags (2 ^ k) =? 0) = Z.testbit flags k.
Proof.
  intros Hk.
  assert (H : Z.land flags (2 ^ k) = if Z.testbit flags k then 2 ^ k else 0).
  { apply Z.bits_inj'. intros i Hi. rewrite Z.land_spec, Z.pow2_bits_eqb by exact Hk.
    destruct (Z.eqb_spec k i) as [->|Hne].
    - destruct (Z.testbit flags i) eqn:E; cbn [andb].
      + now rewrite Z.pow2_bits_true.
      + now rewrite Z.bits_0.
    - rewrite andb_false_r. destruct (Z.testbit flags k).
      + now rewrite Z.pow2_bits_false.
      + now rewrite Z.bits_0. }
  rewrite H. destruct (Z.testbit flags k); [|reflexivity].
  assert (0 < 2 ^ k) by (apply Z.pow_pos_nonneg; lia).
  destruct (Z.eqb_spec (2 ^ k) 0); [lia|reflexivity].
Qed.

(** ** The reads leave the buffer as it is *)

Lemma u8_array_keeps (n : Z) (c c' : ArrayBufferCursor) (bs : list byte) :
  u8_array n c = Ok (bs, c') -> buffer c' = buffer c.
Proof.
  unfold u8_array. destruct (_ || _); [discriminate|]. now intros [= _ <-].
Qed.

Lemma read_uint_keeps (n : Z) (c c' : ArrayBufferCursor) (v : Z) :
  read_uint n c = Ok (v, c') -> buffer c' = buffer c.
Proof.
  unfold read_uint. destruct (u8_array n c) as [[bs c1]|] eqn:E; [|discriminate].
  cbn [bind]. intros [= _ <-]. now apply u8_array_keeps in E.
Qed.

Lemma i16_keeps (c c' : ArrayBufferCursor) (v : Z) :
  i16 c = Ok (v, c') -> buffer c' = buffer c.
Proof.
  unfold i16. destruct (read_uint 2 c) as [[w c1]|] eqn:E; [|discriminate].
  cbn [bind]. intros [= _ <-]. now apply read_uint_keeps in E.
Qed.

Lemma i32_keeps (c c' : ArrayBufferCursor) (v : Z) :
  i32 c = Ok (v, c') -> buffer c' = buffer c.
Proof.
  unfold i32. destruct (read_uint 4 c) as [[w c1]|] eqn:E; [|discriminate].
  cbn [bind]. intros [= _ <-]. now apply read_uint_keeps in E.
Qed.

Lemma seek_start_keeps (offset : Z) (c c' : ArrayBufferCursor) :
  seek_start offset c = Ok c' -> buffer c' = buffer c.
Proof.
  unfold seek_start. destruct (_ || _); [discriminate|]. now intros [= <-].
Qed.

Lemma seek_keeps (offset : Z) (c c' : ArrayBufferCursor) :
  seek offset c = Ok c' -> buffer c' = buffer c.
Proof. apply seek_start_keeps. Qed.

Lemma optional_seek_keeps (b : bool) (offset : Z) (c c' : ArrayBufferCursor) :
  (if b then seek offset c else Ok c) = Ok c' -> buffer c' = buffer c.
Proof. destruct b; [apply seek_keeps|now intros [= <-]]. Qed.

(** Takes the first step of a computation that returned apart. *)
Ltac returned H :=
  match type of H with
  | bind ?e _ = Ok _ =>
      let E := fresh "E" in
      destruct e eqn:E; cbn [bind] in H; [|discriminate H]
  | (let '(_, _) := ?p in _) = Ok _ => destruct p
  | (if ?b then _ else _) = Ok _ => destruct b
  | match ?o with Some _ => _ | None => _ end = Ok _ => destruct o; [|try discriminate H]
  | Err _ = Ok _ => discriminate H
  end.

Ltac keeps_step :=
  match goal with
  | E : read_uint _ _ = Ok _ |- _ => apply read_uint_keeps in E
  | E : u8 _ = Ok _ |- _ => apply read_uint_keeps in E
  | E : u16 _ = Ok _ |- _ => apply read_uint_keeps in E
  | E : u32 _ = Ok _ |- _ => apply read_uint_keeps in E
  | E : f32 _ = Ok _ |- _ => apply read_uint_keeps in E
  | E : i16 _ = Ok _ |- _ => apply i16_keeps in E
  | E : i32 _ = Ok _ |- _ => apply i32_keeps in E
  | E : (if _ then seek _ _ else Ok _) = Ok _ |- _ => apply optional_seek_keeps in E
  | E : seek _ _ = Ok _ |- _ => apply seek_keeps in E
  | E : seek_start _ _ = Ok _ |- _ => apply seek_start_keeps in E
  end.

Ltac keeps := repeat keeps_step; cbn [buffer] in *; congruence.

Section Keeps.
Context {three : ThreeJS}.

Lemma f32_triple_keeps (c c' : ArrayBufferCursor) (v : Vector3) :
  f32_triple c = Ok (v, c') -> buffer c' = buffer c.
Proof.
  unfold f32_triple. intros H. repeat returned H. injection H as _ <-. keeps.
Qed.

Lemma parse_vertex_keeps (chunk_type_id index i : Z) (c c' : ArrayBufferCursor)
    (vertex : ChunkVertex) :
  parse_vertex chunk_type_id index i c = Ok (vertex, c') -> buffer c' = buffer c.
Proof.
  unfold parse_vertex. intros H.
  repeat returned H; try (injection H as _ <-);
    repeat match goal with E : f32_triple _ = Ok _ |- _ => apply f32_triple_keeps in E end;
    keeps.
Qed.

Lemma parse_vertices_keeps (count : nat) (chunk_type_id index : Z) :
  forall i c c' parsed,
    parse_vertices count chunk_type_id index i c = Ok (parsed, c') -> buffer c' = buffer c.
Proof.
  induction count as [|count IH]; intros i c c' parsed H; cbn [parse_vertices] in H.
  - now injection H as _ <-.
  - repeat returned H. injection H as _ <-.
    match goal with E : parse_vertex _ _ _ _ = Ok _ |- _ => apply parse_vertex_keeps in E end.
    match goal with E : parse_vertices _ _ _ _ _ = Ok _ |- _ => apply IH in E end.
    congruence.
Qed.

Lemma parse_chunk_vertex_keeps (c c' : ArrayBufferCursor) (chunk_type_id flags : Z)
    (parsed : list ChunkVertex) :
  parse_chunk_vertex c chunk_type_id flags = Ok (parsed, c') -> buffer c' = buffer c.
Proof.
  unfold parse_chunk_vertex. intros H. destruct (negb _); [now injection H as _ <-|].
  repeat returned H. apply parse_vertices_keeps in H. keeps.
Qed.

Lemma parse_strip_indices_keeps (count : nat) (options : bool * bool * bool * bool)
    (user_flags_size : Z) :
  forall j c c' parsed,
    parse_strip_indices count j options user_flags_size c = Ok (parsed, c') ->
    buffer c' = buffer c.
Proof.
  induction count as [|count IH]; intros j c c' parsed H; cbn [parse_strip_indices] in H.
  - now injection H as _ <-.
  - destruct options as [[[o1 o2] o3] o4].
    repeat returned H; injection H as _ <-;
      repeat match goal with
             | E : Ok _ = Ok _ |- _ => injection E as <-
             | E : parse_strip_indices _ _ _ _ _ = Ok _ |- _ => apply IH in E
             end; keeps.
Qed.

Lemma parse_strips_keeps (count : nat) (options : bool * bool * bool * bool)
    (user_flags_size : Z) :
  forall c c' parsed,
    parse_strips count options user_flags_size c = Ok (parsed, c') -> buffer c' = buffer c.
Proof.
  induction count as [|count IH]; intros c c' parsed H; cbn [parse_strips] in H.
  - now injection H as _ <-.
  - repeat returned H. injection H as _ <-.
    match goal with
      E : parse_strip_indices _ _ _ _ _ = Ok _ |- _ => apply parse_strip_indices_keeps in E
    end.
    match goal with E : parse_strips _ _ _ _ = Ok _ |- _ => apply IH in E end.
    keeps.
Qed.

Lemma parse_chunk_triangle_strip_keeps (c c' : ArrayBufferCursor) (chunk_type_id : Z)
    (parsed : list ChunkTriangleStrip) :
  parse_chunk_triangle_strip c chunk_type_id = Ok (parsed, c') -> buffer c' = buffer c.
Proof.
  unfold parse_chunk_triangle_strip. intros H. repeat returned H.
  apply parse_strips_keeps in H. keeps.
Qed.
End Keeps.

Ltac returned_all :=
  repeat match goal with
         | H : _ = Ok _ |- _ => progress (returned H)
         | H : Ok _ = Ok _ |- _ => injection H as H; subst
         end.

Section KeepsChunks.
Context {three : ThreeJS}.

Lemma parse_chunks_keeps (fuel : nat) :
  forall c cache wide warnings chunks c' cache' warnings',
    parse_chunks fuel c cache wide warnings = Ok (chunks, c', cache', warnings') ->
    buffer c' = buffer c.
Proof.
  induction fuel as [|fuel IH]; intros c cache wide warnings chunks c' cache' warnings' H;
    cbn [parse_chunks] in H; [discriminate|].
  returned_all;
    repeat match goal with
           | E : parse_chunks fuel _ _ _ _ = Ok _ |- _ => apply IH in E
           | E : parse_chunk_vertex _ _ _ = Ok _ |- _ => apply parse_chunk_vertex_keeps in E
           | E : parse_chunk_triangle_strip _ _ = Ok _ |- _ =>
               apply parse_chunk_triangle_strip_keeps in E
           end;
    keeps.
Qed.

Lemma parse_model_keeps (chunk_fuel : nat) (c c' : ArrayBufferCursor) (matrix : Matrix4)
    (st st' : NjState) :
  parse_model chunk_fuel c matrix st = Ok (c', st') -> buffer c' = buffer c.
Proof.
  unfold parse_model. intros H.
  returned_all;
    repeat match goal with
           | E : parse_chunks _ _ _ _ _ = Ok _ |- _ => apply parse_chunks_keeps in E
           end;
    keeps.
Qed.
End KeepsChunks.

(** ** One node *)

Lemma i32_ok (b : list byte) (p : Z) :
  p + 4 <= Z.of_nat (length b) ->
  i32 (mkCursor b p) = Ok (to_signed 32 (le_decode (slice p 4 b)), mkCursor b (p + 4)).
Proof. intros H. unfold i32. now rewrite read_uint_ok by lia. Qed.

Lemma f32_ok (b : list byte) (p : Z) :
  p + 4 <= Z.of_nat (length b) ->
  f32 (mkCursor b p) = Ok (le_decode (slice p 4 b), mkCursor b (p + 4)).
Proof. intros H. unfold f32. now rewrite read_uint_ok by lia. Qed.

Lemma flag_bits (flags : Z) :
  negb (Z.land flags 1 =? 0) = Z.testbit flags 0
  /\ negb (Z.land flags 2 =? 0) = Z.testbit flags 1
  /\ negb (Z.land flags 4 =? 0) = Z.testbit flags 2
  /\ negb (Z.land flags 8 =? 0) = Z.testbit flags 3
  /\ negb (Z.land flags 16 =? 0) = Z.testbit flags 4
  /\ negb (Z.land flags 32 =? 0) = Z.testbit flags 5.
Proof.
  repeat split;
    [apply (flag_bit flags 0)|apply (flag_bit flags 1)|apply (flag_bit flags 2)
    |apply (flag_bit flags 3)|apply (flag_bit flags 4)|apply (flag_bit flags 5)]; lia.
Qed.

Section Node.
Context {three : ThreeJS}.

Lemma parse_sibling_objects_node (fuel chunk_fuel : nat) (buf : list byte) (p : Z)
    (node : SceneNode) (parent_matrix : Matrix4) (st : NjState) :
  scene_node_at buf p = Some node ->
  parse_sibling_objects (S fuel) chunk_fuel (mkCursor buf p) parent_matrix st
  = visit fuel chunk_fuel buf p node parent_matrix st.
Proof.
  unfold scene_node_at. intros H.
  destruct (Z.leb_spec 0 p) as [Hp|]; [|discriminate].
  destruct (Z.leb_spec (p + 52) (Z.of_nat (length buf))) as [Hend|]; [|discriminate].
  cbn [andb] in H. injection H as <-.
  cbn [parse_sibling_objects]. unfold f32_triple.
  repeat (first [rewrite u32_ok by lia | rewrite f32_ok by lia | rewrite i32_ok by lia];
          cbn [bind]).
  destruct (flag_bits (le_decode (slice p 4 buf))) as (F0 & F1 & F2 & F3 & F4 & F5).
  rewrite F0, F1, F2, F3, F4, F5. fold_offsets.
  reflexivity.
Qed.

End Node.

Section Traversal.
Context {three : ThreeJS}.
Variable chunk_fuel : nat.
Variable buf : list byte.

Lemma seek_start_buffer (offset : Z) (c : ArrayBufferCursor) :
  seek_start offset c = seek_start offset (cursor_of_bytes (buffer c)).
Proof. reflexivity. Qed.

Lemma parse_sibling_objects_keeps (fuel : nat) :
  forall c c' parent_matrix st st',
    parse_sibling_objects fuel chunk_fuel c parent_matrix st = Ok (c', st') ->
    buffer c' = buffer c.
Proof.
  induction fuel as [|fuel IH]; intros c c' parent_matrix st st' H;
    cbn [parse_sibling_objects] in H; [discriminate|].
  returned_all;
    repeat match goal with
           | E : parse_sibling_objects fuel _ _ _ _ = Ok _ |- _ => apply IH in E
           | E : parse_model _ _ _ _ = Ok _ |- _ => apply parse_model_keeps in E
           | E : f32_triple _ = Ok _ |- _ => apply f32_triple_keeps in E
           end;
    keeps.
Qed.

End Traversal.

Section Refinement.
Context {three : ThreeJS}.
Variable chunk_fuel : nat.
Variable buf : list byte.




End Refinement.




(** * The operations of a function *)

Lemma ret_ends (operation : Operation) (after : list Operation) :
  opcode operation = 1 -> ends_with_ret [operation] after.
Proof.
  intros Hret body last H. destruct body as [|b [|b' body]]; cbn in H; try discriminate.
  injection H as <-. split; [constructor|now left].
Qed.

Lemma ends_with_ret_cons (operation : Operation) (func_ops after : list Operation) :
  opcode operation <> 1 -> ends_with_ret func_ops after ->
  (func_ops = [] -> after = []) ->
  ends_with_ret (operation :: func_ops) after.
Proof.
  intros Hother Hrest Hnil body last H. destruct body as [|b body]; cbn in H.
  - injection H as <- E. split; [constructor|]. right. now apply Hnil.
  - injection H as <- E. destruct (Hrest body last E) as [Hbody Hlast].
    split; [now constructor|exact Hlast].
Qed.

(** Once the function is found, the operations up to and with the first
    [ret] are collected. *)
Lemma get_func_operations_collects (operations : list Operation) (func_offset : Z) :
  forall position,
  exists func_ops after,
    get_func_operations_from operations func_offset position true = (true, func_ops)
    /\ operations = func_ops ++ after
    /\ ends_with_ret func_ops after
    /\ (func_ops = [] -> after = []).
Proof.
  induction operations as [|operation rest IH]; intros position.
  - exists [], []. split; [reflexivity|]. split; [reflexivity|]. split; [|reflexivity].
    intros body last H. now destruct body.
  - cbn [get_func_operations_from orb].
    destruct (Z.eqb_spec (opcode operation) 1) as [Hret|Hother].
    + exists [operation], rest. split; [reflexivity|]. split; [reflexivity|].
      split; [now apply ret_ends|discriminate].
    + destruct (IH (position + op_size operation)) as (func_ops & after & -> & -> & Hlast & Hnil).
      exists (operation :: func_ops), after. split; [reflexivity|]. split; [reflexivity|].
      split; [now apply ends_with_ret_cons|discriminate].
Qed.

Lemma get_func_operations_searches (operations : list Operation) (func_offset : Z) :
  forall position,
    match (let '(func_found, func_ops) :=
             get_func_operations_from operations func_offset position false in
           if func_found then Some func_ops else None) with
    | None =>
        forall before operation after,
          operations = before ++ operation :: after ->
          position + operations_size before <> func_offset
    | Some func_ops =>
        exists before after,
          operations = before ++ func_ops ++ after
          /\ position + operations_size before = func_offset
          /\ (forall earlier operation later,
                 before = earlier ++ operation :: later ->
                 position + operations_size earlier <> func_offset)
          /\ func_ops <> []
          /\ ends_with_ret func_ops after
    end.
Proof.
  induction operations as [|operation rest IH]; intros position.
  - cbn. intros before operation after E. now destruct before.
  - cbn [get_func_operations_from orb].
    destruct (Z.eqb_spec position func_offset) as [Hat|Hnot].
    + (* the function starts here *)
      assert (Hstart : forall earlier (o : Operation) later,
                 [] = earlier ++ o :: later ->
                 position + operations_size earlier <> func_offset).
      { intros earlier o later E. now destruct earlier. }
      destruct (Z.eqb_spec (opcode operation) 1) as [Hret|Hother].
      * exists [], rest. cbn [app operations_size map fold_right].
        split; [reflexivity|]. split; [lia|]. split; [exact Hstart|].
        split; [discriminate|now apply ret_ends].
      * destruct (get_func_operations_collects rest func_offset (position + op_size operation))
          as (func_ops & after & -> & -> & Hlast & Hnil).
        exists [], after. cbn [app operations_size map fold_right].
        split; [reflexivity|]. split; [lia|]. split; [exact Hstart|].
        split; [discriminate|now apply ends_with_ret_cons].
    + specialize (IH (position + op_size operation)).
      destruct (get_func_operations_from rest func_offset (position + op_size operation) false)
        as [[|] func_ops].
      * destruct IH as (before & after & -> & Hsize & Hfirst & Hne & Hlast).
        exists (operation :: before), after.
        cbn [app operations_size map fold_right]. fold (operations_size before).
        split; [reflexivity|]. split; [lia|]. split; [|split; assumption].
        intros earlier o later E. destruct earlier as [|e earlier]; cbn in E.
        -- cbn. lia.
        -- injection E as <- E. cbn [operations_size map fold_right].
           fold (operations_size earlier).
           specialize (Hfirst earlier o later E). lia.
      * intros before o after E. destruct before as [|b before]; cbn in E.
        -- cbn. lia.
        -- injection E as <- E. cbn [operations_size map fold_right].
           fold (operations_size before). specialize (IH before o after E). lia.
Qed.

(** X1. [get_func_operations] returns [null] exactly when no operation
    starts at [func_offset].  Otherwise it returns the operations from the
    first one that starts there up to and with the first [ret] (opcode 1)
    among them, or up to the end of the stream when none of them is a
    [ret]: the result is not empty, none of its operations but the last is
    a [ret], and it is cut short only behind a [ret]. *)
Theorem get_func_operations_spec (operations : list Operation) (func_offset : Z) :
  match get_func_operations operations func_offset with
  | None =>
      forall before operation after,
        operations = before ++ operation :: after -> operations_size before <> func_offset
  | Some func_ops =>
      exists before after,
        operations = before ++ func_ops ++ after
        /\ operations_size before = func_offset
        /\ (forall earlier operation later,
               before = earlier ++ operation :: later ->
               operations_size earlier <> func_offset)
        /\ func_ops <> []
        /\ ends_with_ret func_ops after
  end.
Proof.
  unfold get_func_operations.
  pose proof (get_func_operations_searches operations func_offset 0) as H.
  destruct (get_func_operations_from operations func_offset 0 false) as [[|] func_ops];
    cbn in H |- *.
  - destruct H as (before & after & E & Hsize & Hfirst & Hne & Hlast).
    exists before, after. split; [exact E|]. split; [lia|]. split; [|split; assumption].
    intros earlier o later Eb. specialize (Hfirst earlier o later Eb). lia.
  - intros before o after E. specialize (H before o after E). lia.
Qed.

(** * The passes of [parse_dat] *)

(** A block that fits is passed in one pass, whatever passes are left. *)
Lemma parse_dat_loop_passes_block (buf : list byte) (p : Z) (acc : DatData)
    (warnings : list warning) (entity_type total_size area_id entities_size : Z) :
  0 <= p ->
  header_at buf p = Some (entity_type, total_size, area_id, entities_size) ->
  entity_type <> 0 -> entities_size = total_size - 16 ->
  p + 16 + entities_size <= Z.of_nat (length buf) ->
  exists acc' warnings',
    forall fuel,
      parse_dat_loop (S fuel) (mkCursor buf p) acc warnings
      = parse_dat_loop fuel (mkCursor buf (p + 16 + entities_size)) acc' warnings'.
Proof.
  intros Hp Hhdr Htype Hsize Hfit.
  pose proof (parse_dat_loop_header buf p) as Hstep.
  destruct (Z.eqb_spec entity_type 1) as [H1|H1]; [|destruct (Z.eqb_spec entity_type 2) as [H2|H2]].
  - pose proof (records_then_resync buf p warnings Hp entity_type total_size area_id
                  entities_size Hhdr OBJECT_SIZE (parse_dat_object area_id) (objs acc)
                  ltac:(reflexivity) (parse_dat_object_fixed area_id)) as Hrecords.
    destruct (parse_records _ _ _ _) as [[l c']|err1] eqn:E1; cbn [bind] in Hrecords; [|lia].
    destruct (resync _ _ _ _ _) as [[c'' w']|err2] eqn:E2; cbn [bind] in Hrecords; [|lia].
    destruct Hrecords as [-> _].
    exists (mkDatData l (npcs acc) (unknowns acc)), w'. intros fuel.
    rewrite (Hstep fuel acc warnings Hp _ _ _ _ Hhdr). cbv zeta.
    destruct (Z.eqb_spec entity_type 0); [contradiction|].
    destruct (Z.eqb_spec entities_size (total_size - 16)); [|contradiction]. cbn [negb].
    destruct (Z.eqb_spec entity_type 1); [|contradiction].
    cbn [position]. rewrite E1. cbn [bind]. rewrite E2. reflexivity.
  - pose proof (records_then_resync buf p warnings Hp entity_type total_size area_id
                  entities_size Hhdr NPC_SIZE (parse_dat_npc area_id) (npcs acc)
                  ltac:(reflexivity) (parse_dat_npc_fixed area_id)) as Hrecords.
    destruct (parse_records _ _ _ _) as [[l c']|err1] eqn:E1; cbn [bind] in Hrecords; [|lia].
    destruct (resync _ _ _ _ _) as [[c'' w']|err2] eqn:E2; cbn [bind] in Hrecords; [|lia].
    destruct Hrecords as [-> _].
    exists (mkDatData (objs acc) l (unknowns acc)), w'. intros fuel.
    rewrite (Hstep fuel acc warnings Hp _ _ _ _ Hhdr). cbv zeta.
    destruct (Z.eqb_spec entity_type 0); [contradiction|].
    destruct (Z.eqb_spec entities_size (total_size - 16)); [|contradiction]. cbn [negb].
    destruct (Z.eqb_spec entity_type 1); [contradiction|].
    destruct (Z.eqb_spec entity_type 2); [|contradiction].
    cbn [position]. rewrite E1. cbn [bind]. rewrite E2. reflexivity.
  - pose proof (entities_size_nonneg buf p _ _ _ _ Hhdr) as Hes.
    eexists. eexists. intros fuel.
    rewrite (Hstep fuel acc warnings Hp _ _ _ _ Hhdr). cbv zeta.
    destruct (Z.eqb_spec entity_type 0); [contradiction|].
    destruct (Z.eqb_spec entities_size (total_size - 16)); [|contradiction]. cbn [negb].
    destruct (Z.eqb_spec entity_type 1); [contradiction|].
    destruct (Z.eqb_spec entity_type 2); [contradiction|].
    rewrite u8_array_ok by lia. cbn [bind]. reflexivity.
Qed.

Lemma parse_dat_loop_outcome (buf : list byte) :
  forall (n : nat) p acc warnings,
    0 <= p <= Z.of_nat (length buf) ->
    (Z.of_nat (length buf) - p) / 16 < Z.of_nat n ->
    (forall m : nat,
        (Z.of_nat (length buf) - p) / 16 < Z.of_nat m ->
        parse_dat_loop m (mkCursor buf p) acc warnings
        = parse_dat_loop n (mkCursor buf p) acc warnings)
    /\ (forall e,
           parse_dat_loop n (mkCursor buf p) acc warnings = Err e ->
           e = OutOfBounds \/ exists expected got, e = MalformedDat expected got).
Proof.
  induction n as [|n IH]; intros p acc warnings Hp Hn; [lia|].
  assert (Hpos : 0 <= p) by lia.
  destruct (Z.eq_dec p (Z.of_nat (length buf))) as [Hend|Hnot].
  { split.
    - intros [|m] Hm; [lia|]. now rewrite !parse_dat_loop_end.
    - intros e. rewrite parse_dat_loop_end by assumption. discriminate. }
  destruct (header_at buf p) as [[[[entity_type total_size] area_id] entities_size]|] eqn:Hhdr.
  2:{ split.
      - intros [|m] Hm; [lia|]. now rewrite !parse_dat_loop_no_header by (assumption || lia).
      - intros e. rewrite parse_dat_loop_no_header by (assumption || lia).
        intros [= <-]. now left. }
  destruct (Z.eq_dec entity_type 0) as [Hzero|Htype].
  { split.
    - intros [|m] Hm; [lia|].
      now rewrite !(parse_dat_loop_terminator buf p _ acc warnings Hpos _ _ _ _ Hhdr Hzero).
    - intros e.
      rewrite (parse_dat_loop_terminator buf p _ acc warnings Hpos _ _ _ _ Hhdr Hzero).
      discriminate. }
  destruct (Z.eq_dec entities_size (total_size - 16)) as [Hsize|Hsize].
  2:{ split.
      - intros [|m] Hm; [lia|].
        now rewrite !(parse_dat_loop_malformed buf p _ acc warnings Hpos _ _ _ _ Hhdr Htype Hsize).
      - intros e.
        rewrite (parse_dat_loop_malformed buf p _ acc warnings Hpos _ _ _ _ Hhdr Htype Hsize).
        intros [= <-]. right. eauto. }
  pose proof (entities_size_nonneg buf p _ _ _ _ Hhdr) as Hes.
  destruct (Z_le_gt_dec (p + 16 + entities_size) (Z.of_nat (length buf))) as [Hfit|Hshort].
  - destruct (parse_dat_loop_passes_block buf p acc warnings _ _ _ _ Hpos Hhdr Htype Hsize Hfit)
      as (acc' & warnings' & Hstep).
    assert (Hless : (Z.of_nat (length buf) - (p + 16 + entities_size)) / 16
                    < (Z.of_nat (length buf) - p) / 16) by lia.
    destruct (IH (p + 16 + entities_size) acc' warnings' ltac:(lia) ltac:(lia))
      as [Hany Herr].
    split.
    + intros [|m] Hm; [lia|]. rewrite !Hstep. apply Hany. lia.
    + intros e. rewrite Hstep. apply Herr.
  - split.
    + intros [|m] Hm; [lia|].
      now rewrite !(parse_dat_loop_truncated buf p _ acc warnings Hpos _ _ _ _ Hhdr Htype Hsize)
        by lia.
    + intros e.
      rewrite (parse_dat_loop_truncated buf p _ acc warnings Hpos _ _ _ _ Hhdr Htype Hsize)
        by lia.
      intros [= <-]. now left.
Qed.

(** X2. The block loop of [parse_dat] ends on every input: every pass but
    the last moves the cursor forward by at least the 16 bytes of a header,
    so more than [length / 16] passes are never needed, and any larger
    number of passes gives the same result.  [parse_dat] fails only by
    reading past the end of the buffer or on a block whose sizes are
    inconsistent. *)
Theorem parse_dat_terminates (buf : list byte) :
  (forall passes : nat,
      Z.of_nat (length buf) / 16 < Z.of_nat passes ->
      parse_dat_loop passes (cursor_of_bytes buf) (mkDatData [] [] []) []
      = parse_dat (cursor_of_bytes buf))
  /\ (forall e,
         parse_dat (cursor_of_bytes buf) = Err e ->
         e = OutOfBounds \/ exists expected got, e = MalformedDat expected got).
Proof.
  assert (Hlen : (Z.of_nat (length buf) - 0) / 16 < Z.of_nat (S (length buf))).
  { rewrite Z.sub_0_r. pose proof (Zle_0_nat (length buf)). lia. }
  destruct (parse_dat_loop_outcome buf (S (length buf)) 0 (mkDatData [] [] []) []
              ltac:(lia) Hlen) as [Hany Herr].
  split.
  - intros passes Hp. unfold parse_dat, cursor_of_bytes. cbn [buffer].
    apply Hany. now rewrite Z.sub_0_r.
  - intros e. unfold parse_dat, cursor_of_bytes. cbn [buffer]. apply Herr.
Qed.

(** * Blocks of other entity types *)

Lemma parse_unknown_block (unknown : DatUnknown) (pre rest : list byte)
    (fuel : nat) (acc : DatData) (w : list warning) :
  unknown_storable unknown ->
  parse_dat_loop (S fuel) (at_pos pre (encode_unknown unknown ++ rest)) acc w
  = parse_dat_loop fuel (at_pos (pre ++ encode_unknown unknown) rest)
      (mkDatData (objs acc) (npcs acc) (unknowns acc ++ [unknown])) w.
Proof.
  destruct unknown as [entity_type total_size area_id entities_size data].
  unfold unknown_storable, is_u32.
  cbn [unk_entity_type unk_total_size unk_area_id unk_entities_size unk_data].
  intros (Htype & Het & Hts & Ha & Hes & Hdata).
  cbn [parse_dat_loop]. rewrite bytes_left_at.
  unfold encode_unknown.
  cbn [unk_entity_type unk_total_size unk_area_id unk_entities_size unk_data].
  match goal with
  | |- context [Z.of_nat (length ?bs) =? 0] =>
      destruct (Z.eqb_spec (Z.of_nat (length bs)) 0) as [Hnil|_];
      [exfalso; rewrite !length_app, !le_encode_length in Hnil; lia|]
  end.
  rewrite <- !app_assoc. repeat (rewrite u32_at; cbn [bind]).
  rewrite !Z.mod_small by lia.
  destruct (Z.eqb_spec entity_type 0); [lia|].
  destruct (Z.eqb_spec entities_size (total_size - 16)); [|contradiction]. cbn [negb].
  destruct (Z.eqb_spec entity_type 1); [lia|].
  destruct (Z.eqb_spec entity_type 2); [lia|].
  rewrite u8_array_at by lia. cbn [bind]. rewrite <- !app_assoc. reflexivity.
Qed.

Lemma parse_unknown_blocks (unknown_blocks : list DatUnknown) :
  Forall unknown_storable unknown_blocks ->
  forall pre rest fuel acc w,
    parse_dat_loop (length unknown_blocks + fuel)
      (at_pos pre (flat_map encode_unknown unknown_blocks ++ rest)) acc w
    = parse_dat_loop fuel (at_pos (pre ++ flat_map encode_unknown unknown_blocks) rest)
        (mkDatData (objs acc) (npcs acc) (unknowns acc ++ unknown_blocks)) w.
Proof.
  induction 1 as [|unknown unknown_blocks Hu Hrest IH]; intros pre rest fuel acc w.
  - cbn. rewrite !app_nil_r. now destruct acc.
  - cbn [length flat_map Nat.add]. rewrite <- app_assoc.
    rewrite parse_unknown_block by exact Hu. rewrite IH.
    cbn [objs npcs unknowns]. now rewrite <- !app_assoc.
Qed.

Lemma encode_unknown_length_ge (unknown : DatUnknown) :
  (1 <= length (encode_unknown unknown))%nat.
Proof. unfold encode_unknown. rewrite length_app, le_encode_length. lia. Qed.

Lemma parse_encode_table_trailing (d : DatData) (trailing : list byte) :
  Forall object_storable (objs d) -> Forall npc_storable (npcs d) ->
  Forall unknown_storable (unknowns d) ->
  68 * Z.of_nat (length (objs d)) + 16 < 4294967296 ->
  72 * Z.of_nat (length (npcs d)) + 16 < 4294967296 ->
  parse_dat (cursor_of_bytes (encode_table d ++ trailing))
  = Ok (mkDatData (map requantize_object (by_area obj_area_id (objs d)))
          (map requantize_npc (by_area npc_area_id (npcs d))) (unknowns d), []).
Proof.
  destruct d as [os ns us]. cbn [objs npcs unknowns].
  intros Hos Hns Hus Hol Hnl. unfold parse_dat. rewrite cursor_of_bytes_at.
  unfold at_pos at 1. cbn [buffer app].
  fold (at_pos [] (encode_table (mkDatData os ns us) ++ trailing)).
  unfold encode_table. cbn [objs npcs unknowns].
  set (oids := sorted_area_ids obj_area_id os).
  set (nids := sorted_area_ids npc_area_id ns).
  set (ob := flat_map (encode_block 1 OBJECT_SIZE encode_object obj_area_id os) oids).
  set (nb := flat_map (encode_block 2 NPC_SIZE encode_npc npc_area_id ns) nids).
  set (ub := flat_map encode_unknown us).
  assert (Hfuel : exists k, S (length ((ob ++ nb ++ ub ++ le_encode 4 0 ++ le_encode 4 0
                                         ++ le_encode 4 0 ++ le_encode 4 0) ++ trailing))
                            = (length oids + (length nids + (length us + S k)))%nat).
  { pose proof (flat_map_length_ge _ oids
                  (encode_block_length_ge 1 OBJECT_SIZE encode_object obj_area_id os)) as Ho.
    pose proof (flat_map_length_ge _ nids
                  (encode_block_length_ge 2 NPC_SIZE encode_npc npc_area_id ns)) as Hn.
    pose proof (flat_map_length_ge _ us encode_unknown_length_ge) as Hu.
    fold ob in Ho. fold nb in Hn. fold ub in Hu. rewrite !length_app.
    exists (length ob + length nb + length ub + 16 + length trailing
            - length oids - length nids - length us)%nat.
    rewrite !le_encode_length. lia. }
  destruct Hfuel as [k ->]. rewrite <- !app_assoc.
  unfold ob. rewrite (parse_blocks _ _ is_u32
    (fun id pre rest fuel acc w Hid => parse_object_block os id pre rest fuel acc w Hos Hid Hol)).
  2:{ apply (sorted_area_ids_fit obj_area_id object_storable); [|exact Hos].
      intros a Ha. apply Ha. }
  unfold nb. rewrite (parse_blocks _ _ is_u32
    (fun id pre rest fuel acc w Hid => parse_npc_block ns id pre rest fuel acc w Hns Hid Hnl)).
  2:{ apply (sorted_area_ids_fit npc_area_id npc_storable); [|exact Hns].
      intros a Ha. apply Ha. }
  unfold ub. rewrite parse_unknown_blocks by exact Hus.
  rewrite parse_terminator.
  rewrite fold_left_objs, fold_left_npcs. reflexivity.
Qed.

Lemma parse_encode_table_unknowns (d : DatData) :
  Forall object_storable (objs d) -> Forall npc_storable (npcs d) ->
  Forall unknown_storable (unknowns d) ->
  68 * Z.of_nat (length (objs d)) + 16 < 4294967296 ->
  72 * Z.of_nat (length (npcs d)) + 16 < 4294967296 ->
  parse_dat (cursor_of_bytes (encode_table d))
  = Ok (mkDatData (map requantize_object (by_area obj_area_id (objs d)))
          (map requantize_npc (by_area npc_area_id (npcs d))) (unknowns d), []).
Proof.
  intros Hos Hns Hus Hol Hnl.
  rewrite <- (app_nil_r (encode_table d)). now apply parse_encode_table_trailing.
Qed.



(** X4. [parse_dat] stops at the final header: bytes that follow the
    table [write_dat] wrote change nothing of what is read back. *)
Theorem parse_dat_ignores_trailing_bytes (d : DatData) (trailing : list byte) :
  Forall object_storable (objs d) -> Forall npc_storable (npcs d) ->
  Forall unknown_storable (unknowns d) ->
  68 * Z.of_nat (length (objs d)) + 16 < 4294967296 ->
  72 * Z.of_nat (length (npcs d)) + 16 < 4294967296 ->
  exists cursor,
    write_dat d = Ok cursor
    /\ parse_dat (cursor_of_bytes (buffer cursor ++ trailing)) = parse_dat cursor.
Proof.
  intros Hos Hns Hus Hol Hnl.
  exists (cursor_of_bytes (encode_table d)). split; [apply write_dat_bytes|].
  cbn [cursor_of_bytes buffer].
  rewrite parse_encode_table_trailing by assumption.
  fold (cursor_of_bytes (encode_table d)).
  now rewrite parse_encode_table_unknowns by assumption.
Qed.

Lemma parse_dat_ignores_trailing_bytes_witness :
  exists cursor,
    write_dat table_with_unknown = Ok cursor
    /\ parse_dat (cursor_of_bytes (buffer cursor ++ [x07; x08; x09])) = parse_dat cursor.
Proof.
  apply (parse_dat_ignores_trailing_bytes table_with_unknown [x07; x08; x09]).
  - repeat constructor; try apply object_in_area_storable; unfold is_u32; lia.
  - repeat constructor; try apply npc_in_area_storable; unfold is_u32; lia.
  - repeat constructor; cbn; unfold is_u32; lia.
  - cbn. lia.
  - cbn. lia.
Defined.

(** * Entities that do not fill their block *)

Lemma seek_at (n : Z) (pre w rest : list byte) :
  Z.of_nat (length w) = n ->
  seek n (at_pos pre (w ++ rest)) = Ok (at_pos (pre ++ w) rest).
Proof.
  intros <-. unfold seek, seek_start, size, at_pos. cbn [buffer position].
  rewrite !length_app.
  destruct (Z.ltb_spec (Z.of_nat (length pre) + Z.of_nat (length w)) 0); [lia|].
  destruct (Z.ltb_spec (Z.of_nat (length pre + (length w + length rest)))
              (Z.of_nat (length pre) + Z.of_nat (length w))); [lia|].
  cbn [orb]. rewrite <- app_assoc, Nat2Z.inj_add. reflexivity.
Qed.

Lemma parse_padded_object_block (l : list DatObject) (id : Z) (padding pre rest : list byte)
    (fuel : nat) (acc : DatData) (w : list warning) :
  Forall object_storable l -> Forall (fun obj => obj_area_id obj = id) l ->
  is_u32 id -> (length padding < 68)%nat ->
  68 * Z.of_nat (length l) + 84 < 4294967296 ->
  parse_dat_loop (S fuel) (at_pos pre (padded_object_block l id padding ++ rest)) acc w
  = parse_dat_loop fuel (at_pos (pre ++ padded_object_block l id padding) rest)
      (mkDatData (objs acc ++ map requantize_object l) (npcs acc) (unknowns acc))
      (match padding with
       | [] => w
       | _ => w ++ [WarnEntityBytes (68 * Z.of_nat (length l))
                      (68 * Z.of_nat (length l) + Z.of_nat (length padding)) 1]
       end).
Proof.
  intros Hst Harea Hid Hpad Hlen.
  cbn [parse_dat_loop]. rewrite bytes_left_at.
  match goal with
  | |- context [Z.of_nat (length ?bs) =? 0] =>
      destruct (Z.eqb_spec (Z.of_nat (length bs)) 0) as [Hnil|_];
      [exfalso; unfold padded_object_block in Hnil;
       rewrite !length_app, !le_encode_length in Hnil; lia|]
  end.
  unfold padded_object_block. cbv zeta. rewrite <- !app_assoc.
  repeat (rewrite u32_at; cbn [bind]).
  unfold is_u32 in Hid.
  rewrite (Z.mod_small id), (Z.mod_small (_ + 16)), (Z.mod_small (68 * _ + _)) by lia.
  change (1 mod 4294967296) with 1. cbn [Z.eqb Pos.eqb].
  replace (68 * Z.of_nat (length l) + Z.of_nat (length padding) + 16 - 16)
    with (68 * Z.of_nat (length l) + Z.of_nat (length padding)) by lia.
  rewrite Z.eqb_refl. cbn [negb].
  replace ((68 * Z.of_nat (length l) + Z.of_nat (length padding)) / OBJECT_SIZE)
    with (Z.of_nat (length l)) by (unfold OBJECT_SIZE; lia).
  rewrite Nat2Z.id.
  rewrite (parse_records_at parse_dat_object encode_object requantize_object obj_area_id
             object_storable parse_dat_object_at) by assumption.
  cbn [bind]. unfold resync. rewrite !position_at, !length_app, !le_encode_length.
  rewrite (flat_map_encode_length encode_object object_storable 68 encode_object_length)
    by assumption.
  match goal with
  | |- context [Z.of_nat ?x - Z.of_nat ?y =? _] =>
      replace (Z.of_nat x - Z.of_nat y) with (68 * Z.of_nat (length l)) by lia
  end.
  destruct padding as [|b padding].
  - cbn [length]. replace (68 * Z.of_nat (length l) + Z.of_nat 0)
      with (68 * Z.of_nat (length l)) by lia.
    rewrite Z.eqb_refl. cbn [bind objs npcs unknowns]. now rewrite <- !app_assoc, !app_nil_r.
  - destruct (Z.eqb_spec (68 * Z.of_nat (length l))
                (68 * Z.of_nat (length l) + Z.of_nat (length (b :: padding))));
      [cbn [length] in *; lia|].
    rewrite seek_at by lia. cbn [bind objs npcs unknowns]. now rewrite <- !app_assoc.
Qed.

(** X5. Entities that do not fill their block are tolerated with a
    warning.  When the entities of an object block are whole records
    followed by fewer than 68 further bytes, [parse_dat] reads the records,
    logs the number of bytes read against the number declared, and goes on
    behind the block; without such bytes nothing is logged. *)
Theorem parse_dat_resynchronizes (l : list DatObject) (id : Z) (padding : list byte) :
  Forall object_storable l -> Forall (fun obj => obj_area_id obj = id) l ->
  is_u32 id -> (length padding < 68)%nat ->
  68 * Z.of_nat (length l) + 84 < 4294967296 ->
  parse_dat (cursor_of_bytes (padded_object_block l id padding ++ final_header))
  = Ok (mkDatData (map requantize_object l) [] [],
        match padding with
        | [] => []
        | _ => [WarnEntityBytes (68 * Z.of_nat (length l))
                  (68 * Z.of_nat (length l) + Z.of_nat (length padding)) 1]
        end).
Proof.
  intros Hst Harea Hid Hpad Hlen. unfold parse_dat. rewrite cursor_of_bytes_at.
  unfold at_pos at 1. cbn [buffer app].
  fold (at_pos [] (padded_object_block l id padding ++ final_header)).
  assert (Hfuel : exists k, S (length (padded_object_block l id padding ++ final_header))
                            = S (S k)).
  { rewrite length_app. unfold final_header. rewrite !length_app, !le_encode_length.
    eexists. rewrite Nat.add_succ_r. reflexivity. }
  destruct Hfuel as [k ->].
  rewrite parse_padded_object_block by assumption.
  unfold final_header. rewrite <- (app_nil_r (le_encode 4 0)) at 4.
  rewrite parse_terminator. cbn [objs npcs unknowns app].
  destruct padding; reflexivity.
Qed.

Lemma parse_dat_resynchronizes_witness :
  parse_dat (cursor_of_bytes (padded_object_block [object_in_area 3] 3 [x00; x00]
                              ++ final_header))
  = Ok (mkDatData (map requantize_object [object_in_area 3]) [] [],
        [WarnEntityBytes (68 * Z.of_nat 1) (68 * Z.of_nat 1 + Z.of_nat 2) 1]).
Proof.
  apply (parse_dat_resynchronizes [object_in_area 3] 3 [x00; x00]).
  - repeat constructor; try apply object_in_area_storable; unfold is_u32; lia.
  - repeat constructor.
  - unfold is_u32. lia.
  - cbn. lia.
  - cbn. lia.
Defined.

(** * The inputs [parse_qst] accepts *)

Lemma parse_qst_blue_burst_error (buf : list byte) :
  version_of buf = BLUE_BURST ->
  (forall count : nat, Z.of_nat (length buf) <> 176 + 1056 * Z.of_nat count) ->
  parse_qst (cursor_of_bytes buf) = Err OutOfBounds.
Proof.
  intros Hv Hlen.
  destruct (Z_lt_ge_dec (Z.of_nat (length buf)) 3) as [Hs|Hs].
  { now apply parse_qst_too_short. }
  rewrite parse_qst_prologue by lia. rewrite Hv, String.eqb_refl.
  rewrite seek_start_ok by lia. cbn [bind].
  destruct (Z_lt_ge_dec (Z.of_nat (length buf)) 176) as [Hh|Hh].
  { now rewrite parse_headers_short. }
  rewrite parse_headers_ok by lia. cbn [bind].
  rewrite parse_files_ragged; [reflexivity|lia|].
  intros Hmod.
  apply (Hlen (Z.to_nat ((Z.of_nat (length buf) - 176) / 1056))).
  pose proof (Z.div_mod (Z.of_nat (length buf) - 176) 1056 ltac:(lia)).
  pose proof (Z.div_pos (Z.of_nat (length buf) - 176) 1056 ltac:(lia) ltac:(lia)).
  lia.
Qed.

(** X6. [parse_qst] accepts an input with the Blue Burst marker exactly
    when the input is two 88-byte headers followed by whole 1056-byte
    chunks; every other length makes it fail by reading out of bounds.
    Whatever the input, reading out of bounds is its only failure: the
    error about the number of bytes read for a chunk is never raised. *)
Theorem parse_qst_accepts_whole_chunks (buf : list byte) :
  (version_of buf = BLUE_BURST ->
   ((exists result cursor warnings,
        parse_qst (cursor_of_bytes buf) = Ok (Some result, cursor, warnings))
    <-> exists count : nat, Z.of_nat (length buf) = 176 + 1056 * Z.of_nat count))
  /\ (forall e, parse_qst (cursor_of_bytes buf) = Err e -> e = OutOfBounds).
Proof.
  split.
  - intros Hv. split.
    + intros (result & cursor & warnings & Hok).
      exact (parse_qst_blue_burst_length buf _ Hv Hok).
    + intros (count & Hlen). rewrite (parse_qst_blue_burst buf count Hv Hlen). eauto.
  - intros e He.
    destruct (Z_lt_ge_dec (Z.of_nat (length buf)) 3) as [Hs|Hs].
    { rewrite parse_qst_too_short in He by exact Hs. congruence. }
    destruct (string_dec (version_of buf) BLUE_BURST) as [Hv|Hv].
    2:{ rewrite parse_qst_unsupported in He by (assumption || lia). discriminate. }
    destruct (Z.eq_dec ((Z.of_nat (length buf) - 176) mod 1056) 0) as [Hm|Hm].
    + destruct (Z_lt_ge_dec (Z.of_nat (length buf)) 176) as [Hh|Hh].
      * rewrite parse_qst_blue_burst_error in He; [congruence|exact Hv|].
        intros count. lia.
      * pose proof (Z.div_mod (Z.of_nat (length buf) - 176) 1056 ltac:(lia)).
        pose proof (Z.div_pos (Z.of_nat (length buf) - 176) 1056 ltac:(lia) ltac:(lia)).
        rewrite (parse_qst_blue_burst buf
                   (Z.to_nat ((Z.of_nat (length buf) - 176) / 1056)) Hv) in He by lia.
        discriminate.
    + rewrite parse_qst_blue_burst_error in He; [congruence|exact Hv|].
      intros count Hc. apply Hm. rewrite Hc.
      replace (176 + 1056 * Z.of_nat count - 176) with (Z.of_nat count * 1056) by lia.
      apply Z.mod_mul. lia.
Qed.

(** * Reading back what [write_qst] wrote *)

Lemma total_chunks_ge (files : list SimpleQstContainedFile) :
  (length files <= total_chunks files)%nat.
Proof.
  unfold total_chunks. induction files as [|file files IH]; [cbn; lia|].
  cbn [map fold_right length]. pose proof (chunks_needed_pos file). lia.
Qed.

Lemma encode_container_version (files : list SimpleQstContainedFile) :
  files <> [] -> version_of (encode_container files) = BLUE_BURST.
Proof.
  destruct files as [|file files]; [contradiction|]. intros _.
  unfold encode_container. cbn [flat_map]. rewrite <- !app_assoc.
  apply version_of_header.
Qed.

(** X7. [parse_qst] reads two file headers, whatever number
    [write_qst] wrote. A container that [write_qst] returns is therefore
    accepted by [parse_qst] only when the number of files is 2 modulo 12;
    for any other number of files, a single file included, [parse_qst]
    fails by reading out of bounds. *)
Theorem parse_qst_needs_two_headers (files : list SimpleQstContainedFile)
    (cursor : ArrayBufferCursor) :
  Forall data_valid files ->
  write_qst files = Ok cursor ->
  if Z.of_nat (length files) mod 12 =? 2
  then exists result cursor' warnings,
         parse_qst cursor = Ok (Some result, cursor', warnings)
  else parse_qst cursor = Err OutOfBounds.
Proof.
  intros Hv Hw.
  assert (Hne : files <> []).
  { intros ->. discriminate Hw. }
  rewrite write_qst_bytes in Hw by assumption.
  destruct (Z.eqb_spec (Z.of_nat (length (encode_container files))) (budgeted_size files));
    [|discriminate].
  injection Hw as <-.
  pose proof (encode_container_length files Hv) as Hlen.
  pose proof (total_chunks_ge files) as Hge.
  assert (Hpos : (1 <= length files)%nat).
  { destruct files; [contradiction|cbn; lia]. }
  pose proof (encode_container_version files Hne) as Hver.
  destruct (Z.eqb_spec (Z.of_nat (length files) mod 12) 2) as [Hm|Hm].
  - rewrite (parse_qst_blue_burst (encode_container files)
               (Z.to_nat ((88 * Z.of_nat (length files)
                           + 1056 * Z.of_nat (total_chunks files) - 176) / 1056)) Hver)
      by lia.
    eauto.
  - apply parse_qst_blue_burst_error; [exact Hver|].
    intros count. lia.
Qed.

Lemma parse_qst_needs_two_headers_witness :
  parse_qst (cursor_of_bytes (encode_container [one_byte_file])) = Err OutOfBounds.
Proof.
  apply (parse_qst_needs_two_headers [one_byte_file]
           (cursor_of_bytes (encode_container [one_byte_file]))).
  - repeat constructor; vm_compute; intuition discriminate.
  - vm_compute. reflexivity.
Defined.

(** * Which files [parse_qst] returns *)

Lemma first_occurrences_snoc (names : list string) (file_name : string) :
  rev (nodup string_dec (rev (names ++ [file_name])))
  = if in_dec string_dec file_name names
    then rev (nodup string_dec (rev names))
    else rev (nodup string_dec (rev names)) ++ [file_name].
Proof.
  rewrite rev_app_distr. cbn [rev app nodup].
  destruct (in_dec string_dec file_name (rev names)) as [Hin|Hin];
    destruct (in_dec string_dec file_name names) as [Hin'|Hin']; try reflexivity.
  - exfalso. apply Hin'. now apply in_rev.
  - exfalso. apply Hin. now apply in_rev in Hin'.
Qed.

Lemma first_occurrences_In (names : list string) (file_name : string) :
  In file_name (rev (nodup string_dec (rev names))) <-> In file_name names.
Proof. now rewrite <- in_rev, nodup_In, <- in_rev. Qed.

Lemma fold_apply_chunk_snoc (expected_sizes : list (string * Z)) (chunks : list Chunk)
    (ch : Chunk) st :
  fold_left (apply_chunk expected_sizes) (chunks ++ [ch]) st
  = apply_chunk expected_sizes (fold_left (apply_chunk expected_sizes) chunks st) ch.
Proof. now rewrite fold_left_app. Qed.

(** The keys of the file map, in the order of insertion, are the file names
    carried by the chunks, each at its first appearance. *)
Lemma fold_apply_chunk_key_order (expected_sizes : list (string * Z)) (chunks : list Chunk) :
  map fst (fst (fold_left (apply_chunk expected_sizes) chunks ([], [])))
  = rev (nodup string_dec (rev (map chunk_file_name chunks))).
Proof.
  induction chunks as [|ch chunks IH] using rev_ind; [reflexivity|].
  rewrite fold_apply_chunk_snoc, map_app. cbn [map].
  rewrite first_occurrences_snoc.
  destruct (fold_left (apply_chunk expected_sizes) chunks ([], [])) as [files warnings] eqn:E.
  cbn [fst] in IH. rewrite apply_chunk_update.
  destruct (in_dec string_dec (chunk_file_name ch) (map chunk_file_name chunks)) as [Hin|Hin].
  - rewrite map_set_present; [exact IH|]. rewrite IH. now apply first_occurrences_In.
  - rewrite map_set_absent; [now rewrite IH|]. rewrite IH.
    now rewrite first_occurrences_In.
Qed.

Lemma reconstructed_names (buf : list byte) (count : nat) :
  Z.of_nat (length buf) = 176 + 1056 * Z.of_nat count ->
  map name (map (with_header (container_headers buf))
              (map finished_file (map snd (fst (reconstructed buf)))))
  = map fst (fst (reconstructed buf)).
Proof.
  intros Hlen. rewrite !map_map.
  assert (Hnd : NoDup (map fst (fst (reconstructed buf)))).
  { unfold reconstructed. apply fold_apply_chunk_NoDup. constructor. }
  assert (Hget : forall key raw, In (key, raw) (fst (reconstructed buf)) ->
                                 map_get key (fst (reconstructed buf)) = Some raw).
  { intros key raw Hin. now apply map_get_In. }
  apply map_ext_in. intros [key raw] Hin. cbn [fst snd].
  pose proof (with_header_fields (container_headers buf) (finished_file raw)) as (Hn & _).
  rewrite Hn. cbn [finished_file name].
  specialize (Hget key raw Hin). unfold reconstructed in Hget.
  rewrite fold_apply_chunk_get in Hget. cbn [fst map_get] in Hget.
  eapply file_after_name; [|exact Hget]. discriminate.
Qed.

(** X8. The files that [parse_qst] returns are those named by the
    chunks of the container, not by its headers: one file for every file
    name that a chunk carries, in the order in which the names first appear
    in the chunks, and no two returned files share a name. *)
Theorem parse_qst_files_follow_chunks (buf : list byte) result cursor warnings :
  parse_qst (cursor_of_bytes buf) = Ok (Some result, cursor, warnings) ->
  map name (files result)
  = rev (nodup string_dec (rev (map chunk_file_name (container_chunks buf))))
  /\ NoDup (map name (files result)).
Proof.
  intros Hok.
  destruct (parse_qst_some_blue_burst buf result cursor warnings Hok) as (Hv & count & Hlen).
  rewrite (parse_qst_blue_burst buf count Hv Hlen) in Hok.
  injection Hok as <- _ _. cbn [files].
  rewrite (reconstructed_names buf count Hlen). split.
  - unfold reconstructed. apply fold_apply_chunk_key_order.
  - unfold reconstructed. apply fold_apply_chunk_NoDup. constructor.
Qed.

Lemma parse_qst_files_follow_chunks_witness :
  map name (files (mkParseQstResult BLUE_BURST [returned_q_dat; returned_q_bin]))
  = rev (nodup string_dec (rev (map chunk_file_name (container_chunks truncated_container))))
  /\ NoDup (map name (files (mkParseQstResult BLUE_BURST [returned_q_dat; returned_q_bin]))).
Proof.
  exact (parse_qst_files_follow_chunks truncated_container _ _ _ truncated_container_parsed).
Defined.

(** * The chunk numbers of a returned file *)

Lemma file_after_chunk_nos (expected_sizes : list (string * Z)) (file_name : string)
    (chunks : list Chunk) (file : QstContainedFile) :
  file_after expected_sizes file_name chunks None = Some file ->
  NoDup (chunk_nos file).
Proof.
  revert file. induction chunks as [|ch chunks IH] using rev_ind; intros file Hf.
  - discriminate.
  - rewrite file_after_snoc in Hf.
    destruct (chunk_of file_name ch); [|now apply IH].
    injection Hf as <-.
    destruct (chunk_update_fields expected_sizes ch
                (file_after expected_sizes file_name chunks None)) as (_ & _ & ->).
    assert (Hbase : NoDup (chunk_nos (base_file expected_sizes ch
                                        (file_after expected_sizes file_name chunks None)))).
    { unfold base_file.
      destruct (file_after expected_sizes file_name chunks None) as [f|];
        [now apply IH|constructor]. }
    destruct (existsb _ _) eqn:E; [exact Hbase|].
    apply NoDup_app; [exact Hbase|repeat constructor; intros []|].
    intros k Hk [<-|[]].
    assert (existsb (Z.eqb (chunk_number ch))
              (chunk_nos (base_file expected_sizes ch
                            (file_after expected_sizes file_name chunks None))) = true).
    { apply existsb_exists. exists (chunk_number ch). split; [exact Hk|apply Z.eqb_refl]. }
    congruence.
Qed.

(** X9. Every file returned by [parse_qst] lists its chunk numbers in
    strictly ascending order: each number once, however often and in
    whatever order the chunks of the container carried it. The numbers
    listed are exactly those carried by a chunk with the name of the file,
    and each is a byte. *)
Theorem parse_qst_chunk_nos_ascending (buf : list byte) result cursor warnings :
  parse_qst (cursor_of_bytes buf) = Ok (Some result, cursor, warnings) ->
  forall file,
    In file (files result) ->
    StronglySorted Z.lt (chunk_nos file)
    /\ (forall chunk_no,
           In chunk_no (chunk_nos file)
           <-> exists ch, In ch (container_chunks buf)
                          /\ chunk_file_name ch = name file /\ chunk_number ch = chunk_no)
    /\ Forall (fun chunk_no => 0 <= chunk_no < 256) (chunk_nos file).
Proof.
  intros Hok file Hin.
  destruct (parse_qst_some_blue_burst buf result cursor warnings Hok) as (Hv & count & Hlen).
  rewrite (parse_qst_blue_burst buf count Hv Hlen) in Hok.
  injection Hok as <- _ _. cbn [files] in Hin.
  destruct (returned_file buf count file Hlen Hin) as (raw & Hraw & Hrec & Hn & _ & _ & Hc).
  assert (Hnd : NoDup (chunk_nos raw)).
  { apply in_map_iff in Hraw. destruct Hraw as ([key raw'] & E & Hraw). cbn [snd] in E.
    subst raw'.
    assert (Hget : map_get key (fst (reconstructed buf)) = Some raw).
    { apply map_get_In; [|exact Hraw]. unfold reconstructed.
      apply fold_apply_chunk_NoDup. constructor. }
    unfold reconstructed in Hget. rewrite fold_apply_chunk_get in Hget.
    cbn [fst map_get] in Hget. exact (file_after_chunk_nos _ _ _ _ Hget). }
  destruct Hrec as (_ & _ & _ & Hnos & _).
  assert (Hiff : forall chunk_no,
             In chunk_no (chunk_nos file)
             <-> exists ch, In ch (container_chunks buf)
                            /\ chunk_file_name ch = name file /\ chunk_number ch = chunk_no).
  { intros chunk_no. rewrite Hc, sort_numeric_In, Hnos. split.
    - intros (ch & Hch & Hof & Hno). exists ch. repeat split; auto. now apply chunk_of_name.
    - intros (ch & Hch & Hname & Hno). exists ch. repeat split; auto.
      unfold chunk_of. now apply String.eqb_eq. }
  split; [rewrite Hc; now apply sort_numeric_sorted|]. split; [exact Hiff|].
  apply Forall_forall. intros chunk_no Hk. apply Hiff in Hk.
  destruct Hk as (ch & Hch & _ & <-).
  pose proof (container_chunks_wf buf count Hlen) as Hwf.
  rewrite Forall_forall in Hwf. apply (Hwf ch Hch).
Qed.

Lemma parse_qst_chunk_nos_ascending_witness :
  StronglySorted Z.lt (chunk_nos returned_q_dat)
  /\ (forall chunk_no,
         In chunk_no (chunk_nos returned_q_dat)
         <-> exists ch, In ch (container_chunks truncated_container)
                        /\ chunk_file_name ch = name returned_q_dat
                        /\ chunk_number ch = chunk_no)
  /\ Forall (fun chunk_no => 0 <= chunk_no < 256) (chunk_nos returned_q_dat).
Proof.
  apply (parse_qst_chunk_nos_ascending truncated_container _ _ _ truncated_container_parsed).
  left. reflexivity.
Defined.

(** * The warnings of [parse_qst] *)

Lemma apply_chunk_warnings (expected_sizes : list (string * Z))
    (files : list (string * QstContainedFile)) (warnings : list warning) (ch : Chunk) :
  snd (apply_chunk expected_sizes (files, warnings) ch)
  = warnings
    ++ (if existsb (Z.eqb (chunk_number ch))
             (chunk_nos (base_file expected_sizes ch (map_get (chunk_file_name ch) files)))
        then [WarnChunkOverwritten (chunk_number ch) (chunk_file_name ch)] else [])
    ++ (if chunk_declared_size ch >? 1024
        then [WarnSegmentTooLarge (chunk_declared_size ch)] else []).
Proof.
  unfold apply_chunk, base_file.
  destruct (map_get (chunk_file_name ch) files) as [file|];
    destruct (existsb _ _); destruct (chunk_declared_size ch >? 1024);
    cbn [snd app]; rewrite <- ?app_assoc, ?app_nil_r; reflexivity.
Qed.

Lemma seen_before (expected_sizes : list (string * Z)) (seen : list Chunk) (ch : Chunk) :
  Forall chunk_wf seen ->
  existsb (Z.eqb (chunk_number ch))
    (chunk_nos (base_file expected_sizes ch
                  (file_after expected_sizes (chunk_file_name ch) seen None)))
  = repeated seen ch.
Proof.
  intros Hwf.
  pose proof (file_after_state expected_sizes (chunk_file_name ch) seen Hwf) as Hst.
  apply eq_true_iff_eq. unfold repeated. rewrite !existsb_exists.
  unfold base_file.
  destruct (file_after expected_sizes (chunk_file_name ch) seen None) as [file|];
    cbn [file_state] in Hst.
  - destruct Hst as (_ & _ & _ & Hnos & _). split.
    + intros (k & Hk & E). apply Z.eqb_eq in E. subst k. apply Hnos in Hk.
      destruct Hk as (c & Hc & Hof & Hno). exists c. split; [exact Hc|].
      rewrite Hof, Hno, Z.eqb_refl. reflexivity.
    + intros (c & Hc & E). apply andb_true_iff in E. destruct E as [Hof Hno].
      apply Z.eqb_eq in Hno. exists (chunk_number ch). split; [|apply Z.eqb_refl].
      apply Hnos. exists c. auto.
  - cbn [chunk_nos]. split.
    + intros (k & [] & _).
    + intros (c & Hc & E). apply andb_true_iff in E. destruct E as [Hof _].
      rewrite (Hst c Hc) in Hof. discriminate.
Qed.

Lemma fold_apply_chunk_warnings (expected_sizes : list (string * Z)) (chunks : list Chunk) :
  forall seen,
    Forall chunk_wf seen ->
    Forall chunk_wf chunks ->
    snd (fold_left (apply_chunk expected_sizes) chunks
           (fold_left (apply_chunk expected_sizes) seen ([], [])))
    = snd (fold_left (apply_chunk expected_sizes) seen ([], []))
      ++ stream_warnings seen chunks.
Proof.
  induction chunks as [|ch chunks IH]; intros seen Hseen Hwf.
  - cbn [fold_left stream_warnings]. now rewrite app_nil_r.
  - inversion Hwf as [|? ? Hch Hrest]; subst.
    cbn [fold_left stream_warnings]. rewrite <- fold_apply_chunk_snoc.
    rewrite IH by (try apply Forall_app; auto).
    rewrite fold_apply_chunk_snoc.
    destruct (fold_left (apply_chunk expected_sizes) seen ([], [])) as [files warnings] eqn:E.
    rewrite apply_chunk_warnings. cbn [snd].
    assert (Hget : map_get (chunk_file_name ch) files
                   = file_after expected_sizes (chunk_file_name ch) seen None).
    { pose proof (fold_apply_chunk_get expected_sizes (chunk_file_name ch) seen ([], []))
        as Hg. rewrite E in Hg. exact Hg. }
    rewrite Hget, seen_before by exact Hseen.
    unfold chunk_warnings. now rewrite <- !app_assoc.
Qed.

Lemma finish_warnings_returned (headers : list QstHeader) (raw : QstContainedFile) :
  finish_warnings raw = returned_file_warnings (with_header headers (finished_file raw)).
Proof.
  pose proof (with_header_fields headers (finished_file raw)) as (Hn & He & Hd & Hc).
  unfold finish_warnings, returned_file_warnings, expected_chunks.
  rewrite Hn, He, Hd, Hc. cbn [finished_file name expected_size data chunk_nos].
  unfold size. cbn [buffer]. f_equal.
  destruct (expected_size raw) as [expected|]; [|reflexivity].
  destruct (Z.of_nat (length (buffer (data raw))) =? expected); reflexivity.
Qed.

Lemma parse_qst_warnings_eq (buf : list byte) result cursor warnings :
  parse_qst (cursor_of_bytes buf) = Ok (Some result, cursor, warnings) ->
  warnings = stream_warnings [] (container_chunks buf)
             ++ flat_map returned_file_warnings (files result).
Proof.
  intros Hok.
  destruct (parse_qst_some_blue_burst buf result cursor warnings Hok) as (Hv & count & Hlen).
  rewrite (parse_qst_blue_burst buf count Hv Hlen) in Hok.
  injection Hok as <- _ <-. cbn [files]. f_equal.
  - unfold reconstructed.
    apply (fold_apply_chunk_warnings _ (container_chunks buf) []); [constructor|].
    exact (container_chunks_wf buf count Hlen).
  - induction (map snd (fst (reconstructed buf))) as [|raw raws IH]; [reflexivity|].
    cbn [map flat_map]. rewrite IH. f_equal. apply finish_warnings_returned.
Qed.

(** X10. The warnings of [parse_qst] are told by the chunks and the
    returned files alone. First, in the order of the chunks: a warning
    that a chunk is overwritten for every chunk whose file name and number
    an earlier chunk carried, and a warning about the segment size for
    every chunk declaring more than 1024 bytes. Then, file by file: a
    warning when the size differs from an expected size, and one for every
    chunk number below the expected count that the file lacks. *)
Theorem parse_qst_warnings (buf : list byte) result cursor warnings :
  parse_qst (cursor_of_bytes buf) = Ok (Some result, cursor, warnings) ->
  warnings = stream_warnings [] (container_chunks buf)
             ++ flat_map returned_file_warnings (files result).
Proof.
  intros Hok.
  destruct (parse_qst_some_blue_burst buf result cursor warnings Hok) as (Hv & count & Hlen).
  rewrite (parse_qst_blue_burst buf count Hv Hlen) in Hok.
  injection Hok as <- _ <-. cbn [files]. f_equal.
  - unfold reconstructed.
    apply (fold_apply_chunk_warnings _ (container_chunks buf) []); [constructor|].
    exact (container_chunks_wf buf count Hlen).
  - induction (map snd (fst (reconstructed buf))) as [|raw raws IH]; [reflexivity|].
    cbn [map flat_map]. rewrite IH. f_equal. apply finish_warnings_returned.
Qed.

Lemma parse_qst_warnings_witness :
  [WarnFileSize "q.dat" 1024 2048; WarnMissingChunk "q.dat" 1]
  = stream_warnings [] (container_chunks truncated_container)
    ++ flat_map returned_file_warnings
         (files (mkParseQstResult BLUE_BURST [returned_q_dat; returned_q_bin])).
Proof.
  exact (parse_qst_warnings truncated_container _ _ _ truncated_container_parsed).
Defined.

(** * The headers read back *)

Lemma header_of_encode (pre rest : list byte) (file : SimpleQstContainedFile) :
  header_of (pre ++ encode_header file ++ rest) (Z.of_nat (length pre))
  = header_read_back file.
Proof.
  unfold header_of, header_read_back, encode_header.
  fold (written_quest_no file). fold (written_name_2 file).
  set (h1 := le_encode 2 88). set (h2 := le_encode 2 68).
  set (q := le_encode 2 (written_quest_no file)). set (z := repeat x00 38).
  set (n1 := name_field 16 (simple_name file)).
  set (s := le_encode 4 (size (simple_data file))).
  set (n2 := name_field 24 (written_name_2 file)).
  assert (L1 : length h1 = 2%nat) by apply le_encode_length.
  assert (L2 : length h2 = 2%nat) by apply le_encode_length.
  assert (Lq : length q = 2%nat) by apply le_encode_length.
  assert (Lz : length z = 38%nat) by apply repeat_length.
  assert (Ln1 : length n1 = 16%nat) by apply name_field_length.
  assert (Ls : length s = 4%nat) by apply le_encode_length.
  assert (Ln2 : length n2 = 24%nat) by apply name_field_length.
  f_equal.
  - replace (pre ++ (h1 ++ h2 ++ q ++ z ++ n1 ++ s ++ n2) ++ rest)
      with (pre ++ (h1 ++ h2) ++ q ++ (z ++ n1 ++ s ++ n2 ++ rest))
      by (now rewrite <- !app_assoc).
    rewrite slice_mid by (rewrite ?length_app; lia).
    unfold q. rewrite le_decode_encode. reflexivity.
  - unfold parsed_name. fold n1. do 2 f_equal.
    replace (pre ++ (h1 ++ h2 ++ q ++ z ++ n1 ++ s ++ n2) ++ rest)
      with (pre ++ (h1 ++ h2 ++ q ++ z) ++ n1 ++ (s ++ n2 ++ rest))
      by (now rewrite <- !app_assoc).
    apply slice_mid; rewrite ?length_app; lia.
  - do 2 f_equal.
    replace (pre ++ (h1 ++ h2 ++ q ++ z ++ n1 ++ s ++ n2) ++ rest)
      with (pre ++ (h1 ++ h2 ++ q ++ z ++ n1 ++ s) ++ n2 ++ rest)
      by (now rewrite <- !app_assoc).
    apply slice_mid; rewrite ?length_app; lia.
  - replace (pre ++ (h1 ++ h2 ++ q ++ z ++ n1 ++ s ++ n2) ++ rest)
      with (pre ++ (h1 ++ h2 ++ q ++ z ++ n1) ++ s ++ (n2 ++ rest))
      by (now rewrite <- !app_assoc).
    rewrite slice_mid by (rewrite ?length_app; lia).
    unfold s. rewrite le_decode_encode. reflexivity.
Qed.

Lemma container_headers_encode (f1 f2 : SimpleQstContainedFile) :
  container_headers (encode_container [f1; f2]) = [header_read_back f1; header_read_back f2].
Proof.
  unfold container_headers, encode_container. cbn [flat_map]. rewrite app_nil_r.
  f_equal; [|f_equal].
  - rewrite <- app_assoc. exact (header_of_encode [] _ f1).
  - rewrite <- !app_assoc.
    replace 88 with (Z.of_nat (length (encode_header f1)))
      by (now rewrite encode_header_length).
    apply header_of_encode.
Qed.

(** * Sorted lists *)

Lemma sorted_same (l1 l2 : list Z) :
  StronglySorted Z.lt l1 -> StronglySorted Z.lt l2 ->
  (forall x, In x l1 <-> In x l2) -> l1 = l2.
Proof.
  intros H1. revert l2. induction H1 as [|a l1 Hs1 IH Ha]; intros l2 H2 Hin.
  - destruct l2 as [|b l2]; [reflexivity|]. exfalso. apply (Hin b). now left.
  - destruct H2 as [|b l2 Hs2 Hb].
    { exfalso. apply (Hin a). now left. }
    rewrite Forall_forall in Ha, Hb.
    assert (a = b).
    { destruct (proj1 (Hin a) (or_introl eq_refl)) as [E|Hi]; [now symmetry|].
      destruct (proj2 (Hin b) (or_introl eq_refl)) as [E|Hj]; [exact E|].
      specialize (Ha b Hj). specialize (Hb a Hi). lia. }
    subst b. f_equal. apply IH; [exact Hs2|].
    intros x. split; intros Hx.
    + destruct (proj1 (Hin x) (or_intror Hx)) as [E|Hi]; [|exact Hi].
      specialize (Ha x Hx). lia.
    + destruct (proj2 (Hin x) (or_intror Hx)) as [E|Hi]; [|exact Hi].
      specialize (Hb x Hx). lia.
Qed.

Lemma chunk_numbers_sorted (n : Z) : StronglySorted Z.lt (chunk_numbers n).
Proof.
  unfold chunk_numbers. generalize (Z.to_nat n) as m. intros m.
  generalize 0%nat as a. induction m as [|m IH]; intros a; cbn [seq map]; constructor.
  - apply IH.
  - apply Forall_forall. intros x Hx. apply in_map_iff in Hx.
    destruct Hx as (i & <- & Hi). apply in_seq in Hi. lia.
Qed.

Lemma map_seq_split {A : Type} (g : nat -> A) (l1 l2 : list A) (c : A) :
  forall a n,
    l1 ++ c :: l2 = map g (seq a n) ->
    l1 = map g (seq a (length l1)) /\ c = g (a + length l1)%nat /\ (length l1 < n)%nat.
Proof.
  induction l1 as [|x l1 IH]; intros a n H.
  - destruct n as [|n]; [discriminate|]. cbn [seq map app] in H. injection H as -> _.
    cbn [length seq map]. rewrite Nat.add_0_r. repeat split. lia.
  - destruct n as [|n]; [discriminate|]. cbn [seq map app] in H. injection H as -> H.
    destruct (IH _ _ H) as (E1 & E2 & E3). cbn [length seq map].
    split; [now rewrite <- E1|]. split; [|lia].
    rewrite E2. f_equal. lia.
Qed.

(** * A chunk stream without warnings *)

Lemma stream_warnings_quiet (chunks : list Chunk) :
  forall seen,
    (forall l1 ch l2, seen ++ chunks = l1 ++ ch :: l2 -> (length seen <= length l1)%nat ->
                      repeated l1 ch = false /\ chunk_declared_size ch <= 1024) ->
    stream_warnings seen chunks = [].
Proof.
  induction chunks as [|ch chunks IH]; intros seen H; [reflexivity|].
  cbn [stream_warnings]. rewrite IH.
  - destruct (H seen ch chunks eq_refl (Nat.le_refl _)) as [Hr Hd].
    unfold chunk_warnings. rewrite Hr.
    destruct (Z.gtb_spec (chunk_declared_size ch) 1024); [lia|reflexivity].
  - intros l1 c l2 E Hl. apply (H l1 c l2).
    + rewrite <- E, <- app_assoc. reflexivity.
    + rewrite length_app in Hl. lia.
Qed.

(** * One file among the files written *)

Section Member.
Variables (files : list SimpleQstContainedFile) (file : SimpleQstContainedFile)
          (bytes : list byte).
Hypothesis Hdata : simple_data file = cursor_of_bytes bytes.
Hypothesis Hname : name_storable (simple_name file).
Hypothesis Hsize : 1 <= Z.of_nat (length bytes) <= 262144.
Hypothesis Hown : filter (owns (simple_name file)) files = [file].
Hypothesis Hrounds : (chunks_needed file <= rounds_needed files)%nat.

Let chunks := map entry_as_chunk (emitted_entries files).
Let own_chunk (r : nat) : Chunk := entry_as_chunk (entry_at r file).

Lemma member_filter :
  filter (chunk_of (simple_name file)) chunks = map own_chunk (seq 0 (chunks_needed file)).
Proof.
  unfold chunks, emitted_entries.
  rewrite emitted_filter, Hown, single_file_rounds by exact Hrounds. now rewrite map_map.
Qed.

Lemma member_needed : Z.of_nat (chunks_needed file) = chunk_count (Z.of_nat (length bytes)).
Proof. exact (one_file_needed file bytes Hdata Hsize). Qed.

Lemma member_numbers (chunk_no : Z) :
  (exists ch, In ch chunks /\ chunk_of (simple_name file) ch = true
              /\ chunk_number ch = chunk_no)
  <-> 0 <= chunk_no < chunk_count (Z.of_nat (length bytes)).
Proof.
  rewrite <- member_needed. split.
  - intros (ch & Hin & Hof & Hno).
    assert (Hf : In ch (filter (chunk_of (simple_name file)) chunks))
      by (apply filter_In; auto).
    rewrite member_filter in Hf. apply in_map_iff in Hf. destruct Hf as (r & <- & Hr).
    apply in_seq in Hr.
    destruct (chunk_fields file bytes Hdata Hname Hsize r ltac:(lia)) as (Hnum & _).
    unfold own_chunk in Hno. rewrite Hnum in Hno. lia.
  - intros Hr. exists (own_chunk (Z.to_nat chunk_no)).
    assert (Hf : In (own_chunk (Z.to_nat chunk_no))
                   (filter (chunk_of (simple_name file)) chunks)).
    { rewrite member_filter. apply in_map. apply in_seq. lia. }
    apply filter_In in Hf. destruct Hf as [Hin Hof]. split; [exact Hin|].
    split; [exact Hof|].
    destruct (chunk_fields file bytes Hdata Hname Hsize (Z.to_nat chunk_no) ltac:(lia))
      as (Hnum & _).
    unfold own_chunk. rewrite Hnum. lia.
Qed.

Lemma member_not_repeated (l1 l2 : list Chunk) (ch : Chunk) :
  chunks = l1 ++ ch :: l2 -> chunk_file_name ch = simple_name file ->
  repeated l1 ch = false.
Proof.
  intros Hsplit Hch.
  assert (Hof : chunk_of (simple_name file) ch = true).
  { unfold chunk_of. now apply String.eqb_eq. }
  pose proof member_filter as Hf. rewrite Hsplit, filter_app in Hf.
  cbn [filter] in Hf. rewrite Hof in Hf.
  apply map_seq_split in Hf. destruct Hf as (E1 & E2 & E3). cbn [Nat.add] in E2.
  set (k := length (filter (chunk_of (simple_name file)) l1)) in *.
  destruct (repeated l1 ch) eqn:R; [exfalso|reflexivity].
  unfold repeated in R. apply existsb_exists in R. destruct R as (e & He & Hb).
  apply andb_true_iff in Hb. destruct Hb as [Hoe Hne]. apply Z.eqb_eq in Hne.
  rewrite Hch in Hoe.
  assert (Hin : In e (filter (chunk_of (simple_name file)) l1)) by (apply filter_In; auto).
  rewrite E1 in Hin. apply in_map_iff in Hin. destruct Hin as (j & <- & Hj).
  apply in_seq in Hj.
  destruct (chunk_fields file bytes Hdata Hname Hsize j ltac:(lia)) as (Hnj & _).
  destruct (chunk_fields file bytes Hdata Hname Hsize k ltac:(lia)) as (Hnk & _).
  rewrite E2 in Hne. unfold own_chunk in Hne. rewrite Hnj, Hnk in Hne. lia.
Qed.

Lemma member_raw (expected_sizes : list (string * Z)) (raw : QstContainedFile) :
  file_reconstructed expected_sizes (simple_name file) chunks raw ->
  NoDup (chunk_nos raw) ->
  sort_numeric (chunk_nos raw) = chunk_numbers (chunk_count (Z.of_nat (length bytes)))
  /\ size (data raw) = Z.of_nat (length bytes).
Proof.
  intros Hrec Hnd. pose proof Hrec as (_ & _ & Hsz & Hnos & _). split.
  - apply sorted_same.
    + now apply sort_numeric_sorted.
    + apply chunk_numbers_sorted.
    + intros x. rewrite sort_numeric_In, Hnos, member_numbers, chunk_numbers_In. reflexivity.
  - destruct (reconstructed_data files file bytes (rounds_needed files) expected_sizes raw
                Hdata Hname Hsize Hown Hrounds Hrec) as [_ Hb].
    unfold size. now rewrite Hb.
Qed.
End Member.

(** * Two files written and read back *)

Lemma none_missing (file_name : string) (present scanned : list Z) :
  (forall k, In k scanned -> In k present) ->
  flat_map (fun chunk_no =>
              if existsb (Z.eqb chunk_no) present then []
              else [WarnMissingChunk file_name chunk_no]) scanned = [].
Proof.
  induction scanned as [|k scanned IH]; intros H; [reflexivity|].
  cbn [flat_map]. rewrite IH by (intros x Hx; apply H; now right).
  assert (E : existsb (Z.eqb k) present = true).
  { apply existsb_exists. exists k. split; [apply H; now left|apply Z.eqb_refl]. }
  now rewrite E.
Qed.

Lemma returned_file_quiet (file : QstContainedFile) (len : Z) :
  expected_size file = Some len -> size (data file) = len ->
  chunk_nos file = chunk_numbers (chunk_count len) ->
  returned_file_warnings file = [].
Proof.
  intros He Hs Hc. unfold returned_file_warnings, expected_chunks.
  rewrite He, Hs, Z.eqb_refl, Z.max_id, Hc. cbn [app].
  apply none_missing. auto.
Qed.

Lemma two_files_container (f1 f2 : SimpleQstContainedFile) (b1 b2 : list byte) :
  simple_data f1 = cursor_of_bytes b1 -> simple_data f2 = cursor_of_bytes b2 ->
  1 <= Z.of_nat (length b1) <= 262144 -> 1 <= Z.of_nat (length b2) <= 262144 ->
  write_qst [f1; f2] = Ok (cursor_of_bytes (encode_container [f1; f2]))
  /\ version_of (encode_container [f1; f2]) = BLUE_BURST
  /\ Z.of_nat (length (encode_container [f1; f2]))
     = 176 + 1056 * Z.of_nat (total_chunks [f1; f2])
  /\ container_chunks (encode_container [f1; f2])
     = map entry_as_chunk (emitted_entries [f1; f2]).
Proof.
  intros Hd1 Hd2 Hs1 Hs2.
  pose proof (one_file_valid f1 b1 Hd1 Hs1) as Hv1.
  pose proof (one_file_valid f2 b2 Hd2 Hs2) as Hv2.
  assert (Hvalid : Forall data_valid [f1; f2])
    by (repeat (constructor; [assumption|]); constructor).
  assert (Hrewound : Forall data_rewound [f1; f2]).
  { unfold data_rewound. constructor; [now rewrite Hd1|]. constructor; [now rewrite Hd2|].
    constructor. }
  assert (Hlen : Z.of_nat (length (encode_container [f1; f2]))
                 = 176 + 1056 * Z.of_nat (total_chunks [f1; f2])).
  { rewrite encode_container_length by exact Hvalid. cbn [length]. lia. }
  assert (Hbudget : Z.of_nat (length (encode_container [f1; f2])) = budgeted_size [f1; f2]).
  { rewrite encode_container_length, rewound_surplus by assumption.
    unfold data_empty. cbn [filter]. rewrite Hd1, Hd2. unfold cursor_of_bytes, size.
    cbn [buffer].
    destruct (Z.eqb_spec (Z.of_nat (length b1)) 0); [lia|].
    destruct (Z.eqb_spec (Z.of_nat (length b2)) 0); [lia|]. cbn [length]. lia. }
  split.
  { rewrite write_qst_bytes by (assumption || discriminate).
    rewrite Hbudget, Z.eqb_refl. reflexivity. }
  split.
  { unfold encode_container. cbn [flat_map]. rewrite <- !app_assoc.
    apply version_of_header. }
  split; [exact Hlen|].
  rewrite (container_chunks_count _ _ Hlen). rewrite <- emitted_count.
  unfold encode_container.
  rewrite <- (app_nil_r (flat_map entry_chunk (emitted_entries [f1; f2]))).
  replace 176 with (Z.of_nat (length (flat_map encode_header [f1; f2]))).
  - apply entry_chunks_from. now apply emitted_valid.
  - cbn [flat_map]. rewrite !length_app, !encode_header_length. reflexivity.
Qed.

Section TwoFiles.
Variables (f1 f2 : SimpleQstContainedFile) (b1 b2 : list byte).
Hypothesis Hd1 : simple_data f1 = cursor_of_bytes b1.
Hypothesis Hd2 : simple_data f2 = cursor_of_bytes b2.
Hypothesis Hn1 : name_storable (simple_name f1).
Hypothesis Hn2 : name_storable (simple_name f2).
Hypothesis Hne : simple_name f1 <> simple_name f2.
Hypothesis Hs1 : 1 <= Z.of_nat (length b1) <= 262144.
Hypothesis Hs2 : 1 <= Z.of_nat (length b2) <= 262144.

Lemma two_files_rounds :
  (chunks_needed f1 <= rounds_needed [f1; f2])%nat
  /\ (chunks_needed f2 <= rounds_needed [f1; f2])%nat.
Proof. unfold rounds_needed. cbn [map list_max fold_right]. lia. Qed.

Lemma two_files_stream_quiet :
  stream_warnings [] (map entry_as_chunk (emitted_entries [f1; f2])) = [].
Proof.
  destruct (two_file_owner f1 f2 Hn1 Hn2 Hne) as [Ho1 Ho2].
  destruct two_files_rounds as [Hr1 Hr2].
  apply stream_warnings_quiet. cbn [app]. intros l1 ch l2 Hsplit _.
  assert (Hin : In ch (map entry_as_chunk (emitted_entries [f1; f2]))).
  { rewrite Hsplit. apply in_or_app. right. now left. }
  split.
  - destruct (emitted_names [f1; f2] _ ch Hin) as (file & Hf & Hname).
    destruct Hf as [<-|[<-|[]]]; rewrite parsed_name_storable in Hname by assumption.
    + exact (member_not_repeated [f1; f2] f1 b1 Hd1 Hn1 Hs1 Ho1 Hr1 l1 l2 ch Hsplit Hname).
    + exact (member_not_repeated [f1; f2] f2 b2 Hd2 Hn2 Hs2 Ho2 Hr2 l1 l2 ch Hsplit Hname).
  - apply in_map_iff in Hin. destruct Hin as (entry & <- & Hentry).
    assert (Hvalid : Forall data_valid [f1; f2]).
    { constructor; [exact (one_file_valid f1 b1 Hd1 Hs1)|].
      constructor; [exact (one_file_valid f2 b2 Hd2 Hs2)|constructor]. }
    pose proof (emitted_valid [f1; f2] Hvalid) as Hev. rewrite Forall_forall in Hev.
    pose proof (next_segment_length _ (Hev entry Hentry)) as Hlen.
    cbn [entry_as_chunk chunk_declared_size]. lia.
Qed.

Lemma expected_sizes_read_back :
  expected_sizes_of (container_headers (encode_container [f1; f2]))
  = [(simple_name f1, Z.of_nat (length b1)); (simple_name f2, Z.of_nat (length b2))].
Proof.
  rewrite container_headers_encode. unfold expected_sizes_of, header_read_back.
  cbn [fold_left hdr_file_name hdr_size map_set].
  rewrite !parsed_name_storable by assumption.
  destruct (String.eqb_spec (simple_name f1) (simple_name f2)) as [E|_]; [contradiction|].
  rewrite Hd1, Hd2. unfold cursor_of_bytes, size. cbn [buffer].
  rewrite !Z.mod_small by lia. reflexivity.
Qed.

Lemma truthy_positive (n : Z) : 1 <= n -> truthy (Some n) = Some n.
Proof. intros H. destruct n; [lia|reflexivity|reflexivity]. Qed.

Lemma two_files_read_back :
  exists raw1 raw2,
    map snd (fst (reconstructed (encode_container [f1; f2]))) = [raw1; raw2]
    /\ name raw1 = simple_name f1 /\ name raw2 = simple_name f2
    /\ expected_size raw1 = Some (Z.of_nat (length b1))
    /\ expected_size raw2 = Some (Z.of_nat (length b2))
    /\ size (data raw1) = Z.of_nat (length b1)
    /\ size (data raw2) = Z.of_nat (length b2)
    /\ sort_numeric (chunk_nos raw1) = chunk_numbers (chunk_count (Z.of_nat (length b1)))
    /\ sort_numeric (chunk_nos raw2) = chunk_numbers (chunk_count (Z.of_nat (length b2))).
Proof.
  destruct (two_files_container f1 f2 b1 b2 Hd1 Hd2 Hs1 Hs2) as (_ & _ & Hlen & Hchunks).
  destruct (two_file_owner f1 f2 Hn1 Hn2 Hne) as [Ho1 Ho2].
  destruct two_files_rounds as [Hr1 Hr2].
  set (buf := encode_container [f1; f2]) in *.
  pose proof (two_file_keys (expected_sizes_of (container_headers buf)) f1 f2 Hn1 Hn2 Hne)
    as Hkeys.
  rewrite <- Hchunks in Hkeys. fold (reconstructed buf) in Hkeys.
  pose proof (fold_apply_chunk_get (expected_sizes_of (container_headers buf))
                (simple_name f1) (container_chunks buf) ([], [])) as Hg1.
  pose proof (fold_apply_chunk_get (expected_sizes_of (container_headers buf))
                (simple_name f2) (container_chunks buf) ([], [])) as Hg2.
  fold (reconstructed buf) in Hg1, Hg2. cbn [fst map_get] in Hg1, Hg2.
  pose proof (file_after_state (expected_sizes_of (container_headers buf)) (simple_name f1)
                (container_chunks buf) (container_chunks_wf buf _ Hlen)) as Hst1.
  pose proof (file_after_state (expected_sizes_of (container_headers buf)) (simple_name f2)
                (container_chunks buf) (container_chunks_wf buf _ Hlen)) as Hst2.
  rewrite <- Hg1 in Hst1. rewrite <- Hg2 in Hst2.
  destruct (fst (reconstructed buf)) as [|[k1 raw1] [|[k2 raw2] [|]]]; try discriminate.
  cbn [map fst] in Hkeys. injection Hkeys as -> ->.
  cbn [map_get] in Hst1, Hst2, Hg1, Hg2. rewrite String.eqb_refl in Hst1, Hst2, Hg1, Hg2.
  destruct (String.eqb_spec (simple_name f1) (simple_name f2)) as [E|_]; [contradiction|].
  cbn [file_state] in Hst1, Hst2.
  pose proof (file_after_chunk_nos _ _ _ _ (eq_sym Hg1)) as Hnd1.
  pose proof (file_after_chunk_nos _ _ _ _ (eq_sym Hg2)) as Hnd2.
  pose proof Hst1 as (N1 & E1 & _). pose proof Hst2 as (N2 & E2 & _).
  rewrite Hchunks in Hst1, Hst2.
  destruct (member_raw [f1; f2] f1 b1 Hd1 Hn1 Hs1 Ho1 Hr1 _ raw1 Hst1 Hnd1) as [C1 S1].
  destruct (member_raw [f1; f2] f2 b2 Hd2 Hn2 Hs2 Ho2 Hr2 _ raw2 Hst2 Hnd2) as [C2 S2].
  exists raw1, raw2. cbn [map snd].
  unfold buf in E1, E2. rewrite expected_sizes_read_back in E1, E2.
  cbn [map_get] in E1, E2. rewrite String.eqb_refl in E1, E2.
  destruct (String.eqb_spec (simple_name f1) (simple_name f2)) as [E|_]; [contradiction|].
  rewrite truthy_positive in E1, E2 by lia.
  repeat (split; [assumption || reflexivity|]). assumption.
Qed.
End TwoFiles.

(** X11. Two byte buffers of 1 to 262144 bytes, written by [write_qst]
    under two different storable names and with quest numbers that fit 16
    bits, are read back by [parse_qst] without any warning. Each returned
    file carries the quest number written for it (0 when the file had
    none), the length of its buffer as expected size, and the chunk numbers
    0, 1, ... up to its chunk count, in this order. *)
Theorem qst_round_trip_quiet (f1 f2 : SimpleQstContainedFile) (b1 b2 : list byte) :
  simple_data f1 = cursor_of_bytes b1 -> simple_data f2 = cursor_of_bytes b2 ->
  name_storable (simple_name f1) -> name_storable (simple_name f2) ->
  simple_name f1 <> simple_name f2 ->
  1 <= Z.of_nat (length b1) <= 262144 -> 1 <= Z.of_nat (length b2) <= 262144 ->
  is_u16 (written_quest_no f1) -> is_u16 (written_quest_no f2) ->
  exists written result cursor,
    write_qst [f1; f2] = Ok written
    /\ parse_qst written = Ok (Some result, cursor, [])
    /\ map (fun file => (name file, quest_no file, expected_size file, chunk_nos file))
         (files result)
       = [(simple_name f1, Some (written_quest_no f1), Some (Z.of_nat (length b1)),
           chunk_numbers (chunk_count (Z.of_nat (length b1))));
          (simple_name f2, Some (written_quest_no f2), Some (Z.of_nat (length b2)),
           chunk_numbers (chunk_count (Z.of_nat (length b2))))].
Proof.
  intros Hd1 Hd2 Hn1 Hn2 Hne Hs1 Hs2 Hq1 Hq2.
  destruct (two_files_container f1 f2 b1 b2 Hd1 Hd2 Hs1 Hs2)
    as (Hw & Hversion & Hlen & Hchunks).
  destruct (two_files_read_back f1 f2 b1 b2 Hd1 Hd2 Hn1 Hn2 Hne Hs1 Hs2)
    as (raw1 & raw2 & Hraws & N1 & N2 & E1 & E2 & S1 & S2 & C1 & C2).
  pose proof (parse_qst_blue_burst _ _ Hversion Hlen) as Hok.
  pose proof (parse_qst_warnings_eq _ _ _ _ Hok) as Hwarn.
  rewrite Hchunks, (two_files_stream_quiet f1 f2 b1 b2 Hd1 Hd2 Hn1 Hn2 Hne Hs1 Hs2) in Hwarn.
  cbn [app files] in Hwarn. rewrite Hraws in Hok, Hwarn.
  set (headers := container_headers (encode_container [f1; f2])) in *.
  pose proof (with_header_fields headers (finished_file raw1)) as (WN1 & WE1 & WD1 & WC1).
  pose proof (with_header_fields headers (finished_file raw2)) as (WN2 & WE2 & WD2 & WC2).
  cbn [finished_file name expected_size data chunk_nos] in WN1, WE1, WD1, WC1,
    WN2, WE2, WD2, WC2.
  assert (Q1 : quest_no (with_header headers (finished_file raw1))
               = Some (written_quest_no f1)).
  { unfold headers. rewrite container_headers_encode. unfold with_header, header_read_back.
    cbn [find hdr_file_name finished_file name]. rewrite N1.
    rewrite parsed_name_storable by exact Hn1. rewrite String.eqb_refl.
    cbn [quest_no hdr_quest_no]. unfold is_u16 in Hq1. now rewrite Z.mod_small by lia. }
  assert (Q2 : quest_no (with_header headers (finished_file raw2))
               = Some (written_quest_no f2)).
  { unfold headers. rewrite container_headers_encode. unfold with_header, header_read_back.
    cbn [find hdr_file_name finished_file name]. rewrite N2.
    rewrite !parsed_name_storable by assumption.
    destruct (String.eqb_spec (simple_name f1) (simple_name f2)) as [E|_]; [contradiction|].
    rewrite String.eqb_refl.
    cbn [quest_no hdr_quest_no]. unfold is_u16 in Hq2. now rewrite Z.mod_small by lia. }
  assert (Hquiet : flat_map returned_file_warnings
                     (map (with_header headers) (map finished_file [raw1; raw2])) = []).
  { cbn [map flat_map].
    rewrite (returned_file_quiet _ (Z.of_nat (length b1))),
      (returned_file_quiet _ (Z.of_nat (length b2))); [reflexivity| | | | | |].
    - now rewrite WE2.
    - rewrite WD2. exact S2.
    - now rewrite WC2.
    - now rewrite WE1.
    - rewrite WD1. exact S1.
    - now rewrite WC1. }
  rewrite Hquiet in Hwarn. rewrite Hwarn in Hok.
  do 3 eexists. split; [exact Hw|]. split; [exact Hok|].
  cbn [files map]. rewrite WN1, WN2, WE1, WE2, WC1, WC2, Q1, Q2, N1, N2, E1, E2, C1, C2.
  reflexivity.
Qed.

Lemma qst_round_trip_quiet_witness :
  exists written result cursor,
    write_qst [two_chunk_file; small_file] = Ok written
    /\ parse_qst written = Ok (Some result, cursor, [])
    /\ map (fun file => (name file, quest_no file, expected_size file, chunk_nos file))
         (files result)
       = [("q.dat"%string, Some 7, Some 2048, [0; 1]); ("q.bin"%string, Some 7, Some 3, [0])].
Proof.
  apply (qst_round_trip_quiet two_chunk_file small_file (repeat x01 2048) [x02; x03; x04]).
  - reflexivity.
  - reflexivity.
  - split; [cbn; lia|]. cbn. intros H. repeat destruct H as [H|H]; discriminate || exact H.
  - split; [cbn; lia|]. cbn. intros H. repeat destruct H as [H|H]; discriminate || exact H.
  - discriminate.
  - rewrite repeat_length. lia.
  - cbn. lia.
  - vm_compute. split; discriminate || reflexivity.
  - vm_compute. split; discriminate || reflexivity.
Defined.

(** * The errors of the model parser *)

Lemma u8_array_fails (n : Z) (c : ArrayBufferCursor) (e : error) :
  u8_array n c = Err e -> e = OutOfBounds.
Proof. unfold u8_array. destruct (_ || _); [now intros [= <-]|discriminate]. Qed.

Lemma read_uint_fails (n : Z) (c : ArrayBufferCursor) (e : error) :
  read_uint n c = Err e -> e = OutOfBounds.
Proof.
  unfold read_uint. destruct (u8_array n c) as [[bs c1]|e1] eqn:E; cbn [bind]; [discriminate|].
  intros [= <-]. now apply u8_array_fails in E.
Qed.

Lemma i16_fails (c : ArrayBufferCursor) (e : error) : i16 c = Err e -> e = OutOfBounds.
Proof.
  unfold i16. destruct (read_uint 2 c) as [[v c1]|e1] eqn:E; cbn [bind]; [discriminate|].
  intros [= <-]. now apply read_uint_fails in E.
Qed.

Lemma i32_fails (c : ArrayBufferCursor) (e : error) : i32 c = Err e -> e = OutOfBounds.
Proof.
  unfold i32. destruct (read_uint 4 c) as [[v c1]|e1] eqn:E; cbn [bind]; [discriminate|].
  intros [= <-]. now apply read_uint_fails in E.
Qed.

Lemma seek_start_fails (offset : Z) (c : ArrayBufferCursor) (e : error) :
  seek_start offset c = Err e -> e = OutOfBounds.
Proof. unfold seek_start. destruct (_ || _); [now intros [= <-]|discriminate]. Qed.

Lemma seek_fails (offset : Z) (c : ArrayBufferCursor) (e : error) :
  seek offset c = Err e -> e = OutOfBounds.
Proof. apply seek_start_fails. Qed.

Lemma optional_seek_fails (b : bool) (offset : Z) (c : ArrayBufferCursor) (e : error) :
  (if b then seek offset c else Ok c) = Err e -> e = OutOfBounds.
Proof. destruct b; [apply seek_fails|discriminate]. Qed.

(** Takes the first step of a computation that failed apart. *)
Ltac failed H :=
  match type of H with
  | bind ?e _ = Err _ =>
      let E := fresh "E" in
      destruct e eqn:E; cbn [bind] in H
  | (let '(_, _) := ?p in _) = Err _ => destruct p
  | (if ?b then _ else _) = Err _ => let B := fresh "B" in destruct b eqn:B
  | match ?o with Some _ => _ | None => _ end = Err _ => destruct o
  | Ok _ = Err _ => discriminate H
  end.

Ltac fails_step :=
  match goal with
  | E : read_uint _ _ = Err _ |- _ => apply read_uint_fails in E
  | E : u8 _ = Err _ |- _ => apply read_uint_fails in E
  | E : u16 _ = Err _ |- _ => apply read_uint_fails in E
  | E : u32 _ = Err _ |- _ => apply read_uint_fails in E
  | E : f32 _ = Err _ |- _ => apply read_uint_fails in E
  | E : i16 _ = Err _ |- _ => apply i16_fails in E
  | E : i32 _ = Err _ |- _ => apply i32_fails in E
  | E : (if _ then seek _ _ else Ok _) = Err _ |- _ => apply optional_seek_fails in E
  | E : seek _ _ = Err _ |- _ => apply seek_fails in E
  | E : seek_start _ _ = Err _ |- _ => apply seek_start_fails in E
  end.

Ltac failed_all :=
  repeat match goal with
         | H : _ = Err _ |- _ => progress (failed H)
         | H : Err _ = Err _ |- _ => injection H as H; subst
         end.

Section Fails.
Context {three : ThreeJS}.





Lemma parse_strip_indices_fails (count : nat) (options : bool * bool * bool * bool)
    (user_flags_size : Z) :
  forall j c e,
    parse_strip_indices count j options user_flags_size c = Err e -> e = OutOfBounds.
Proof.
  induction count as [|count IH]; intros j c e H; cbn [parse_strip_indices] in H;
    [discriminate|].
  destruct options as [[[o1 o2] o3] o4].
  failed_all;
    repeat match goal with
           | E : parse_strip_indices _ _ _ _ _ = Err _ |- _ => apply IH in E
           end;
    repeat fails_step; congruence.
Qed.

Lemma parse_strips_fails (count : nat) (options : bool * bool * bool * bool)
    (user_flags_size : Z) :
  forall c e, parse_strips count options user_flags_size c = Err e -> e = OutOfBounds.
Proof.
  induction count as [|count IH]; intros c e H; cbn [parse_strips] in H; [discriminate|].
  failed_all;
    repeat match goal with
           | E : parse_strips _ _ _ _ = Err _ |- _ => apply IH in E
           | E : parse_strip_indices _ _ _ _ _ = Err _ |- _ =>
               apply parse_strip_indices_fails in E
           end;
    repeat fails_step; congruence.
Qed.



End Fails.

Section FailsTraversal.
Context {three : ThreeJS}.



End FailsTraversal.



(** * The shape of the geometry *)

Lemma grown_refl {number : Type} (out : list number * list (option number)) :
  grown_by_triangles out out.
Proof.
  exists [], [], 0%nat. rewrite !app_nil_r. destruct out. repeat split.
Qed.

Lemma grown_trans {number : Type} (a b c : list number * list (option number)) :
  grown_by_triangles a b -> grown_by_triangles b c -> grown_by_triangles a c.
Proof.
  intros (p1 & n1 & t1 & -> & Hp1 & Hn1) (p2 & n2 & t2 & -> & Hp2 & Hn2).
  exists (p1 ++ p2), (n1 ++ n2), (t1 + t2)%nat. cbn [fst snd].
  rewrite <- !app_assoc, !length_app. repeat split; lia.
Qed.

Lemma grown_triangle {number : Type} (out : list number * list (option number))
    (added_positions : list number) (added_normals : list (option number)) :
  length added_positions = 9%nat -> length added_normals = 9%nat ->
  grown_by_triangles out (fst out ++ added_positions, snd out ++ added_normals).
Proof. intros Hp Hn. exists added_positions, added_normals, 1%nat. repeat split; lia. Qed.

Section Shape.
Context {three : ThreeJS}.

Lemma fan_strip_grows (count : nat) (vertices : list (option NjVertex))
    (clockwise_winding : bool) (strip_indices : list Z) :
  forall j out,
    grown_by_triangles out (fan_strip count j vertices clockwise_winding strip_indices out).
Proof.
  induction count as [|count IH]; intros j out; cbn [fan_strip]; [apply grown_refl|].
  eapply grown_trans; [|apply IH].
  destruct (match nth_error strip_indices (Z.to_nat (j - 2)) with
            | Some index => js_get vertices index | None => None end) as [a|];
    [|apply grown_refl].
  destruct (match nth_error strip_indices (Z.to_nat (j - 1)) with
            | Some index => js_get vertices index | None => None end) as [b|];
    [|apply grown_refl].
  destruct (match nth_error strip_indices (Z.to_nat j) with
            | Some index => js_get vertices index | None => None end) as [c|];
    [|apply grown_refl].
  destruct (j mod 2 =? _); apply grown_triangle; reflexivity.
Qed.

Lemma fan_strips_grows (vertices : list (option NjVertex)) (strips : list ChunkTriangleStrip) :
  forall out, grown_by_triangles out (fan_strips vertices out strips).
Proof.
  unfold fan_strips. induction strips as [|strip strips IH]; intros out; cbn [fold_left];
    [apply grown_refl|].
  eapply grown_trans; [apply fan_strip_grows|apply IH].
Qed.

Lemma fan_chunk_grows (vertices : list (option NjVertex)) (chunk : NjChunk)
    (out : list number * list (option number)) :
  grown_by_triangles out (fan_chunk vertices out chunk).
Proof.
  unfold fan_chunk. destruct (String.eqb _ _); [|apply grown_refl].
  destruct (chunk_data chunk); try apply grown_refl. apply fan_strips_grows.
Qed.

Lemma fan_chunks_grow (vertices : list (option NjVertex)) (chunks : list NjChunk) :
  forall out, grown_by_triangles out (fold_left (fan_chunk vertices) chunks out).
Proof.
  induction chunks as [|chunk chunks IH]; intros out; cbn [fold_left]; [apply grown_refl|].
  eapply grown_trans; [apply fan_chunk_grows|apply IH].
Qed.

Lemma parse_model_grows (chunk_fuel : nat) (c c' : ArrayBufferCursor) (matrix : Matrix4)
    (st st' : NjState) :
  parse_model chunk_fuel c matrix st = Ok (c', st') ->
  grown_by_triangles (state_output st) (state_output st').
Proof.
  unfold parse_model, state_output. intros H.
  returned_all; cbn [positions normals vertices];
    try apply grown_refl; rewrite <- surjective_pairing; apply fan_chunks_grow.
Qed.

Lemma parse_sibling_objects_grows (fuel chunk_fuel : nat) :
  forall c parent st c' st',
    parse_sibling_objects fuel chunk_fuel c parent st = Ok (c', st') ->
    grown_by_triangles (state_output st) (state_output st').
Proof.
  induction fuel as [|fuel IH]; intros c parent st c' st' H;
    cbn [parse_sibling_objects] in H; [discriminate|].
  returned_all;
    repeat match goal with
           | E : parse_sibling_objects fuel _ _ _ _ = Ok _ |- _ => apply IH in E
           | E : parse_model _ _ _ _ = Ok _ |- _ => apply parse_model_grows in E
           end;
    repeat match goal with
           | H1 : grown_by_triangles ?a ?b, H2 : grown_by_triangles ?b ?c |- _ =>
               pose proof (grown_trans a b c H1 H2); clear H1 H2
           end;
    try assumption; apply grown_refl.
Qed.
End Shape.

(** X13. The geometry that [parse_njcm] returns is made of whole
    triangles: the position array and the normal array have the same
    length, nine entries for every triangle, whatever the bytes of the
    model were. Models and strips only append to the two arrays; a triangle
    with an unpopulated slot adds to neither. *)
Theorem parse_njcm_whole_triangles {three : ThreeJS} (fuel chunk_fuel : nat)
    (cursor : ArrayBufferCursor) (positions : list number)
    (normals : list (option number)) (warnings : list warning) :
  parse_njcm fuel chunk_fuel cursor = Ok (Some (positions, normals), warnings) ->
  exists triangles : nat,
    length positions = (9 * triangles)%nat /\ length normals = (9 * triangles)%nat.
Proof.
  unfold parse_njcm. intros H. destruct (negb _); [|discriminate].
  returned_all.
  match goal with
  | E : parse_sibling_objects _ _ _ _ _ = Ok _ |- _ =>
      apply parse_sibling_objects_grows in E;
      destruct E as (ps & ns & triangles & E & Hp & Hn)
  end.
  unfold state_output in E. cbn [positions normals fst snd app] in E.
  injection E as -> ->. eauto.
Qed.

Lemma parse_njcm_whole_triangles_witness :
  exists triangles : nat,
    length (triangle_under (first_sibling_world F32_ONE)) = (9 * triangles)%nat
    /\ length (repeat (@None SymNumber) 9) = (9 * triangles)%nat.
Proof.
  apply (@parse_njcm_whole_triangles free_three 3 4
           (cursor_of_bytes (sibling_scene F32_ONE))
           (triangle_under (first_sibling_world F32_ONE)) (repeat None 9) []).
  vm_compute. reflexivity.
Defined.

(** * Nodes that refer to themselves *)

Section Cycle.
Context {three : ThreeJS}.
Variable chunk_fuel : nat.
Variable buf : list byte.

Lemma call_never_returns (fuel : nat) (c : ArrayBufferCursor) (q : Z) (matrix : Matrix4)
    (st : NjState) :
  buffer c = buf ->
  (forall parent st,
      returned_state (parse_sibling_objects fuel chunk_fuel (mkCursor buf q) parent st)
      = None) ->
  returned_state (cursor <- seek_start q c ;;
                  parse_sibling_objects fuel chunk_fuel cursor matrix st) = None.
Proof.
  intros Hb H. rewrite seek_start_buffer, Hb. unfold seek_start, cursor_of_bytes.
  cbn [buffer]. destruct (_ || _); cbn [bind]; [reflexivity|apply H].
Qed.

Lemma model_step_keeps (p : Z) (node : SceneNode) (matrix : Matrix4) (st st' : NjState)
    (c' : ArrayBufferCursor) :
  (if negb (node_model_offset node =? 0) && negb (hidden node) then
     cursor <- seek_start (node_model_offset node) (mkCursor buf (p + 52)) ;;
     parse_model chunk_fuel cursor matrix st
   else Ok (mkCursor buf (p + 52), st)) = Ok (c', st') ->
  buffer c' = buf.
Proof.
  intros H. destruct (_ && _).
  - returned H. apply parse_model_keeps in H. apply seek_start_keeps in E.
    cbn [buffer] in E. congruence.
  - now injection H as <- _.
Qed.

Lemma child_step_keeps (fuel : nat) (node : SceneNode) (matrix : Matrix4)
    (c c' : ArrayBufferCursor) (st st' : NjState) :
  buffer c = buf ->
  (if negb (node_child_offset node =? 0) && negb (break_child_trace node) then
     cursor <- seek_start (node_child_offset node) c ;;
     parse_sibling_objects fuel chunk_fuel cursor matrix st
   else Ok (c, st)) = Ok (c', st') ->
  buffer c' = buf.
Proof.
  intros Hb H. destruct (_ && _).
  - returned H. apply parse_sibling_objects_keeps in H. apply seek_start_keeps in E.
    congruence.
  - now injection H as <- _.
Qed.

Lemma cyclic_node (p : Z) (node : SceneNode) :
  scene_node_at buf p = Some node ->
  p <> 0 ->
  node_sibling_offset node = p
  \/ (node_child_offset node = p /\ break_child_trace node = false) ->
  forall fuel parent st,
    returned_state (parse_sibling_objects fuel chunk_fuel (mkCursor buf p) parent st) = None.
Proof.
  intros Hnode Hp Hcycle. induction fuel as [|fuel IH]; intros parent st; [reflexivity|].
  rewrite (parse_sibling_objects_node fuel chunk_fuel buf p node parent st Hnode).
  unfold visit.
  destruct (if negb (node_model_offset node =? 0) && negb (hidden node) then _ else _)
    as [[c1 st1]|e1] eqn:Em; cbn [bind]; [|reflexivity].
  pose proof (model_step_keeps p node _ st st1 c1 Em) as Hb1.
  destruct Hcycle as [Hs|[Hc Hbreak]].
  - destruct (if negb (node_child_offset node =? 0) && negb (break_child_trace node)
              then _ else _) as [[c2 st2]|e2] eqn:Ec; cbn [bind]; [|reflexivity].
    pose proof (child_step_keeps fuel node _ c1 c2 st1 st2 Hb1 Ec) as Hb2.
    rewrite Hs. destruct (Z.eqb_spec p 0); [contradiction|]. cbn [negb].
    now apply call_never_returns.
  - rewrite Hc, Hbreak. destruct (Z.eqb_spec p 0); [contradiction|]. cbn [negb andb].
    pose proof (call_never_returns fuel c1 p (world_transform node parent) st1 Hb1 IH)
      as Hnone.
    destruct (cursor <- seek_start p c1 ;;
              parse_sibling_objects fuel chunk_fuel cursor (world_transform node parent) st1)
      as [[c2 st2]|e2]; [discriminate|reflexivity].
Qed.
End Cycle.

(** X14. The traversal follows child and sibling offsets without looking
    for cycles. When the sibling offset of a node is the offset of the node
    itself, or its child offset is and the node does not stop the descent,
    [parse_sibling_objects] called on the node returns for no depth of
    nesting, whatever the parent transform and the state: it stops with an
    error at every fuel. *)
Theorem parse_sibling_objects_cycle {three : ThreeJS} (chunk_fuel : nat) (buf : list byte)
    (p : Z) (node : SceneNode) :
  scene_node_at buf p = Some node ->
  p <> 0 ->
  node_sibling_offset node = p
  \/ (node_child_offset node = p /\ break_child_trace node = false) ->
  forall fuel parent st,
    exists e,
      parse_sibling_objects fuel chunk_fuel (mkCursor buf p) parent st = Err e.
Proof.
  intros Hnode Hp Hcycle fuel parent st.
  pose proof (cyclic_node chunk_fuel buf p node Hnode Hp Hcycle fuel parent st) as H.
  destruct (parse_sibling_objects fuel chunk_fuel (mkCursor buf p) parent st)
    as [[c' st']|e]; [discriminate|eauto].
Qed.

Lemma parse_sibling_objects_cycle_witness :
  exists e,
    parse_sibling_objects (three := free_three) 5 1 (mkCursor cyclic_scene 52)
      SymIdentity (mkNjState [] [] [] [] []) = Err e.
Proof.
  destruct (scene_node_at (three := free_three) cyclic_scene 52) as [node|] eqn:Hnode;
    [|vm_compute in Hnode; discriminate].
  apply (parse_sibling_objects_cycle (three := free_three) 1 cyclic_scene 52 node Hnode).
  - discriminate.
  - left. vm_compute in Hnode. injection Hnode as <-. reflexivity.
Defined.

(** * The container of a model file *)

Lemma string_to_bytes_length (s : string) :
  length (string_to_bytes s) = String.length s.
Proof.
  unfold string_to_bytes. rewrite length_map. induction s; cbn; auto.
Qed.

Lemma type_id_at (type_id : string) (pre rest : list byte) :
  String.length type_id = 4%nat ->
  string_ascii 4 false false (at_pos pre (string_to_bytes type_id ++ rest))
  = Ok (type_id, at_pos (pre ++ string_to_bytes type_id) rest).
Proof.
  intros Hlen. unfold string_ascii.
  rewrite u8_array_at by (rewrite string_to_bytes_length; lia). cbn [bind orb negb].
  rewrite string_of_to_bytes. unfold at_pos. cbn [buffer position].
  rewrite <- app_assoc, length_app, string_to_bytes_length, Hlen.
  do 2 f_equal. f_equal. lia.
Qed.

Lemma take_at (n : Z) (pre w rest : list byte) :
  Z.of_nat (length w) = n ->
  take n (at_pos pre (w ++ rest)) = Ok (cursor_of_bytes w, at_pos (pre ++ w) rest).
Proof. intros H. unfold take. now rewrite u8_array_at. Qed.

Section Container.
Context {three : ThreeJS}.
Variables fuel chunk_fuel : nat.

Lemma parse_nj_skips (skipped : list (string * list byte)) :
  Forall other_chunk skipped ->
  forall passes pre rest,
    parse_nj (length skipped + passes) fuel chunk_fuel
      (at_pos pre (flat_map iff_chunk skipped ++ rest))
    = parse_nj passes fuel chunk_fuel (at_pos (pre ++ flat_map iff_chunk skipped) rest).
Proof.
  induction 1 as [|[type_id body] skipped (Hlen & Hother & Hsize) Hrest IH];
    intros passes pre rest.
  - cbn [flat_map length Nat.add app]. now rewrite app_nil_r.
  - cbn [flat_map length Nat.add]. unfold iff_chunk at 1. cbn [fst snd] in *.
    cbn [parse_nj]. rewrite bytes_left_at.
    rewrite <- !app_assoc.
    destruct (Z.eqb_spec (Z.of_nat (length (string_to_bytes type_id
                                             ++ le_encode 4 (Z.of_nat (length body))
                                             ++ body ++ flat_map iff_chunk skipped ++ rest)))
                0) as [E|_].
    { rewrite length_app, string_to_bytes_length in E. lia. }
    cbn [negb]. rewrite type_id_at by exact Hlen. cbn [bind].
    rewrite u32_at. cbn [bind]. rewrite Z.mod_small by lia.
    destruct (String.eqb_spec type_id "NJCM") as [E|_]; [contradiction|].
    rewrite (seek_at _ _ body) by reflexivity. cbn [bind].
    rewrite IH. unfold iff_chunk. cbn [fst snd]. now rewrite <- !app_assoc.
Qed.

Lemma parse_nj_model (body rest pre : list byte) (passes : nat) :
  Z.of_nat (length body) < 4294967296 ->
  parse_nj (S passes) fuel chunk_fuel
    (at_pos pre (iff_chunk ("NJCM"%string, body) ++ rest))
  = parse_njcm fuel chunk_fuel (cursor_of_bytes body).
Proof.
  intros Hsize. unfold iff_chunk. cbn [fst snd]. cbn [parse_nj].
  rewrite bytes_left_at, <- !app_assoc.
  destruct (Z.eqb_spec (Z.of_nat (length (string_to_bytes "NJCM"
                                           ++ le_encode 4 (Z.of_nat (length body))
                                           ++ body ++ rest))) 0) as [E|_].
  { rewrite length_app, string_to_bytes_length in E. cbn [String.length] in E. lia. }
  cbn [negb]. rewrite type_id_at by reflexivity. cbn [bind].
  rewrite u32_at. cbn [bind]. rewrite Z.mod_small by lia.
  rewrite String.eqb_refl. rewrite take_at by reflexivity. reflexivity.
Qed.
End Container.

(** X15. [parse_nj] walks the chunks of the container and parses the
    first chunk of type NJCM, and that one only: after any chunks of other
    types, the result is that of [parse_njcm] on the body of the first
    NJCM chunk, whatever bytes follow it. A container that holds chunks of
    other types only gives null, without a warning. *)
Theorem parse_nj_first_njcm {three : ThreeJS} (fuel chunk_fuel passes : nat)
    (skipped : list (string * list byte)) (body rest : list byte) :
  Forall other_chunk skipped ->
  Z.of_nat (length body) < 4294967296 ->
  (length skipped < passes)%nat ->
  parse_nj passes fuel chunk_fuel
    (cursor_of_bytes (flat_map iff_chunk skipped ++ iff_chunk ("NJCM"%string, body) ++ rest))
  = parse_njcm fuel chunk_fuel (cursor_of_bytes body)
  /\ parse_nj passes fuel chunk_fuel (cursor_of_bytes (flat_map iff_chunk skipped))
     = Ok (None, []).
Proof.
  intros Hskipped Hsize Hpasses.
  replace passes with (length skipped + S (passes - length skipped - 1))%nat by lia.
  split.
  - rewrite cursor_of_bytes_at, parse_nj_skips by exact Hskipped. now apply parse_nj_model.
  - rewrite cursor_of_bytes_at, <- (app_nil_r (flat_map iff_chunk skipped)).
    rewrite parse_nj_skips by exact Hskipped.
    cbn [parse_nj]. now rewrite bytes_left_at.
Qed.

Lemma parse_nj_first_njcm_witness :
  parse_nj (three := free_three) 2 3 4
    (cursor_of_bytes (flat_map iff_chunk [("NJTL"%string, [x01; x02])]
                      ++ iff_chunk ("NJCM"%string, sibling_scene F32_ONE) ++ [xff]))
  = parse_njcm (three := free_three) 3 4 (cursor_of_bytes (sibling_scene F32_ONE))
  /\ parse_nj (three := free_three) 2 3 4
       (cursor_of_bytes (flat_map iff_chunk [("NJTL"%string, [x01; x02])]))
     = Ok (None, []).
Proof.
  apply (parse_nj_first_njcm (three := free_three) 3 4 2 [("NJTL"%string, [x01; x02])]
           (sibling_scene F32_ONE) [xff]).
  - repeat constructor. discriminate.
  - vm_compute. reflexivity.
  - cbn. lia.
Defined.

(** * The loop of [parse_nj] *)

Lemma u8_array_returns (n : Z) (c c' : ArrayBufferCursor) (bs : list byte) :
  u8_array n c = Ok (bs, c') ->
  0 <= n <= bytes_left c /\ c' = mkCursor (buffer c) (position c + n).
Proof.
  unfold u8_array. destruct (Z.ltb_spec n 0); [discriminate|].
  destruct (Z.ltb_spec (bytes_left c) n); [discriminate|]. cbn [orb].
  intros [= _ <-]. split; [lia|reflexivity].
Qed.

Lemma read_uint_returns (n : Z) (c c' : ArrayBufferCursor) (v : Z) :
  read_uint n c = Ok (v, c') ->
  0 <= v /\ 0 <= n <= bytes_left c /\ c' = mkCursor (buffer c) (position c + n).
Proof.
  unfold read_uint. destruct (u8_array n c) as [[bs c1]|e] eqn:E; cbn [bind]; [|discriminate].
  intros [= <- <-]. apply u8_array_returns in E. split; [apply le_decode_range|exact E].
Qed.

Lemma seek_returns (n : Z) (c c' : ArrayBufferCursor) :
  seek n c = Ok c' ->
  0 <= position c + n <= size c /\ c' = mkCursor (buffer c) (position c + n).
Proof.
  unfold seek, seek_start. destruct (Z.ltb_spec (position c + n) 0); [discriminate|].
  destruct (Z.ltb_spec (size c) (position c + n)); [discriminate|]. cbn [orb].
  intros [= <-]. split; [lia|reflexivity].
Qed.

Section Loop.
Context {three : ThreeJS}.
Variables fuel chunk_fuel : nat.




End Loop.


(** * The vertices of a vertex chunk *)

(** Takes the first step of a computation that returned apart, keeping the
    condition of a branch. *)
Ltac returned_with H :=
  match type of H with
  | bind ?e _ = Ok _ =>
      let E := fresh "E" in
      destruct e eqn:E; cbn [bind] in H; [|discriminate H]
  | (let '(_, _) := ?p in _) = Ok _ => destruct p
  | (if ?b then _ else _) = Ok _ => let B := fresh "B" in destruct b eqn:B
  | Err _ = Ok _ => discriminate H
  end.

Ltac returns_step :=
  match goal with
  | E : read_uint _ _ = Ok _ |- _ => apply read_uint_returns in E; destruct E as (? & ? & ->)
  | E : u16 _ = Ok _ |- _ => apply read_uint_returns in E; destruct E as (? & ? & ->)
  | E : u32 _ = Ok _ |- _ => apply read_uint_returns in E; destruct E as (? & ? & ->)
  | E : f32 _ = Ok _ |- _ => apply read_uint_returns in E; destruct E as (? & ? & ->)
  | E : seek _ _ = Ok _ |- _ => apply seek_returns in E; destruct E as (? & ->)
  end.

Section Vertices.
Context {three : ThreeJS}.

Lemma f32_triple_returns (c c' : ArrayBufferCursor) (v : Vector3) :
  f32_triple c = Ok (v, c') -> c' = mkCursor (buffer c) (position c + 12).
Proof.
  unfold f32_triple. intros H. repeat returned_with H. injection H as _ <-.
  repeat returns_step. cbn [buffer position]. f_equal. lia.
Qed.

Lemma u16_range (c c' : ArrayBufferCursor) (v : Z) :
  u16 c = Ok (v, c') -> 0 <= v < 65536.
Proof.
  unfold u16, read_uint. destruct (u8_array 2 c) as [[bs c1]|e] eqn:E; cbn [bind];
    [|discriminate].
  intros [= <- _]. unfold u8_array in E. destruct (_ || _); [discriminate|].
  injection E as <- _.
  pose proof (le_decode_range (slice (position c) 2 (buffer c))) as Hr.
  assert (length (slice (position c) 2 (buffer c)) <= 2)%nat
    by (unfold slice; rewrite length_firstn; lia).
  assert (256 ^ Z.of_nat (length (slice (position c) 2 (buffer c))) <= 256 ^ 2)
    by (apply Z.pow_le_mono_r; lia).
  lia.
Qed.

Lemma parse_vertex_returns (chunk_type_id index i : Z) (c c' : ArrayBufferCursor)
    (vertex : ChunkVertex) :
  parse_vertex chunk_type_id index i c = Ok (vertex, c') ->
  c' = mkCursor (buffer c) (position c + vertex_stride chunk_type_id)
  /\ (if has_ninja_flags chunk_type_id
      then index <= cv_index vertex < index + 65536
      else cv_index vertex = index + i).
Proof.
  unfold parse_vertex, vertex_stride, has_ninja_flags. intros H.
  repeat (returned_with H; cbv zeta in H); injection H as <- <-;
    repeat match goal with
           | E : u16 _ = Ok _ |- _ =>
               pose proof (u16_range _ _ _ E);
               apply read_uint_returns in E; destruct E as (? & ? & ->)
           end;
    repeat match goal with
           | E : f32_triple _ = Ok _ |- _ => apply f32_triple_returns in E; subst
           end;
    repeat returns_step; cbn [buffer position cv_index];
    (split; [f_equal; lia|]);
    destruct (Z.eqb_spec chunk_type_id 37); destruct (Z.eqb_spec chunk_type_id 44);
    cbn [orb]; try reflexivity; lia.
Qed.

Lemma parse_vertices_returns (count : nat) (chunk_type_id index : Z) :
  forall i c parsed c',
    parse_vertices count chunk_type_id index i c = Ok (parsed, c') ->
    length parsed = count
    /\ c' = mkCursor (buffer c) (position c + Z.of_nat count * vertex_stride chunk_type_id)
    /\ (if has_ninja_flags chunk_type_id
        then Forall (fun vertex => index <= cv_index vertex < index + 65536) parsed
        else map cv_index parsed = map (fun k => index + i + Z.of_nat k) (seq 0 count)).
Proof.
  induction count as [|count IH]; intros i c parsed c' H; cbn [parse_vertices] in H.
  - injection H as <- <-. split; [reflexivity|]. split.
    + destruct c as [b p]. cbn [buffer position]. f_equal. lia.
    + destruct (has_ninja_flags chunk_type_id); [constructor|reflexivity].
  - repeat returned_with H. injection H as <- <-.
    match goal with
    | E : parse_vertex _ _ _ _ = Ok _ |- _ =>
        apply parse_vertex_returns in E; destruct E as [-> Hfirst]
    end.
    match goal with
    | E : parse_vertices _ _ _ _ _ = Ok _ |- _ =>
        apply IH in E; destruct E as (Hlen & -> & Hrest)
    end.
    cbn [buffer position length]. split; [now rewrite Hlen|]. split; [f_equal; lia|].
    destruct (has_ninja_flags chunk_type_id).
    + now constructor.
    + cbn [map seq]. rewrite Hfirst, Hrest, <- seq_shift, map_map. f_equal; [lia|].
      apply map_ext. intros k. lia.
Qed.

Lemma read_uint_value (n : Z) (c c' : ArrayBufferCursor) (v : Z) :
  read_uint n c = Ok (v, c') -> v = le_decode (slice (position c) n (buffer c)).
Proof.
  unfold read_uint, u8_array. destruct (_ || _); cbn [bind]; [discriminate|].
  now intros [= <- _].
Qed.
End Vertices.

(** X17. When [parse_chunk_vertex] returns for flags that select vertex
    set 0, it returns as many vertices as the chunk counts and has read,
    after the 4 bytes of index and count, the same number of bytes for
    each, fixed by the chunk type. Every vertex index lies between the
    index of the chunk and 65535 above it, so it is never negative; in the
    chunk types without ninja flags the indices are consecutive from the
    index of the chunk. For other flags no vertex is returned and nothing
    is read. *)
Theorem parse_chunk_vertex_layout {three : ThreeJS} (cursor cursor' : ArrayBufferCursor)
    (chunk_type_id flags : Z) (parsed : list ChunkVertex) :
  parse_chunk_vertex cursor chunk_type_id flags = Ok (parsed, cursor') ->
  if Z.land flags 3 =? 0 then
    let index := le_decode (slice (position cursor) 2 (buffer cursor)) in
    let vertex_count := le_decode (slice (position cursor + 2) 2 (buffer cursor)) in
    Z.of_nat (length parsed) = vertex_count
    /\ cursor' = mkCursor (buffer cursor)
                   (position cursor + 4 + vertex_count * vertex_stride chunk_type_id)
    /\ 0 <= index < 65536
    /\ Forall (fun vertex => index <= cv_index vertex < index + 65536) parsed
    /\ (has_ninja_flags chunk_type_id = false ->
        map cv_index parsed = map (fun k => index + Z.of_nat k) (seq 0 (length parsed)))
  else parsed = [] /\ cursor' = cursor.
Proof.
  unfold parse_chunk_vertex. intros H.
  destruct (Z.land flags 3 =? 0); cbn [negb] in H; [|now injection H as <- <-].
  repeat returned_with H.
  match goal with
  | E1 : u16 cursor = Ok _, E2 : u16 _ = Ok _ |- _ =>
      pose proof (u16_range _ _ _ E1) as Hindex;
      pose proof (u16_range _ _ _ E2) as Hcount;
      pose proof (read_uint_value _ _ _ _ E1) as V1;
      apply read_uint_returns in E1; destruct E1 as (_ & _ & ->);
      pose proof (read_uint_value _ _ _ _ E2) as V2;
      apply read_uint_returns in E2; destruct E2 as (_ & _ & ->)
  end.
  cbn [buffer position] in *. cbv zeta. rewrite <- V1, <- V2.
  apply parse_vertices_returns in H. destruct H as (Hlen & -> & Hrest).
  cbn [buffer position]. rewrite Hlen.
  rewrite Z2Nat.id by lia.
  split; [reflexivity|]. split; [f_equal; lia|]. split; [exact Hindex|].
  destruct (has_ninja_flags chunk_type_id).
  - split; [exact Hrest|discriminate].
  - split.
    + apply Forall_forall. intros vertex Hin.
      apply (in_map cv_index) in Hin. rewrite Hrest in Hin.
      apply in_map_iff in Hin. destruct Hin as (k & <- & Hk). apply in_seq in Hk. lia.
    + intros _. rewrite Hrest. apply map_ext. intros k. lia.
Qed.

Lemma sample_vertex_chunk_parsed :
  parse_chunk_vertex (three := free_three) (cursor_of_bytes sample_vertex_chunk) 32 0
  = Ok (sample_chunk_vertices, mkCursor sample_vertex_chunk 52).
Proof. vm_compute. reflexivity. Qed.

Lemma parse_chunk_vertex_layout_witness :
  Z.of_nat (length sample_chunk_vertices) = 3
  /\ Forall (fun vertex => 0 <= cv_index (three := free_three) vertex < 65536)
       sample_chunk_vertices
  /\ map (cv_index (three := free_three)) sample_chunk_vertices = [0; 1; 2].
Proof.
  pose proof (parse_chunk_vertex_layout (three := free_three) _ _ _ _ _
                sample_vertex_chunk_parsed) as H.
  change (Z.land 0 3 =? 0) with true in H. cbv zeta in H.
  change (le_decode (slice (position (cursor_of_bytes sample_vertex_chunk)) 2
                       (buffer (cursor_of_bytes sample_vertex_chunk)))) with 0 in H.
  change (le_decode (slice (position (cursor_of_bytes sample_vertex_chunk) + 2) 2
                       (buffer (cursor_of_bytes sample_vertex_chunk)))) with 3 in H.
  destruct H as (Hcount & _ & _ & Hrange & Hconsecutive).
  split; [exact Hcount|]. split; [exact Hrange|]. exact (Hconsecutive eq_refl).
Defined.

(** * The URLs of the area assets *)

Lemma append_assoc (a b c : string) : ((a ++ b) ++ c = a ++ b ++ c)%string.
Proof. induction a as [|ch a IH]; cbn; [reflexivity|now rewrite IH]. Qed.

Lemma append_cancel (a b c : string) : (a ++ b = a ++ c)%string -> b = c.
Proof. induction a as [|ch a IH]; cbn; [auto|]. intros [= H]. auto. Qed.

Lemma area_version_to_base_url_relative (base_url : string) (area_id area_variant : Z) :
  area_version_to_base_url base_url area_id area_variant
  = match area_version_to_base_url "" area_id area_variant with
    | inr relative => inr (base_url ++ relative)%string
    | inl e => inl e
    end.
Proof.
  unfold area_version_to_base_url.
  destruct (_ && _); [|reflexivity].
  destruct (nth_error base_names (Z.to_nat area_id)) as [[base_name variants]|];
    [|reflexivity].
  destruct (_ && _); reflexivity.
Qed.

Lemma get_area_asset_relative (base_url : string) (area_id area_variant : Z)
    (type : AreaAssetType) :
  get_area_asset base_url area_id area_variant type
  = match get_area_asset "" area_id area_variant type with
    | inr relative => inr (base_url ++ relative)%string
    | inl e => inl e
    end.
Proof.
  unfold get_area_asset. rewrite area_version_to_base_url_relative.
  destruct (area_version_to_base_url "" area_id area_variant); [reflexivity|].
  now rewrite append_assoc.
Qed.

Lemma area_known (area_id area_variant : Z) (type : AreaAssetType) (url : string) :
  get_area_asset "" area_id area_variant type = inr url ->
  In (area_id, area_variant) area_variants.
Proof.
  unfold get_area_asset, area_version_to_base_url. intros H.
  destruct (Z.leb_spec 0 area_id); [|discriminate].
  destruct (Z.ltb_spec area_id (Z.of_nat (length base_names))); [|discriminate].
  cbn [andb] in H.
  destruct (nth_error base_names (Z.to_nat area_id)) as [[base_name variants]|] eqn:E;
    [|discriminate].
  destruct (Z.leb_spec 0 area_variant); [|discriminate].
  destruct (Z.ltb_spec area_variant variants); [|discriminate].
  unfold area_variants. apply in_flat_map. exists (Z.to_nat area_id). split.
  - apply in_seq. lia.
  - rewrite E. apply in_map_iff. exists (Z.to_nat area_variant). split.
    + f_equal; lia.
    + apply in_seq. lia.
Qed.

Lemma assets_checked : urls_distinct = true.
Proof. vm_compute. reflexivity. Qed.

(** X18. Two area assets never share a URL: for a fixed base URL, when
    [get_area_asset] requests the same URL for two areas, variants and
    asset types, the areas, the variants and the types are the same. The
    cache of [get_asset], keyed by URL, therefore never hands the data of
    one asset out for another. *)
Theorem area_asset_urls_distinct (base_url : string) (area_id area_variant : Z)
    (type : AreaAssetType) (area_id' area_variant' : Z) (type' : AreaAssetType)
    (url : string) :
  get_area_asset base_url area_id area_variant type = inr url ->
  get_area_asset base_url area_id' area_variant' type' = inr url ->
  area_id = area_id' /\ area_variant = area_variant' /\ type = type'.
Proof.
  rewrite (get_area_asset_relative base_url area_id),
    (get_area_asset_relative base_url area_id').
  destruct (get_area_asset "" area_id area_variant type) as [e|relative] eqn:E;
    [discriminate|].
  destruct (get_area_asset "" area_id' area_variant' type') as [e'|relative'] eqn:E';
    [discriminate|].
  intros [= <-] [= H]. apply append_cancel in H. subst relative'.
  pose proof (area_known _ _ _ _ E) as Hin. pose proof (area_known _ _ _ _ E') as Hin'.
  pose proof assets_checked as Hall. unfold urls_distinct in Hall.
  rewrite forallb_forall in Hall.
  assert (Ha : In (area_id, area_variant, type) area_assets).
  { unfold area_assets. apply in_flat_map. exists (area_id, area_variant).
    split; [exact Hin|]. cbn [fst snd]. destruct type; cbn; auto. }
  assert (Ha' : In (area_id', area_variant', type') area_assets).
  { unfold area_assets. apply in_flat_map. exists (area_id', area_variant').
    split; [exact Hin'|]. cbn [fst snd]. destruct type'; cbn; auto. }
  specialize (Hall _ Ha). rewrite forallb_forall in Hall. specialize (Hall _ Ha').
  unfold relative_url in Hall. rewrite E, E', String.eqb_refl in Hall.
  cbn [implb same_asset] in Hall.
  apply andb_true_iff in Hall. destruct Hall as [Hall Ht].
  apply andb_true_iff in Hall. destruct Hall as [Hi Hv].
  apply Z.eqb_eq in Hi. apply Z.eqb_eq in Hv.
  split; [exact Hi|]. split; [exact Hv|].
  destruct type, type'; (reflexivity || discriminate).
Qed.

Lemma area_asset_urls_distinct_witness :
  3 = 3 /\ 2 = 2 /\ Collision = Collision.
Proof.
  apply (area_asset_urls_distinct "" 3 2 Collision 3 2 Collision "/maps/map_cave01_02c.rel");
    reflexivity.
Defined.

(** * The layout of what the writers write *)





(** * The strips of a strip chunk *)

Lemma i16_range (c c' : ArrayBufferCursor) (v : Z) :
  i16 c = Ok (v, c') -> -32768 <= v < 32768.
Proof.
  unfold i16. destruct (read_uint 2 c) as [[w c1]|e] eqn:E; cbn [bind]; [|discriminate].
  intros [= <- _]. pose proof (u16_range c c1 w E) as Hw. unfold to_signed.
  change (2 ^ (16 - 1)) with 32768. change (2 ^ 16) with 65536.
  destruct (Z.ltb_spec w 32768); lia.
Qed.

Section Strips.
Context {three : ThreeJS}.

Lemma parse_strip_indices_returns (count : nat) (options : bool * bool * bool * bool)
    (user_flags_size : Z) :
  forall j c parsed c',
    parse_strip_indices count j options user_flags_size c = Ok (parsed, c') ->
    length parsed = count /\ Forall (fun index => 0 <= index < 65536) parsed.
Proof.
  induction count as [|count IH]; intros j c parsed c' H; cbn [parse_strip_indices] in H.
  - injection H as <- _. split; [reflexivity|constructor].
  - destruct options as [[[o1 o2] o3] o4].
    repeat returned_with H. injection H as <- _.
    match goal with
    | E : parse_strip_indices _ _ _ _ _ = Ok _ |- _ => apply IH in E; destruct E as [Hlen Hall]
    end.
    match goal with
    | E : u16 _ = Ok _ |- _ => apply u16_range in E
    end.
    cbn [length]. split; [now rewrite Hlen|]. now constructor.
Qed.

Lemma parse_strips_returns (count : nat) (options : bool * bool * bool * bool)
    (user_flags_size : Z) :
  forall c parsed c',
    parse_strips count options user_flags_size c = Ok (parsed, c') ->
    length parsed = count
    /\ Forall (fun strip =>
                 Forall (fun index => 0 <= index < 65536) (indices strip)
                 /\ Z.of_nat (length (indices strip)) <= 32768
                 /\ (clockwise_winding strip = false -> indices strip <> []))
         parsed.
Proof.
  induction count as [|count IH]; intros c parsed c' H; cbn [parse_strips] in H.
  - injection H as <- _. split; [reflexivity|constructor].
  - repeat returned_with H. cbv zeta in H. repeat returned_with H. injection H as <- _.
    match goal with
    | E : parse_strips _ _ _ _ = Ok _ |- _ => apply IH in E; destruct E as [Hlen Hall]
    end.
    match goal with
    | E : parse_strip_indices _ _ _ _ _ = Ok _ |- _ =>
        apply parse_strip_indices_returns in E; destruct E as [Hcount Hrange]
    end.
    match goal with
    | E : i16 _ = Ok _ |- _ => apply i16_range in E
    end.
    cbn [length]. split; [now rewrite Hlen|]. constructor; [|exact Hall].
    cbn [indices clockwise_winding]. split; [exact Hrange|]. split; [lia|].
    intros Hwinding Hnil. rewrite Hnil in Hcount. cbn [length] in Hcount.
    destruct (Z.ltb_spec z 1); [discriminate|]. lia.
Qed.
End Strips.

(** X21. When [parse_chunk_triangle_strip] returns, the chunk type is one
    of 64 to 75 and the strips returned are as many as the low 14 bits of
    the chunk's first 16-bit word say. Every index of a strip is an
    unsigned 16-bit number, so it is never negative; a strip holds at most
    32768 indices, and a strip that is not wound clockwise holds at least
    one. For any other chunk type the error about an unexpected chunk type
    is raised as soon as the first word is read. *)
Theorem parse_chunk_triangle_strip_layout {three : ThreeJS} (cursor : ArrayBufferCursor)
    (chunk_type_id : Z) :
  match parse_chunk_triangle_strip cursor chunk_type_id with
  | Ok (strips, cursor') =>
      64 <= chunk_type_id <= 75
      /\ Z.of_nat (length strips)
         = Z.land (le_decode (slice (position cursor) 2 (buffer cursor))) 0x3FFF
      /\ Forall (fun strip =>
                   Forall (fun index => 0 <= index < 65536) (indices strip)
                   /\ Z.of_nat (length (indices strip)) <= 32768
                   /\ (clockwise_winding strip = false -> indices strip <> []))
           strips
  | Err e =>
      e = OutOfBounds
      \/ (e = UnexpectedChunkTypeId chunk_type_id /\ ~ 64 <= chunk_type_id <= 75)
  end.
Proof.
  unfold parse_chunk_triangle_strip.
  destruct (u16 cursor) as [[word c1]|e] eqn:E; cbn [bind].
  2:{ left. now apply read_uint_fails in E. }
  pose proof (read_uint_value _ _ _ _ E) as Hword.
  pose proof (u16_range _ _ _ E) as Hrange.
  destruct (strip_options chunk_type_id) as [options|e] eqn:Ho; cbn [bind].
  - assert (Hid : 64 <= chunk_type_id <= 75).
    { unfold strip_options in Ho.
      repeat match type of Ho with
             | (if ?a =? ?b then _ else _) = _ =>
                 destruct (Z.eqb_spec a b); [lia|]
             end.
      discriminate. }
    destruct (parse_strips _ options _ c1) as [[strips c']|e] eqn:Es.
    + apply parse_strips_returns in Es. destruct Es as [Hlen Hall].
      split; [exact Hid|]. split; [|exact Hall].
      rewrite Hlen, <- Hword. apply Z2Nat.id. apply Z.land_nonneg. lia.
    + left. now apply parse_strips_fails in Es.
  - right. unfold strip_options in Ho.
    repeat match type of Ho with
           | (if ?a =? ?b then _ else _) = _ =>
               destruct (Z.eqb_spec a b); [discriminate|]
           end.
    injection Ho as <-. split; [reflexivity|lia].
Qed.
